(** * Symbol identity and descriptor resolution of the TypeScript indexer

    A shallow embedding of the three indexers of the repository:
    - [Graph]    : src/indexer.ts, the LSIF graph indexer with its symbol and
                   document caches;
    - [V2]       : src/v2/indexer.ts, the same indexer with the resolver type
                   passed explicitly;
    - [Typed]    : src/Visitor.ts and the typed [Indexer.index] driver that
                   creates one [Visitor] per source file.

    The TypeScript compiler (syntax nodes, type checker) and the helper
    modules that are imported but live outside these files are the oracle of
    the development: a record of functions, never inspected. *)

From Stdlib Require Import ZArith Lia Bool Ascii.
From stdpp Require Import base option list gmap strings pretty.

Open Scope string_scope.
Open Scope list_scope.

(** ** Syntax nodes and symbols of the oracle *)

(** [ts.Node] and [ts.Symbol] are objects compared by identity: a handle. *)
Abbreviation Node := nat (only parsing).
Abbreviation Symbol := nat (only parsing).
Abbreviation loc := nat (only parsing).

Inductive SyntaxKind :=
| SourceFile | Identifier | StringLiteral
| ExportAssignment | ExportDeclaration | NamedExports
| ClassDeclaration | InterfaceDeclaration | TypeParameter
| MethodDeclaration | FunctionDeclaration
| EnumDeclaration | VariableDeclaration | PropertyDeclaration
| MethodSignature | PropertySignature | ModuleDeclaration
| PropertyAssignment | ShorthandPropertyAssignment
| Block | ModuleBlock | ImportDeclaration | ImportClause | NamedImports
| VariableStatement | VariableDeclarationList | ImportSpecifier
| OtherKind.

#[global] Instance SyntaxKind_eq_dec : EqDecision SyntaxKind.
Proof. solve_decision. Defined.

Definition isKind (k k' : SyntaxKind) : bool := bool_decide (k = k').

(** [ts.SymbolFlags], the bits the indexers test. *)
Definition SymbolFlags_Alias : Z := Z.shiftl 1 21.
Definition SymbolFlags_ExportStar : Z := Z.shiftl 1 23.
Definition SymbolFlags_Transient : Z := Z.shiftl 1 25.

(** ** Results of effectful code: a value, a thrown [Error], or a recursion
    that did not come back within the fuel given. *)

Inductive Result (A : Type) :=
| Ok (a : A)
| Throw (msg : string)
| OutOfFuel.
Arguments Ok {A} a.
Arguments Throw {A} msg.
Arguments OutOfFuel {A}.

(** State passing with exceptions: the methods of the indexers mutate the
    fields of [this] and may throw. *)
Section StateM.
Context {S : Type}.

Definition StateM (A : Type) : Type := S → Result (A * S).

Definition ret {A} (a : A) : StateM A := fun s => Ok (a, s).
Definition bind {A B} (m : StateM A) (k : A → StateM B) : StateM B :=
  fun s => match m s with
           | Ok (a, s') => k a s'
           | Throw e => Throw e
           | OutOfFuel => OutOfFuel
           end.
Definition throw {A} (msg : string) : StateM A := fun _ => Throw msg.
Definition stuck {A} : StateM A := fun _ => OutOfFuel.
Definition gets {A} (f : S → A) : StateM A := fun s => Ok (f s, s).
Definition modify (f : S → S) : StateM unit := fun s => Ok (tt, f s).
End StateM.
Arguments StateM S A : clear implicits.

Notation "'let*' x ':=' m 'in' k" := (bind m (fun x => k))
  (at level 10, x pattern, m at level 100, k at level 200).
Notation "m ';;' k" := (bind m (fun _ => k))
  (at level 100, k at level 200, right associativity).

Fixpoint mapM {S A B} (f : A → StateM S B) (l : list A) : StateM S (list B) :=
  match l with
  | [] => ret []
  | a :: l' => let* b := f a in let* bs := mapM f l' in ret (b :: bs)
  end.

Fixpoint forM {S A} (f : A → StateM S unit) (l : list A) : StateM S unit :=
  match l with
  | [] => ret tt
  | a :: l' => f a;; forM f l'
  end.


(** ** The LSIF graph: what both graph indexers share *)

Module Lsif.

(** *** The emitted graph (lsif-protocol, as far as the indexer builds it) *)

Record Position := { line : nat; character : nat }.
Record Range := { rstart : Position; rend : Position }.

#[global] Instance Position_eq_dec : EqDecision Position.
Proof. solve_decision. Defined.
#[global] Instance Range_eq_dec : EqDecision Range.
Proof. solve_decision. Defined.

Definition phantomPosition : Position := {| line := 0; character := 0 |}.
Definition phantomRange : Range :=
  {| rstart := phantomPosition; rend := phantomPosition |}.

Inductive SymbolKind :=
| KClass | KInterface | KTypeParameter | KMethod | KFunction | KProperty.

Inductive RangeTag :=
| DefinitionTag (text : string) (kind : SymbolKind) (fullRange : Range)
| ReferenceTag (text : string).

Record RangeVertex := { rid : nat; range : Range; tag : RangeTag }.
Record DocumentVertex := { did : nat; uri : string }.

Inductive MonikerKind := MImport | MExport.
Record Moniker := { mkind : MonikerKind; identifier : string }.

Inductive MarkedString :=
| MarkedCode (language value : string)
| MarkedText (value : string).
Record Hover := { contents : list MarkedString }.

Inductive Element :=
| EDocument (d : DocumentVertex)
| ERange (r : RangeVertex)
| EMonikerAttach (symbolData : loc) (m : Moniker).

(** *** The oracle: compiler, type checker and the imported helpers *)

Record QuickInfo := {
  displayParts : option (list string);
  documentation : option (list string) }.

Record Oracle := {
  (* syntax nodes *)
  kind : Node → SyntaxKind;
  children : Node → list Node;              (* node.forEachChild *)
  getSourceFile : Node → Node;              (* node.getSourceFile() *)
  fileName : Node → string;                 (* sourceFile.fileName *)
  isDeclarationFile : Node → bool;
  nodeText : Node → string;                 (* node.getText() *)
  startPosition : Node → Node → Position;   (* file.getLineAndCharacterOfPosition(node.getStart(file, _)) *)
  endPosition : Node → Node → Position;     (* file.getLineAndCharacterOfPosition(node.getEnd()) *)
  declName : Node → Node;                   (* declaration.name *)
  expression : Node → Node;                 (* ExportAssignment.expression *)
  exportClause : Node → option Node;
  exportElements : Node → list Node;        (* NamedExports.elements *)
  propertyName : Node → option Node;
  moduleSpecifier : Node → option Node;
  (* type checker and language service *)
  checkerSymbolAtLocation : Node → option Symbol;
  getAliasedSymbol : Symbol → Symbol;
  getQuickInfoAtPosition : Node → Node → Result (option QuickInfo);
  (* ts.Symbol *)
  getFlags : Symbol → Z;
  getName : Symbol → string;
  getEscapedName : Symbol → string;
  symbolDeclarations : Symbol → option (list Node);   (* symbol.getDeclarations() *)
  (* ./typescripts *)
  getSymbolFromNode : Node → option Symbol;
  createSymbolKey : Symbol → string;
  isTransient : Symbol → bool;
  isComposite : Symbol → option Node → bool;
  getCompositeSymbols : Symbol → option Node → option (list Symbol);
  isTypeAlias : Symbol → bool;
  isAliasSymbol : Symbol → bool;
  isMethodSymbol : Symbol → bool;
  isValueModule : Symbol → bool;
  isSourceFileSymbol : Symbol → bool;       (* tss.isSourceFile(symbol) *)
  getSymbolParent : Symbol → option Symbol;
  isNamedDeclaration : Node → bool;
  getUniqueSourceFiles : option (list Node) → list Node;
  tssComputeMonikerPath : string → string → string;
  toOutLocation : string → string → string → string;
  createMonikerIdentifier : option string → option string → string;
  isSourceFileDefaultLibrary : Node → bool;
  isSourceFileFromExternalLibrary : Node → bool;
  (* ./lsif Symbols *)
  getLocationKind : list Node → nat;
  getExportPath : Symbol → nat → option string;
  findBaseMembers : Symbol → string → option (list Symbol);
  (* ./writer Emitter *)
  handleImportMoniker : string → option Moniker;
  handleExportMoniker : string → option Moniker;
  (* constructor arguments of the Indexer *)
  projectRoot : string;
  rootDir : string;
  outDir : string }.

(** [rangeFromNode], src/indexer.ts 26-38. *)
Definition rangeFromNode (ts : Oracle) (file node : Node) : Range :=
  {| rstart := if decide (file = node) then phantomPosition
               else startPosition ts file node;
     rend := endPosition ts file node |}.

(** [joinTexts] and [getHover], src/indexer.ts 40-75: a failing language
    service is caught and gives no hover. *)
Definition joinTexts (parts : option (list string)) : string :=
  String.concat EmptyString (default [] parts).

Definition getHover (ts : Oracle) (node sourceFile : Node) : option Hover :=
  match getQuickInfoAtPosition ts node sourceFile with
  | Ok (Some quickInfo) =>
      let c1 := match displayParts quickInfo with
                | Some parts => [MarkedCode "typescript" (joinTexts (Some parts))]
                | None => []
                end in
      let c2 := match documentation quickInfo with
                | Some (d :: ds) => [MarkedText (joinTexts (Some (d :: ds)))]
                | _ => []
                end in
      Some {| contents := c1 ++ c2 |}
  | _ => None
  end.

(** [symbolKindMap.get(kind) || lsp.SymbolKind.Property], src/indexer.ts 77-86. *)
Definition symbolKindOf (k : SyntaxKind) : SymbolKind :=
  match k with
  | ClassDeclaration => KClass
  | InterfaceDeclaration => KInterface
  | TypeParameter => KTypeParameter
  | MethodDeclaration => KMethod
  | FunctionDeclaration => KFunction
  | _ => KProperty
  end.

(** *** Definition info, document data and symbol data

    ./typescripts, ./document and ./symbol are imported by the indexer but
    are not part of the files at hand. *)

(** Modelled from the spec: [tss.DefinitionInfo] and [createDefinitionInfo]
    are missing; "a definition-info equality check (file + range)". *)
Record DefinitionInfo := { file : string; site : Range }.

#[global] Instance DefinitionInfo_eq_dec : EqDecision DefinitionInfo.
Proof. solve_decision. Defined.

Definition createDefinitionInfo (ts : Oracle) (sourceFile node : Node)
  : DefinitionInfo :=
  {| file := fileName ts sourceFile; site := rangeFromNode ts sourceFile node |}.

Inductive Lifecycle := Allocated | Begun | Ended.

(** Modelled from the spec: class [DocumentData] is missing; "holds the
    file's moniker-path prefix, an external library flag, and the ordered
    list of occurrence nodes emitted for that file". *)
Record DocumentData := {
  document : DocumentVertex;
  externalLibrary : bool;
  monikerPath : option string;
  ranges : list RangeVertex;
  dphase : Lifecycle }.

(** The resolution variant: which class [makeSymbolData] instantiated, with
    the references to other symbol data the constructor received. *)
Inductive Variant :=
| Standard
| Alias (aliased : loc) (rename : bool)
| Method (bases : list loc) (sourceFile : Node)
| UnionOrIntersection (members : list loc) (sourceFile : Node)
| Transient.

(** Modelled from the spec: class [SymbolData] and its subclasses are
    missing; "holds: resolution variant, accumulated definition occurrences,
    accumulated reference occurrences, attached monikers, hover text, and a
    closed/open flag". *)
Record SymbolData := {
  sdocument : DocumentVertex;
  variant : Variant;
  definitions : list (Node * RangeVertex);
  definitionInfo : list DefinitionInfo;
  references : list (Node * RangeVertex);
  monikers : list Moniker;
  hovers : list Hover;
  sphase : Lifecycle }.

Definition newSymbolData (d : DocumentVertex) (v : Variant) : SymbolData :=
  {| sdocument := d; variant := v; definitions := []; definitionInfo := [];
     references := []; monikers := []; hovers := []; sphase := Allocated |}.

(** Modelled from the spec: [SymbolData.hasDefinitionInfo] is missing;
    duplicates "are detected and suppressed via a definition-info equality
    check (file + range)". *)
Definition hasDefinitionInfo (sd : SymbolData) (info : DefinitionInfo) : bool :=
  existsb (fun i => bool_decide (i = info)) (definitionInfo sd).

(** *** The indexer object

    [DocumentData] and [SymbolData] are mutable objects reached through
    several references (the caches, [currentDocumentData], the variants), so
    they live in two stores and are named by their index. The cache maps are
    typed [Map<string, _ | null>] in the source, but the only write is
    [set(key, object)]: the values are references. *)
Record Indexer := {
  emitted : list Element;                 (* what emitter.emit received *)
  nextId : nat;                           (* emitter.vertex id generator *)
  documentStore : list DocumentData;
  symbolStore : list SymbolData;
  documentDatas : gmap string loc;
  symbolDatas : gmap string loc;
  currentSourceFile : option Node;
  currentDocumentData : option loc }.

Definition initial : Indexer :=
  {| emitted := []; nextId := 0; documentStore := []; symbolStore := [];
     documentDatas := ∅; symbolDatas := ∅;
     currentSourceFile := None; currentDocumentData := None |}.

Abbreviation M := (StateM Indexer).

(** *** Emitter, builder and the two object stores *)

Definition emit (e : Element) : M unit :=
  modify (fun s =>
    {| emitted := emitted s ++ [e]; nextId := nextId s;
       documentStore := documentStore s; symbolStore := symbolStore s;
       documentDatas := documentDatas s; symbolDatas := symbolDatas s;
       currentSourceFile := currentSourceFile s;
       currentDocumentData := currentDocumentData s |}).

Definition freshId : M nat :=
  fun s => Ok (nextId s,
    {| emitted := emitted s; nextId := S (nextId s);
       documentStore := documentStore s; symbolStore := symbolStore s;
       documentDatas := documentDatas s; symbolDatas := symbolDatas s;
       currentSourceFile := currentSourceFile s;
       currentDocumentData := currentDocumentData s |}).

Definition vertexDocument (name : string) : M DocumentVertex :=
  let* i := freshId in ret {| did := i; uri := name |}.

Definition vertexRange (r : Range) (t : RangeTag) : M RangeVertex :=
  let* i := freshId in ret {| rid := i; range := r; tag := t |}.

Definition setDocumentStore (f : list DocumentData → list DocumentData) : M unit :=
  modify (fun s =>
    {| emitted := emitted s; nextId := nextId s;
       documentStore := f (documentStore s); symbolStore := symbolStore s;
       documentDatas := documentDatas s; symbolDatas := symbolDatas s;
       currentSourceFile := currentSourceFile s;
       currentDocumentData := currentDocumentData s |}).

Definition setSymbolStore (f : list SymbolData → list SymbolData) : M unit :=
  modify (fun s =>
    {| emitted := emitted s; nextId := nextId s;
       documentStore := documentStore s; symbolStore := f (symbolStore s);
       documentDatas := documentDatas s; symbolDatas := symbolDatas s;
       currentSourceFile := currentSourceFile s;
       currentDocumentData := currentDocumentData s |}).

Definition setDocumentDatas (f : gmap string loc → gmap string loc) : M unit :=
  modify (fun s =>
    {| emitted := emitted s; nextId := nextId s;
       documentStore := documentStore s; symbolStore := symbolStore s;
       documentDatas := f (documentDatas s); symbolDatas := symbolDatas s;
       currentSourceFile := currentSourceFile s;
       currentDocumentData := currentDocumentData s |}).

Definition setSymbolDatas (f : gmap string loc → gmap string loc) : M unit :=
  modify (fun s =>
    {| emitted := emitted s; nextId := nextId s;
       documentStore := documentStore s; symbolStore := symbolStore s;
       documentDatas := documentDatas s; symbolDatas := f (symbolDatas s);
       currentSourceFile := currentSourceFile s;
       currentDocumentData := currentDocumentData s |}).

Definition setCurrent (sf : option Node) (d : option loc) : M unit :=
  modify (fun s =>
    {| emitted := emitted s; nextId := nextId s;
       documentStore := documentStore s; symbolStore := symbolStore s;
       documentDatas := documentDatas s; symbolDatas := symbolDatas s;
       currentSourceFile := sf; currentDocumentData := d |}).

(** [new DocumentData(...)] and [new SymbolData(...)]: a fresh object. *)
Definition allocDocument (d : DocumentData) : M loc :=
  let* l := gets (fun s => length (documentStore s)) in
  setDocumentStore (fun st => st ++ [d]);; ret l.

Definition allocSymbol (sd : SymbolData) : M loc :=
  let* l := gets (fun s => length (symbolStore s)) in
  setSymbolStore (fun st => st ++ [sd]);; ret l.

(** Following a reference. Every reference the indexer holds was returned
    by an allocation, so the error case is never met. *)
Definition readDocument (l : loc) : M DocumentData :=
  fun s => match documentStore s !! l with
           | Some d => Ok (d, s)
           | None => Throw "TypeError: undefined document data"
           end.

Definition readSymbol (l : loc) : M SymbolData :=
  fun s => match symbolStore s !! l with
           | Some d => Ok (d, s)
           | None => Throw "TypeError: undefined symbol data"
           end.

(** Modelled from the spec: the methods of [DocumentData] are missing;
    "[begin()] registers the node's existence; [addRange(occurrence)]
    appends in visitation order". *)
Definition DocumentData_begin (l : loc) : M unit :=
  let* d := readDocument l in
  emit (EDocument (document d));;
  setDocumentStore (alter (fun d =>
    {| document := document d; externalLibrary := externalLibrary d;
       monikerPath := monikerPath d; ranges := ranges d; dphase := Begun |}) l).

Definition DocumentData_addRange (l : loc) (r : RangeVertex) : M unit :=
  setDocumentStore (alter (fun d =>
    {| document := document d; externalLibrary := externalLibrary d;
       monikerPath := monikerPath d; ranges := ranges d ++ [r];
       dphase := dphase d |}) l).

(** Modelled from the spec: the methods of [SymbolData] are missing;
    "Lifecycle: [begin] (allocate, compute moniker, emit definitions), zero
    or more [addReference] calls, [end]"; a moniker is attached with a
    "moniker attach" emission. *)
Definition SymbolData_begin (l : loc) : M unit :=
  setSymbolStore (alter (fun sd =>
    {| sdocument := sdocument sd; variant := variant sd;
       definitions := definitions sd; definitionInfo := definitionInfo sd;
       references := references sd; monikers := monikers sd;
       hovers := hovers sd; sphase := Begun |}) l).

Definition SymbolData_addMoniker (l : loc) (m : Moniker) : M unit :=
  emit (EMonikerAttach l m);;
  setSymbolStore (alter (fun sd =>
    {| sdocument := sdocument sd; variant := variant sd;
       definitions := definitions sd; definitionInfo := definitionInfo sd;
       references := references sd; monikers := monikers sd ++ [m];
       hovers := hovers sd; sphase := sphase sd |}) l).

Definition SymbolData_addDefinition (l : loc) (sourceFile : Node)
    (definition : RangeVertex) : M unit :=
  setSymbolStore (alter (fun sd =>
    {| sdocument := sdocument sd; variant := variant sd;
       definitions := definitions sd ++ [(sourceFile, definition)];
       definitionInfo := definitionInfo sd;
       references := references sd; monikers := monikers sd;
       hovers := hovers sd; sphase := sphase sd |}) l).

Definition SymbolData_addDefinitionInfo (l : loc) (info : DefinitionInfo) : M unit :=
  setSymbolStore (alter (fun sd =>
    {| sdocument := sdocument sd; variant := variant sd;
       definitions := definitions sd;
       definitionInfo := definitionInfo sd ++ [info];
       references := references sd; monikers := monikers sd;
       hovers := hovers sd; sphase := sphase sd |}) l).

Definition SymbolData_addReference (l : loc) (sourceFile : Node)
    (reference : RangeVertex) : M unit :=
  setSymbolStore (alter (fun sd =>
    {| sdocument := sdocument sd; variant := variant sd;
       definitions := definitions sd; definitionInfo := definitionInfo sd;
       references := references sd ++ [(sourceFile, reference)];
       monikers := monikers sd; hovers := hovers sd; sphase := sphase sd |}) l).

Definition SymbolData_addHover (l : loc) (h : Hover) : M unit :=
  setSymbolStore (alter (fun sd =>
    {| sdocument := sdocument sd; variant := variant sd;
       definitions := definitions sd; definitionInfo := definitionInfo sd;
       references := references sd; monikers := monikers sd;
       hovers := hovers sd ++ [h]; sphase := sphase sd |}) l).

Section Shared.
Variable ts : Oracle.

(** [Indexer.computeMonikerPath], src/indexer.ts 476-501 and
    src/v2/indexer.ts 228-253. *)
Definition computeMonikerPath (sourceFile : Node) : option string :=
  if negb (isDeclarationFile ts sourceFile)
     || (String.prefix (rootDir ts) (fileName ts sourceFile)
         && bool_decide (String.get (String.length (rootDir ts))
                           (fileName ts sourceFile) = Some "/"%char))
  then Some (tssComputeMonikerPath ts (projectRoot ts)
               (toOutLocation ts (fileName ts sourceFile) (rootDir ts) (outDir ts)))
  else None.

(** [Indexer.getOrCreateDocumentData], src/indexer.ts 449-474 and
    src/v2/indexer.ts 194-226. *)
Definition getOrCreateDocumentData (sourceFile : Node) : M loc :=
  let* cachedDocumentData :=
    gets (fun s => documentDatas s !! fileName ts sourceFile) in
  match cachedDocumentData with
  | Some l => ret l
  | None =>
      let* document := vertexDocument (fileName ts sourceFile) in
      let externalLibrary := isSourceFileFromExternalLibrary ts sourceFile in
      let monikerPath :=
        if externalLibrary
        then Some (tssComputeMonikerPath ts (projectRoot ts) (fileName ts sourceFile))
        else computeMonikerPath sourceFile in
      let* documentData := allocDocument
        {| document := document; externalLibrary := externalLibrary;
           monikerPath := monikerPath; ranges := []; dphase := Allocated |} in
      DocumentData_begin documentData;;
      setDocumentDatas (insert (fileName ts sourceFile) documentData);;
      ret documentData
  end.

(** The local [let monikerPath: string | undefined | null] of
    [getOrCreateSymbolData]. *)
Inductive PathCandidate :=
| Undefined
| Null
| Path (p : string).

Definition strictlyDiffers (c : PathCandidate) (p : option string) : bool :=
  match c, p with
  | Undefined, None => false
  | Path a, Some b => negb (bool_decide (a = b))
  | _, _ => true
  end.

(** One turn of the loop, src/indexer.ts 532-540 and
    src/v2/indexer.ts 370-378. *)
Definition monikerStep (acc : PathCandidate * bool) (d : DocumentData)
  : PathCandidate * bool :=
  match fst acc with
  | Undefined =>
      (match monikerPath d with Some p => Path p | None => Undefined end,
       externalLibrary d)
  | c => if strictlyDiffers c (monikerPath d) then (Null, snd acc) else acc
  end.

Fixpoint monikerLoop (acc : PathCandidate * bool) (sourceFiles : list Node)
  : M (PathCandidate * bool) :=
  match sourceFiles with
  | [] => ret acc
  | sourceFile :: rest =>
      let* documentData := getOrCreateDocumentData sourceFile in
      let* d := readDocument documentData in
      monikerLoop (monikerStep acc d) rest
  end.

(** src/indexer.ts 542-545 and src/v2/indexer.ts 380-383. *)
Definition settle (acc : PathCandidate * bool) : option string * bool :=
  match fst acc with
  | Null => (None, false)
  | Undefined => (None, snd acc)
  | Path p => (Some p, snd acc)
  end.

(** src/indexer.ts 530-545: the moniker path and the external flag a
    symbol gets from its source files. *)
Definition resolveMonikerPath (sourceFiles : list Node) : M (option string * bool) :=
  let* acc := monikerLoop (Undefined, false) sourceFiles in
  ret (settle acc).

(** src/indexer.ts 547-567 and src/v2/indexer.ts 385-399. *)
Definition monikerFor (symbol : Symbol) (exportPath : option string)
    (monikerPath : option string) (externalLibrary : bool) : option Moniker :=
  let monikerIdentifier :=
    if isSourceFileSymbol ts symbol && bool_decide (monikerPath ≠ None)
    then Some (createMonikerIdentifier ts monikerPath None)
    else match exportPath with
         | Some p => if bool_decide (p ≠ EmptyString)
                     then Some (createMonikerIdentifier ts monikerPath (Some p))
                     else None
         | None => None
         end in
  match monikerIdentifier with
  | Some i => if bool_decide (i = EmptyString) then None
              else if externalLibrary then handleImportMoniker ts i
                   else handleExportMoniker ts i
  | None => None
  end.
End Shared.

End Lsif.

(** ** src/indexer.ts: the graph indexer *)

Module Graph.
Import Lsif.

Section Indexer.
Variable ts : Oracle.

(** Modelled from the spec: the methods [getSourceFiles], [getDeclarations]
    and [getText] of the [SymbolData] subclasses are missing; "standard,
    alias and method defer to the oracle's declaration list; composite and
    transient use only the use-site node as its own declaration". The
    use-site node is optional in this file: without one the composite and
    transient variants have no declaration and no source file. *)
Definition usesOnlyUseSite (v : Variant) : bool :=
  match v with
  | UnionOrIntersection _ _ | Transient => true
  | _ => false
  end.

Definition SymbolData_getSourceFiles (v : Variant) (symbol : Symbol)
    (node : option Node) : M (list Node) :=
  if usesOnlyUseSite v then
    match node with
    | Some n => ret [getSourceFile ts n]
    | None => ret []
    end
  else ret (getUniqueSourceFiles ts (symbolDeclarations ts symbol)).

Definition SymbolData_getDeclarations (v : Variant) (symbol : Symbol)
    (node : option Node) : M (list Node) :=
  if usesOnlyUseSite v then
    match node with
    | Some n => ret [n]
    | None => ret []
    end
  else ret (default [] (symbolDeclarations ts symbol)).

Definition SymbolData_getText (v : Variant) (symbol : Symbol)
    (declaration : Node) : option (string * Node) :=
  match v with
  | UnionOrIntersection _ _ => Some (nodeText ts declaration, declaration)
  | _ =>
      if isNamedDeclaration ts declaration
      then Some (nodeText ts (declName ts declaration), declName ts declaration)
      else if isValueModule ts symbol && isKind (kind ts declaration) SourceFile
      then Some (EmptyString, declaration)
      else None
  end.

(** [Indexer.emitDefinition], src/indexer.ts 659-692. *)
Definition emitDefinition (declaration : Node) (symbolData : loc)
    (text : string) (node : Node) : M unit :=
  let sourceFile := getSourceFile ts declaration in
  let* documentData := getOrCreateDocumentData ts sourceFile in
  let range := if isKind (kind ts declaration) SourceFile then phantomRange
               else rangeFromNode ts sourceFile node in
  let tag := DefinitionTag text (symbolKindOf (kind ts declaration))
               (rangeFromNode ts sourceFile declaration) in
  let* definition := vertexRange range tag in
  emit (ERange definition);;
  DocumentData_addRange documentData definition;;
  SymbolData_addDefinition symbolData sourceFile definition;;
  SymbolData_addDefinitionInfo symbolData
    (createDefinitionInfo ts sourceFile node);;
  if isNamedDeclaration ts declaration then
    match getHover ts (declName ts declaration) sourceFile with
    | Some hover => SymbolData_addHover symbolData hover
    | None => ret tt
    end
  else ret tt.

(** The loop over the declarations, src/indexer.ts 569-581. *)
Definition emitDefinitions (v : Variant) (symbol : Symbol) (symbolData : loc)
    (declarations : list Node) : M unit :=
  forM (fun declaration =>
          match SymbolData_getText v symbol declaration with
          | None => ret tt
          | Some (text, node) => emitDefinition declaration symbolData text node
          end) declarations.

Section Body.
(** The recursive calls [this.getOrCreateSymbolData(symbol)]. *)
Variable recur : Symbol → option Node → M loc.

(** [Indexer.makeSymbolData], src/indexer.ts 587-657. *)
Definition makeSymbolData (symbol : Symbol) (node : option Node) : M loc :=
  let* cur := gets currentDocumentData in
  let* curFile := gets currentSourceFile in
  match cur, curFile with
  | Some d, Some sourceFile =>
      let* dd := readDocument d in
      let document := document dd in
      let afterTransient : M loc :=
        if isAliasSymbol ts symbol then
          let aliased := getAliasedSymbol ts symbol in
          let* aliasedSymbolData := recur aliased None in
          allocSymbol (newSymbolData document
            (Alias aliasedSymbolData
               (negb (bool_decide (getName ts symbol = getName ts aliased)))))
        else if isMethodSymbol ts symbol then
          let members :=
            match getSymbolParent ts symbol with
            | Some container =>
                default [] (findBaseMembers ts container (getName ts symbol))
            | None => []
            end in
          let* baseSymbols := mapM (fun member => recur member None) members in
          allocSymbol (newSymbolData document (Method baseSymbols sourceFile))
        else allocSymbol (newSymbolData document Standard) in
      let transientOrLater : M loc :=
        if bool_decide (Z.land (getFlags ts symbol)
                          (Z.lnot SymbolFlags_Transient) = 0%Z)
        then allocSymbol (newSymbolData document Transient)
        else afterTransient in
      if isTransient ts symbol then
        if isComposite ts symbol node then
          match getCompositeSymbols ts symbol node with
          | Some composites =>
              let* datas := mapM (fun symbol => recur symbol None) composites in
              allocSymbol (newSymbolData document
                             (UnionOrIntersection datas sourceFile))
          | None => transientOrLater
          end
        else transientOrLater
      else afterTransient
  | _, _ => throw "Illegal symbol context"
  end.

(** [Indexer.getOrCreateSymbolData], src/indexer.ts 503-585. *)
Definition getOrCreateSymbolData_body (symbol : Symbol) (node : option Node)
  : M loc :=
  let* cur := gets currentDocumentData in
  match cur with
  | None => throw "Illegal symbol context"
  | Some _ =>
      let id := createSymbolKey ts symbol in
      let* cachedSymbolData := gets (fun s => symbolDatas s !! id) in
      match cachedSymbolData with
      | Some l => ret l
      | None =>
          let* symbolData := makeSymbolData symbol node in
          SymbolData_begin symbolData;;
          let* sd := readSymbol symbolData in
          let* sourceFiles :=
            SymbolData_getSourceFiles (variant sd) symbol node in
          let locationKind := getLocationKind ts sourceFiles in
          let exportPath := getExportPath ts symbol locationKind in
          let* (monikerPath, externalLibrary) :=
            resolveMonikerPath ts sourceFiles in
          match monikerFor ts symbol exportPath monikerPath externalLibrary with
          | Some moniker => SymbolData_addMoniker symbolData moniker
          | None => ret tt
          end;;
          let* declarations :=
            SymbolData_getDeclarations (variant sd) symbol node in
          emitDefinitions (variant sd) symbol symbolData declarations;;
          setSymbolDatas (insert id symbolData);;
          ret symbolData
      end
  end.
End Body.

(** The recursion of [getOrCreateSymbolData] through [makeSymbolData]:
    the call itself runs, each nested call spends one unit of fuel. *)
Fixpoint getOrCreateSymbolData (fuel : nat) (symbol : Symbol)
    (node : option Node) : M loc :=
  getOrCreateSymbolData_body
    (match fuel with
     | 0 => fun _ _ => stuck
     | S fuel' => getOrCreateSymbolData fuel'
     end) symbol node.

(** [Indexer.getSymbolAtLocation], src/indexer.ts 328-334. *)
Definition getSymbolAtLocation (node : Node) : option Symbol :=
  match checkerSymbolAtLocation ts node with
  | Some result => Some result
  | None => getSymbolFromNode ts node
  end.

(** [Indexer.exportSymbol], src/indexer.ts 336-346: the body is a TODO. *)
Definition exportSymbol (symbol : Symbol) (monikerPath : string)
    (newName : option string) (locationNode : option Node) : M unit :=
  ret tt.

(** [Indexer.getExportSymbolName], src/indexer.ts 348-356. *)
Fixpoint escapeDots (s : string) : string :=
  match s with
  | EmptyString => EmptyString
  | String c rest =>
      if bool_decide (c = "."%char) then String c (String c (escapeDots rest))
      else String c (escapeDots rest)
  end.

Definition isQuote (c : option ascii) : bool :=
  bool_decide (c = Some (ascii_of_nat 34)) || bool_decide (c = Some "'"%char).

Definition getExportSymbolName (symbol : Symbol) : string :=
  let escapedName := getEscapedName ts symbol in
  let escapedName :=
    if isQuote (String.get 0 escapedName)
    then String.substring 1 (String.length escapedName - 2) escapedName
    else escapedName in
  escapeDots escapedName.

(** [Indexer.visitSymbol], src/indexer.ts 361-400. *)
Definition visitSymbol (fuel : nat) (node : Node) : M unit :=
  let* curFile := gets currentSourceFile in
  let* cur := gets currentDocumentData in
  match curFile, cur with
  | Some sourceFile, Some documentData =>
      match checkerSymbolAtLocation ts node with
      | None => ret tt
      | Some symbol =>
          let* symbolData := getOrCreateSymbolData fuel symbol (Some node) in
          let definitionInfo := createDefinitionInfo ts sourceFile node in
          let* sd := readSymbol symbolData in
          if hasDefinitionInfo sd definitionInfo then ret tt
          else
            let tag := ReferenceTag (nodeText ts node) in
            let* reference := vertexRange (rangeFromNode ts sourceFile node) tag in
            emit (ERange reference);;
            DocumentData_addRange documentData reference;;
            SymbolData_addReference symbolData sourceFile reference
      end
  | _, _ => ret tt
  end.

(** [Indexer.preVisit], src/indexer.ts 168-198. *)
Definition preVisit (fuel : nat) (node : Node) : M bool :=
  match kind ts node with
  | SourceFile =>
      let* d := getOrCreateDocumentData ts node in
      setCurrent (Some node) (Some d);;
      ret true
  | ExportAssignment | Identifier | StringLiteral =>
      visitSymbol fuel node;; ret false
  | _ => ret true
  end.

(** The loop over the export specifiers, src/indexer.ts 257-289; a
    [return] inside it leaves [postVisit]. *)
Fixpoint exportSpecifiers (fuel : nat) (documentData : loc)
    (specifiers : list Node) : M unit :=
  match specifiers with
  | [] => ret tt
  | element :: rest =>
      match getSymbolAtLocation (declName ts element) with
      | None => exportSpecifiers fuel documentData rest
      | Some symbol =>
          let* d := readDocument documentData in
          match monikerPath d with
          | None => ret tt
          | Some monikerPath =>
              getOrCreateSymbolData fuel symbol None;;
              let aliasedSymbol :=
                if negb (bool_decide
                     (Z.land (getFlags ts symbol) SymbolFlags_Alias = 0%Z))
                then Some (getAliasedSymbol ts symbol)
                else match propertyName ts element with
                     | Some p => getSymbolAtLocation p
                     | None => None
                     end in
              match aliasedSymbol with
              | None => exportSpecifiers fuel documentData rest
              | Some aliasedSymbol =>
                  let* curFile := gets currentSourceFile in
                  exportSymbol aliasedSymbol monikerPath
                    (Some (getExportSymbolName symbol)) curFile;;
                  exportSpecifiers fuel documentData rest
              end
          end
      end
  end.

(** [Indexer.postVisit], src/indexer.ts 200-323. *)
Definition postVisit (fuel : nat) (node : Node) : M unit :=
  match kind ts node with
  | SourceFile => setCurrent None None
  | ExportAssignment =>
      let* cur := gets currentDocumentData in
      match cur with
      | None => throw "Illegal statement context"
      | Some documentData =>
          match getSymbolAtLocation node with
          | None => ret tt
          | Some symbol =>
              getOrCreateSymbolData fuel symbol None;;
              let* d := readDocument documentData in
              match monikerPath d with
              | None => ret tt
              | Some monikerPath =>
                  match getSymbolAtLocation (expression ts node) with
                  | None => ret tt
                  | Some aliasedSymbol =>
                      let* curFile := gets currentSourceFile in
                      exportSymbol aliasedSymbol monikerPath
                        (Some (getExportSymbolName symbol)) curFile
                  end
              end
          end
      end
  | ExportDeclaration =>
      let* cur := gets currentDocumentData in
      match cur with
      | None => throw "Illegal statement context"
      | Some documentData =>
          let namedExports :=
            match exportClause ts node with
            | Some clause =>
                if isKind (kind ts clause) NamedExports then Some clause else None
            | None => None
            end in
          match namedExports, moduleSpecifier ts node with
          | Some clause, _ =>
              exportSpecifiers fuel documentData (exportElements ts clause)
          | None, Some specifier =>
              match getSymbolAtLocation node with
              | None => ret tt
              | Some symbol =>
                  if bool_decide (Z.land (getFlags ts symbol)
                                    SymbolFlags_ExportStar = 0%Z)
                  then ret tt
                  else
                    let* d := readDocument documentData in
                    match monikerPath d with
                    | None => ret tt
                    | Some monikerPath =>
                        getOrCreateSymbolData fuel symbol None;;
                        match getSymbolAtLocation specifier with
                        | None => ret tt
                        | Some aliasedSymbol =>
                            if isSourceFileSymbol ts aliasedSymbol then
                              getOrCreateSymbolData fuel aliasedSymbol None;;
                              let* curFile := gets currentSourceFile in
                              exportSymbol aliasedSymbol monikerPath
                                (Some EmptyString) curFile
                            else ret tt
                        end
                    end
              end
          | None, None => ret tt
          end
      end
  | _ => ret tt
  end.

(** [Indexer.visit], src/indexer.ts 161-166: one unit of fuel per level of
    the syntax tree. *)
Fixpoint visit (fuel : nat) (node : Node) : M unit :=
  let* descend := preVisit fuel node in
  if descend then
    forM (match fuel with
          | 0 => fun _ => stuck
          | S fuel' => visit fuel'
          end) (children ts node);;
    postVisit fuel node
  else ret tt.

(** The loop of [Indexer.index] over the source files of the program,
    src/indexer.ts 118-134: the files of the default library and of
    external libraries are passed over. What [index] does around the loop
    (the metadata and project vertices, the [end()] calls, the contains
    edge) happens inside the emitter and the data classes. *)
Definition index_sourceFiles (fuel : nat) (sourceFiles : list Node) : M unit :=
  forM (fun sourceFile =>
          if isSourceFileDefaultLibrary ts sourceFile
             || isSourceFileFromExternalLibrary ts sourceFile
          then ret tt
          else visit fuel sourceFile) sourceFiles.
End Indexer.

End Graph.

(** ** src/v2/indexer.ts: the resolver type is an argument *)

Module V2.
Import Lsif.

(** Modelled from the spec: type [ResolverType] of ./resolution is missing;
    "a tag attached per symbol: standard, alias, method, composite,
    transient", with the literals the switch statements use. *)
Inductive ResolverType :=
| standard | alias | method | unionOrIntersection | transient.

Section Indexer.
Variable ts : Oracle.
(** [getResolverType] of ./resolution, with the type checker applied. *)
Variable getResolverType : Symbol → Node → ResolverType.

(** [Indexer.getDeclarations], src/v2/indexer.ts 424-437. *)
Definition getDeclarations (symbol : Symbol) (node : Node)
    (resolverType : ResolverType) : list Node :=
  match resolverType with
  | transient | unionOrIntersection => [node]
  | _ => default [] (symbolDeclarations ts symbol)
  end.

(** [Indexer.getSourceFiles], src/v2/indexer.ts 439-454. *)
Definition getSourceFiles (symbol : Symbol) (node : Node)
    (resolverType : ResolverType) : list Node :=
  match resolverType with
  | transient | unionOrIntersection => [getSourceFile ts node]
  | _ => getUniqueSourceFiles ts (symbolDeclarations ts symbol)
  end.

(** [Indexer.getText], src/v2/indexer.ts 456-479. *)
Definition getText (symbol : Symbol) (node : Node)
    (resolverType : ResolverType) : option (string * Node) :=
  match resolverType with
  | unionOrIntersection => Some (nodeText ts node, node)
  | _ =>
      if isNamedDeclaration ts node
      then Some (nodeText ts (declName ts node), declName ts node)
      else if isValueModule ts symbol && isKind (kind ts node) SourceFile
      then Some (EmptyString, node)
      else None
  end.

(** [Indexer.emitDefinition], src/v2/indexer.ts 481-517. The symbol data
    methods receive the resolver type; what they record is as in
    [Lsif]. *)
Definition emitDefinition (declaration : Node) (symbolData : loc)
    (text : string) (node : Node) (resolverType : ResolverType) : M unit :=
  let sourceFile := getSourceFile ts declaration in
  let* documentData := getOrCreateDocumentData ts sourceFile in
  let range := if isKind (kind ts declaration) SourceFile then phantomRange
               else rangeFromNode ts sourceFile node in
  let tag := DefinitionTag text (symbolKindOf (kind ts declaration))
               (rangeFromNode ts sourceFile declaration) in
  let* definition := vertexRange range tag in
  emit (ERange definition);;
  DocumentData_addRange documentData definition;;
  SymbolData_addDefinition symbolData sourceFile definition;;
  SymbolData_addDefinitionInfo symbolData
    (createDefinitionInfo ts sourceFile node);;
  if isNamedDeclaration ts declaration then
    match getHover ts (declName ts declaration) sourceFile with
    | Some hover => SymbolData_addHover symbolData hover
    | None => ret tt
    end
  else ret tt.

(** [Indexer.getOrCreateSymbolData], src/v2/indexer.ts 255-422: the
    switch over the resolver type has no live case, every symbol gets the
    base class. *)
Definition getOrCreateSymbolData (symbol : Symbol) (node : Node)
    (resolverType : ResolverType) : M loc :=
  let* cur := gets currentDocumentData in
  match cur with
  | None => throw "illegal symbol context"
  | Some documentData =>
      let id := createSymbolKey ts symbol in
      let* cachedSymbolData := gets (fun s => symbolDatas s !! id) in
      match cachedSymbolData with
      | Some l => ret l
      | None =>
          let* d := readDocument documentData in
          let* symbolData := allocSymbol (newSymbolData (document d) Standard) in
          SymbolData_begin symbolData;;
          let sourceFiles := getSourceFiles symbol node resolverType in
          let locationKind := getLocationKind ts sourceFiles in
          let exportPath := getExportPath ts symbol locationKind in
          let* (monikerPath, externalLibrary) :=
            resolveMonikerPath ts sourceFiles in
          match monikerFor ts symbol exportPath monikerPath externalLibrary with
          | Some moniker => SymbolData_addMoniker symbolData moniker
          | None => ret tt
          end;;
          forM (fun declaration =>
                  match getText symbol declaration resolverType with
                  | None => ret tt
                  | Some (text, node) =>
                      emitDefinition declaration symbolData text node resolverType
                  end) (getDeclarations symbol node resolverType);;
          setSymbolDatas (insert id symbolData);;
          ret symbolData
      end
  end.

(** [Indexer.visitSymbol], src/v2/indexer.ts 146-192. *)
Definition visitSymbol (node : Node) : M unit :=
  let* curFile := gets currentSourceFile in
  let* cur := gets currentDocumentData in
  match curFile, cur with
  | Some sourceFile, Some documentData =>
      match checkerSymbolAtLocation ts node with
      | None => ret tt
      | Some symbol =>
          let resolverType := getResolverType symbol node in
          let* symbolData := getOrCreateSymbolData symbol node resolverType in
          let definitionInfo := createDefinitionInfo ts sourceFile node in
          let* sd := readSymbol symbolData in
          if hasDefinitionInfo sd definitionInfo then ret tt
          else
            let tag := ReferenceTag (nodeText ts node) in
            let* reference := vertexRange (rangeFromNode ts sourceFile node) tag in
            emit (ERange reference);;
            DocumentData_addRange documentData reference;;
            SymbolData_addReference symbolData sourceFile reference
      end
  | _, _ => ret tt
  end.

(** [Indexer.preVisit], src/v2/indexer.ts 105-137. *)
Definition preVisit (node : Node) : M bool :=
  match kind ts node with
  | SourceFile =>
      let* d := getOrCreateDocumentData ts node in
      setCurrent (Some node) (Some d);;
      ret true
  | ExportAssignment | Identifier | StringLiteral =>
      visitSymbol node;; ret false
  | _ => ret true
  end.

(** [Indexer.postVisit], src/v2/indexer.ts 139-144. *)
Definition postVisit (node : Node) : M unit :=
  if isKind (kind ts node) SourceFile then setCurrent None None else ret tt.

(** [Indexer.visit], src/v2/indexer.ts 98-103. *)
Fixpoint visit (fuel : nat) (node : Node) : M unit :=
  let* descend := preVisit node in
  if descend then
    forM (match fuel with
          | 0 => fun _ => stuck
          | S fuel' => visit fuel'
          end) (children ts node);;
    postVisit node
  else ret tt.

(** The loop of [Indexer.index] over the source files of the program,
    src/v2/indexer.ts 63-79, as in src/indexer.ts. *)
Definition index_sourceFiles (fuel : nat) (sourceFiles : list Node) : M unit :=
  forM (fun sourceFile =>
          if isSourceFileDefaultLibrary ts sourceFile
             || isSourceFileFromExternalLibrary ts sourceFile
          then ret tt
          else visit fuel sourceFile) sourceFiles.
End Indexer.

End V2.

(** ** src/Visitor.ts and the typed [Indexer]: descriptor symbols *)

Module Typed.

(** Modelled from the spec: class [Descriptor] is missing; "one named
    segment of a hierarchical symbol identifier (namespace/type/term/
    method/meta)". *)
Inductive Descriptor :=
| DPackage (name : string)
| DType (name : string)
| DTerm (name : string)
| DMethod (name disambiguator : string)
| DMeta (name : string).

(** Modelled from the spec: class [LsifSymbol] is missing; "either a global
    identifier or a local identifier (counter-based)", the empty symbol
    standing for "local/empty" owners. *)
Inductive LsifSymbol :=
| empty
| local (counter : nat)
| package (name version : string)
| global (owner : LsifSymbol) (descriptor : Descriptor).

#[global] Instance Descriptor_eq_dec : EqDecision Descriptor.
Proof. solve_decision. Defined.
#[global] Instance LsifSymbol_eq_dec : EqDecision LsifSymbol.
Proof. solve_decision. Defined.

Definition isEmptyOrLocal (s : LsifSymbol) : bool :=
  match s with
  | empty | local _ => true
  | _ => false
  end.

(** Modelled from the spec: class [Counter] is missing; "a local counter",
    whose [next()] hands out 0, 1, 2, ... The state is the number of calls
    made so far. *)
Definition Counter_new : nat := 0.
Definition Counter_next (c : nat) : nat * nat := (c, S c).

Record Occurrence := {
  range : list nat;
  symbol : LsifSymbol;          (* lsifSymbol.value *)
  symbol_roles : Z }.

Record Document := {
  relative_path : string;
  occurrences : list Occurrence }.

Inductive Index :=
| IndexMetadata (project_root : string)
| IndexDocuments (documents : list Document).

(** The compiler objects and helpers the visitor is given. Properties whose
    TypeScript type is not optional are total functions. *)
Record Host := {
  kind : Node → SyntaxKind;
  parent : Node → Node;
  children : Node → list Node;                  (* ts.forEachChild *)
  name : Node → option Node;                    (* node.name *)
  nameText : Node → string;                     (* node.name.getText() *)
  optionalNameText : Node → option string;      (* node.name?.getText() *)
  getSourceFile : Node → Node;
  fileName : Node → string;
  getSymbolAtLocation : Node → option Symbol;
  declarations : Symbol → option (list Node);   (* sym.declarations *)
  typeHasSymbol : Node → bool;
    (* checker.getTypeAtLocation(node).symbol is defined *)
  typeDeclarations : Node → option (list Node);
    (* checker.getTypeAtLocation(node).symbol.declarations *)
  packagesSymbol : string → option LsifSymbol;  (* packages.symbol(fileName) *)
  rangeToLsif : Node → list nat;                (* Range.fromNode(node).toLsif() *)
  SymbolRole_Definition : Z;
  (* the program and the options of the Indexer *)
  getSourceFiles : list Node;
  fileNames : list string;                      (* config.fileNames *)
  project : string;                             (* options.project *)
  pathRelative : string → string → string }.

(** The fields of a [Visitor]. [symbolsCache] is the map of the [Indexer],
    handed from one visitor to the next; the other three are created with
    the visitor. *)
Record Visitor := {
  localCounter : nat;
  propertyCounters : gmap string nat;
  localSymbolCache : gmap Node LsifSymbol;
  symbolsCache : gmap Node LsifSymbol;
  doc : Document }.

(** [new Visitor(checker, input, doc, symbolsCache, packages, sourceFile)]. *)
Definition newVisitor (doc : Document) (symbolsCache : gmap Node LsifSymbol)
  : Visitor :=
  {| localCounter := Counter_new; propertyCounters := ∅;
     localSymbolCache := ∅; symbolsCache := symbolsCache; doc := doc |}.

Abbreviation V := (StateM Visitor).

Section Visitor.
Variable ts : Host.

(** [isAnonymousContainerOfSymbols], src/Visitor.ts 176-185. *)
Definition isAnonymousContainerOfSymbols (node : Node) : bool :=
  match kind ts node with
  | ModuleBlock | ImportDeclaration | ImportClause | NamedImports
  | VariableStatement | VariableDeclarationList => true
  | _ => false
  end.

(** [Visitor.declarationName], src/Visitor.ts 55-72. *)
Definition declarationName (node : Node) : option Node :=
  match kind ts node with
  | EnumDeclaration | VariableDeclaration | PropertyDeclaration
  | MethodSignature | MethodDeclaration | PropertySignature
  | FunctionDeclaration | ModuleDeclaration | PropertyAssignment
  | ShorthandPropertyAssignment | InterfaceDeclaration => name ts node
  | _ => None
  end.

(** The [TypeError] of [tpe.symbol.declarations] where [tpe.symbol] is
    undefined, src/Visitor.ts 118 and 165. *)
Definition typeSymbolUndefined : string :=
  "TypeError: Cannot read properties of undefined (reading 'declarations')".

(** [Visitor.descriptor], src/Visitor.ts 143-173. An import specifier
    defers to the first declaration of its type; the type must have a
    symbol. *)
Fixpoint descriptor (fuel : nat) (node : Node) : Result (option Descriptor) :=
  match kind ts node with
  | InterfaceDeclaration => Ok (Some (DType (nameText ts node)))
  | FunctionDeclaration | MethodSignature =>
      Ok (Some (DMethod
        (match optionalNameText ts node with
         | Some t => if bool_decide (t = EmptyString) then "boom" else t
         | None => "boom"
         end) EmptyString))
  | PropertyDeclaration | PropertySignature | VariableDeclaration =>
      Ok (Some (DTerm (nameText ts node)))
  | ModuleDeclaration => Ok (Some (DPackage (nameText ts node)))
  | ImportSpecifier =>
      if typeHasSymbol ts node then
        match default [] (typeDeclarations ts node) with
        | declaration :: _ =>
            match fuel with
            | 0 => OutOfFuel
            | S fuel' => descriptor fuel' declaration
            end
        | [] => Ok None
        end
      else Throw typeSymbolUndefined
  | _ => Ok None
  end.

(** [Visitor.newLocalSymbol], src/Visitor.ts 134-138. *)
Definition newLocalSymbol (node : Node) : V LsifSymbol :=
  fun v =>
    let (n, c) := Counter_next (localCounter v) in
    Ok (local n,
        {| localCounter := c; propertyCounters := propertyCounters v;
           localSymbolCache := <[node := local n]> (localSymbolCache v);
           symbolsCache := symbolsCache v; doc := doc v |}).

(** [Visitor.cached], src/Visitor.ts 139-142. *)
Definition cached (node : Node) (sym : LsifSymbol) : V LsifSymbol :=
  fun v =>
    Ok (sym,
        {| localCounter := localCounter v;
           propertyCounters := propertyCounters v;
           localSymbolCache := localSymbolCache v;
           symbolsCache := <[node := sym]> (symbolsCache v); doc := doc v |}).

(** [this.propertyCounters.get(name)], creating the counter when the name
    is new (src/Visitor.ts 95-99), and [counter.next()] on the counter the
    map holds. *)
Definition propertyCounter (name : string) : V unit :=
  modify (fun v =>
    match propertyCounters v !! name with
    | Some _ => v
    | None =>
        {| localCounter := localCounter v;
           propertyCounters := <[name := Counter_new]> (propertyCounters v);
           localSymbolCache := localSymbolCache v;
           symbolsCache := symbolsCache v; doc := doc v |}
    end).

Definition propertyCounterNext (name : string) : V nat :=
  fun v =>
    let (n, c) := Counter_next (default Counter_new (propertyCounters v !! name)) in
    Ok (n,
        {| localCounter := localCounter v;
           propertyCounters := <[name := c]> (propertyCounters v);
           localSymbolCache := localSymbolCache v;
           symbolsCache := symbolsCache v; doc := doc v |}).

Section Body.
(** The recursive calls [this.lsifSymbol(...)]. *)
Variable recur : Node → V LsifSymbol.
Variable fuel : nat.

(** [Visitor.lsifSymbol], src/Visitor.ts 74-132. *)
Definition lsifSymbol_body (node : Node) : V LsifSymbol :=
  let* fromCache := gets (fun v =>
    match symbolsCache v !! node with
    | Some s => Some s
    | None => localSymbolCache v !! node
    end) in
  match fromCache with
  | Some s => ret s
  | None =>
      match kind ts node with
      | Block => ret empty
      | SourceFile =>
          match packagesSymbol ts (fileName ts node) with
          | None => cached node empty
          | Some pkg => cached node pkg
          end
      | PropertyAssignment | ShorthandPropertyAssignment =>
          let name := nameText ts node in
          propertyCounter name;;
          let* owner := recur (getSourceFile ts node) in
          let* n := propertyCounterNext name in
          cached node (global owner (DMeta (nameText ts node +:+ pretty n)))
      | _ =>
          let* owner := recur (parent ts node) in
          if isEmptyOrLocal owner then newLocalSymbol node
          else if isAnonymousContainerOfSymbols node then
            let* s := recur (parent ts node) in cached node s
          else
            let viaDescriptor : V LsifSymbol :=
              match descriptor fuel node with
              | Ok (Some desc) => cached node (global owner desc)
              | Ok None => newLocalSymbol node
              | Throw e => throw e
              | OutOfFuel => stuck
              end in
            if isKind (kind ts node) ImportSpecifier then
              if typeHasSymbol ts node then
                match default [] (typeDeclarations ts node) with
                | declaration :: _ => recur declaration
                | [] => viaDescriptor
                end
              else throw typeSymbolUndefined
            else viaDescriptor
      end
  end.
End Body.

(** One unit of fuel per nested call of [lsifSymbol]. *)
Fixpoint lsifSymbol (fuel : nat) (node : Node) : V LsifSymbol :=
  lsifSymbol_body
    (match fuel with
     | 0 => fun _ => stuck
     | S fuel' => lsifSymbol fuel'
     end) fuel node.

(** [this.doc.occurrences.push(...)]. *)
Definition pushOccurrence (o : Occurrence) : V unit :=
  modify (fun v =>
    {| localCounter := localCounter v;
       propertyCounters := propertyCounters v;
       localSymbolCache := localSymbolCache v;
       symbolsCache := symbolsCache v;
       doc := {| relative_path := relative_path (doc v);
                 occurrences := occurrences (doc v) ++ [o] |} |}).

(** The block of [Visitor.visit] for an identifier, src/Visitor.ts 27-51
    (the [console.log] left out). *)
Definition visitIdentifier (fuel : nat) (node : Node) : V unit :=
  let isDefinition :=
    bool_decide (declarationName (parent ts node) = Some node) in
  let role := if isDefinition then Z.lor 0 (SymbolRole_Definition ts) else 0%Z in
  let range := rangeToLsif ts node in
  let declarations :=
    match getSymbolAtLocation ts node with
    | Some sym => default [] (declarations ts sym)
    | None => []
    end in
  forM (fun declaration =>
          let* lsifSymbol := lsifSymbol fuel declaration in
          pushOccurrence {| range := range; symbol := lsifSymbol;
                            symbol_roles := role |}) declarations.

(** [Visitor.visit], src/Visitor.ts 26-53. *)
Fixpoint visit (fuel : nat) (node : Node) : V unit :=
  (if isKind (kind ts node) Identifier then visitIdentifier fuel node
   else ret tt);;
  forM (match fuel with
        | 0 => fun _ => stuck
        | S fuel' => visit fuel'
        end) (children ts node).

(** [Visitor.index], src/Visitor.ts 23-25. *)
Definition Visitor_index (fuel : nat) (sourceFile : Node) : V unit :=
  visit fuel sourceFile.

(** *** The typed [Indexer]: what [options.writeIndex] received and the
    symbols cache. *)
Record Indexer := {
  written : list Index;
  cache : gmap Node LsifSymbol }.

Definition writeIndex (i : Index) : StateM Indexer unit :=
  modify (fun s => {| written := written s ++ [i]; cache := cache s |}).

(** The body of the loop of [Indexer.index]: one source file. *)
Definition indexSourceFile (fuel : nat) (sourceFile : Node)
  : StateM Indexer unit :=
  let includes :=
    bool_decide (fileName ts sourceFile ∈ fileNames ts) in
  if includes then
    let doc := {| relative_path :=
                    pathRelative ts (project ts) (fileName ts sourceFile);
                  occurrences := [] |} in
    fun s =>
      match Visitor_index fuel sourceFile (newVisitor doc (cache s)) with
      | Ok (_, visitor) =>
          let s' := {| written := written s; cache := symbolsCache visitor |} in
          if bool_decide (0 < length (occurrences (Typed.doc visitor)))
          then writeIndex (IndexDocuments [Typed.doc visitor]) s'
          else Ok (tt, s')
      | Throw e => Throw e
      | OutOfFuel => OutOfFuel
      end
  else ret tt.

(** [Indexer.index]. *)
Definition index (fuel : nat) : StateM Indexer unit :=
  writeIndex (IndexMetadata (project ts));;
  forM (indexSourceFile fuel) (getSourceFiles ts).
End Visitor.

End Typed.

(** ** Sample programs *)

Module Samples.
Import Lsif.

(** One project file [/p/src/a.ts] declaring [foo] (node 1, name 2) and
    using it twice (nodes 3 and 4), with an export assignment (node 5) and
    an export declaration (node 7); a second file [/p/src/b.ts] (node 21)
    that merges a declaration into symbol 11. Symbols 12 and 13 are two
    methods that name each other as base member; symbol 14 is purely
    transient; symbol 15 is a union of 16 and 17 at node 3. *)
Definition sampleKind (n : nat) : SyntaxKind :=
  match n with
  | 0 | 21 => SourceFile
  | 1 | 20 | 22 => FunctionDeclaration
  | 2 | 3 | 4 | 6 => Identifier
  | 5 => ExportAssignment
  | 7 => ExportDeclaration
  | _ => OtherKind
  end.

Definition sampleFile (n : nat) : nat := if decide (n < 21) then 0 else 21.

Definition sampleFileName (n : nat) : string :=
  if decide (n = 0) then "/p/src/a.ts" else "/p/src/b.ts".

Definition sampleSymbolAt (n : nat) : option nat :=
  match n with
  | 2 | 3 | 4 => Some 10
  | 5 | 6 => Some 12
  | _ => None
  end.

Definition sampleDeclarations (s : nat) : option (list nat) :=
  match s with
  | 10 => Some [1]
  | 11 => Some [20; 22]
  | _ => None
  end.

Definition sampleBaseMembers (container : nat) : option (list nat) :=
  match container with
  | 112 => Some [13]
  | 113 => Some [12]
  | _ => None
  end.

Definition sampleOracleWith (baseMembers : nat → option (list nat)) : Oracle :=
  {| kind := sampleKind;
     children := fun n => match n with 0 => [1; 3; 4; 5; 7] | 1 => [2] | 5 => [6] | _ => [] end;
     getSourceFile := sampleFile;
     fileName := sampleFileName;
     isDeclarationFile := fun _ => false;
     nodeText := fun n => match n with 2 | 3 | 4 => "foo" | _ => "m" end;
     startPosition := fun _ n => {| line := n; character := 0 |};
     endPosition := fun _ n => {| line := n; character := 3 |};
     declName := fun n => S n;
     expression := fun n => S n;
     exportClause := fun _ => None;
     exportElements := fun _ => [];
     propertyName := fun _ => None;
     moduleSpecifier := fun _ => None;
     checkerSymbolAtLocation := sampleSymbolAt;
     getAliasedSymbol := fun s => s;
     getQuickInfoAtPosition := fun _ _ => Throw "no language service";
     getFlags := fun s => if decide (s = 14) then SymbolFlags_Transient else 4%Z;
     getName := fun _ => "m";
     getEscapedName := fun _ => "m";
     symbolDeclarations := sampleDeclarations;
     getSymbolFromNode := fun _ => None;
     createSymbolKey := fun s => pretty s;
     isTransient := fun s => bool_decide (s = 14 ∨ s = 15);
     isComposite := fun s n => bool_decide (s = 15 ∧ n = Some 3);
     getCompositeSymbols := fun s n => if decide (s = 15) then Some [16; 17] else None;
     isTypeAlias := fun _ => false;
     isAliasSymbol := fun _ => false;
     isMethodSymbol := fun s => bool_decide (s = 12 ∨ s = 13);
     isValueModule := fun _ => false;
     isSourceFileSymbol := fun _ => false;
     getSymbolParent := fun s => Some (s + 100);
     isNamedDeclaration := fun n => bool_decide (sampleKind n = FunctionDeclaration);
     getUniqueSourceFiles := fun ds => remove_dups (sampleFile <$> default [] ds);
     tssComputeMonikerPath := fun _ p => p;
     toOutLocation := fun f _ _ => f;
     createMonikerIdentifier := fun p e => default EmptyString p +:+ ":" +:+ default EmptyString e;
     isSourceFileDefaultLibrary := fun _ => false;
     isSourceFileFromExternalLibrary := fun _ => false;
     getLocationKind := fun _ => 0;
     getExportPath := fun s _ => if decide (s = 10) then Some "foo" else None;
     findBaseMembers := fun c _ => baseMembers c;
     handleImportMoniker := fun i => Some {| mkind := MImport; identifier := i |};
     handleExportMoniker := fun i => Some {| mkind := MExport; identifier := i |};
     projectRoot := "/p";
     rootDir := "/p/src";
     outDir := "/p/out" |}.

Definition sampleOracle : Oracle := sampleOracleWith sampleBaseMembers.

(** The same project with method 13 at the top of its hierarchy, and a
    measure of its symbols: the method 12 and the union 15 sit one layer
    above the symbols they are built from. *)
Definition layeredOracle : Oracle :=
  sampleOracleWith (fun container =>
                      if decide (container = 112) then Some [13] else None).

Definition layeredRank (symbol : nat) : nat :=
  match symbol with
  | 12 | 15 => 1
  | _ => 0
  end.

(** The indexer inside [/p/src/a.ts]: what [preVisit] leaves. *)
Definition insideFile : Indexer :=
  match Graph.preVisit sampleOracle 0 0 initial with
  | Ok (_, s) => s
  | _ => initial
  end.

(** A stand-in for the nested call that only reports whether the slot of
    the key [k] is visible. *)
Definition probe (k : string) : Symbol → option Node → M loc :=
  fun _ _ s => match symbolDatas s !! k with
               | Some _ => Throw "slot reserved"
               | None => Throw "slot not reserved"
               end.

(** The indexer after the declaration name of [foo] (node 2) was visited. *)
Definition fooDeclared : Indexer :=
  match Graph.visitSymbol sampleOracle 0 2 insideFile with
  | Ok (_, s) => s
  | _ => initial
  end.

(** One level of real calls above the [probe]. *)
Definition probeBelow (k : string) : Symbol → option Node → M loc :=
  Graph.getOrCreateSymbolData_body sampleOracle (probe k).

End Samples.

Module TypedSamples.
Import Typed.

(** Three project files and a library file. [/p/a.ts] (node 0) holds
    [var x] (nodes 1-4) and [function f() { var y }] (nodes 5-11);
    [/p/b.ts] (node 20) holds [function g() { var z }] (nodes 21-27);
    [/p/c.ts] (node 30) has no identifier; [/lib/lib.d.ts] (node 40) is part
    of the program but not of the configuration. *)
Definition sampleKind (n : nat) : SyntaxKind :=
  match n with
  | 0 | 20 | 30 | 40 => SourceFile
  | 1 | 8 | 24 => VariableStatement
  | 2 | 9 | 25 => VariableDeclarationList
  | 3 | 10 | 26 => VariableDeclaration
  | 4 | 6 | 11 | 22 | 27 | 41 => Identifier
  | 5 | 21 => FunctionDeclaration
  | 7 | 23 => Block
  | _ => OtherKind
  end.

Definition sampleParent (n : nat) : nat :=
  match n with
  | 1 | 5 => 0 | 2 => 1 | 3 => 2 | 4 => 3 | 6 | 7 => 5 | 8 => 7 | 9 => 8
  | 10 => 9 | 11 => 10
  | 21 => 20 | 22 | 23 => 21 | 24 => 23 | 25 => 24 | 26 => 25 | 27 => 26
  | 41 => 40
  | _ => 0
  end.

Definition sampleChildren (n : nat) : list nat :=
  match n with
  | 0 => [1; 5] | 1 => [2] | 2 => [3] | 3 => [4] | 5 => [6; 7] | 7 => [8]
  | 8 => [9] | 9 => [10] | 10 => [11]
  | 20 => [21] | 21 => [22; 23] | 23 => [24] | 24 => [25] | 25 => [26]
  | 26 => [27] | 40 => [41]
  | _ => []
  end.

Definition sampleName (n : nat) : option nat :=
  match n with
  | 3 => Some 4 | 5 => Some 6 | 10 => Some 11 | 21 => Some 22 | 26 => Some 27
  | _ => None
  end.

Definition sampleNameText (n : nat) : string :=
  match n with
  | 3 => "x" | 5 => "f" | 10 => "y" | 21 => "g" | 26 => "z"
  | _ => EmptyString
  end.

Definition sampleFile (n : nat) : nat :=
  if Nat.ltb n 20 then 0 else if Nat.ltb n 30 then 20
  else if Nat.ltb n 40 then 30 else 40.

Definition sampleFileName (n : nat) : string :=
  match n with
  | 0 => "/p/a.ts" | 20 => "/p/b.ts" | 30 => "/p/c.ts"
  | _ => "/lib/lib.d.ts"
  end.

Definition sampleSymbolAt (n : nat) : option nat :=
  match n with
  | 4 => Some 100 | 6 => Some 101 | 11 => Some 102 | 22 => Some 103
  | 27 => Some 104 | 41 => Some 101
  | _ => None
  end.

Definition sampleDeclarations (s : nat) : option (list nat) :=
  match s with
  | 100 => Some [3] | 101 => Some [5] | 102 => Some [10] | 103 => Some [21]
  | 104 => Some [26]
  | _ => None
  end.

Definition sampleHost : Host :=
  {| kind := sampleKind; parent := sampleParent; children := sampleChildren;
     name := sampleName; nameText := sampleNameText;
     optionalNameText := fun n => Some (sampleNameText n);
     getSourceFile := sampleFile; fileName := sampleFileName;
     getSymbolAtLocation := sampleSymbolAt;
     declarations := sampleDeclarations;
     typeHasSymbol := fun _ => true;
     typeDeclarations := fun _ => None;
     packagesSymbol := fun f =>
       if decide (f = "/p/a.ts" ∨ f = "/p/b.ts")
       then Some (package "pkg" "1.0") else None;
     rangeToLsif := fun n => [n; 0; 1];
     SymbolRole_Definition := 1;
     getSourceFiles := [40; 0; 20; 30];
     fileNames := ["/p/a.ts"; "/p/b.ts"; "/p/c.ts"];
     project := "/p";
     pathRelative := fun _ f => f |}.

(** The depth of a node in its file. *)
Definition sampleRank (n : nat) : nat :=
  match n with
  | 0 | 20 | 30 | 40 => 0
  | 1 | 5 | 21 | 41 => 1
  | 2 | 6 | 7 | 22 | 23 => 2
  | 3 | 8 | 24 => 3
  | 4 | 9 | 25 => 4
  | 10 | 26 => 5
  | 11 | 27 => 6
  | _ => 7
  end.

Definition start : Indexer := {| written := []; cache := ∅ |}.

(** Two project files. [/p/m.ts] (node 0) holds [import { n } from './n']:
    the import declaration (node 1), its clause (2), the named imports (3),
    the import specifier (4) and its name (5). [/p/n.ts] (node 6) holds
    what [n] is; [hasSymbol] tells whether the type of the import specifier
    has a symbol: it has one where [n] is an interface (node 7), and none
    where [n] is a constant of type [number]. *)
Definition importKind (n : nat) : SyntaxKind :=
  match n with
  | 0 | 6 => SourceFile
  | 1 => ImportDeclaration
  | 2 => ImportClause
  | 3 => NamedImports
  | 4 => ImportSpecifier
  | 5 => Identifier
  | 7 => InterfaceDeclaration
  | _ => OtherKind
  end.

Definition importHost (hasSymbol : bool) : Host :=
  {| kind := importKind;
     parent := fun n => match n with
                        | 2 => 1 | 3 => 2 | 4 => 3 | 5 => 4 | 7 => 6 | _ => 0
                        end;
     children := fun n => match n with
                          | 0 => [1] | 1 => [2] | 2 => [3] | 3 => [4]
                          | 4 => [5] | 6 => [7] | _ => []
                          end;
     name := fun n => match n with 4 => Some 5 | _ => None end;
     nameText := fun _ => "n";
     optionalNameText := fun _ => Some "n";
     getSourceFile := fun n => if Nat.ltb n 6 then 0 else 6;
     fileName := fun n => if Nat.ltb n 6 then "/p/m.ts" else "/p/n.ts";
     getSymbolAtLocation := fun n => match n with 5 => Some 100 | _ => None end;
     declarations := fun s => match s with 100 => Some [4] | _ => None end;
     typeHasSymbol := fun _ => hasSymbol;
     typeDeclarations := fun n => match n with
                                  | 4 => if hasSymbol then Some [7] else None
                                  | _ => None
                                  end;
     packagesSymbol := fun _ => Some (package "pkg" "1.0");
     rangeToLsif := fun n => [n; 0; 1];
     SymbolRole_Definition := 1;
     getSourceFiles := [0; 6];
     fileNames := ["/p/m.ts"; "/p/n.ts"];
     project := "/p";
     pathRelative := fun _ f => f |}.

Definition docM : Document :=
  {| relative_path := "/p/m.ts"; occurrences := [] |}.

(** The documents [Indexer.index] creates for the first two files. *)
Definition docA : Document :=
  {| relative_path := "/p/a.ts"; occurrences := [] |}.
Definition docB : Document :=
  {| relative_path := "/p/b.ts"; occurrences := [] |}.

End TypedSamples.

(** ** Reasoning about state-passing code *)

(** [m] only makes steps in [R]. *)
Definition steps {S A} (R : S → S → Prop) (m : StateM S A) : Prop :=
  ∀ s a s', m s = Ok (a, s') → R s s'.

(** The document context of the graph indexer is left as it was. *)
Definition sameContext (s s' : Lsif.Indexer) : Prop :=
  Lsif.currentDocumentData s' = Lsif.currentDocumentData s
  ∧ Lsif.currentSourceFile s' = Lsif.currentSourceFile s.

(** Neither the symbol cache nor the document context is written. *)
Definition sameControl (s s' : Lsif.Indexer) : Prop :=
  Lsif.symbolDatas s' = Lsif.symbolDatas s ∧ sameContext s s'.

(** Moreover no symbol data is created. *)
Definition sameShape (s s' : Lsif.Indexer) : Prop :=
  sameControl s s'
  ∧ length (Lsif.symbolStore s') = length (Lsif.symbolStore s).

(** Only the emitter and the documents change. *)
Definition sameSymbols (s s' : Lsif.Indexer) : Prop :=
  sameControl s s' ∧ Lsif.symbolStore s' = Lsif.symbolStore s.

(** The symbol cache is not written. *)
Definition sameCache (s s' : Lsif.Indexer) : Prop :=
  Lsif.symbolDatas s' = Lsif.symbolDatas s.

(** The relations that the emitter and the document cache respect, those
    that the updates of existing symbol data respect as well, and those that
    even the creation of a symbol data respects. *)
Definition DocFramed (R : Lsif.Indexer → Lsif.Indexer → Prop) : Prop :=
  PreOrder R ∧ ∀ s s', sameSymbols s s' → R s s'.

Definition Framed (R : Lsif.Indexer → Lsif.Indexer → Prop) : Prop :=
  PreOrder R ∧ ∀ s s', sameShape s s' → R s s'.

Definition Growing (R : Lsif.Indexer → Lsif.Indexer → Prop) : Prop :=
  PreOrder R ∧ ∀ s s', sameControl s s' → R s s'.

(** The slot of key [k] stays free. *)
Definition keepsAbsent (k : string) (s s' : Lsif.Indexer) : Prop :=
  Lsif.symbolDatas s !! k = None → Lsif.symbolDatas s' !! k = None.

(** The document data [getOrCreateDocumentData] hands out for the source
    files of a symbol, in the order of enumeration. *)
Definition documentsOf (ts : Lsif.Oracle) (sourceFiles : list Node)
  : Lsif.M (list Lsif.DocumentData) :=
  mapM (fun sourceFile =>
          let* documentData := Lsif.getOrCreateDocumentData ts sourceFile in
          Lsif.readDocument documentData) sourceFiles.

(** An emitted range vertex tagged as a reference. *)
Definition isReference (e : Lsif.Element) : Prop :=
  match e with
  | Lsif.ERange r =>
      match Lsif.tag r with
      | Lsif.ReferenceTag _ => True
      | Lsif.DefinitionTag _ _ _ => False
      end
  | _ => False
  end.

(** An invariant of the state seen as a relation between states. *)
Definition preservesInv {S} (I : S → Prop) (s s' : S) : Prop := I s → I s'.

(** The local symbols of one visitor: every entry of [localSymbolCache] is
    a local symbol below the counter, and no two nodes share one. *)
Definition LocalInv (v : Typed.Visitor) : Prop :=
  (∀ n s, Typed.localSymbolCache v !! n = Some s →
          ∃ i, s = Typed.local i ∧ i < Typed.localCounter v)
  ∧ (∀ n1 n2 i, Typed.localSymbolCache v !! n1 = Some (Typed.local i) →
                Typed.localSymbolCache v !! n2 = Some (Typed.local i) →
                n1 = n2).

(** A measure that decreases along every call [lsifSymbol] and
    [descriptor] make: to the parent, to the source file of a property
    assignment, to the first declaration of the type of an import
    specifier. *)
Definition Ranked (ts : Typed.Host) (rank : Node → nat) : Prop :=
  ∀ n,
    (Typed.kind ts n ≠ SourceFile →
     rank (Typed.parent ts n) < rank n
     ∧ rank (Typed.getSourceFile ts n) < rank n)
    ∧ (∀ d ds, Typed.typeDeclarations ts n = Some (d :: ds) → rank d < rank n).

(** The type of every import specifier has a symbol: [tpe.symbol] of
    src/Visitor.ts 118 and 165 is defined. *)
Definition TypeSymbols (ts : Typed.Host) : Prop :=
  ∀ n, Typed.kind ts n = ImportSpecifier → Typed.typeHasSymbol ts n = true.

(** The visitor with another document. *)
Definition withDoc (d : Typed.Document) (v : Typed.Visitor) : Typed.Visitor :=
  {| Typed.localCounter := Typed.localCounter v;
     Typed.propertyCounters := Typed.propertyCounters v;
     Typed.localSymbolCache := Typed.localSymbolCache v;
     Typed.symbolsCache := Typed.symbolsCache v;
     Typed.doc := d |}.

(** [m] neither reads nor writes the document of the visitor. *)
Definition docBlind {A} (m : Typed.V A) : Prop :=
  ∀ d v, m (withDoc d v)
         = match m v with
           | Ok (a, v') => Ok (a, withDoc d v')
           | Throw e => Throw e
           | OutOfFuel => OutOfFuel
           end.

(** The visitor [v] after the occurrences [os] were pushed. *)
Definition pushed (os : list Typed.Occurrence) (v : Typed.Visitor)
  : Typed.Visitor :=
  withDoc {| Typed.relative_path := Typed.relative_path (Typed.doc v);
             Typed.occurrences := Typed.occurrences (Typed.doc v) ++ os |} v.

(** The run of [m] from [s] comes back with a value. *)
Definition returns {S A} (m : StateM S A) (s : S) : Prop :=
  ∃ a s', m s = Ok (a, s').

(** The document of the visitor is untouched; its path is untouched. *)
Definition sameDoc (v v' : Typed.Visitor) : Prop := Typed.doc v' = Typed.doc v.

Definition samePath (v v' : Typed.Visitor) : Prop :=
  Typed.relative_path (Typed.doc v') = Typed.relative_path (Typed.doc v).

(** The symbol cache is a one-to-one table of the symbol data created so
    far: as many keys as nodes, every slot holds an existing node, no node
    sits in two slots. *)
Definition OneNodePerKey (s : Lsif.Indexer) : Prop :=
  size (Lsif.symbolDatas s) = length (Lsif.symbolStore s)
  ∧ (∀ k l, Lsif.symbolDatas s !! k = Some l → l < length (Lsif.symbolStore s))
  ∧ (∀ k1 k2 l, Lsif.symbolDatas s !! k1 = Some l →
                Lsif.symbolDatas s !! k2 = Some l → k1 = k2).

(** A measure on symbols that every nested call of [makeSymbolData]
    decreases: to the target of an alias, to the base members of a method,
    to the members of a composite. Symbols with one key have one measure. *)
Definition Acyclic (ts : Lsif.Oracle) (rank : Symbol → nat) : Prop :=
  (∀ a b, Lsif.createSymbolKey ts a = Lsif.createSymbolKey ts b →
          rank a = rank b)
  ∧ (∀ symbol, Lsif.isAliasSymbol ts symbol = true →
               (rank (Lsif.getAliasedSymbol ts symbol) < rank symbol)%nat)
  ∧ (∀ symbol container members member,
       Lsif.getSymbolParent ts symbol = Some container →
       Lsif.findBaseMembers ts container (Lsif.getName ts symbol)
       = Some members →
       member ∈ members → (rank member < rank symbol)%nat)
  ∧ (∀ symbol node composites member,
       Lsif.getCompositeSymbols ts symbol node = Some composites →
       member ∈ composites → (rank member < rank symbol)%nat).

(** What the construction of symbols of measure below [r] does: the
    document context stays, the cache stays a one-to-one table, and no
    slot of a symbol of measure [r] or more is written. *)
Definition Built (ts : Lsif.Oracle) (rank : Symbol → nat) (r : nat)
    (s s' : Lsif.Indexer) : Prop :=
  sameContext s s'
  ∧ preservesInv OneNodePerKey s s'
  ∧ ∀ symbol, (r ≤ rank symbol)%nat →
              keepsAbsent (Lsif.createSymbolKey ts symbol) s s'.

(** The definition sites the creation of a symbol data records: one for
    each declaration that has a text. *)
Definition recordedSites (ts : Lsif.Oracle) (v : Lsif.Variant)
    (symbol : Symbol) (declarations : list Node) : list Lsif.DefinitionInfo :=
  omap (fun declaration =>
          match Graph.SymbolData_getText ts v symbol declaration with
          | Some (_, node) =>
              Some (Lsif.createDefinitionInfo ts
                      (Lsif.getSourceFile ts declaration) node)
          | None => None
          end) declarations.

(** The declarations [SymbolData.getDeclarations] hands out when it
    returns. *)
Definition declarationsUsed (ts : Lsif.Oracle) (v : Lsif.Variant)
    (symbol : Symbol) (node : option Node) : list Node :=
  if Graph.usesOnlyUseSite v then
    match node with Some n => [n] | None => [] end
  else default [] (Lsif.symbolDeclarations ts symbol).

(** What the definition sites of a symbol data are about: its variant, the
    sites recorded, the number of definitions. *)
Definition sitesView (sd : Lsif.SymbolData)
  : Lsif.Variant * list Lsif.DefinitionInfo * nat :=
  (Lsif.variant sd, Lsif.definitionInfo sd, length (Lsif.definitions sd)).

Definition sitesOf (s : Lsif.Indexer)
  : list (Lsif.Variant * list Lsif.DefinitionInfo * nat) :=
  sitesView <$> Lsif.symbolStore s.

Definition sameSites (s s' : Lsif.Indexer) : Prop := sitesOf s' = sitesOf s.

(** Recording the sites [infos], with one definition each. *)
Definition record (infos : list Lsif.DefinitionInfo)
    (x : Lsif.Variant * list Lsif.DefinitionInfo * nat)
  : Lsif.Variant * list Lsif.DefinitionInfo * nat :=
  (x.1.1, x.1.2 ++ infos, x.2 + length infos).

(** ** The notions the properties of the traversals are stated with *)

(** *** The graph indexers *)

(** The symbols [makeSymbolData] calls [getOrCreateSymbolData] for. *)
Definition nestedSymbol (ts : Lsif.Oracle) (symbol : Symbol)
    (node : option Node) (nested : Symbol) : Prop :=
  (Lsif.isAliasSymbol ts symbol = true
   ∧ nested = Lsif.getAliasedSymbol ts symbol)
  ∨ (∃ container members,
       Lsif.getSymbolParent ts symbol = Some container
       ∧ Lsif.findBaseMembers ts container (Lsif.getName ts symbol)
         = Some members
       ∧ nested ∈ members)
  ∨ (∃ composites,
       Lsif.getCompositeSymbols ts symbol node = Some composites
       ∧ nested ∈ composites).

(** The document vertices the emitter received. *)
Definition documentsEmitted (s : Lsif.Indexer) : list Lsif.DocumentVertex :=
  omap (fun e => match e with Lsif.EDocument d => Some d | _ => None end)
    (Lsif.emitted s).

(** What a document data is created with. *)
Definition documentView (d : Lsif.DocumentData)
  : Lsif.DocumentVertex * bool * option string :=
  (Lsif.document d, Lsif.externalLibrary d, Lsif.monikerPath d).

(** Nothing happens to the documents but ranges being added. *)
Definition sameDocuments (s s' : Lsif.Indexer) : Prop :=
  documentsEmitted s' = documentsEmitted s
  ∧ Lsif.documentDatas s' = Lsif.documentDatas s
  ∧ documentView <$> Lsif.documentStore s' = documentView <$> Lsif.documentStore s.

(** The document cache is a one-to-one table of the document data: as many
    file names as documents, each file name in front of the document with
    its name, and one document vertex emitted for each. *)
Definition OneDocumentPerFile (s : Lsif.Indexer) : Prop :=
  size (Lsif.documentDatas s) = length (Lsif.documentStore s)
  ∧ (∀ f l, Lsif.documentDatas s !! f = Some l →
            ∃ d, Lsif.documentStore s !! l = Some d
                 ∧ Lsif.uri (Lsif.document d) = f)
  ∧ documentsEmitted s = Lsif.document <$> Lsif.documentStore s.

(** The documents are kept: the cache keeps its entries, the document data
    keep their vertex, their flag and their path, the vertices emitted stay
    emitted in their order. *)
Definition DocumentsKept (s s' : Lsif.Indexer) : Prop :=
  Lsif.documentDatas s ⊆ Lsif.documentDatas s'
  ∧ (documentView <$> Lsif.documentStore s)
      `prefix_of` (documentView <$> Lsif.documentStore s')
  ∧ documentsEmitted s `prefix_of` documentsEmitted s'.

(** Over a run: the documents are kept and the cache stays one-to-one. *)
Definition DocumentsRun (s s' : Lsif.Indexer) : Prop :=
  DocumentsKept s s' ∧ preservesInv OneDocumentPerFile s s'.

(** What a symbol data is given when it is created: everything but its
    references and its lifecycle. *)
Definition frozenView (sd : Lsif.SymbolData)
  : Lsif.DocumentVertex * Lsif.Variant * list (Node * Lsif.RangeVertex)
    * list Lsif.DefinitionInfo * list Lsif.Moniker * list Lsif.Hover :=
  (Lsif.sdocument sd, Lsif.variant sd, Lsif.definitions sd,
   Lsif.definitionInfo sd, Lsif.monikers sd, Lsif.hovers sd).

(** The symbol data that exist only gain references. *)
Definition Accrues (s s' : Lsif.Indexer) : Prop :=
  ∀ l sd, Lsif.symbolStore s !! l = Some sd →
    ∃ sd', Lsif.symbolStore s' !! l = Some sd'
           ∧ frozenView sd' = frozenView sd
           ∧ Lsif.references sd `prefix_of` Lsif.references sd'.

(** No symbol data holds two monikers. *)
Definition AtMostOneMoniker (s : Lsif.Indexer) : Prop :=
  ∀ l sd, Lsif.symbolStore s !! l = Some sd →
          (length (Lsif.monikers sd) ≤ 1)%nat.

(** Over a run: the symbol data only gain references, and none gets a
    second moniker. *)
Definition Accumulates (s s' : Lsif.Indexer) : Prop :=
  Accrues s s' ∧ preservesInv AtMostOneMoniker s s'.

(** While the symbol data [l] is being filled: the ones before it are left
    alone, none is created, no moniker is attached. *)
Definition Fills (l : loc) (s s' : Lsif.Indexer) : Prop :=
  (∀ i, (i < l)%nat → Lsif.symbolStore s' !! i = Lsif.symbolStore s !! i)
  ∧ length (Lsif.symbolStore s') = length (Lsif.symbolStore s)
  ∧ Lsif.monikers <$> Lsif.symbolStore s' = Lsif.monikers <$> Lsif.symbolStore s.

(** The number of dots of a name. *)
Fixpoint dots (s : string) : nat :=
  match s with
  | EmptyString => 0
  | String c rest => (if bool_decide (c = "."%char) then 1 else 0) + dots rest
  end.

(** The run of [m] from a state in [P] comes back: with a value and a state
    in [Q], or with a thrown error among [errors]; never with the fuel
    spent. *)
Definition runs {S A} (errors : string → Prop) (P : S → Prop)
    (m : StateM S A) (Q : A → S → Prop) : Prop :=
  ∀ s, P s → match m s with
             | Ok (a, s') => Q a s'
             | Throw e => errors e
             | OutOfFuel => False
             end.

(** The run of [m] ends, with a value or with a thrown error. *)
Definition finishes {S A} (m : StateM S A) : Prop :=
  runs (fun _ => True) (fun _ => True) m (fun _ _ => True).

(** A measure on syntax nodes that decreases from a node to its children. *)
Definition Shallow (ts : Lsif.Oracle) (height : Node → nat) : Prop :=
  ∀ n c, c ∈ Lsif.children ts n → (height c < height n)%nat.

(** Every reference the indexer holds points into its stores. *)
Definition Sound (s : Lsif.Indexer) : Prop :=
  (∀ f l, Lsif.documentDatas s !! f = Some l →
          (l < length (Lsif.documentStore s))%nat)
  ∧ (∀ k l, Lsif.symbolDatas s !! k = Some l →
            (l < length (Lsif.symbolStore s))%nat)
  ∧ (∀ d, Lsif.currentDocumentData s = Some d →
          (d < length (Lsif.documentStore s))%nat).

(** A sound state inside the document [d] of the file [f], with [n] symbol
    data or more. *)
Definition Within (f : option Node) (d : option loc) (n : nat)
    (s : Lsif.Indexer) : Prop :=
  Sound s
  ∧ Lsif.currentSourceFile s = f ∧ Lsif.currentDocumentData s = d
  ∧ (n ≤ length (Lsif.symbolStore s))%nat.

(** No syntax node has a source file as a child. *)
Definition FilesAtTop (ts : Lsif.Oracle) : Prop :=
  ∀ n c, c ∈ Lsif.children ts n → Lsif.kind ts c ≠ SourceFile.

(** The moniker path and the library flag of the document data of a source
    file, as the indexer holds them: [documentData.monikerPath] and
    [documentData.externalLibrary] of src/indexer.ts 531-535. *)
Definition documentPath (ts : Lsif.Oracle) (s : Lsif.Indexer)
    (sourceFile : Node) : option string * bool :=
  match Lsif.documentDatas s !! Lsif.fileName ts sourceFile with
  | Some l =>
      match Lsif.documentStore s !! l with
      | Some d => (Lsif.monikerPath d, Lsif.externalLibrary d)
      | None => (None, false)
      end
  | None => (None, false)
  end.

(** The moniker path the source files of a symbol agree on, from the paths
    and library flags of their documents in the order of enumeration. The
    files without a path are passed over until one has a path; that file
    supplies the candidate, with its library flag; any later file whose
    value is different, another path or no path, voids it, and the flag
    with it. While no file has a path, the flag is that of the last file
    seen. *)
Fixpoint agreedPath (flag : bool) (paths : list (option string * bool))
  : option string * bool :=
  match paths with
  | [] => (None, flag)
  | (None, externalLibrary) :: rest => agreedPath externalLibrary rest
  | (Some p, externalLibrary) :: rest =>
      if forallb (fun x => bool_decide (x.1 = Some p)) rest
      then (Some p, externalLibrary)
      else (None, false)
  end.

(** The monikers of a symbol whose source files are [sourceFiles]: at most
    the one [monikerFor] makes from the export path and the path the
    documents of the files agree on. *)
Definition attachedMonikers (ts : Lsif.Oracle) (symbol : Symbol)
    (sourceFiles : list Node) (s : Lsif.Indexer) : list Lsif.Moniker :=
  let agreed := agreedPath false (documentPath ts s <$> sourceFiles) in
  option_list
    (Lsif.monikerFor ts symbol
       (Lsif.getExportPath ts symbol (Lsif.getLocationKind ts sourceFiles))
       agreed.1 agreed.2).

(** The definition sites the creation of a symbol data records in
    src/v2/indexer.ts: one for each declaration that has a text. *)
Definition sitesRecorded (ts : Lsif.Oracle) (symbol : Symbol)
    (r : V2.ResolverType) (declarations : list Node)
  : list Lsif.DefinitionInfo :=
  omap (fun declaration =>
          match V2.getText ts symbol declaration r with
          | Some (_, node) =>
              Some (Lsif.createDefinitionInfo ts
                      (Lsif.getSourceFile ts declaration) node)
          | None => None
          end) declarations.

(** The source files [SymbolData.getSourceFiles] hands out. *)
Definition sourceFilesUsed (ts : Lsif.Oracle) (v : Lsif.Variant)
    (symbol : Symbol) (node : option Node) : list Node :=
  if Graph.usesOnlyUseSite v then
    match node with Some n => [Lsif.getSourceFile ts n] | None => [] end
  else Lsif.getUniqueSourceFiles ts (Lsif.symbolDeclarations ts symbol).

(** The path and the flag of a document data. *)
Definition pathOf (d : Lsif.DocumentData) : option string * bool :=
  (Lsif.monikerPath d, Lsif.externalLibrary d).

Module ExtraSamples.
Import Lsif Samples.

(** The sample project with other escaped names for its symbols. *)
Definition namedOracle (names : Symbol → string) : Oracle :=
  {| kind := kind sampleOracle;
     children := children sampleOracle;
     getSourceFile := getSourceFile sampleOracle;
     fileName := fileName sampleOracle;
     isDeclarationFile := isDeclarationFile sampleOracle;
     nodeText := nodeText sampleOracle;
     startPosition := startPosition sampleOracle;
     endPosition := endPosition sampleOracle;
     declName := declName sampleOracle;
     expression := expression sampleOracle;
     exportClause := exportClause sampleOracle;
     exportElements := exportElements sampleOracle;
     propertyName := propertyName sampleOracle;
     moduleSpecifier := moduleSpecifier sampleOracle;
     checkerSymbolAtLocation := checkerSymbolAtLocation sampleOracle;
     getAliasedSymbol := getAliasedSymbol sampleOracle;
     getQuickInfoAtPosition := getQuickInfoAtPosition sampleOracle;
     getFlags := getFlags sampleOracle;
     getName := getName sampleOracle;
     getEscapedName := names;
     symbolDeclarations := symbolDeclarations sampleOracle;
     getSymbolFromNode := getSymbolFromNode sampleOracle;
     createSymbolKey := createSymbolKey sampleOracle;
     isTransient := isTransient sampleOracle;
     isComposite := isComposite sampleOracle;
     getCompositeSymbols := getCompositeSymbols sampleOracle;
     isTypeAlias := isTypeAlias sampleOracle;
     isAliasSymbol := isAliasSymbol sampleOracle;
     isMethodSymbol := isMethodSymbol sampleOracle;
     isValueModule := isValueModule sampleOracle;
     isSourceFileSymbol := isSourceFileSymbol sampleOracle;
     getSymbolParent := getSymbolParent sampleOracle;
     isNamedDeclaration := isNamedDeclaration sampleOracle;
     getUniqueSourceFiles := getUniqueSourceFiles sampleOracle;
     tssComputeMonikerPath := tssComputeMonikerPath sampleOracle;
     toOutLocation := toOutLocation sampleOracle;
     createMonikerIdentifier := createMonikerIdentifier sampleOracle;
     isSourceFileDefaultLibrary := isSourceFileDefaultLibrary sampleOracle;
     isSourceFileFromExternalLibrary := isSourceFileFromExternalLibrary sampleOracle;
     getLocationKind := getLocationKind sampleOracle;
     getExportPath := getExportPath sampleOracle;
     findBaseMembers := findBaseMembers sampleOracle;
     handleImportMoniker := handleImportMoniker sampleOracle;
     handleExportMoniker := handleExportMoniker sampleOracle;
     projectRoot := projectRoot sampleOracle;
     rootDir := rootDir sampleOracle;
     outDir := outDir sampleOracle |}.

(** The height of the nodes of the sample project. *)
Definition sampleHeight (n : Node) : nat :=
  match n with
  | 0 => 2
  | 1 | 5 => 1
  | _ => 0
  end.

(** The sample project seen from another root directory, with every symbol
    exported as [foo]: the files [declarationFile] holds are declaration
    files outside the root directory, which have no moniker path; the
    others have their own path. *)
Definition exportingOracle (declarationFile : Node → bool) : Oracle :=
  {| kind := kind sampleOracle;
     children := children sampleOracle;
     getSourceFile := getSourceFile sampleOracle;
     fileName := fileName sampleOracle;
     isDeclarationFile := declarationFile;
     nodeText := nodeText sampleOracle;
     startPosition := startPosition sampleOracle;
     endPosition := endPosition sampleOracle;
     declName := declName sampleOracle;
     expression := expression sampleOracle;
     exportClause := exportClause sampleOracle;
     exportElements := exportElements sampleOracle;
     propertyName := propertyName sampleOracle;
     moduleSpecifier := moduleSpecifier sampleOracle;
     checkerSymbolAtLocation := checkerSymbolAtLocation sampleOracle;
     getAliasedSymbol := getAliasedSymbol sampleOracle;
     getQuickInfoAtPosition := getQuickInfoAtPosition sampleOracle;
     getFlags := getFlags sampleOracle;
     getName := getName sampleOracle;
     getEscapedName := getEscapedName sampleOracle;
     symbolDeclarations := symbolDeclarations sampleOracle;
     getSymbolFromNode := getSymbolFromNode sampleOracle;
     createSymbolKey := createSymbolKey sampleOracle;
     isTransient := isTransient sampleOracle;
     isComposite := isComposite sampleOracle;
     getCompositeSymbols := getCompositeSymbols sampleOracle;
     isTypeAlias := isTypeAlias sampleOracle;
     isAliasSymbol := isAliasSymbol sampleOracle;
     isMethodSymbol := isMethodSymbol sampleOracle;
     isValueModule := isValueModule sampleOracle;
     isSourceFileSymbol := isSourceFileSymbol sampleOracle;
     getSymbolParent := getSymbolParent sampleOracle;
     isNamedDeclaration := isNamedDeclaration sampleOracle;
     getUniqueSourceFiles := getUniqueSourceFiles sampleOracle;
     tssComputeMonikerPath := tssComputeMonikerPath sampleOracle;
     toOutLocation := toOutLocation sampleOracle;
     createMonikerIdentifier := createMonikerIdentifier sampleOracle;
     isSourceFileDefaultLibrary := isSourceFileDefaultLibrary sampleOracle;
     isSourceFileFromExternalLibrary := isSourceFileFromExternalLibrary sampleOracle;
     getLocationKind := getLocationKind sampleOracle;
     getExportPath := fun _ _ => Some "foo";
     findBaseMembers := findBaseMembers sampleOracle;
     handleImportMoniker := handleImportMoniker sampleOracle;
     handleExportMoniker := handleExportMoniker sampleOracle;
     projectRoot := projectRoot sampleOracle;
     rootDir := "/q";
     outDir := outDir sampleOracle |}.

(** The indexer inside [/p/src/a.ts] of a project: what [preVisit]
    leaves. *)
Definition insideFileOf (ts : Oracle) : Indexer :=
  match Graph.preVisit ts 0 0 initial with
  | Ok (_, s) => s
  | _ => initial
  end.

End ExtraSamples.

(** *** The visitor *)

(** What the two caches of a visitor answer for a node: the shared cache
    first, the cache of local symbols second. *)
Definition resolvedAs (v : Typed.Visitor) (n : Node) : option Typed.LsifSymbol :=
  match Typed.symbolsCache v !! n with
  | Some s => Some s
  | None => Typed.localSymbolCache v !! n
  end.

(** A cache without local symbols. *)
Definition NoLocalShared (c : gmap Node Typed.LsifSymbol) : Prop :=
  ∀ n i, c !! n ≠ Some (Typed.local i).

(** Resolution of nodes of measure below [r]: what the caches answered
    they still answer, and no node of measure [r] or more is entered. *)
Definition Resolves (rank : Node → nat) (r : nat) (v v' : Typed.Visitor)
  : Prop :=
  (∀ n x, resolvedAs v n = Some x → resolvedAs v' n = Some x)
  ∧ (∀ n, (r ≤ rank n)%nat → resolvedAs v n = None → resolvedAs v' n = None).

(** The answers of the caches are kept. *)
Definition Extends (v v' : Typed.Visitor) : Prop :=
  ∀ n x, resolvedAs v n = Some x → resolvedAs v' n = Some x.

(** The syntax trees and packages the visitor is run on: the symbol of a
    package is not a local symbol, and an anonymous container is never the
    child of an import specifier. *)
Definition WellFormed (ts : Typed.Host) : Prop :=
  (∀ f p i, Typed.packagesSymbol ts f = Some p → p ≠ Typed.local i)
  ∧ (∀ n, Typed.isAnonymousContainerOfSymbols ts n = true →
          Typed.kind ts (Typed.parent ts n) ≠ ImportSpecifier).

(** The shared cache of a visitor holds no local symbol. *)
Definition sharedOf (v : Typed.Visitor) : Prop :=
  NoLocalShared (Typed.symbolsCache v).

(** A node that [lsifSymbol] names after its parent: not a block, a source
    file or a property assignment. *)
Definition plain (ts : Typed.Host) (n : Node) : bool :=
  match Typed.kind ts n with
  | Block | SourceFile | PropertyAssignment | ShorthandPropertyAssignment =>
      false
  | _ => true
  end.

(** A plain node with a block above it, at most [depth] plain nodes away. *)
Fixpoint scoped (ts : Typed.Host) (depth : nat) (n : Node) : bool :=
  plain ts n
  && (isKind (Typed.kind ts (Typed.parent ts n)) Block
      || match depth with
         | 0 => false
         | S depth' => scoped ts depth' (Typed.parent ts n)
         end).

(** The caches know no block, and know the nodes below a block by a local
    symbol. *)
Definition BlockScoped (ts : Typed.Host) (v : Typed.Visitor) : Prop :=
  (∀ m, Typed.kind ts m = Block → resolvedAs v m = None)
  ∧ (∀ d m x, scoped ts d m = true → resolvedAs v m = Some x →
              ∃ i, x = Typed.local i).

(** What the resolution of the node [m] may return, by the place of [m]. *)
Definition scopedResult (ts : Typed.Host) (m : Node) (x : Typed.LsifSymbol)
  : Prop :=
  (Typed.kind ts m = Block → x = Typed.empty)
  ∧ (∀ d, scoped ts d m = true → ∃ i, x = Typed.local i).

(** The nodes [Visitor.visit] goes through from [n], parents before
    children, children in order, down to [fuel] levels. *)
Fixpoint visited (ts : Typed.Host) (fuel : nat) (n : Node) : list Node :=
  n :: match fuel with
       | 0 => []
       | S fuel' => flat_map (visited ts fuel') (Typed.children ts n)
       end.

(** The range and the role of the occurrences an identifier is due: one
    for each declaration of its symbol. *)
Definition occurrencesDue (ts : Typed.Host) (n : Node) : list (list nat * Z) :=
  if isKind (Typed.kind ts n) Identifier then
    replicate
      (length match Typed.getSymbolAtLocation ts n with
              | Some sym => default [] (Typed.declarations ts sym)
              | None => []
              end)
      (Typed.rangeToLsif ts n,
       if bool_decide (Typed.declarationName ts (Typed.parent ts n) = Some n)
       then Z.lor 0 (Typed.SymbolRole_Definition ts) else 0%Z)
  else [].

(** The occurrences [os] were pushed. *)
Definition pushes (os : list Typed.Occurrence) (v v' : Typed.Visitor) : Prop :=
  Typed.occurrences (Typed.doc v') = Typed.occurrences (Typed.doc v) ++ os
  ∧ Typed.relative_path (Typed.doc v') = Typed.relative_path (Typed.doc v).

(** The range and the role of an occurrence. *)
Definition shape (o : Typed.Occurrence) : list nat * Z :=
  (Typed.range o, Typed.symbol_roles o).

(** A measure on the syntax nodes of the visitor that decreases from a node
    to its children. *)
Definition TypedShallow (ts : Typed.Host) (height : Node → nat) : Prop :=
  ∀ n c, c ∈ Typed.children ts n → (height c < height n)%nat.

Module TypedExtraSamples.
Import Typed.

(** One file [/p/a.ts] (node 0) holding [{ a: 1, a: 2 }]: the object
    literal (node 1) and two property assignments named [a] (nodes 2
    and 3). *)
Definition literalHost : Host :=
  {| kind := fun n => match n with
                      | 0 => SourceFile
                      | 2 | 3 => PropertyAssignment
                      | _ => OtherKind
                      end;
     parent := fun n => match n with 2 | 3 => 1 | _ => 0 end;
     children := fun n => match n with 0 => [1] | 1 => [2; 3] | _ => [] end;
     name := fun _ => None;
     nameText := fun n => match n with 2 | 3 => "a" | _ => EmptyString end;
     optionalNameText := fun _ => None;
     getSourceFile := fun _ => 0;
     fileName := fun _ => "/p/a.ts";
     getSymbolAtLocation := fun _ => None;
     declarations := fun _ => None;
     typeHasSymbol := fun _ => true;
     typeDeclarations := fun _ => None;
     packagesSymbol := fun _ => Some (package "pkg" "1.0");
     rangeToLsif := fun n => [n; 0; 1];
     SymbolRole_Definition := 1;
     getSourceFiles := [0];
     fileNames := ["/p/a.ts"];
     project := "/p";
     pathRelative := fun _ f => f |}.

(** The visitor after the first property assignment was resolved. *)
Definition firstResolved : Visitor :=
  match lsifSymbol literalHost 1 2 (newVisitor TypedSamples.docA ∅) with
  | Ok (_, v) => v
  | _ => newVisitor TypedSamples.docA ∅
  end.
End TypedExtraSamples.

(** * Properties *)

Section StateMFacts.
Context {S : Type}.

Lemma bind_Ok {A B} (m : StateM S A) (k : A → StateM S B) s r :
  bind m k s = Ok r ↔ ∃ a s1, m s = Ok (a, s1) ∧ k a s1 = Ok r.
Proof.
  unfold bind. split.
  - destruct (m s) as [[a s1]| |]; [eauto|discriminate..].
  - intros (a & s1 & -> & H). exact H.
Qed.

Context (R : S → S → Prop) (HR : PreOrder R).

Lemma steps_ret {A} (a : A) : steps R (ret a).
Proof. intros s b s' [= _ <-]. reflexivity. Qed.

Lemma steps_throw {A} msg : steps R (throw (A:=A) msg).
Proof. intros s b s' [=]. Qed.

Lemma steps_stuck {A} : steps R (stuck (A:=A)).
Proof. intros s b s' [=]. Qed.

Lemma steps_gets {A} (f : S → A) : steps R (gets f).
Proof. intros s b s' [= _ <-]. reflexivity. Qed.

Lemma steps_modify (f : S → S) : (∀ s, R s (f s)) → steps R (modify f).
Proof. intros H s [] s' [= <-]. apply H. Qed.

Lemma steps_bind {A B} (m : StateM S A) (k : A → StateM S B) :
  steps R m → (∀ a, steps R (k a)) → steps R (bind m k).
Proof.
  intros Hm Hk s b s' (a & s1 & H1 & H2)%bind_Ok.
  transitivity s1; [eapply Hm | eapply Hk]; eassumption.
Qed.

Lemma steps_forM {A} (f : A → StateM S unit) l :
  (∀ a, steps R (f a)) → steps R (forM f l).
Proof.
  intros Hf. induction l as [|a l IH]; simpl.
  - apply steps_ret.
  - apply steps_bind; auto.
Qed.

Lemma steps_mapM {A B} (f : A → StateM S B) l :
  (∀ a, steps R (f a)) → steps R (mapM f l).
Proof.
  intros Hf. induction l as [|a l IH]; simpl.
  - apply steps_ret.
  - apply steps_bind; [auto|]. intros b.
    apply steps_bind; [auto|]. intros bs. apply steps_ret.
Qed.

Lemma steps_mapM_elem {A B} (f : A → StateM S B) l :
  (∀ a, a ∈ l → steps R (f a)) → steps R (mapM f l).
Proof.
  induction l as [|a l IH]; intros Hf; simpl.
  - apply steps_ret.
  - apply steps_bind; [apply Hf; left|intros b].
    apply steps_bind; [|intros bs; apply steps_ret].
    apply IH. intros c Hc. apply Hf. right. exact Hc.
Qed.
End StateMFacts.

(** One step of a proof that a method only makes steps in some relation. *)
Ltac steps_step :=
  first
    [ apply steps_ret; solve [auto with steps] | apply steps_throw
    | apply steps_stuck
    | apply steps_gets; solve [auto with steps]
    | apply steps_bind; [solve [auto with steps]| |intros ?]
    | apply steps_forM; [solve [auto with steps]|intros ?]
    | apply steps_mapM; [solve [auto with steps]|intros ?]
    | match goal with
      | |- steps _ (match ?x with _ => _ end) => destruct x
      | |- steps _ (if ?b then _ else _) => destruct b
      end ].

(** Close a goal [steps R m] for straight-line code. *)
Ltac solve_steps := repeat first [ solve [auto with steps] | steps_step ].

(** Split a successful [bind] in hypothesis [H] into its two runs. *)
Ltac inv_bind H :=
  let a := fresh "a" in
  let s := fresh "s" in
  let H1 := fresh "H" in
  lazymatch type of H with
  | bind _ _ _ = Ok _ => apply bind_Ok in H; destruct H as (a & s & H1 & H)
  end.

(** Split a whole chain of binds, opening the pairs bound on the way. *)
Ltac inv_binds H :=
  repeat first
    [ inv_bind H
    | match type of H with
      | context [let '(_, _) := ?x in _] => destruct x
      end ].

(** Run hypothesis [H] forward: split binds and decide the tests in head
    position. *)
Ltac run H :=
  repeat first
    [ inv_bind H
    | match type of H with
      | (match ?x with _ => _ end) _ = _ => destruct x eqn:?
      | (if ?b then _ else _) _ = _ => destruct b eqn:?
      end ].

Create HintDb steps discriminated.

Lemma sameContext_preorder : PreOrder sameContext.
Proof.
  split.
  - intros s. split; reflexivity.
  - intros s1 s2 s3 [H1 H2] [H3 H4]. split; congruence.
Qed.

Lemma sameContext_growing : Growing sameContext.
Proof. split; [apply sameContext_preorder|]. intros s s' [_ H]. exact H. Qed.

Lemma keepsAbsent_growing k : Growing (keepsAbsent k).
Proof.
  split; [split|].
  - intros s H. exact H.
  - intros s1 s2 s3 H1 H2 H. auto.
  - intros s s' [H _] Hk. rewrite H. exact Hk.
Qed.

Lemma sameCache_growing : Growing sameCache.
Proof.
  split; [split|].
  - intros s. reflexivity.
  - intros s1 s2 s3 H1 H2. unfold sameCache in *. congruence.
  - intros s s' [H _]. exact H.
Qed.

Lemma sameShape_framed : Framed sameShape.
Proof.
  split; [split|].
  - intros s. repeat split.
  - intros s1 s2 s3 [[H1 [H2 H3]] H4] [[H5 [H6 H7]] H8].
    repeat split; congruence.
  - intros s s' H. exact H.
Qed.

Lemma sameSymbols_docframed : DocFramed sameSymbols.
Proof.
  split; [split|].
  - intros s. repeat split.
  - intros s1 s2 s3 [[H1 [H2 H3]] H4] [[H5 [H6 H7]] H8].
    repeat split; congruence.
  - intros s s' H. exact H.
Qed.

Lemma growing_framed R : Growing R → Framed R.
Proof. intros [H1 H2]. split; [exact H1|]. intros s s' [H _]. apply H2, H. Qed.

Lemma framed_docframed R : Framed R → DocFramed R.
Proof.
  intros [H1 H2]. split; [exact H1|]. intros s s' [H Hs]. apply H2.
  split; [exact H|]. rewrite Hs. reflexivity.
Qed.

Lemma growing_docframed R : Growing R → DocFramed R.
Proof. intros H. apply framed_docframed, growing_framed, H. Qed.

Lemma docframed_preorder R : DocFramed R → PreOrder R.
Proof. intros [H _]. exact H. Qed.

#[global] Hint Resolve sameContext_preorder sameContext_growing
  keepsAbsent_growing sameCache_growing sameShape_framed
  sameSymbols_docframed growing_framed framed_docframed growing_docframed
  docframed_preorder : steps.

Lemma preservesInv_preorder {S} (I : S → Prop) : PreOrder (preservesInv I).
Proof.
  split.
  - intros s H. exact H.
  - intros s1 s2 s3 H1 H2 H. auto.
Qed.

#[global] Hint Resolve preservesInv_preorder : steps.

Module LsifFacts.
Import Lsif.

(** *** What the emitter and the document cache leave alone *)

Section Documents.
Variable R : Indexer → Indexer → Prop.
Hypothesis HR : DocFramed R.

Lemma documents_modify f :
  (∀ s, sameSymbols s (f s)) → steps R (modify f).
Proof.
  intros H. apply steps_modify. intros s. apply HR, H.
Qed.

Lemma emit_steps e : steps R (emit e).
Proof. apply documents_modify. intros s. repeat split. Qed.

Lemma freshId_steps : steps R freshId.
Proof. intros s a s' [= _ <-]. apply HR. repeat split. Qed.

Lemma setDocumentStore_steps f : steps R (setDocumentStore f).
Proof. apply documents_modify. intros s. repeat split. Qed.

Lemma setDocumentDatas_steps f : steps R (setDocumentDatas f).
Proof. apply documents_modify. intros s. repeat split. Qed.

Lemma readDocument_steps l : steps R (readDocument l).
Proof.
  intros s a s'. unfold readDocument.
  destruct (documentStore s !! l); intros [= _ <-]. apply HR. repeat split.
Qed.

Lemma readSymbol_steps l : steps R (readSymbol l).
Proof.
  intros s a s'. unfold readSymbol.
  destruct (symbolStore s !! l); intros [= _ <-]. apply HR. repeat split.
Qed.
End Documents.

#[global] Hint Resolve emit_steps freshId_steps setDocumentStore_steps
  setDocumentDatas_steps readDocument_steps readSymbol_steps : steps.

Section Documents.
Variable ts : Oracle.
Variable R : Indexer → Indexer → Prop.
Hypothesis HR : DocFramed R.

Lemma vertexDocument_steps n : steps R (vertexDocument n).
Proof. unfold vertexDocument. solve_steps. Qed.

Lemma vertexRange_steps r t : steps R (vertexRange r t).
Proof. unfold vertexRange. solve_steps. Qed.

Lemma allocDocument_steps d : steps R (allocDocument d).
Proof. unfold allocDocument. solve_steps. Qed.

Lemma DocumentData_addRange_steps l r : steps R (DocumentData_addRange l r).
Proof. unfold DocumentData_addRange. solve_steps. Qed.

Lemma DocumentData_begin_steps l : steps R (DocumentData_begin l).
Proof. unfold DocumentData_begin. solve_steps. Qed.
Hint Resolve vertexDocument_steps allocDocument_steps
  DocumentData_begin_steps : steps.

Lemma getOrCreateDocumentData_steps f :
  steps R (getOrCreateDocumentData ts f).
Proof. unfold getOrCreateDocumentData. solve_steps. Qed.
Hint Resolve getOrCreateDocumentData_steps : steps.

Lemma monikerLoop_steps files acc : steps R (monikerLoop ts acc files).
Proof.
  revert acc. induction files as [|f files IH]; intros acc; simpl;
    solve_steps.
Qed.
Hint Resolve monikerLoop_steps : steps.

Lemma resolveMonikerPath_steps files : steps R (resolveMonikerPath ts files).
Proof. unfold resolveMonikerPath. solve_steps. Qed.

Lemma Graph_getSourceFiles_steps v sym n :
  steps R (Graph.SymbolData_getSourceFiles ts v sym n).
Proof. unfold Graph.SymbolData_getSourceFiles. solve_steps. Qed.

Lemma Graph_getDeclarations_steps v sym n :
  steps R (Graph.SymbolData_getDeclarations ts v sym n).
Proof. unfold Graph.SymbolData_getDeclarations. solve_steps. Qed.
End Documents.

#[global] Hint Resolve vertexDocument_steps vertexRange_steps
  allocDocument_steps DocumentData_begin_steps DocumentData_addRange_steps
  getOrCreateDocumentData_steps monikerLoop_steps resolveMonikerPath_steps
  Graph_getSourceFiles_steps Graph_getDeclarations_steps : steps.

(** *** What the updates of a symbol data leave alone *)

Section Updates.
Variable ts : Oracle.
Variable R : Indexer → Indexer → Prop.
Hypothesis HR : Framed R.

Lemma alterSymbol_steps g l : steps R (setSymbolStore (alter g l)).
Proof.
  apply steps_modify. intros s. apply HR. repeat split. simpl.
  apply length_alter.
Qed.
Hint Resolve alterSymbol_steps : steps.

Lemma SymbolData_begin_steps l : steps R (SymbolData_begin l).
Proof. unfold SymbolData_begin. solve_steps. Qed.

Lemma SymbolData_addDefinition_steps l f d :
  steps R (SymbolData_addDefinition l f d).
Proof. unfold SymbolData_addDefinition. solve_steps. Qed.

Lemma SymbolData_addDefinitionInfo_steps l i :
  steps R (SymbolData_addDefinitionInfo l i).
Proof. unfold SymbolData_addDefinitionInfo. solve_steps. Qed.

Lemma SymbolData_addReference_steps l f r :
  steps R (SymbolData_addReference l f r).
Proof. unfold SymbolData_addReference. solve_steps. Qed.

Lemma SymbolData_addHover_steps l h : steps R (SymbolData_addHover l h).
Proof. unfold SymbolData_addHover. solve_steps. Qed.

Lemma SymbolData_addMoniker_steps l m : steps R (SymbolData_addMoniker l m).
Proof. unfold SymbolData_addMoniker. solve_steps. Qed.
Hint Resolve SymbolData_addDefinition_steps SymbolData_addDefinitionInfo_steps
  SymbolData_addHover_steps : steps.

Lemma Graph_emitDefinition_steps d l t n :
  steps R (Graph.emitDefinition ts d l t n).
Proof. unfold Graph.emitDefinition. solve_steps. Qed.
Hint Resolve Graph_emitDefinition_steps : steps.

Lemma Graph_emitDefinitions_steps v sym l ds :
  steps R (Graph.emitDefinitions ts v sym l ds).
Proof. unfold Graph.emitDefinitions. solve_steps. Qed.

Lemma V2_emitDefinition_steps d l t n r :
  steps R (V2.emitDefinition ts d l t n r).
Proof. unfold V2.emitDefinition. solve_steps. Qed.
End Updates.

#[global] Hint Resolve alterSymbol_steps SymbolData_begin_steps
  SymbolData_addMoniker_steps SymbolData_addDefinition_steps
  SymbolData_addDefinitionInfo_steps SymbolData_addReference_steps
  SymbolData_addHover_steps Graph_emitDefinition_steps
  Graph_emitDefinitions_steps V2_emitDefinition_steps : steps.

(** *** What the creation of a symbol data leaves alone *)

Section Growth.
Variable ts : Oracle.
Variable R : Indexer → Indexer → Prop.
Hypothesis HG : Growing R.

Lemma allocSymbol_steps d : steps R (allocSymbol d).
Proof.
  assert (Hset : ∀ f, steps R (setSymbolStore f)).
  { intros f. apply steps_modify. intros s. apply HG. repeat split. }
  unfold allocSymbol. solve_steps.
Qed.
Hint Resolve allocSymbol_steps : steps.

(** [makeSymbolData] writes no cache slot itself: it steps as its nested
    calls do. *)
Lemma makeSymbolData_steps recur sym n :
  (∀ s m, steps R (recur s m)) →
  steps R (Graph.makeSymbolData ts recur sym n).
Proof. intros Hrec. unfold Graph.makeSymbolData. solve_steps. Qed.
End Growth.

#[global] Hint Resolve allocSymbol_steps : steps.

Lemma allocSymbol_lookup d s l s1 :
  allocSymbol d s = Ok (l, s1) → symbolStore s1 !! l = Some d.
Proof.
  cbv [allocSymbol bind gets setSymbolStore modify ret].
  intros [= <- <-]. simpl.
  rewrite lookup_app_r by reflexivity. rewrite Nat.sub_diag. reflexivity.
Qed.

(** *** The document context is only written by [setCurrent] *)

Section Context.
Variable ts : Oracle.

Lemma setSymbolDatas_context f : steps sameContext (setSymbolDatas f).
Proof. apply steps_modify. intros s; split; reflexivity. Qed.
Hint Resolve setSymbolDatas_context : steps.

Lemma getOrCreateSymbolData_body_context recur sym n :
  (∀ s m, steps sameContext (recur s m)) →
  steps sameContext (Graph.getOrCreateSymbolData_body ts recur sym n).
Proof.
  intros Hrec. unfold Graph.getOrCreateSymbolData_body.
  pose proof (makeSymbolData_steps ts _ sameContext_growing recur sym n Hrec).
  solve_steps.
Qed.

Lemma Graph_getOrCreateSymbolData_context fuel sym n :
  steps sameContext (Graph.getOrCreateSymbolData ts fuel sym n).
Proof.
  revert sym n. induction fuel as [|fuel IH]; intros sym n; simpl;
    apply getOrCreateSymbolData_body_context; [|exact IH].
  intros s m. apply steps_stuck.
Qed.

Lemma V2_getOrCreateSymbolData_context sym n r :
  steps sameContext (V2.getOrCreateSymbolData ts sym n r).
Proof. unfold V2.getOrCreateSymbolData. solve_steps. Qed.
End Context.

End LsifFacts.

Module GraphFacts.
Import Lsif LsifFacts.

Section Cache.
Variable ts : Oracle.

(** *** The symbol cache: hits *)

Lemma Graph_lookup_hit fuel symbol node s l :
  is_Some (currentDocumentData s) →
  symbolDatas s !! createSymbolKey ts symbol = Some l →
  Graph.getOrCreateSymbolData ts fuel symbol node s = Ok (l, s).
Proof.
  intros [d Hd] Hl.
  destruct fuel; simpl; unfold Graph.getOrCreateSymbolData_body, bind, gets;
    rewrite Hd, Hl; reflexivity.
Qed.

Lemma V2_lookup_hit symbol node r s l :
  is_Some (currentDocumentData s) →
  symbolDatas s !! createSymbolKey ts symbol = Some l →
  V2.getOrCreateSymbolData ts symbol node r s = Ok (l, s).
Proof.
  intros [d Hd] Hl.
  unfold V2.getOrCreateSymbolData, bind, gets. rewrite Hd, Hl. reflexivity.
Qed.

(** What a call leaves: the node it returns sits in the slot of the key. *)
Lemma Graph_body_caches recur symbol node s l s' :
  Graph.getOrCreateSymbolData_body ts recur symbol node s = Ok (l, s') →
  symbolDatas s' !! createSymbolKey ts symbol = Some l.
Proof.
  unfold Graph.getOrCreateSymbolData_body. intros H.
  inv_bind H. injection H0 as <- <-.
  destruct (currentDocumentData s); [|discriminate].
  inv_bind H. injection H0 as <- <-.
  destruct (symbolDatas s !! createSymbolKey ts symbol) eqn:E.
  { injection H as <- <-. exact E. }
  inv_binds H. injection H as <- <-.
  match goal with
  | HS : setSymbolDatas _ _ = Ok _ |- _ =>
      cbv [setSymbolDatas modify] in HS; injection HS as _ <-
  end.
  simpl. apply lookup_insert_eq.
Qed.

Lemma Graph_caches fuel symbol node s l s' :
  Graph.getOrCreateSymbolData ts fuel symbol node s = Ok (l, s') →
  symbolDatas s' !! createSymbolKey ts symbol = Some l.
Proof. destruct fuel; simpl; apply Graph_body_caches. Qed.

Lemma V2_caches symbol node r s l s' :
  V2.getOrCreateSymbolData ts symbol node r s = Ok (l, s') →
  symbolDatas s' !! createSymbolKey ts symbol = Some l.
Proof.
  unfold V2.getOrCreateSymbolData. intros H.
  inv_bind H. injection H0 as <- <-.
  destruct (currentDocumentData s); [|discriminate].
  inv_bind H. injection H0 as <- <-.
  destruct (symbolDatas s !! createSymbolKey ts symbol) eqn:E.
  { injection H as <- <-. exact E. }
  inv_binds H. injection H as <- <-.
  match goal with
  | HS : setSymbolDatas _ _ = Ok _ |- _ =>
      cbv [setSymbolDatas modify] in HS; injection HS as _ <-
  end.
  simpl. apply lookup_insert_eq.
Qed.

Lemma Graph_needs_context fuel symbol node s l s' :
  Graph.getOrCreateSymbolData ts fuel symbol node s = Ok (l, s') →
  is_Some (currentDocumentData s).
Proof.
  destruct fuel; simpl; unfold Graph.getOrCreateSymbolData_body, bind, gets;
    destruct (currentDocumentData s); eauto; discriminate.
Qed.

Lemma V2_needs_context symbol node r s l s' :
  V2.getOrCreateSymbolData ts symbol node r s = Ok (l, s') →
  is_Some (currentDocumentData s).
Proof.
  unfold V2.getOrCreateSymbolData, bind, gets;
    destruct (currentDocumentData s); eauto; discriminate.
Qed.

(** Visiting a symbol again, from any node and through any symbol handle
    with the same key, gives the node of the first visit and changes
    nothing. *)
Lemma Graph_getOrCreateSymbolData_again fuel symbol node s l s' :
  Graph.getOrCreateSymbolData ts fuel symbol node s = Ok (l, s') →
  ∀ fuel' symbol' node',
    createSymbolKey ts symbol' = createSymbolKey ts symbol →
    Graph.getOrCreateSymbolData ts fuel' symbol' node' s' = Ok (l, s').
Proof.
  intros H fuel' symbol' node' Hk.
  apply Graph_lookup_hit.
  - destruct (Graph_getOrCreateSymbolData_context ts _ _ _ _ _ _ H) as [-> _].
    eapply Graph_needs_context, H.
  - rewrite Hk. eapply Graph_caches, H.
Qed.

Lemma V2_getOrCreateSymbolData_again symbol node r s l s' :
  V2.getOrCreateSymbolData ts symbol node r s = Ok (l, s') →
  ∀ symbol' node' r',
    createSymbolKey ts symbol' = createSymbolKey ts symbol →
    V2.getOrCreateSymbolData ts symbol' node' r' s' = Ok (l, s').
Proof.
  intros H symbol' node' r' Hk.
  apply V2_lookup_hit.
  - destruct (V2_getOrCreateSymbolData_context ts _ _ _ _ _ _ H) as [-> _].
    eapply V2_needs_context, H.
  - rewrite Hk. eapply V2_caches, H.
Qed.
End Cache.

(** *** One node per key over a whole run of src/v2/indexer.ts *)

Lemma OneNodePerKey_initial : OneNodePerKey initial.
Proof.
  split; [reflexivity|]. split.
  - intros k l H. simpl in H. rewrite lookup_empty in H. discriminate.
  - intros k1 k2 l H. simpl in H. rewrite lookup_empty in H. discriminate.
Qed.

Lemma OneNodePerKey_sameShape s s' :
  sameShape s s' → preservesInv OneNodePerKey s s'.
Proof.
  intros [[Hc _] Hl] (H1 & H2 & H3).
  split; [|split]; rewrite ?Hc, ?Hl; assumption.
Qed.

Lemma OneNodePerKey_insert s s1 s2 k l d :
  symbolDatas s !! k = None →
  allocSymbol d s = Ok (l, s1) →
  sameShape s1 s2 →
  OneNodePerKey s →
  ∀ s', symbolDatas s' = <[k := l]> (symbolDatas s2) →
        symbolStore s' = symbolStore s2 →
        OneNodePerKey s'.
Proof.
  intros Hk Halloc [[Hc _] Hl] (H1 & H2 & H3) s' Hs' Hst.
  cbv [allocSymbol bind gets setSymbolStore modify ret] in Halloc.
  injection Halloc as <- <-. simpl in *.
  rewrite length_app in Hl. simpl in Hl.
  unfold OneNodePerKey. rewrite Hs', Hst, Hc, Hl. split; [|split].
  - rewrite map_size_insert_None by exact Hk. lia.
  - intros k' l' Hl'. destruct (decide (k = k')) as [->|Hne].
    + rewrite lookup_insert_eq in Hl'. injection Hl' as <-. lia.
    + rewrite lookup_insert_ne in Hl' by exact Hne.
      specialize (H2 _ _ Hl'). lia.
  - intros k1 k2 l' Hk1 Hk2.
    destruct (decide (k = k1)) as [->|Hne1];
      destruct (decide (k1 = k2)) as [->|Hne12]; try reflexivity.
    + rewrite lookup_insert_eq in Hk1. injection Hk1 as <-.
      rewrite lookup_insert_ne in Hk2 by exact Hne12.
      specialize (H2 _ _ Hk2). lia.
    + rewrite lookup_insert_ne in Hk1 by exact Hne1.
      destruct (decide (k = k2)) as [->|Hne2].
      * rewrite lookup_insert_eq in Hk2. injection Hk2 as <-.
        specialize (H2 _ _ Hk1). lia.
      * rewrite lookup_insert_ne in Hk2 by exact Hne2. eauto.
Qed.

Section Runs.
Variable ts : Oracle.
Variable getResolverType : Symbol → Node → V2.ResolverType.

Lemma V2_getOrCreateSymbolData_one_node symbol node r :
  steps (preservesInv OneNodePerKey) (V2.getOrCreateSymbolData ts symbol node r).
Proof.
  intros s l s' H Hinv. unfold V2.getOrCreateSymbolData in H.
  inv_bind H. injection H0 as <- <-.
  destruct (currentDocumentData s); [|discriminate].
  inv_bind H. injection H0 as <- <-.
  destruct (symbolDatas s !! createSymbolKey ts symbol) eqn:E.
  { injection H as _ <-. exact Hinv. }
  inv_bind H.
  assert (s0 = s) as ->.
  { unfold readDocument in H0. destruct (documentStore s !! n); [|discriminate].
    injection H0 as _ <-. reflexivity. }
  inv_bind H. rename H1 into Halloc.
  inv_binds H. injection H as <- <-.
  match goal with
  | HS : setSymbolDatas _ _ = Ok _ |- _ =>
      cbv [setSymbolDatas modify] in HS; injection HS as _ <-
  end.
  eapply (OneNodePerKey_insert s _ _ _ _ _ E Halloc); [|exact Hinv|..];
    [|reflexivity|reflexivity].
  repeat match goal with
         | HS : ?m ?s = Ok (_, _) |- _ =>
             lazymatch m with
             | allocSymbol _ => fail
             | _ => let HR := fresh "HR" in
                    assert (HR : steps sameShape m)
                      by (unfold V2.emitDefinition; solve_steps);
                    apply HR in HS
             end
         end.
  pose proof (sameShape_framed) as [HP _].
  repeat (etransitivity; [eassumption|]). reflexivity.
Qed.

Lemma V2_visitSymbol_one_node node :
  steps (preservesInv OneNodePerKey) (V2.visitSymbol ts getResolverType node).
Proof.
  pose proof V2_getOrCreateSymbolData_one_node as Hget.
  assert (Hshape : ∀ A (m : M A), steps sameShape m →
                   steps (preservesInv OneNodePerKey) m).
  { intros A m Hm s a s' H. apply OneNodePerKey_sameShape. eapply Hm, H. }
  unfold V2.visitSymbol.
  repeat first
    [ solve [auto with steps]
    | solve [apply Hshape; solve_steps]
    | steps_step ].
Qed.

Lemma V2_preVisit_one_node node :
  steps (preservesInv OneNodePerKey) (V2.preVisit ts getResolverType node).
Proof.
  pose proof V2_visitSymbol_one_node as Hvisit.
  assert (Hshape : ∀ A (m : M A), steps sameShape m →
                   steps (preservesInv OneNodePerKey) m).
  { intros A m Hm s a s' H. apply OneNodePerKey_sameShape. eapply Hm, H. }
  assert (Hset : ∀ sf d, steps (preservesInv OneNodePerKey) (setCurrent sf d)).
  { intros sf d. apply steps_modify. intros s [H1 [H2 H3]].
    split; [|split]; assumption. }
  unfold V2.preVisit.
  repeat first
    [ solve [auto with steps]
    | solve [apply Hshape; solve_steps]
    | steps_step ].
Qed.

Lemma V2_visit_one_node fuel node :
  steps (preservesInv OneNodePerKey) (V2.visit ts getResolverType fuel node).
Proof.
  pose proof V2_preVisit_one_node as Hpre.
  assert (Hpost : ∀ n, steps (preservesInv OneNodePerKey) (V2.postVisit ts n)).
  { intros n. unfold V2.postVisit. destruct (isKind _ _).
    - apply steps_modify. intros s [H1 [H2 H3]]. split; [|split]; assumption.
    - apply steps_ret. auto with steps. }
  revert node. induction fuel as [|fuel IH]; intros node; simpl; solve_steps.
Qed.

(** At the end of every traversal that came back, each key of the symbol
    cache stands for one node of its own and there is no other node. *)
Lemma V2_run_one_node_per_key files fuel u s :
  forM (V2.visit ts getResolverType fuel) files initial = Ok (u, s) →
  OneNodePerKey s.
Proof.
  intros H.
  assert (Hall : steps (preservesInv OneNodePerKey)
                   (forM (V2.visit ts getResolverType fuel) files)).
  { apply steps_forM; [auto with steps|]. intros n. apply V2_visit_one_node. }
  exact (Hall _ _ _ H OneNodePerKey_initial).
Qed.
End Runs.

(** *** One node per key over a whole run of src/indexer.ts *)

Section Layers.
Variable ts : Oracle.
Variable rank : Symbol → nat.
Hypothesis Hrank : Acyclic ts rank.

Lemma Built_preorder r : PreOrder (Built ts rank r).
Proof.
  destruct sameContext_preorder as [Hrefl Htrans].
  split.
  - intros s. split; [apply Hrefl|]. split; [intros H; exact H|].
    intros symbol _ H. exact H.
  - intros s1 s2 s3 (A1 & B1 & C1) (A2 & B2 & C2).
    split; [eapply Htrans; eassumption|]. split; [intros H; auto|].
    intros symbol Hr H. eapply C2; [exact Hr|]. eapply C1; eassumption.
Qed.

Lemma Built_framed r : Framed (Built ts rank r).
Proof.
  split; [apply Built_preorder|]. intros s s' H.
  split; [apply H|]. split; [apply OneNodePerKey_sameShape, H|].
  intros symbol _ Hk. destruct H as [[Hc _] _]. rewrite Hc. exact Hk.
Qed.

Lemma Built_mono r r' s s' :
  (r ≤ r')%nat → Built ts rank r s s' → Built ts rank r' s s'.
Proof.
  intros Hle (A1 & B1 & C1). split; [exact A1|]. split; [exact B1|].
  intros symbol Hr. apply C1. lia.
Qed.

Lemma makeSymbolData_layers recur symbol node s l s1 :
  (∀ sym n, steps (Built ts rank (S (rank sym))) (recur sym n)) →
  Graph.makeSymbolData ts recur symbol node s = Ok (l, s1) →
  ∃ s0 d, Built ts rank (rank symbol) s s0 ∧ allocSymbol d s0 = Ok (l, s1).
Proof.
  intros Hrec H.
  destruct Hrank as (Hkey & Halias & Hbase & Hcomp).
  pose proof (Built_preorder (rank symbol)) as HP.
  assert (Hbelow : ∀ sym n, (rank sym < rank symbol)%nat →
                   steps (Built ts rank (rank symbol)) (recur sym n)).
  { intros sym n Hlt s2 a s3 Hs. eapply Built_mono; [|eapply Hrec, Hs]. lia. }
  assert (Hdirect : ∀ d, allocSymbol d s = Ok (l, s1) →
    ∃ s0 d, Built ts rank (rank symbol) s s0 ∧ allocSymbol d s0 = Ok (l, s1)).
  { intros d Hd. exists s, d. split; [reflexivity|exact Hd]. }
  assert (Hone : ∀ sym f, (rank sym < rank symbol)%nat →
    bind (recur sym None) (fun a => allocSymbol (f a)) s = Ok (l, s1) →
    ∃ s0 d, Built ts rank (rank symbol) s s0 ∧ allocSymbol d s0 = Ok (l, s1)).
  { intros sym f Hlt Hb. inv_bind Hb. exists s0, (f a).
    split; [eapply Hbelow; eassumption|exact Hb]. }
  assert (Hmany : ∀ syms f, (∀ m, m ∈ syms → (rank m < rank symbol)%nat) →
    bind (mapM (fun m => recur m None) syms) (fun a => allocSymbol (f a)) s
    = Ok (l, s1) →
    ∃ s0 d, Built ts rank (rank symbol) s s0 ∧ allocSymbol d s0 = Ok (l, s1)).
  { intros syms f Hlt Hb. inv_bind Hb. exists s0, (f a).
    split; [|exact Hb].
    eapply (steps_mapM_elem _ HP); [|eassumption].
    intros m Hm. apply Hbelow, Hlt, Hm. }
  unfold Graph.makeSymbolData in H.
  inv_bind H. injection H0 as <- <-. inv_bind H. injection H0 as <- <-.
  destruct (currentDocumentData s); [|discriminate].
  destruct (currentSourceFile s); [|discriminate].
  inv_bind H.
  assert (s0 = s) as ->.
  { unfold readDocument in H0. destruct (documentStore s !! n); [|discriminate].
    injection H0 as _ <-. reflexivity. }
  cbv zeta in H.
  assert (Hmembers : ∀ m,
    m ∈ match getSymbolParent ts symbol with
        | Some container =>
            default [] (findBaseMembers ts container (getName ts symbol))
        | None => []
        end → (rank m < rank symbol)%nat).
  { intros m Hm. destruct (getSymbolParent ts symbol) as [c|] eqn:Ec;
      [|inversion Hm].
    destruct (findBaseMembers ts c (getName ts symbol)) as [ms|] eqn:Em;
      [|inversion Hm].
    eapply Hbase; eassumption. }
  destruct (isTransient ts symbol);
    [destruct (isComposite ts symbol node);
     [destruct (getCompositeSymbols ts symbol node) as [cs|] eqn:Ecs|];
     try case_bool_decide|];
    try (eapply Hdirect, H);
    try (eapply Hmany; [|exact H]; intros m Hm; eapply Hcomp; eassumption);
    (destruct (isAliasSymbol ts symbol) eqn:Ea;
     [eapply Hone; [|exact H]; apply Halias, Ea|]);
    (destruct (isMethodSymbol ts symbol);
     [eapply Hmany; [|exact H]; exact Hmembers|eapply Hdirect, H]).
Qed.

Lemma Graph_body_layers recur symbol node :
  (∀ sym n, steps (Built ts rank (S (rank sym))) (recur sym n)) →
  steps (Built ts rank (S (rank symbol)))
    (Graph.getOrCreateSymbolData_body ts recur symbol node).
Proof.
  intros Hrec s l s' H.
  assert (Hctx : sameContext s s').
  { eapply (getOrCreateSymbolData_body_context ts recur symbol node);
      [|exact H].
    intros sym n s2 a s3 Hs. eapply Hrec, Hs. }
  unfold Graph.getOrCreateSymbolData_body in H.
  inv_bind H. injection H0 as <- <-.
  destruct (currentDocumentData s); [|discriminate].
  inv_bind H. injection H0 as <- <-.
  destruct (symbolDatas s !! createSymbolKey ts symbol) eqn:E.
  { injection H as _ <-. apply Built_preorder. }
  inv_bind H. rename H0 into Hmake.
  destruct (makeSymbolData_layers _ _ _ _ _ _ Hrec Hmake)
    as (sm & d & (_ & Hinv & Habs) & Halloc).
  inv_binds H. injection H as <- <-.
  match goal with
  | HS : setSymbolDatas _ _ = Ok _ |- _ =>
      cbv [setSymbolDatas modify] in HS; injection HS as _ <-
  end.
  repeat match goal with
         | HS : ?m ?s = Ok (_, _) |- _ =>
             lazymatch m with
             | allocSymbol _ => fail
             | Graph.makeSymbolData _ _ _ _ => fail
             | _ => let HR := fresh "HR" in
                    assert (HR : steps sameShape m) by solve_steps;
                    apply HR in HS
             end
         end.
  assert (Hshape : sameShape s0 s7).
  { pose proof (sameShape_framed) as [HP _].
    repeat (etransitivity; [eassumption|]). reflexivity. }
  clear - Hrank Hctx Hinv Habs Halloc Hshape E.
  split; [exact Hctx|]. split.
  - intros HI.
    eapply (OneNodePerKey_insert sm _ _ _ _ _ (Habs _ (le_n _) E) Halloc Hshape
              (Hinv HI)); reflexivity.
  - intros symbol0 Hr Hk. simpl.
    destruct Hrank as (Hkey & _).
    rewrite lookup_insert_ne
      by (intros Heq; apply Hkey in Heq; lia).
    destruct Hshape as [[-> _] _].
    cbv [allocSymbol bind gets setSymbolStore modify ret] in Halloc.
    injection Halloc as _ <-. simpl. apply Habs; [lia|exact Hk].
Qed.

Lemma Graph_getOrCreateSymbolData_layers fuel symbol node :
  steps (Built ts rank (S (rank symbol)))
    (Graph.getOrCreateSymbolData ts fuel symbol node).
Proof.
  revert symbol node. induction fuel as [|fuel IH]; intros symbol node; simpl;
    apply Graph_body_layers; [|exact IH].
  intros sym n. apply steps_stuck.
Qed.

Lemma Graph_getOrCreateSymbolData_one_node fuel symbol node :
  steps (preservesInv OneNodePerKey)
    (Graph.getOrCreateSymbolData ts fuel symbol node).
Proof.
  intros s l s' H. eapply Graph_getOrCreateSymbolData_layers, H.
Qed.

Lemma Graph_visitSymbol_one_node fuel node :
  steps (preservesInv OneNodePerKey) (Graph.visitSymbol ts fuel node).
Proof.
  pose proof Graph_getOrCreateSymbolData_one_node as Hget.
  assert (Hshape : ∀ A (m : M A), steps sameShape m →
                   steps (preservesInv OneNodePerKey) m).
  { intros A m Hm s a s' H. apply OneNodePerKey_sameShape. eapply Hm, H. }
  unfold Graph.visitSymbol.
  repeat first
    [ solve [auto with steps]
    | solve [apply Hshape; solve_steps]
    | steps_step ].
Qed.

Lemma setCurrent_one_node sf d :
  steps (preservesInv OneNodePerKey) (setCurrent sf d).
Proof.
  apply steps_modify. intros s [H1 [H2 H3]]. split; [|split]; assumption.
Qed.

Lemma Graph_preVisit_one_node fuel node :
  steps (preservesInv OneNodePerKey) (Graph.preVisit ts fuel node).
Proof.
  pose proof Graph_visitSymbol_one_node as Hvisit.
  pose proof setCurrent_one_node as Hset.
  assert (Hshape : ∀ A (m : M A), steps sameShape m →
                   steps (preservesInv OneNodePerKey) m).
  { intros A m Hm s a s' H. apply OneNodePerKey_sameShape. eapply Hm, H. }
  unfold Graph.preVisit.
  repeat first
    [ solve [auto with steps]
    | solve [apply Hshape; solve_steps]
    | steps_step ].
Qed.

Lemma Graph_exportSpecifiers_one_node fuel documentData specifiers :
  steps (preservesInv OneNodePerKey)
    (Graph.exportSpecifiers ts fuel documentData specifiers).
Proof.
  pose proof Graph_getOrCreateSymbolData_one_node as Hget.
  assert (Hshape : ∀ A (m : M A), steps sameShape m →
                   steps (preservesInv OneNodePerKey) m).
  { intros A m Hm s a s' H. apply OneNodePerKey_sameShape. eapply Hm, H. }
  induction specifiers as [|element rest IH]; simpl; unfold Graph.exportSymbol;
  repeat first
    [ solve [auto with steps]
    | solve [apply Hshape; solve_steps]
    | steps_step ].
Qed.

Lemma Graph_postVisit_one_node fuel node :
  steps (preservesInv OneNodePerKey) (Graph.postVisit ts fuel node).
Proof.
  pose proof Graph_getOrCreateSymbolData_one_node as Hget.
  pose proof Graph_exportSpecifiers_one_node as Hexp.
  pose proof setCurrent_one_node as Hset.
  assert (Hshape : ∀ A (m : M A), steps sameShape m →
                   steps (preservesInv OneNodePerKey) m).
  { intros A m Hm s a s' H. apply OneNodePerKey_sameShape. eapply Hm, H. }
  unfold Graph.postVisit, Graph.exportSymbol.
  repeat first
    [ solve [auto with steps]
    | solve [apply Hshape; solve_steps]
    | steps_step ].
Qed.

Lemma Graph_visit_one_node fuel node :
  steps (preservesInv OneNodePerKey) (Graph.visit ts fuel node).
Proof.
  pose proof Graph_preVisit_one_node as Hpre.
  pose proof Graph_postVisit_one_node as Hpost.
  revert node. induction fuel as [|fuel IH]; intros node; simpl; solve_steps.
Qed.

(** At the end of every traversal that came back, each key of the symbol
    cache stands for one node of its own and there is no other node. *)
Lemma Graph_run_one_node_per_key files fuel u s :
  forM (Graph.visit ts fuel) files initial = Ok (u, s) →
  OneNodePerKey s.
Proof.
  intros H.
  assert (Hall : steps (preservesInv OneNodePerKey)
                   (forM (Graph.visit ts fuel) files)).
  { apply steps_forM; [auto with steps|]. intros n. apply Graph_visit_one_node. }
  exact (Hall _ _ _ H OneNodePerKey_initial).
Qed.
End Layers.

End GraphFacts.

Module GraphClaims.
Import Lsif LsifFacts GraphFacts.

Lemma layered_sample_acyclic :
  Acyclic Samples.layeredOracle Samples.layeredRank.
Proof.
  split; [|split; [|split]].
  - intros a b H. simpl in H. apply (inj pretty) in H. congruence.
  - intros symbol H. discriminate.
  - intros symbol container members member Hp Hm Hin.
    simpl in Hp, Hm. injection Hp as <-.
    destruct (decide (symbol + 100 = 112)) as [He|]; [|discriminate].
    injection Hm as <-. apply list_elem_of_singleton in Hin as ->.
    assert (symbol = 12) as -> by lia. vm_compute. lia.
  - intros symbol node composites member Hc Hin. simpl in Hc.
    destruct (decide (symbol = 15)) as [->|]; [|discriminate].
    injection Hc as <-.
    apply elem_of_cons in Hin as [->|Hin]; [vm_compute; lia|].
    apply list_elem_of_singleton in Hin as ->. vm_compute; lia.
Qed.

(** C1. A symbol key gets at most one symbol data node. A call of
    [getOrCreateSymbolData], in either graph indexer, for a symbol whose key
    is in [symbolDatas] returns the node stored there and leaves the whole
    indexer as it was: no node is allocated, nothing is emitted, no moniker
    is attached. (Every call site runs inside a document context.) Over a
    whole traversal, from the initial indexer, the cache therefore stays a
    one-to-one table of the nodes created: as many nodes as keys, each in
    the slot of its key. This holds for src/v2/indexer.ts as it is, and for
    src/indexer.ts when the links its nested calls follow (alias target,
    base members, composite members) are well founded. *)
Theorem cached_symbol_is_not_rebuilt (ts : Oracle)
    (getResolverType : Symbol → Node → V2.ResolverType)
    (rank : Symbol → nat) :
  (∀ s symbol l,
     is_Some (currentDocumentData s) →
     symbolDatas s !! createSymbolKey ts symbol = Some l →
     (∀ fuel node,
        Graph.getOrCreateSymbolData ts fuel symbol node s = Ok (l, s))
     ∧ (∀ node r, V2.getOrCreateSymbolData ts symbol node r s = Ok (l, s)))
  ∧ (∀ files fuel u s,
       forM (V2.visit ts getResolverType fuel) files initial = Ok (u, s) →
       OneNodePerKey s)
  ∧ (Acyclic ts rank →
     ∀ files fuel u s,
       forM (Graph.visit ts fuel) files initial = Ok (u, s) →
       OneNodePerKey s).
Proof.
  split; [|split].
  - intros s symbol l Hd Hl. split; intros.
    + apply Graph_lookup_hit; assumption.
    + apply V2_lookup_hit; assumption.
  - intros files fuel u s. apply V2_run_one_node_per_key.
  - intros Hrank files fuel u s.
    apply (Graph_run_one_node_per_key ts rank Hrank).
Qed.

Lemma cached_symbol_is_not_rebuilt_witness :
  let ts := Samples.layeredOracle in
  Acyclic ts Samples.layeredRank
  ∧ is_Some (currentDocumentData Samples.fooDeclared)
  ∧ symbolDatas Samples.fooDeclared !! createSymbolKey ts 10 = Some 0
  ∧ Graph.getOrCreateSymbolData ts 0 10 (Some 3) Samples.fooDeclared
    = Ok (0, Samples.fooDeclared)
  ∧ (∃ s, forM (V2.visit ts (fun _ _ => V2.standard) 3) [0] initial
          = Ok (tt, s)
          ∧ length (symbolStore s) = 2 ∧ OneNodePerKey s)
  ∧ (∃ s, forM (Graph.visit ts 3) [0] initial = Ok (tt, s)
          ∧ length (symbolStore s) = 3 ∧ OneNodePerKey s).
Proof.
  intros ts.
  assert (H1 : is_Some (currentDocumentData Samples.fooDeclared))
    by (vm_compute; eauto).
  assert (H2 : symbolDatas Samples.fooDeclared !! createSymbolKey ts 10
               = Some 0)
    by (vm_compute; reflexivity).
  destruct (cached_symbol_is_not_rebuilt ts (fun _ _ => V2.standard)
              Samples.layeredRank) as (Hhit & Hv2 & Hv1).
  split; [exact layered_sample_acyclic|]. split; [exact H1|].
  split; [exact H2|].
  split; [apply (Hhit _ _ _ H1 H2)|]. split.
  - destruct (forM (V2.visit ts (fun _ _ => V2.standard) 3) [0] initial)
      as [[[] s]| |] eqn:E; [|vm_compute in E; discriminate..].
    exists s. split; [reflexivity|]. split; [|exact (Hv2 _ _ _ _ E)].
    vm_compute in E. injection E as <-. vm_compute. reflexivity.
  - destruct (forM (Graph.visit ts 3) [0] initial)
      as [[[] s]| |] eqn:E; [|vm_compute in E; discriminate..].
    exists s. split; [reflexivity|].
    split; [|exact (Hv1 layered_sample_acyclic _ _ _ _ E)].
    vm_compute in E. injection E as <-. vm_compute. reflexivity.
Defined.

(** *** Structural context *)

Section NoContext.
Variable ts : Oracle.








End NoContext.




(** *** When the cache slot is written *)

Section Slot.
Variable ts : Oracle.

Lemma setSymbolDatas_other_slot k id l :
  id ≠ k → steps (keepsAbsent k) (setSymbolDatas (insert id l)).
Proof.
  intros Hne. apply steps_modify. intros s Hk. simpl.
  rewrite lookup_insert_ne by exact Hne. exact Hk.
Qed.

(** A call writes the slot of its own key, its nested calls theirs. *)
Lemma Graph_body_other_slot k recur symbol node :
  createSymbolKey ts symbol ≠ k →
  (∀ sym n, steps (keepsAbsent k) (recur sym n)) →
  steps (keepsAbsent k) (Graph.getOrCreateSymbolData_body ts recur symbol node).
Proof.
  intros Hne Hrec. unfold Graph.getOrCreateSymbolData_body.
  pose proof (makeSymbolData_steps ts _ (keepsAbsent_growing k)
                recur symbol node Hrec).
  pose proof (fun l => setSymbolDatas_other_slot k _ l Hne) as Hset.
  solve_steps.
Qed.

Lemma Graph_body_miss_stuck recur symbol node s :
  is_Some (currentDocumentData s) →
  symbolDatas s !! createSymbolKey ts symbol = None →
  Graph.makeSymbolData ts recur symbol node s = OutOfFuel →
  Graph.getOrCreateSymbolData_body ts recur symbol node s = OutOfFuel.
Proof.
  intros [d Hd] Hmiss Hr.
  unfold Graph.getOrCreateSymbolData_body, bind, gets.
  rewrite Hd, Hmiss, Hr. reflexivity.
Qed.

(** The first nested call of a method symbol is for its first base
    member, on the state of the outer call. *)
Lemma makeSymbolData_method_stuck recur symbol node s d dd sf c m ms :
  currentDocumentData s = Some d →
  currentSourceFile s = Some sf →
  documentStore s !! d = Some dd →
  isTransient ts symbol = false →
  isAliasSymbol ts symbol = false →
  isMethodSymbol ts symbol = true →
  getSymbolParent ts symbol = Some c →
  findBaseMembers ts c (getName ts symbol) = Some (m :: ms) →
  recur m None s = OutOfFuel →
  Graph.makeSymbolData ts recur symbol node s = OutOfFuel.
Proof.
  intros Hd Hsf Hdd Ht Ha Hm Hc Hb He.
  unfold Graph.makeSymbolData, bind, gets, readDocument.
  rewrite Hd, Hsf, Hdd, Ht, Ha, Hm, Hc, Hb. simpl.
  unfold bind. rewrite He. reflexivity.
Qed.
End Slot.

(** C2, amended. On a cache miss [getOrCreateSymbolData] reserves nothing.
    [makeSymbolData], and with it every nested [getOrCreateSymbolData] call
    for composite members, alias targets and base members, starts on the
    cache as the caller found it, with the slot of the key free. The cache
    the call leaves is the cache [makeSymbolData] left with the slot of the
    key set to the node returned: the slot is written once, as the last
    step. [makeSymbolData] itself writes no slot: if the nested calls leave
    the slot of the key free, it is still free when the node comes back. *)
Theorem cache_slot_is_written_last (ts : Oracle)
    (recur : Symbol → option Node → M loc) (symbol : Symbol)
    (node : option Node) (s : Indexer) (l : loc) (s' : Indexer) :
  symbolDatas s !! createSymbolKey ts symbol = None →
  Graph.getOrCreateSymbolData_body ts recur symbol node s = Ok (l, s') →
  ∃ s1, Graph.makeSymbolData ts recur symbol node s = Ok (l, s1)
        ∧ symbolDatas s' = <[createSymbolKey ts symbol := l]> (symbolDatas s1)
        ∧ ((∀ sym n, steps (keepsAbsent (createSymbolKey ts symbol))
                       (recur sym n)) →
           symbolDatas s1 !! createSymbolKey ts symbol = None).
Proof.
  intros Hmiss H.
  unfold Graph.getOrCreateSymbolData_body in H.
  inv_bind H. injection H0 as <- <-.
  destruct (currentDocumentData s); [|discriminate].
  inv_bind H. injection H0 as <- <-. rewrite Hmiss in H.
  inv_bind H. exists s0.
  inv_binds H. injection H as <- <-.
  repeat match goal with
         | HS : ?m ?s = Ok (_, _) |- _ =>
             lazymatch m with
             | Graph.makeSymbolData _ _ _ _ => fail
             | setSymbolDatas _ => fail
             | _ => let HR := fresh "HR" in
                    assert (HR : steps sameCache m) by solve_steps;
                    apply HR in HS; unfold sameCache in HS
             end
         end.
  match goal with
  | HS : setSymbolDatas _ _ = Ok _ |- _ =>
      cbv [setSymbolDatas modify] in HS; injection HS as _ <-
  end.
  split; [assumption|]. split.
  - simpl. f_equal. congruence.
  - intros Hrec.
    eapply (makeSymbolData_steps ts _ (keepsAbsent_growing _)); eauto.
Qed.

Lemma cache_slot_is_written_last_witness :
  let ts := Samples.sampleOracle in
  symbolDatas Samples.insideFile !! createSymbolKey ts 15 = None
  ∧ ∃ l s' s1,
      Graph.getOrCreateSymbolData ts 1 15 (Some 3) Samples.insideFile
      = Ok (l, s')
      ∧ Graph.makeSymbolData ts (Graph.getOrCreateSymbolData ts 0) 15 (Some 3)
          Samples.insideFile = Ok (l, s1)
      ∧ symbolDatas s1 !! createSymbolKey ts 15 = None
      ∧ symbolDatas s' = <[createSymbolKey ts 15 := l]> (symbolDatas s1).
Proof.
  intros ts.
  assert (Hmiss : symbolDatas Samples.insideFile !! createSymbolKey ts 15 = None)
    by (vm_compute; reflexivity).
  split; [exact Hmiss|].
  destruct (Graph.getOrCreateSymbolData ts 1 15 (Some 3) Samples.insideFile)
    as [[l s']| |] eqn:E; [|vm_compute in E; discriminate..].
  destruct (cache_slot_is_written_last ts (Graph.getOrCreateSymbolData ts 0)
              15 (Some 3) Samples.insideFile l s' Hmiss E)
    as (s1 & Hmake & Hset & _).
  exists l, s', s1. split; [reflexivity|]. split; [exact Hmake|].
  split; [|exact Hset].
  vm_compute in Hmake. injection Hmake as _ <-. vm_compute. reflexivity.
Defined.

(** C2 as stated fails. Symbols 12 and 13 of the sample are methods that
    have each other as base member. While the node of 12 is built, the
    nested call for 13 finds the slot of 12 free, the call for 12 that 13
    makes in turn finds it free again, and the recursion never comes
    back, whatever the fuel. *)
Lemma reentrant_call_misses_the_cache :
  let ts := Samples.sampleOracle in
  let k := createSymbolKey ts 12 in
  symbolDatas Samples.insideFile !! k = None
  ∧ Graph.getOrCreateSymbolData_body ts (Samples.probe k) 12 None
      Samples.insideFile = Throw "slot not reserved"
  ∧ Graph.getOrCreateSymbolData_body ts (Samples.probeBelow k) 12 None
      Samples.insideFile = Throw "slot not reserved"
  ∧ ∀ fuel, Graph.getOrCreateSymbolData ts fuel 12 None Samples.insideFile
            = OutOfFuel.
Proof.
  intros ts k.
  split; [vm_compute; reflexivity|].
  split; [vm_compute; reflexivity|].
  split; [vm_compute; reflexivity|].
  assert (Hcur : currentDocumentData Samples.insideFile = Some 0)
    by (vm_compute; reflexivity).
  assert (Hsf : currentSourceFile Samples.insideFile = Some 0)
    by (vm_compute; reflexivity).
  destruct (documentStore Samples.insideFile !! 0) as [dd|] eqn:Hdd;
    [|vm_compute in Hdd; discriminate].
  assert (Hboth : ∀ fuel,
    Graph.getOrCreateSymbolData ts fuel 12 None Samples.insideFile = OutOfFuel
    ∧ Graph.getOrCreateSymbolData ts fuel 13 None Samples.insideFile = OutOfFuel).
  { induction fuel as [|fuel [IH12 IH13]].
    - split; vm_compute; reflexivity.
    - split; simpl.
      + apply Graph_body_miss_stuck;
          [rewrite Hcur; eauto|vm_compute; reflexivity|].
        apply (makeSymbolData_method_stuck ts _ 12 None _ 0 dd 0 112 13 []
                 Hcur Hsf Hdd); try reflexivity. exact IH13.
      + apply Graph_body_miss_stuck;
          [rewrite Hcur; eauto|vm_compute; reflexivity|].
        apply (makeSymbolData_method_stuck ts _ 13 None _ 0 dd 0 113 12 []
                 Hcur Hsf Hdd); try reflexivity. exact IH12. }
  intros fuel. apply Hboth.
Qed.


(** *** The moniker path of a symbol with several source files *)

Lemma fold_monikerStep_null ds e :
  fold_left monikerStep ds (Null, e) = (Null, e).
Proof. induction ds as [|d ds IH]; simpl; [reflexivity|exact IH]. Qed.

Lemma fold_monikerStep_path ds p e :
  fold_left monikerStep ds (Path p, e)
  = if forallb (fun d => bool_decide (monikerPath d = Some p)) ds
    then (Path p, e) else (Null, e).
Proof.
  induction ds as [|d ds IH]; simpl; [reflexivity|].
  unfold monikerStep at 2. simpl.
  destruct (monikerPath d) as [q|]; simpl.
  - case_bool_decide as Hpq; simpl.
    + subst q. rewrite bool_decide_eq_true_2 by reflexivity. exact IH.
    + rewrite bool_decide_eq_false_2 by congruence.
      apply fold_monikerStep_null.
  - apply fold_monikerStep_null.
Qed.

Lemma monikerLoop_documentsOf ts files : ∀ acc s,
  monikerLoop ts acc files s
  = match documentsOf ts files s with
    | Ok (ds, s') => Ok (fold_left monikerStep ds acc, s')
    | Throw e => Throw e
    | OutOfFuel => OutOfFuel
    end.
Proof.
  unfold documentsOf.
  induction files as [|f files IH]; intros acc s; simpl; [reflexivity|].
  unfold bind in *.
  destruct (getOrCreateDocumentData ts f s) as [[l s1]| |]; try reflexivity.
  destruct (readDocument l s1) as [[d s2]| |]; try reflexivity.
  rewrite IH.
  destruct (mapM _ files s2) as [[ds s3]| |]; reflexivity.
Qed.

(** *** Definition sites *)

Lemma hasDefinitionInfo_spec sd info :
  hasDefinitionInfo sd info = true
  ↔ ∃ i, i ∈ definitionInfo sd ∧ file i = file info ∧ site i = site info.
Proof.
  unfold hasDefinitionInfo. rewrite existsb_exists. split.
  - intros (i & Hin & Hi). apply bool_decide_eq_true in Hi as ->.
    exists info. rewrite list_elem_of_In. auto.
  - intros (i & Hin & Hf & Hs). exists i.
    rewrite <- list_elem_of_In. split; [exact Hin|].
    apply bool_decide_eq_true. destruct i, info; simpl in *; congruence.
Qed.

(** What is left of [visitSymbol] once the symbol data is at hand. *)
Lemma addReference_keeps_definitions l sourceFile reference
    (store : list SymbolData) :
  definitions <$> alter (fun sd =>
    {| sdocument := sdocument sd; variant := variant sd;
       definitions := definitions sd; definitionInfo := definitionInfo sd;
       references := references sd ++ [(sourceFile, reference)];
       monikers := monikers sd; hovers := hovers sd; sphase := sphase sd |})
    l store = definitions <$> store
  ∧ definitionInfo <$> alter (fun sd =>
    {| sdocument := sdocument sd; variant := variant sd;
       definitions := definitions sd; definitionInfo := definitionInfo sd;
       references := references sd ++ [(sourceFile, reference)];
       monikers := monikers sd; hovers := hovers sd; sphase := sphase sd |})
    l store = definitionInfo <$> store.
Proof.
  split; apply list_eq; intros i; rewrite !list_lookup_fmap;
    (destruct (decide (l = i)) as [->|Hne];
     [rewrite list_lookup_alter_eq; destruct (store !! i); reflexivity
     |rewrite list_lookup_alter_ne by exact Hne; reflexivity]).
Qed.

(** What is recorded when the symbol data is created. *)

Lemma sameSites_docframed : DocFramed sameSites.
Proof.
  split; [split|].
  - intros s. reflexivity.
  - intros s1 s2 s3 H1 H2. unfold sameSites in *. congruence.
  - intros s s' [_ H]. unfold sameSites, sitesOf. rewrite H. reflexivity.
Qed.
#[global] Hint Resolve sameSites_docframed : steps.

Lemma alter_keeps_sites f l :
  (∀ sd, sitesView (f sd) = sitesView sd) →
  steps sameSites (setSymbolStore (alter f l)).
Proof.
  intros Hf. apply steps_modify. intros s. unfold sameSites, sitesOf. simpl.
  rewrite (list_fmap_alter sitesView f id).
  - apply list_alter_id. reflexivity.
  - apply Forall_forall. intros sd _. apply Hf.
Qed.

Lemma alter_sites f h l s u s' :
  (∀ sd, sitesView (f sd) = h (sitesView sd)) →
  setSymbolStore (alter f l) s = Ok (u, s') →
  sitesOf s' = alter h l (sitesOf s).
Proof.
  intros Hf [= _ <-]. unfold sitesOf. simpl.
  apply list_fmap_alter, Forall_forall. intros sd _. apply Hf.
Qed.

Section DefinitionSites.
Variable ts : Oracle.
Variable getResolverType : Symbol → Node → V2.ResolverType.

Lemma SymbolData_begin_sites l : steps sameSites (SymbolData_begin l).
Proof. apply alter_keeps_sites. reflexivity. Qed.

Lemma SymbolData_addMoniker_sites l m :
  steps sameSites (SymbolData_addMoniker l m).
Proof.
  unfold SymbolData_addMoniker.
  apply steps_bind; [auto with steps..|].
  intros _. apply alter_keeps_sites. reflexivity.
Qed.

Lemma SymbolData_addHover_sites l h : steps sameSites (SymbolData_addHover l h).
Proof. apply alter_keeps_sites. reflexivity. Qed.

Lemma SymbolData_addReference_sites l f r :
  steps sameSites (SymbolData_addReference l f r).
Proof. apply alter_keeps_sites. reflexivity. Qed.

Lemma record_record i1 i2 x : record i2 (record i1 x) = record (i1 ++ i2) x.
Proof.
  destruct x as [[v i] n]. unfold record. simpl.
  rewrite <- app_assoc, length_app. f_equal. lia.
Qed.

Lemma record_nil x : record [] x = x.
Proof.
  destruct x as [[v i] n]. unfold record. simpl.
  rewrite app_nil_r. f_equal. lia.
Qed.

Lemma Graph_emitDefinition_records declaration l text node s u s' :
  Graph.emitDefinition ts declaration l text node s = Ok (u, s') →
  sitesOf s'
  = alter (record [createDefinitionInfo ts (getSourceFile ts declaration) node])
      l (sitesOf s).
Proof.
  intros H. unfold Graph.emitDefinition in H.
  inv_bind H. inv_bind H. inv_bind H. inv_bind H. inv_bind H. inv_bind H.
  assert (Hpre : sameSites s s3).
  { pose proof (docframed_preorder _ sameSites_docframed) as HP.
    transitivity s0; [eapply (getOrCreateDocumentData_steps ts); eauto with steps|].
    transitivity s1; [eapply vertexRange_steps; eauto with steps|].
    transitivity s2; [eapply emit_steps; eauto with steps|].
    eapply DocumentData_addRange_steps; eauto with steps. }
  apply (alter_sites _ (fun x => (x.1, S x.2))) in H4;
    [|intros sd; unfold sitesView; simpl; rewrite length_app, Nat.add_1_r;
      reflexivity].
  apply (alter_sites _ (fun x => (x.1.1, x.1.2 ++ [createDefinitionInfo ts
           (getSourceFile ts declaration) node], x.2))) in H5;
    [|intros sd; reflexivity].
  assert (Hpost : sameSites s5 s').
  { destruct (isNamedDeclaration ts declaration);
      [destruct (getHover ts _ _);
       [eapply SymbolData_addHover_sites, H|]|];
      injection H as _ <-; reflexivity. }
  rewrite Hpost, H5, H4, Hpre, list_alter_alter_eq.
  apply list_alter_ext; [|reflexivity].
  intros [[v i] n] _. unfold record. simpl. f_equal. lia.
Qed.

Lemma Graph_emitDefinitions_records v symbol l declarations s u s' :
  Graph.emitDefinitions ts v symbol l declarations s = Ok (u, s') →
  sitesOf s' = alter (record (recordedSites ts v symbol declarations)) l
                 (sitesOf s).
Proof.
  unfold Graph.emitDefinitions. revert s.
  induction declarations as [|d ds IH]; intros s H; simpl in H.
  - injection H as _ <-. symmetry. apply list_alter_id, record_nil.
  - inv_bind H. apply IH in H. rewrite H. unfold recordedSites. simpl.
    destruct (Graph.SymbolData_getText ts v symbol d) as [[text node]|].
    + apply Graph_emitDefinition_records in H0. rewrite H0.
      rewrite list_alter_alter_eq. apply list_alter_ext; [|reflexivity].
      intros x _. apply record_record.
    + injection H0 as _ <-. reflexivity.
Qed.

Lemma makeSymbolData_fresh recur symbol node s l s1 :
  Graph.makeSymbolData ts recur symbol node s = Ok (l, s1) →
  ∃ document v, symbolStore s1 !! l = Some (newSymbolData document v).
Proof.
  intros H. unfold Graph.makeSymbolData in H.
  inv_bind H. injection H0 as <- <-. inv_bind H. injection H0 as <- <-.
  destruct (currentDocumentData s); [|discriminate].
  destruct (currentSourceFile s); [|discriminate].
  inv_bind H. cbv zeta in H.
  destruct (isTransient ts symbol);
    destruct (isComposite ts symbol node);
    destruct (getCompositeSymbols ts symbol node);
    try case_bool_decide;
    destruct (isAliasSymbol ts symbol);
    destruct (isMethodSymbol ts symbol);
    inv_binds H; apply allocSymbol_lookup in H; eauto.
Qed.

Lemma Graph_getDeclarations_used v symbol node s declarations s' :
  Graph.SymbolData_getDeclarations ts v symbol node s = Ok (declarations, s') →
  declarations = declarationsUsed ts v symbol node ∧ s' = s.
Proof.
  unfold Graph.SymbolData_getDeclarations, declarationsUsed.
  destruct (Graph.usesOnlyUseSite v); [destruct node|];
    intros [= <- <-]; split; reflexivity.
Qed.

Lemma Graph_body_created recur symbol node s l s' :
  symbolDatas s !! createSymbolKey ts symbol = None →
  Graph.getOrCreateSymbolData_body ts recur symbol node s = Ok (l, s') →
  ∃ sd, symbolStore s' !! l = Some sd
        ∧ definitionInfo sd
          = recordedSites ts (variant sd) symbol
              (declarationsUsed ts (variant sd) symbol node)
        ∧ length (definitions sd) = length (definitionInfo sd).
Proof.
  intros E H. unfold Graph.getOrCreateSymbolData_body in H.
  inv_bind H. injection H0 as <- <-.
  destruct (currentDocumentData s); [|discriminate].
  inv_bind H. injection H0 as <- <-. rewrite E in H.
  inv_bind H. rename H0 into Hmake.
  destruct (makeSymbolData_fresh _ _ _ _ _ _ Hmake) as (doc & v & Hnew).
  inv_bind H. rename H0 into Hbegin. apply SymbolData_begin_sites in Hbegin.
  inv_bind H. rename H0 into Hread.
  assert (Hview : sitesOf s1 !! a = Some (v, [], 0)).
  { rewrite Hbegin. unfold sitesOf. rewrite list_lookup_fmap, Hnew.
    reflexivity. }
  assert (variant a1 = v ∧ s2 = s1) as [Hv ->].
  { unfold readSymbol in Hread. unfold sitesOf in Hview.
    rewrite list_lookup_fmap in Hview.
    destruct (symbolStore s1 !! a) as [sd|]; [|discriminate].
    injection Hread as <- <-. injection Hview as -> _ _.
    split; reflexivity. }
  rewrite Hv in H. clear Hv Hread a1.
  pose proof (docframed_preorder _ sameSites_docframed) as HP.
  inv_bind H.
  match goal with
  | HS : Graph.SymbolData_getSourceFiles _ _ _ _ _ = Ok _ |- _ =>
      apply (Graph_getSourceFiles_steps ts _ sameSites_docframed) in HS;
      rename HS into H1
  end.
  inv_bind H.
  match goal with
  | HS : resolveMonikerPath _ _ _ = Ok (?p, _) |- _ =>
      apply (resolveMonikerPath_steps ts _ sameSites_docframed) in HS;
      rename HS into H2; destruct p as [monikerPath externalLibrary]
  end.
  inv_bind H.
  match goal with
  | HS : _ ?s3 = Ok (_, ?s4) |- _ =>
      assert (H3 : sameSites s3 s4)
        by (destruct (monikerFor ts symbol _ monikerPath externalLibrary);
            [eapply SymbolData_addMoniker_sites, HS
            |injection HS as _ <-; reflexivity]);
      clear HS
  end.
  inv_bind H.
  match goal with
  | HS : Graph.SymbolData_getDeclarations _ _ _ _ _ = Ok _ |- _ =>
      apply Graph_getDeclarations_used in HS as [-> ->]
  end.
  inv_bind H.
  match goal with
  | HS : Graph.emitDefinitions _ _ _ _ _ _ = Ok _ |- _ =>
      apply Graph_emitDefinitions_records in HS; rename HS into H4
  end.
  inv_bind H. injection H as <- <-.
  match goal with
  | HS : setSymbolDatas _ _ = Ok _ |- _ =>
      cbv [setSymbolDatas modify] in HS; injection HS as _ <-
  end.
  simpl.
  match type of H4 with
  | sitesOf ?s5 = _ =>
      assert (Hfinal : sitesOf s5 !! a
                       = Some (record (recordedSites ts v symbol
                                         (declarationsUsed ts v symbol node))
                                 (v, [], 0)))
        by (rewrite H4, list_lookup_alter_eq, H3, H2, H1, Hview; reflexivity);
      unfold sitesOf in Hfinal; rewrite list_lookup_fmap in Hfinal;
      destruct (symbolStore s5 !! a) as [sd|]; [|discriminate]
  end.
  injection Hfinal as Hvar Hinfo Hlen.
  exists sd. split; [reflexivity|]. rewrite Hvar, Hinfo, Hlen.
  split; reflexivity.
Qed.

Lemma Graph_created fuel symbol node s l s' :
  symbolDatas s !! createSymbolKey ts symbol = None →
  Graph.getOrCreateSymbolData ts fuel symbol node s = Ok (l, s') →
  ∃ sd, symbolStore s' !! l = Some sd
        ∧ definitionInfo sd
          = recordedSites ts (variant sd) symbol
              (declarationsUsed ts (variant sd) symbol node)
        ∧ length (definitions sd) = length (definitionInfo sd).
Proof. destruct fuel; simpl; apply Graph_body_created. Qed.

Lemma Graph_visitSymbol_suppressed fuel node s sourceFile documentData
    symbol l s1 sd :
  currentSourceFile s = Some sourceFile →
  currentDocumentData s = Some documentData →
  checkerSymbolAtLocation ts node = Some symbol →
  Graph.getOrCreateSymbolData ts fuel symbol (Some node) s = Ok (l, s1) →
  symbolStore s1 !! l = Some sd →
  hasDefinitionInfo sd (createDefinitionInfo ts sourceFile node) = true →
  Graph.visitSymbol ts fuel node s = Ok (tt, s1).
Proof.
  intros Hsf Hd Hsym Hget Hsd Hhas.
  unfold Graph.visitSymbol, bind, gets, readSymbol.
  rewrite Hsf, Hd, Hsym, Hget, Hsd, Hhas. reflexivity.
Qed.

Lemma V2_visitSymbol_suppressed node s sourceFile documentData symbol l s1 sd :
  currentSourceFile s = Some sourceFile →
  currentDocumentData s = Some documentData →
  checkerSymbolAtLocation ts node = Some symbol →
  V2.getOrCreateSymbolData ts symbol node (getResolverType symbol node) s
  = Ok (l, s1) →
  symbolStore s1 !! l = Some sd →
  hasDefinitionInfo sd (createDefinitionInfo ts sourceFile node) = true →
  V2.visitSymbol ts getResolverType node s = Ok (tt, s1).
Proof.
  intros Hsf Hd Hsym Hget Hsd Hhas.
  unfold V2.visitSymbol, bind, gets, readSymbol.
  rewrite Hsf, Hd, Hsym, Hget, Hsd, Hhas. reflexivity.
Qed.

(** A visit of a symbol that is cached records no definition: it emits at
    most a reference range. *)
Lemma Graph_visitSymbol_cached fuel node s sourceFile documentData symbol l s' :
  currentSourceFile s = Some sourceFile →
  currentDocumentData s = Some documentData →
  checkerSymbolAtLocation ts node = Some symbol →
  symbolDatas s !! createSymbolKey ts symbol = Some l →
  Graph.visitSymbol ts fuel node s = Ok (tt, s') →
  definitions <$> symbolStore s' = definitions <$> symbolStore s
  ∧ definitionInfo <$> symbolStore s' = definitionInfo <$> symbolStore s
  ∧ ∃ refs, emitted s' = emitted s ++ refs ∧ Forall isReference refs.
Proof.
  intros Hsf Hd Hsym Hl H.
  unfold Graph.visitSymbol in H.
  inv_bind H. injection H0 as <- <-. inv_bind H. injection H0 as <- <-.
  rewrite Hsf, Hd, Hsym in H. inv_bind H.
  rewrite (Graph_lookup_hit ts fuel symbol (Some node) s l) in H0
    by (rewrite ?Hd; eauto).
  injection H0 as <- <-. inv_bind H.
  unfold readSymbol in H0. destruct (symbolStore s !! l); [|discriminate].
  injection H0 as <- <-.
  destruct (hasDefinitionInfo _ _).
  { injection H as <-. split; [reflexivity|]. split; [reflexivity|].
    exists []. rewrite app_nil_r. split; [reflexivity|constructor]. }
  inv_binds H.
  cbv [vertexRange freshId bind ret] in H0. injection H0 as <- <-.
  cbv [emit modify] in H1. injection H1 as _ <-.
  cbv [DocumentData_addRange setDocumentStore modify] in H2.
  injection H2 as _ <-.
  cbv [SymbolData_addReference setSymbolStore modify] in H.
  injection H as <-. simpl.
  destruct (addReference_keeps_definitions l sourceFile
              {| rid := nextId s;
                 range := rangeFromNode ts sourceFile node;
                 tag := ReferenceTag (nodeText ts node) |} (symbolStore s))
    as [H1 H2].
  split; [exact H1|]. split; [exact H2|].
  eexists. split; [reflexivity|]. repeat constructor.
Qed.
End DefinitionSites.

(** C4. A definition site is recorded once, at the creation of the symbol
    data; visits do not add to it. [hasDefinitionInfo] compares file and
    range. A visit of a node whose (file, range) is recorded on the cached
    node of its symbol changes nothing: no reference range is emitted,
    nothing is appended to the document. When the node is created by this
    very visit and records the site, the visit adds nothing to what the
    creation did. A visit of a cached symbol never records a definition:
    what it emits is at most a reference range. And the creation in
    src/indexer.ts records one definition and one site for each declaration
    that has a text, and nothing else. *)
Theorem recorded_definition_site_is_suppressed (ts : Oracle)
    (getResolverType : Symbol → Node → V2.ResolverType) (s : Indexer)
    (sourceFile : Node) (documentData : loc) (node : Node) (symbol : Symbol) :
  currentSourceFile s = Some sourceFile →
  currentDocumentData s = Some documentData →
  checkerSymbolAtLocation ts node = Some symbol →
  let info := createDefinitionInfo ts sourceFile node in
  (∀ sd, hasDefinitionInfo sd info = true
         ↔ ∃ i, i ∈ definitionInfo sd ∧ file i = file info ∧ site i = site info)
  ∧ (∀ l sd,
       symbolDatas s !! createSymbolKey ts symbol = Some l →
       symbolStore s !! l = Some sd →
       hasDefinitionInfo sd info = true →
       (∀ fuel, Graph.visitSymbol ts fuel node s = Ok (tt, s))
       ∧ V2.visitSymbol ts getResolverType node s = Ok (tt, s))
  ∧ (∀ fuel l s1 sd,
       Graph.getOrCreateSymbolData ts fuel symbol (Some node) s = Ok (l, s1) →
       symbolStore s1 !! l = Some sd →
       hasDefinitionInfo sd info = true →
       Graph.visitSymbol ts fuel node s = Ok (tt, s1))
  ∧ (∀ l s1 sd,
       V2.getOrCreateSymbolData ts symbol node (getResolverType symbol node) s
       = Ok (l, s1) →
       symbolStore s1 !! l = Some sd →
       hasDefinitionInfo sd info = true →
       V2.visitSymbol ts getResolverType node s = Ok (tt, s1))
  ∧ (∀ fuel l s',
       symbolDatas s !! createSymbolKey ts symbol = Some l →
       Graph.visitSymbol ts fuel node s = Ok (tt, s') →
       definitions <$> symbolStore s' = definitions <$> symbolStore s
       ∧ definitionInfo <$> symbolStore s' = definitionInfo <$> symbolStore s
       ∧ ∃ refs, emitted s' = emitted s ++ refs ∧ Forall isReference refs)
  ∧ (∀ fuel l s1,
       symbolDatas s !! createSymbolKey ts symbol = None →
       Graph.getOrCreateSymbolData ts fuel symbol (Some node) s = Ok (l, s1) →
       ∃ sd, symbolStore s1 !! l = Some sd
             ∧ definitionInfo sd
               = recordedSites ts (variant sd) symbol
                   (declarationsUsed ts (variant sd) symbol (Some node))
             ∧ length (definitions sd) = length (definitionInfo sd)).
Proof.
  intros Hsf Hd Hsym info.
  split; [intros sd; apply hasDefinitionInfo_spec|].
  split; [|split; [|split; [|split]]].
  - intros l sd Hl Hsd Hhas. split; [intros fuel|].
    + eapply Graph_visitSymbol_suppressed; eauto.
      apply Graph_lookup_hit; [rewrite Hd; eauto|exact Hl].
    + eapply V2_visitSymbol_suppressed; eauto.
      apply V2_lookup_hit; [rewrite Hd; eauto|exact Hl].
  - intros fuel l s1 sd. eapply Graph_visitSymbol_suppressed; eauto.
  - intros l s1 sd. eapply V2_visitSymbol_suppressed; eauto.
  - intros fuel l s'. eapply Graph_visitSymbol_cached; eauto.
  - intros fuel l s1. apply Graph_created.
Qed.

Lemma recorded_definition_site_is_suppressed_witness :
  let ts := Samples.sampleOracle in
  currentSourceFile Samples.fooDeclared = Some 0
  ∧ currentDocumentData Samples.fooDeclared = Some 0
  ∧ checkerSymbolAtLocation ts 2 = Some 10
  ∧ Graph.visitSymbol ts 0 2 Samples.fooDeclared = Ok (tt, Samples.fooDeclared)
  ∧ Graph.visitSymbol ts 0 2 Samples.insideFile = Ok (tt, Samples.fooDeclared)
  ∧ ∃ sd, symbolStore Samples.fooDeclared !! 0 = Some sd
          ∧ definitionInfo sd = [createDefinitionInfo ts 0 2]
          ∧ length (definitions sd) = 1.
Proof.
  intros ts.
  assert (H1 : currentSourceFile Samples.fooDeclared = Some 0)
    by (vm_compute; reflexivity).
  assert (H2 : currentDocumentData Samples.fooDeclared = Some 0)
    by (vm_compute; reflexivity).
  assert (H3 : checkerSymbolAtLocation ts 2 = Some 10) by reflexivity.
  destruct (recorded_definition_site_is_suppressed ts (fun _ _ => V2.standard)
              Samples.fooDeclared 0 0 2 10 H1 H2 H3) as (_ & Hhit & _).
  destruct (symbolStore Samples.fooDeclared !! 0) as [sd|] eqn:Hsd;
    [|vm_compute in Hsd; discriminate].
  assert (Hhas : hasDefinitionInfo sd (createDefinitionInfo ts 0 2) = true).
  { vm_compute in Hsd. injection Hsd as <-. vm_compute. reflexivity. }
  split; [exact H1|]. split; [exact H2|]. split; [exact H3|].
  split; [apply (Hhit 0 sd); [vm_compute; reflexivity|exact Hsd|exact Hhas]|].
  split; [vm_compute; reflexivity|].
  assert (H4 : currentSourceFile Samples.insideFile = Some 0)
    by (vm_compute; reflexivity).
  assert (H5 : currentDocumentData Samples.insideFile = Some 0)
    by (vm_compute; reflexivity).
  destruct (recorded_definition_site_is_suppressed ts (fun _ _ => V2.standard)
              Samples.insideFile 0 0 2 10 H4 H5 H3)
    as (_ & _ & _ & _ & _ & Hnew).
  destruct (Hnew 0 0 Samples.fooDeclared) as (sd' & Hsd' & Hinfo & Hlen);
    [vm_compute; reflexivity..|].
  rewrite Hsd in Hsd'. injection Hsd' as <-.
  exists sd. split; [reflexivity|]. rewrite Hlen, Hinfo.
  vm_compute in Hsd. injection Hsd as <-. vm_compute. split; reflexivity.
Defined.


(** *** Declarations by resolution variant *)

(** Which class [makeSymbolData] instantiates, src/indexer.ts 594-617: the
    two variants that stand for the use site alone are the composite one and
    the purely transient one. *)
Lemma makeSymbolData_variant ts recur symbol node s l s1 sd :
  Graph.makeSymbolData ts recur symbol node s = Ok (l, s1) →
  symbolStore s1 !! l = Some sd →
  match variant sd with
  | UnionOrIntersection _ _ =>
      isTransient ts symbol = true ∧ isComposite ts symbol node = true
      ∧ is_Some (getCompositeSymbols ts symbol node)
  | Transient =>
      isTransient ts symbol = true
      ∧ ¬ (isComposite ts symbol node = true
           ∧ is_Some (getCompositeSymbols ts symbol node))
      ∧ Z.land (getFlags ts symbol) (Z.lnot SymbolFlags_Transient) = 0%Z
  | _ =>
      isTransient ts symbol = false
      ∨ (¬ (isComposite ts symbol node = true
            ∧ is_Some (getCompositeSymbols ts symbol node))
         ∧ Z.land (getFlags ts symbol) (Z.lnot SymbolFlags_Transient) ≠ 0%Z)
  end.
Proof.
  intros H Hsd. unfold Graph.makeSymbolData in H.
  inv_bind H. injection H0 as <- <-. inv_bind H. injection H0 as <- <-.
  destruct (currentDocumentData s); [|discriminate].
  destruct (currentSourceFile s); [|discriminate].
  inv_bind H. cbv zeta in H.
  destruct (isTransient ts symbol) eqn:Ht;
    destruct (isComposite ts symbol node) eqn:Hc;
    destruct (getCompositeSymbols ts symbol node) eqn:Hcs;
    try case_bool_decide;
    destruct (isAliasSymbol ts symbol) eqn:Ha;
    destruct (isMethodSymbol ts symbol) eqn:Hm;
    inv_binds H; apply allocSymbol_lookup in H; rewrite H in Hsd;
    injection Hsd as <-; simpl;
    repeat split; eauto;
    try (right; split; [|assumption]);
    try (intros [? [? ?]]; discriminate).
Qed.

End GraphClaims.

Module TypedFacts.
Import Typed.

(** *** The local symbols of one visitor *)

Lemma LocalInv_same v v' :
  localSymbolCache v' = localSymbolCache v →
  localCounter v' = localCounter v →
  preservesInv LocalInv v v'.
Proof. intros Hc Hn [H1 H2]. split; rewrite Hc, ?Hn; assumption. Qed.

Lemma LocalInv_new doc cache : LocalInv (newVisitor doc cache).
Proof.
  split; simpl.
  - intros n s H. rewrite lookup_empty in H. discriminate.
  - intros n1 n2 i H. rewrite lookup_empty in H. discriminate.
Qed.

Section Locals.
Variable ts : Host.

Lemma newLocalSymbol_inv node :
  steps (preservesInv LocalInv) (newLocalSymbol node).
Proof.
  intros v s v' H [H1 H2]. cbv [newLocalSymbol Counter_next] in H.
  injection H as <- <-. split; simpl.
  - intros n s Hn. destruct (decide (n = node)) as [->|Hne].
    + rewrite lookup_insert_eq in Hn. injection Hn as <-. eauto.
    + rewrite lookup_insert_ne in Hn by congruence.
      destruct (H1 n s Hn) as (i & -> & Hi). eauto.
  - intros n1 n2 i Hn1 Hn2.
    destruct (decide (n1 = node)) as [->|Hne1];
      destruct (decide (n2 = node)) as [->|Hne2]; [reflexivity|..].
    + rewrite lookup_insert_eq in Hn1. injection Hn1 as <-.
      rewrite lookup_insert_ne in Hn2 by congruence.
      destruct (H1 _ _ Hn2) as (i & [= <-] & Hi). lia.
    + rewrite lookup_insert_eq in Hn2. injection Hn2 as <-.
      rewrite lookup_insert_ne in Hn1 by congruence.
      destruct (H1 _ _ Hn1) as (i & [= <-] & Hi). lia.
    + rewrite lookup_insert_ne in Hn1, Hn2 by congruence. eauto.
Qed.

Lemma cached_inv node sym : steps (preservesInv LocalInv) (cached node sym).
Proof.
  intros v s v' [= _ <-]. apply LocalInv_same; reflexivity.
Qed.

Lemma propertyCounter_inv name :
  steps (preservesInv LocalInv) (propertyCounter name).
Proof.
  apply steps_modify. intros v.
  destruct (propertyCounters v !! name); [intros H; exact H|].
  apply LocalInv_same; reflexivity.
Qed.

Lemma propertyCounterNext_inv name :
  steps (preservesInv LocalInv) (propertyCounterNext name).
Proof.
  intros v s v' H. cbv [propertyCounterNext Counter_next] in H.
  injection H as _ <-. apply LocalInv_same; reflexivity.
Qed.

Lemma pushOccurrence_inv o : steps (preservesInv LocalInv) (pushOccurrence o).
Proof. apply steps_modify. intros v. apply LocalInv_same; reflexivity. Qed.

Hint Resolve newLocalSymbol_inv cached_inv propertyCounter_inv
  propertyCounterNext_inv pushOccurrence_inv : steps.

Lemma lsifSymbol_body_inv recur fuel node :
  (∀ n, steps (preservesInv LocalInv) (recur n)) →
  steps (preservesInv LocalInv) (lsifSymbol_body ts recur fuel node).
Proof. intros Hrec. unfold lsifSymbol_body. solve_steps. Qed.

Lemma lsifSymbol_inv fuel node :
  steps (preservesInv LocalInv) (lsifSymbol ts fuel node).
Proof.
  revert node. induction fuel as [|fuel IH]; intros node; simpl;
    apply lsifSymbol_body_inv; [|exact IH].
  intros n. apply steps_stuck.
Qed.
Hint Resolve lsifSymbol_inv : steps.

Lemma visitIdentifier_inv fuel node :
  steps (preservesInv LocalInv) (visitIdentifier ts fuel node).
Proof. unfold visitIdentifier. solve_steps. Qed.
Hint Resolve visitIdentifier_inv : steps.

Lemma visit_inv fuel node : steps (preservesInv LocalInv) (visit ts fuel node).
Proof.
  revert node. induction fuel as [|fuel IH]; intros node; simpl; solve_steps.
Qed.
End Locals.

End TypedFacts.

Module TypedClaims.
Import Typed TypedFacts.

(** C6, amended. Local symbols are unique within one visitor, that is
    within one source file: no two nodes of its [localSymbolCache] share an
    identifier, and every identifier handed out is below the counter. The
    counter belongs to the visitor, and [Indexer.index] creates a new visitor
    for each file, so each file numbers its local symbols from 0 again. *)
Theorem local_identifiers_unique_per_visitor (ts : Host) (fuel : nat)
    (sourceFile : Node) (doc0 : Document) (cache0 : gmap Node LsifSymbol)
    (u : unit) (v : Visitor) :
  Visitor_index ts fuel sourceFile (newVisitor doc0 cache0) = Ok (u, v) →
  (∀ n1 n2 i,
     localSymbolCache v !! n1 = Some (local i) →
     localSymbolCache v !! n2 = Some (local i) → n1 = n2)
  ∧ (∀ n s, localSymbolCache v !! n = Some s →
            ∃ i, s = local i ∧ i < localCounter v)
  ∧ (∀ node, ∃ v0, newLocalSymbol node (newVisitor doc0 cache0)
                   = Ok (local 0, v0)).
Proof.
  intros H.
  destruct (visit_inv ts fuel sourceFile _ _ _ H (LocalInv_new doc0 cache0))
    as [H1 H2].
  split; [exact H2|]. split; [exact H1|].
  intros node. eexists. reflexivity.
Qed.

Lemma local_identifiers_unique_per_visitor_witness :
  ∃ v, Visitor_index TypedSamples.sampleHost 10 0
         (newVisitor TypedSamples.docA ∅) = Ok (tt, v)
       ∧ localSymbolCache v !! 8 = Some (local 0)
       ∧ localSymbolCache v !! 10 = Some (local 2)
       ∧ ∀ n, localSymbolCache v !! n = Some (local 2) → n = 10.
Proof.
  destruct (Visitor_index TypedSamples.sampleHost 10 0
              (newVisitor TypedSamples.docA ∅)) as [[[] v]| |] eqn:E;
    [|vm_compute in E; discriminate..].
  destruct (local_identifiers_unique_per_visitor _ _ _ _ _ _ _ E)
    as (Huniq & _ & _).
  assert (H8 : localSymbolCache v !! 8 = Some (local 0))
    by (vm_compute in E; injection E as <-; vm_compute; reflexivity).
  assert (H10 : localSymbolCache v !! 10 = Some (local 2))
    by (vm_compute in E; injection E as <-; vm_compute; reflexivity).
  exists v. split; [reflexivity|]. split; [exact H8|]. split; [exact H10|].
  intros n Hn. exact (Huniq n 10 2 Hn H10).
Defined.

(** C6 as stated fails: in the run of [Indexer.index] over the sample
    program the visitor of [/p/a.ts] gives [local 2] to the declaration of
    [y] (node 10) and the visitor of [/p/b.ts], built on the symbols cache
    the first one left, gives [local 2] to the declaration of [z]
    (node 26); both identifiers are written to the index. *)
Lemma local_identifier_reused_across_files :
  let ts := TypedSamples.sampleHost in
  ∃ s va vb,
    index ts 10 TypedSamples.start = Ok (tt, s)
    ∧ Visitor_index ts 10 0 (newVisitor TypedSamples.docA ∅) = Ok (tt, va)
    ∧ Visitor_index ts 10 20
        (newVisitor TypedSamples.docB (symbolsCache va)) = Ok (tt, vb)
    ∧ written s = [IndexMetadata "/p"; IndexDocuments [doc va];
                   IndexDocuments [doc vb]]
    ∧ localSymbolCache va !! 10 = Some (local 2)
    ∧ localSymbolCache vb !! 26 = Some (local 2)
    ∧ 10 ≠ 26
    ∧ {| range := rangeToLsif ts 11; symbol := local 2; symbol_roles := 1 |}
      ∈ occurrences (doc va)
    ∧ {| range := rangeToLsif ts 27; symbol := local 2; symbol_roles := 1 |}
      ∈ occurrences (doc vb).
Proof.
  intros ts.
  destruct (index ts 10 TypedSamples.start) as [[[] s]| |] eqn:Es;
    [|vm_compute in Es; discriminate..].
  destruct (Visitor_index ts 10 0 (newVisitor TypedSamples.docA ∅))
    as [[[] va]| |] eqn:Ea; [|vm_compute in Ea; discriminate..].
  assert (Eb : ∃ vb, Visitor_index ts 10 20
                       (newVisitor TypedSamples.docB (symbolsCache va))
                     = Ok (tt, vb)
                     ∧ written s = [IndexMetadata "/p"; IndexDocuments [doc va];
                                    IndexDocuments [doc vb]]
                     ∧ localSymbolCache va !! 10 = Some (local 2)
                     ∧ localSymbolCache vb !! 26 = Some (local 2)
                     ∧ {| range := rangeToLsif ts 11; symbol := local 2;
                          symbol_roles := 1 |} ∈ occurrences (doc va)
                     ∧ {| range := rangeToLsif ts 27; symbol := local 2;
                          symbol_roles := 1 |} ∈ occurrences (doc vb)).
  { vm_compute in Ea. injection Ea as <-.
    vm_compute in Es. injection Es as <-.
    eexists. split; [vm_compute; reflexivity|].
    split; [vm_compute; reflexivity|].
    split; [vm_compute; reflexivity|].
    split; [vm_compute; reflexivity|].
    split; vm_compute; repeat constructor. }
  destruct Eb as (vb & Hb & Hw & Ha10 & Hb26 & Hoa & Hob).
  exists s, va, vb. repeat split; try assumption. discriminate.
Qed.


(** *** Anonymous containers *)

Section Containers.
Variable ts : Host.

Lemma lsifSymbol_from_symbolsCache fuel node v s :
  symbolsCache v !! node = Some s → lsifSymbol ts fuel node v = Ok (s, v).
Proof.
  intros H. destruct fuel; simpl; unfold lsifSymbol_body, bind, gets;
    rewrite H; reflexivity.
Qed.

Lemma lsifSymbol_from_localSymbolCache fuel node v s :
  symbolsCache v !! node = None → localSymbolCache v !! node = Some s →
  lsifSymbol ts fuel node v = Ok (s, v).
Proof.
  intros H1 H2. destruct fuel; simpl; unfold lsifSymbol_body, bind, gets;
    rewrite H1, H2; reflexivity.
Qed.

Lemma cached_then_hit node sym v s v' :
  cached node sym v = Ok (s, v') →
  ∀ fuel, lsifSymbol ts fuel node v' = Ok (s, v').
Proof.
  intros [= <- <-] fuel. apply lsifSymbol_from_symbolsCache. simpl.
  apply lookup_insert_eq.
Qed.

(** A global symbol comes out of a cache or goes into one. *)
Lemma lsifSymbol_body_global_cached recur fuel node v s v' :
  lsifSymbol_body ts recur fuel node v = Ok (s, v') →
  isEmptyOrLocal s = false →
  kind ts node ≠ ImportSpecifier →
  symbolsCache v' !! node = Some s
  ∨ (symbolsCache v' !! node = None ∧ localSymbolCache v' !! node = Some s).
Proof.
  intros H Hs Hk. unfold lsifSymbol_body in H.
  inv_bind H. injection H0 as <- <-.
  destruct (symbolsCache v !! node) as [s0|] eqn:E1.
  { injection H as <- <-. left. exact E1. }
  destruct (localSymbolCache v !! node) as [s0|] eqn:E2.
  { injection H as <- <-. right. split; assumption. }
  destruct (kind ts node) eqn:K; try congruence; cbv zeta in H; run H;
    try discriminate;
    try (injection H as <- _; discriminate);
    try (cbv [newLocalSymbol Counter_next] in H; injection H as <- _;
         discriminate);
    try match goal with
        | E : isKind _ _ = true |- _ => vm_compute in E; discriminate
        end;
    match goal with
    | HC : cached _ _ _ = Ok _ |- _ =>
        injection HC as <- <-; left; simpl; apply lookup_insert_eq
    end.
Qed.

Lemma lsifSymbol_global_cached fuel node v s v' :
  lsifSymbol ts fuel node v = Ok (s, v') →
  isEmptyOrLocal s = false →
  kind ts node ≠ ImportSpecifier →
  symbolsCache v' !! node = Some s
  ∨ (symbolsCache v' !! node = None ∧ localSymbolCache v' !! node = Some s).
Proof. destruct fuel; simpl; apply lsifSymbol_body_global_cached. Qed.

Lemma lsifSymbol_in_cache fuel node v s :
  symbolsCache v !! node = Some s
  ∨ (symbolsCache v !! node = None ∧ localSymbolCache v !! node = Some s) →
  lsifSymbol ts fuel node v = Ok (s, v).
Proof.
  intros [H|[H1 H2]].
  - apply lsifSymbol_from_symbolsCache, H.
  - apply lsifSymbol_from_localSymbolCache; assumption.
Qed.

Lemma container_first_resolution fuel node v owner v1 :
  isAnonymousContainerOfSymbols ts node = true →
  symbolsCache v !! node = None →
  localSymbolCache v !! node = None →
  lsifSymbol ts fuel (parent ts node) v = Ok (owner, v1) →
  lsifSymbol ts (S fuel) node v
  = if isEmptyOrLocal owner then newLocalSymbol node v1
    else (let* s := lsifSymbol ts fuel (parent ts node) in cached node s) v1.
Proof.
  intros Hc H1 H2 Hp.
  change (lsifSymbol ts (S fuel) node v)
    with (lsifSymbol_body ts (lsifSymbol ts fuel) (S fuel) node v).
  unfold lsifSymbol_body, bind at 1, gets. rewrite H1, H2.
  unfold isAnonymousContainerOfSymbols in *.
  destruct (kind ts node); try discriminate;
    unfold bind at 1; rewrite Hp; destruct (isEmptyOrLocal owner); reflexivity.
Qed.
End Containers.

(** C8, amended. When an anonymous container (module block, import
    declaration or clause, named imports, variable statement, variable
    declaration list) is resolved for the first time and its parent resolves
    to a global symbol, the container resolves to that same symbol and is
    cached under it: qualification flattens through it. When the parent
    resolves to the empty symbol or to a local one, the container does not
    take the parent's symbol: it gets a new local symbol of its own, the
    next value of the counter. (The parent of a container is a source file,
    a block, a declaration or another container, never an import
    specifier.) *)
Theorem container_takes_global_parent_symbol (ts : Host) (fuel : nat)
    (node : Node) (v : Visitor) (owner : LsifSymbol) (v1 : Visitor) :
  isAnonymousContainerOfSymbols ts node = true →
  symbolsCache v !! node = None →
  localSymbolCache v !! node = None →
  kind ts (parent ts node) ≠ ImportSpecifier →
  lsifSymbol ts fuel (parent ts node) v = Ok (owner, v1) →
  (isEmptyOrLocal owner = false →
   ∃ v2, lsifSymbol ts (S fuel) node v = Ok (owner, v2)
         ∧ symbolsCache v2 = <[node := owner]> (symbolsCache v1)
         ∧ localSymbolCache v2 = localSymbolCache v1
         ∧ ∀ fuel', lsifSymbol ts fuel' (parent ts node) v2 = Ok (owner, v2))
  ∧ (isEmptyOrLocal owner = true →
     ∃ v2, lsifSymbol ts (S fuel) node v = Ok (local (localCounter v1), v2)
           ∧ localSymbolCache v2
             = <[node := local (localCounter v1)]> (localSymbolCache v1)
           ∧ localCounter v2 = S (localCounter v1)).
Proof.
  intros Hc H1 H2 Hk Hp.
  rewrite (container_first_resolution ts fuel node v owner v1 Hc H1 H2 Hp).
  split; intros Ho; rewrite Ho.
  - pose proof (lsifSymbol_global_cached ts _ _ _ _ _ Hp Ho Hk) as Hin.
    unfold bind. rewrite (lsifSymbol_in_cache ts fuel _ _ _ Hin).
    eexists. split; [reflexivity|]. simpl.
    split; [reflexivity|]. split; [reflexivity|].
    intros fuel'. apply lsifSymbol_in_cache. simpl.
    destruct (decide (node = parent ts node)) as [Heq|Hne].
    + left. rewrite <- Heq. apply lookup_insert_eq.
    + rewrite lookup_insert_ne by exact Hne. exact Hin.
  - eexists. split; [reflexivity|]. simpl. auto.
Qed.


Lemma container_takes_global_parent_symbol_witness :
  let ts := TypedSamples.sampleHost in
  let v := newVisitor TypedSamples.docA ∅ in
  isAnonymousContainerOfSymbols ts 1 = true
  ∧ ∃ v1 v2, lsifSymbol ts 5 (parent ts 1) v = Ok (package "pkg" "1.0", v1)
             ∧ lsifSymbol ts 6 1 v = Ok (package "pkg" "1.0", v2).
Proof.
  intros ts v.
  assert (Hc : isAnonymousContainerOfSymbols ts 1 = true) by reflexivity.
  split; [exact Hc|].
  destruct (lsifSymbol ts 5 (parent ts 1) v) as [[owner v1]| |] eqn:E;
    [|vm_compute in E; discriminate..].
  assert (Ho : owner = package "pkg" "1.0")
    by (vm_compute in E; injection E as <- _; reflexivity).
  subst owner.
  destruct (container_takes_global_parent_symbol ts 5 1 v _ v1 Hc
              ltac:(reflexivity) ltac:(reflexivity) ltac:(discriminate) E)
    as [Hglobal _].
  destruct (Hglobal eq_refl) as (v2 & H2 & _).
  exists v1, v2. split; [reflexivity|exact H2].
Defined.

(** C8 as stated fails: the variable statement of [function f() { var y }]
    (node 8) has the body block (node 7) as parent. The block resolves to
    the empty symbol, the statement to [local 0]; the declaration list
    (node 9) inside the statement resolves to [local 1], not to the symbol
    of the statement. *)
Lemma container_under_block_gets_own_symbol :
  let ts := TypedSamples.sampleHost in
  let v := newVisitor TypedSamples.docA ∅ in
  isAnonymousContainerOfSymbols ts 8 = true
  ∧ isAnonymousContainerOfSymbols ts 9 = true
  ∧ parent ts 8 = 7 ∧ parent ts 9 = 8
  ∧ ∃ v', lsifSymbol ts 10 9 v = Ok (local 1, v')
          ∧ lsifSymbol ts 10 8 v' = Ok (local 0, v')
          ∧ lsifSymbol ts 10 7 v' = Ok (empty, v')
          ∧ local 1 ≠ local 0 ∧ local 0 ≠ empty.
Proof.
  intros ts v. repeat (split; [reflexivity|]).
  destruct (lsifSymbol ts 10 9 v) as [[s v']| |] eqn:E;
    [|vm_compute in E; discriminate..].
  exists v'. vm_compute in E. injection E as <- <-.
  split; [reflexivity|]. split; [vm_compute; reflexivity|].
  split; [vm_compute; reflexivity|]. split; discriminate.
Qed.


(** *** Occurrences *)

Lemma sameDoc_preorder : PreOrder sameDoc.
Proof.
  split; [intros v; reflexivity|].
  intros v1 v2 v3 H1 H2. unfold sameDoc in *. congruence.
Qed.

Lemma samePath_preorder : PreOrder samePath.
Proof.
  split; [intros v; reflexivity|].
  intros v1 v2 v3 H1 H2. unfold samePath in *. congruence.
Qed.

Hint Resolve sameDoc_preorder samePath_preorder : steps.

Lemma returns_bind {S A B} (m : StateM S A) (k : A → StateM S B) s :
  returns m s →
  (∀ a s', m s = Ok (a, s') → returns (k a) s') →
  returns (bind m k) s.
Proof.
  intros (a & s' & Hm) Hk. destruct (Hk a s' Hm) as (b & s'' & Hb).
  exists b, s''. unfold bind. rewrite Hm. exact Hb.
Qed.

Section Occurrences.
Variable ts : Host.

Lemma newLocalSymbol_sameDoc node : steps sameDoc (newLocalSymbol node).
Proof. intros v s v' [= _ <-]. reflexivity. Qed.

Lemma cached_sameDoc node sym : steps sameDoc (cached node sym).
Proof. intros v s v' [= _ <-]. reflexivity. Qed.

Lemma propertyCounter_sameDoc name : steps sameDoc (propertyCounter name).
Proof.
  apply steps_modify. intros v.
  destruct (propertyCounters v !! name); reflexivity.
Qed.

Lemma propertyCounterNext_sameDoc name :
  steps sameDoc (propertyCounterNext name).
Proof. intros v s v' [= _ <-]. reflexivity. Qed.

Hint Resolve newLocalSymbol_sameDoc cached_sameDoc propertyCounter_sameDoc
  propertyCounterNext_sameDoc : steps.

Lemma lsifSymbol_body_sameDoc recur fuel node :
  (∀ n, steps sameDoc (recur n)) →
  steps sameDoc (lsifSymbol_body ts recur fuel node).
Proof. intros Hrec. unfold lsifSymbol_body. solve_steps. Qed.

Lemma lsifSymbol_sameDoc fuel node : steps sameDoc (lsifSymbol ts fuel node).
Proof.
  revert node. induction fuel as [|fuel IH]; intros node; simpl;
    apply lsifSymbol_body_sameDoc; [|exact IH].
  intros n. apply steps_stuck.
Qed.

(** *** Resolution comes back on a well-founded program *)

Variable rank : Node → nat.
Hypothesis Hrank : Ranked ts rank.
Hypothesis Htypes : TypeSymbols ts.

Lemma descriptor_returns (fuel : nat) : ∀ node,
  (rank node ≤ fuel)%nat → ∃ d, descriptor ts fuel node = Ok d.
Proof.
  induction fuel as [|fuel IH]; intros node Hle; simpl;
    destruct (kind ts node) eqn:K; eauto;
    rewrite (Htypes node K);
    destruct (typeDeclarations ts node) as [[|d ds]|] eqn:E; simpl; eauto;
    destruct (Hrank node) as [_ Hd]; specialize (Hd d ds E); [lia|].
  apply IH. lia.
Qed.

Lemma lsifSymbol_body_returns recur (fuel : nat) node v :
  (∀ m v0, rank m < rank node → returns (recur m) v0) →
  (rank node ≤ fuel)%nat →
  returns (lsifSymbol_body ts recur fuel node) v.
Proof.
  intros Hrec Hle. unfold lsifSymbol_body.
  apply returns_bind; [eexists _, _; reflexivity|].
  intros fromCache v0 _.
  destruct fromCache; [eexists _, _; reflexivity|].
  destruct (Hrank node) as [Hup Hdecl].
  assert (Hparent : kind ts node ≠ SourceFile →
                    ∀ v0, returns (recur (parent ts node)) v0).
  { intros K v1. apply Hrec. apply Hup, K. }
  assert (Hfile : kind ts node ≠ SourceFile →
                  ∀ v0, returns (recur (getSourceFile ts node)) v0).
  { intros K v1. apply Hrec. apply Hup, K. }
  assert (Hvia : ∀ owner v1, returns
            match descriptor ts fuel node with
            | Ok (Some desc) => cached node (global owner desc)
            | Ok None => newLocalSymbol node
            | Throw e => throw e
            | OutOfFuel => stuck
            end v1).
  { intros owner v1. destruct (descriptor_returns fuel node Hle) as [[d|] ->];
      eexists _, _; reflexivity. }
  assert (Hdefault : kind ts node ≠ SourceFile →
    returns
      (let* owner := recur (parent ts node) in
       if isEmptyOrLocal owner then newLocalSymbol node
       else if isAnonymousContainerOfSymbols ts node then
              let* s := recur (parent ts node) in cached node s
            else
              let viaDescriptor : V LsifSymbol :=
                match descriptor ts fuel node with
                | Ok (Some desc) => cached node (global owner desc)
                | Ok None => newLocalSymbol node
                | Throw e => throw e
                | OutOfFuel => stuck
                end in
              if isKind (kind ts node) ImportSpecifier then
                if typeHasSymbol ts node then
                  match default [] (typeDeclarations ts node) with
                  | declaration :: _ => recur declaration
                  | [] => viaDescriptor
                  end
                else throw typeSymbolUndefined
              else viaDescriptor) v0).
  { intros K. apply returns_bind; [apply Hparent, K|]. intros owner v1 _.
    destruct (isEmptyOrLocal owner); [eexists _, _; reflexivity|].
    destruct (isAnonymousContainerOfSymbols ts node).
    { apply returns_bind; [apply Hparent, K|]. intros s v2 _.
      eexists _, _; reflexivity. }
    cbv zeta. unfold isKind. case_bool_decide as Ki; [|apply Hvia].
    rewrite (Htypes node Ki).
    destruct (typeDeclarations ts node) as [[|d ds]|] eqn:E; simpl;
      try apply Hvia.
    apply Hrec. apply (Hdecl d ds eq_refl). }
  destruct (kind ts node) eqn:K;
    try (apply Hdefault; discriminate).
  - destruct (packagesSymbol ts (fileName ts node)); eexists _, _; reflexivity.
  - apply returns_bind; [eexists _, _; reflexivity|]. intros _ v1 _.
    apply returns_bind; [apply Hfile; discriminate|]. intros owner v2 _.
    apply returns_bind; [eexists _, _; reflexivity|]. intros n v3 _.
    eexists _, _; reflexivity.
  - apply returns_bind; [eexists _, _; reflexivity|]. intros _ v1 _.
    apply returns_bind; [apply Hfile; discriminate|]. intros owner v2 _.
    apply returns_bind; [eexists _, _; reflexivity|]. intros n v3 _.
    eexists _, _; reflexivity.
  - eexists _, _; reflexivity.
Qed.

Lemma lsifSymbol_returns (fuel : nat) : ∀ node v,
  (rank node ≤ fuel)%nat → returns (lsifSymbol ts fuel node) v.
Proof.
  induction fuel as [|fuel IH]; intros node v Hle; simpl;
    apply lsifSymbol_body_returns; try exact Hle.
  - intros m v0 Hm. lia.
  - intros m v0 Hm. apply IH. lia.
Qed.

(** The loop over the declarations of an identifier. *)
Lemma docBlind_ret {A} (a : A) : docBlind (ret a).
Proof. intros d v. reflexivity. Qed.

Lemma docBlind_throw {A} msg : docBlind (throw (A:=A) msg).
Proof. intros d v. reflexivity. Qed.

Lemma docBlind_stuck {A} : docBlind (stuck (A:=A)).
Proof. intros d v. reflexivity. Qed.

Lemma docBlind_bind {A B} (m : V A) (k : A → V B) :
  docBlind m → (∀ a, docBlind (k a)) → docBlind (bind m k).
Proof.
  intros Hm Hk d v. unfold bind. rewrite Hm.
  destruct (m v) as [[a v']| |]; [apply Hk|reflexivity..].
Qed.

Lemma docBlind_gets {A} (f : Visitor → A) :
  (∀ d v, f (withDoc d v) = f v) → docBlind (gets f).
Proof. intros Hf d v. unfold gets. rewrite Hf. reflexivity. Qed.

Lemma newLocalSymbol_docBlind node : docBlind (newLocalSymbol node).
Proof.
  intros d v. unfold newLocalSymbol. simpl.
  destruct (Counter_next (localCounter v)). reflexivity.
Qed.

Lemma cached_docBlind node sym : docBlind (cached node sym).
Proof. intros d v. reflexivity. Qed.

Lemma propertyCounter_docBlind name : docBlind (propertyCounter name).
Proof.
  intros d v. unfold propertyCounter, modify. simpl.
  destruct (propertyCounters v !! name); reflexivity.
Qed.

Lemma propertyCounterNext_docBlind name : docBlind (propertyCounterNext name).
Proof.
  intros d v. unfold propertyCounterNext. simpl.
  destruct (Counter_next (default Counter_new (propertyCounters v !! name))).
  reflexivity.
Qed.

Ltac blind_step :=
  first
    [ apply docBlind_ret | apply docBlind_throw | apply docBlind_stuck
    | apply cached_docBlind | apply newLocalSymbol_docBlind
    | apply propertyCounter_docBlind | apply propertyCounterNext_docBlind
    | apply docBlind_gets; intros ? ?; reflexivity
    | assumption
    | apply docBlind_bind; [|intros ?]
    | match goal with
      | H : ∀ n, docBlind (_ n) |- _ => apply H
      | |- docBlind (match ?x with _ => _ end) => destruct x
      | |- docBlind (if ?b then _ else _) => destruct b
      end ].

Lemma lsifSymbol_body_docBlind recur fuel node :
  (∀ n, docBlind (recur n)) → docBlind (lsifSymbol_body ts recur fuel node).
Proof. intros Hrec. unfold lsifSymbol_body. repeat blind_step. Qed.

Lemma lsifSymbol_docBlind fuel node : docBlind (lsifSymbol ts fuel node).
Proof.
  revert node. induction fuel as [|fuel IH]; intros node; simpl;
    apply lsifSymbol_body_docBlind; [|exact IH].
  intros n. apply docBlind_stuck.
Qed.

Lemma mapM_docBlind {A B} (f : A → V B) l :
  (∀ a, docBlind (f a)) → docBlind (mapM f l).
Proof.
  intros Hf. induction l as [|a l IH]; simpl; repeat blind_step.
Qed.

Lemma pushed_nil v : pushed [] v = v.
Proof.
  destruct v as [c p l s [path occ]]. unfold pushed, withDoc. simpl.
  rewrite app_nil_r. reflexivity.
Qed.

Lemma pushed_pushed os1 os2 v : pushed os2 (pushed os1 v) = pushed (os1 ++ os2) v.
Proof. unfold pushed, withDoc. simpl. rewrite app_assoc. reflexivity. Qed.

Lemma pushOccurrence_pushed o v : pushOccurrence o v = Ok (tt, pushed [o] v).
Proof. reflexivity. Qed.

(** The loop of [visit] over the declarations resolves them in turn, as
    [lsifSymbol] alone would, and pushes one occurrence for each. *)
Lemma occurrences_follow_resolution fuel (mk : LsifSymbol → Occurrence) decls :
  ∀ v syms v1,
    mapM (lsifSymbol ts fuel) decls v = Ok (syms, v1) →
    forM (fun declaration =>
            let* lsifSymbol := lsifSymbol ts fuel declaration in
            pushOccurrence (mk lsifSymbol)) decls v
    = Ok (tt, pushed (map mk syms) v1).
Proof.
  induction decls as [|d decls IH]; intros v syms v1 H; simpl in *.
  - injection H as <- <-. simpl. rewrite pushed_nil. reflexivity.
  - inv_bind H. inv_bind H. injection H as <- <-.
    unfold bind at 1. unfold bind at 1. rewrite H0.
    rewrite pushOccurrence_pushed.
    pose proof (mapM_docBlind (lsifSymbol ts fuel) decls
                  (lsifSymbol_docBlind fuel)
                  {| relative_path := relative_path (doc s);
                     occurrences := occurrences (doc s) ++ [mk a] |} s) as Hb.
    rewrite H1 in Hb. apply IH in Hb.
    change (pushed [mk a] s)
      with (withDoc {| relative_path := relative_path (doc s);
                       occurrences := occurrences (doc s) ++ [mk a] |} s).
    rewrite Hb.
    assert (Hdoc : doc s0 = doc s).
    { eapply (steps_mapM sameDoc sameDoc_preorder); [|exact H1].
      intros n. apply lsifSymbol_sameDoc. }
    unfold pushed, withDoc. simpl. rewrite Hdoc, <- app_assoc. reflexivity.
Qed.

Lemma resolution_returns (fuel : nat) decls : ∀ v,
  (∀ d, d ∈ decls → (rank d ≤ fuel)%nat) →
  ∃ syms v1, mapM (lsifSymbol ts fuel) decls v = Ok (syms, v1)
             ∧ length syms = length decls ∧ doc v1 = doc v.
Proof.
  induction decls as [|d decls IH]; intros v Hle; simpl.
  - exists [], v. repeat split.
  - destruct (lsifSymbol_returns fuel d v) as (s & v1 & Hs).
    { apply Hle. left. }
    destruct (IH v1) as (syms & v2 & Hrest & Hlen & Hdoc).
    { intros d' Hd'. apply Hle. right. exact Hd'. }
    exists (s :: syms), v2. unfold bind. rewrite Hs, Hrest.
    split; [reflexivity|]. split; [simpl; rewrite Hlen; reflexivity|].
    rewrite Hdoc. eapply lsifSymbol_sameDoc, Hs.
Qed.
End Occurrences.

(** X15. Where the type of every import specifier has a symbol, on a program
    whose parent and declaration links are well founded (so that resolution
    comes back once the fuel covers the rank of the declarations), the
    visit of an identifier pushes one occurrence for each declaration of
    its symbol, in order: all of them carry the range and the role of the
    identifier, and the symbol of each is what [lsifSymbol] resolves for
    the corresponding declaration, the declarations being resolved in
    turn. The visitor is left as this resolution leaves it, with these
    occurrences added to its document. With no symbol, or a symbol without
    declarations, nothing is pushed and nothing changes. *)
Theorem identifier_pushes_an_occurrence_per_declaration (ts : Host)
    (rank : Node → nat) (fuel : nat) (node : Node) (v : Visitor) :
  Ranked ts rank →
  TypeSymbols ts →
  kind ts node = Identifier →
  children ts node = [] →
  let decls := match getSymbolAtLocation ts node with
               | Some sym => default [] (declarations ts sym)
               | None => []
               end in
  let role := if bool_decide (declarationName ts (parent ts node) = Some node)
              then Z.lor 0 (SymbolRole_Definition ts) else 0%Z in
  (∀ d, d ∈ decls → (rank d ≤ fuel)%nat) →
  (∃ syms v1,
     mapM (lsifSymbol ts fuel) decls v = Ok (syms, v1)
     ∧ length syms = length decls
     ∧ doc v1 = doc v
     ∧ visit ts fuel node v
       = Ok (tt, pushed (map (fun s => {| range := rangeToLsif ts node;
                                          symbol := s;
                                          symbol_roles := role |}) syms) v1))
  ∧ (decls = [] → visit ts fuel node v = Ok (tt, v)).
Proof.
  intros Hrank Htypes K Hch decls role Hle.
  assert (Hv : visit ts fuel node v
               = forM (fun declaration =>
                         let* lsifSymbol := lsifSymbol ts fuel declaration in
                         pushOccurrence {| range := rangeToLsif ts node;
                                           symbol := lsifSymbol;
                                           symbol_roles := role |}) decls v).
  { assert (Hv : visit ts fuel node v
                 = ((if isKind (kind ts node) Identifier
                     then visitIdentifier ts fuel node else ret tt);;
                    forM (match fuel with
                          | 0 => fun _ => stuck
                          | S fuel' => visit ts fuel'
                          end) (children ts node)) v)
      by (destruct fuel; reflexivity).
    rewrite Hv, K, Hch. simpl. unfold bind at 1.
    unfold visitIdentifier. fold decls. fold role.
    destruct (forM _ decls v) as [[[] v']| |]; reflexivity. }
  destruct (resolution_returns ts rank Hrank Htypes fuel decls v Hle)
    as (syms & v1 & Hrun & Hlen & Hdoc).
  split.
  - exists syms, v1. split; [exact Hrun|]. split; [exact Hlen|].
    split; [exact Hdoc|]. rewrite Hv.
    apply (occurrences_follow_resolution ts fuel
             (fun s => {| range := rangeToLsif ts node; symbol := s;
                          symbol_roles := role |})), Hrun.
  - intros Hnil. rewrite Hv, Hnil. reflexivity.
Qed.


Lemma sample_program_ranked :
  Ranked TypedSamples.sampleHost TypedSamples.sampleRank.
Proof.
  intros n.
  do 42 (destruct n as [|n];
         [split; [intros K; try (exfalso; apply K; reflexivity);
                  vm_compute; lia
                 |intros d ds [=]]|]).
  split; [intros _; vm_compute; lia|intros d ds [=]].
Qed.

Lemma identifier_pushes_an_occurrence_per_declaration_witness :
  let ts := TypedSamples.sampleHost in
  let v := newVisitor TypedSamples.docA ∅ in
  Ranked ts TypedSamples.sampleRank
  ∧ TypeSymbols ts
  ∧ kind ts 11 = Identifier ∧ children ts 11 = []
  ∧ ∃ v', visit ts 10 11 v = Ok (tt, v')
          ∧ occurrences (doc v')
            = [{| range := [11; 0; 1]; symbol := local 2; symbol_roles := 1 |}].
Proof.
  intros ts v.
  assert (Htypes : TypeSymbols ts) by (intros n _; reflexivity).
  split; [exact sample_program_ranked|]. split; [exact Htypes|].
  split; [reflexivity|]. split; [reflexivity|].
  destruct (identifier_pushes_an_occurrence_per_declaration ts
              TypedSamples.sampleRank 10 11 v sample_program_ranked Htypes
              eq_refl eq_refl) as ((syms & v1 & Hrun & _ & _ & Hv) & _).
  { intros d Hd. simpl in Hd. apply list_elem_of_singleton in Hd as ->.
    vm_compute. lia. }
  eexists. split; [exact Hv|].
  vm_compute in Hrun. injection Hrun as <- <-. vm_compute. reflexivity.
Defined.

(** C9. The visit of an identifier does not push one occurrence per
    declaration when a declaration of its symbol is an import specifier
    whose type has no symbol (a value of a primitive type imported by
    name). Resolving such a declaration that the caches do not hold, under
    an owner that is neither empty nor local, reads [tpe.symbol.declarations]
    off the undefined [tpe.symbol] (src/Visitor.ts 118): the [TypeError]
    ends the visit, and with it the traversal of the file, before any
    occurrence of the identifier is pushed. *)
Theorem import_specifier_without_type_symbol_aborts_visit (ts : Host)
    (fuel : nat) (node : Node) (sym : Symbol) (d : Node) (rest : list Node)
    (v v1 : Visitor) (owner : LsifSymbol) :
  kind ts node = Identifier →
  getSymbolAtLocation ts node = Some sym →
  declarations ts sym = Some (d :: rest) →
  kind ts d = ImportSpecifier →
  typeHasSymbol ts d = false →
  symbolsCache v !! d = None →
  localSymbolCache v !! d = None →
  lsifSymbol ts fuel (parent ts d) v = Ok (owner, v1) →
  isEmptyOrLocal owner = false →
  lsifSymbol ts (S fuel) d v = Throw typeSymbolUndefined
  ∧ visit ts (S fuel) node v = Throw typeSymbolUndefined.
Proof.
  intros K Hsym Hdecls Kd Htype Hc Hl Howner Hglobal.
  assert (Hd : lsifSymbol ts (S fuel) d v = Throw typeSymbolUndefined).
  { simpl. unfold lsifSymbol_body. unfold bind at 1. unfold gets.
    rewrite Hc, Hl, Kd. unfold bind at 1. rewrite Howner, Hglobal.
    unfold isAnonymousContainerOfSymbols. rewrite Kd. simpl.
    rewrite Htype. reflexivity. }
  split; [exact Hd|].
  change (visit ts (S fuel) node v)
    with (((if isKind (kind ts node) Identifier
            then visitIdentifier ts (S fuel) node else ret tt);;
           forM (visit ts fuel) (children ts node)) v).
  rewrite K. unfold visitIdentifier. rewrite Hsym, Hdecls.
  revert Hd. generalize (lsifSymbol ts (S fuel)). intros resolve Hd.
  simpl. unfold bind. rewrite Hd. reflexivity.
Qed.

Lemma import_specifier_without_type_symbol_aborts_visit_witness :
  let ts := TypedSamples.importHost false in
  let v := newVisitor TypedSamples.docM ∅ in
  kind ts 5 = Identifier
  ∧ default [] (declarations ts 100) = [4]
  ∧ kind ts 4 = ImportSpecifier
  ∧ typeHasSymbol ts 4 = false
  ∧ visit ts 4 5 v = Throw typeSymbolUndefined
  ∧ Visitor_index ts 9 0 v = Throw typeSymbolUndefined
  ∧ ∃ v', visit (TypedSamples.importHost true) 4 5 v = Ok (tt, v')
          ∧ occurrences (doc v')
            = [{| range := [5; 0; 1];
                  symbol := global (package "pkg" "1.0") (DType "n");
                  symbol_roles := 0 |}].
Proof.
  intros ts v.
  split; [reflexivity|]. split; [reflexivity|]. split; [reflexivity|].
  split; [reflexivity|]. split; [|split].
  - eapply (import_specifier_without_type_symbol_aborts_visit ts 3 5 100 4 []
              v); try reflexivity.
  - vm_compute. reflexivity.
  - eexists. split; vm_compute; reflexivity.
Defined.


(** *** The documents the indexer writes *)

Section Documents.
Variable ts : Host.

Lemma steps_sameDoc_samePath {A} (m : V A) : steps sameDoc m → steps samePath m.
Proof.
  intros H v a v' Hm. unfold samePath. rewrite (H v a v' Hm). reflexivity.
Qed.

Lemma pushOccurrence_samePath o : steps samePath (pushOccurrence o).
Proof. apply steps_modify. intros v. reflexivity. Qed.

Lemma lsifSymbol_samePath fuel node : steps samePath (lsifSymbol ts fuel node).
Proof. apply steps_sameDoc_samePath, lsifSymbol_sameDoc. Qed.

Hint Resolve pushOccurrence_samePath lsifSymbol_samePath : steps.

Lemma visitIdentifier_samePath fuel node :
  steps samePath (visitIdentifier ts fuel node).
Proof. unfold visitIdentifier. solve_steps. Qed.
Hint Resolve visitIdentifier_samePath : steps.

Lemma visit_samePath fuel node : steps samePath (visit ts fuel node).
Proof.
  revert node. induction fuel as [|fuel IH]; intros node; simpl; solve_steps.
Qed.

(** One turn of the loop of [Indexer.index]. *)
Lemma indexSourceFile_spec fuel sourceFile s1 u s2 :
  indexSourceFile ts fuel sourceFile s1 = Ok (u, s2) →
  if bool_decide (fileName ts sourceFile ∈ fileNames ts)
  then ∃ v,
         Visitor_index ts fuel sourceFile
           (newVisitor {| relative_path :=
                            pathRelative ts (project ts) (fileName ts sourceFile);
                          occurrences := [] |} (cache s1)) = Ok (tt, v)
         ∧ cache s2 = symbolsCache v
         ∧ relative_path (doc v)
           = pathRelative ts (project ts) (fileName ts sourceFile)
         ∧ written s2
           = written s1 ++ match occurrences (doc v) with
                           | [] => []
                           | _ :: _ => [IndexDocuments [doc v]]
                           end
  else s2 = s1.
Proof.
  unfold indexSourceFile. intros H.
  destruct (bool_decide (fileName ts sourceFile ∈ fileNames ts));
    [|injection H as _ <-; reflexivity].
  destruct (Visitor_index ts fuel sourceFile _) as [[[] v]| |] eqn:E;
    [|discriminate..].
  exists v. split; [reflexivity|].
  pose proof (visit_samePath fuel sourceFile _ _ _ E) as Hpath.
  unfold samePath in Hpath. simpl in Hpath.
  destruct (occurrences (doc v)) as [|o os] eqn:Ho; simpl in H.
  - injection H as _ <-. simpl. rewrite app_nil_r. auto.
  - cbv [writeIndex modify] in H. injection H as _ <-. simpl. auto.
Qed.

Lemma index_loop_spec fuel files : ∀ s1 u s2,
  forM (indexSourceFile ts fuel) files s1 = Ok (u, s2) →
  ∃ docs,
    written s2 = written s1 ++ map (fun d => IndexDocuments [d]) docs
    ∧ Forall (fun d =>
        occurrences d ≠ []
        ∧ ∃ sourceFile, sourceFile ∈ files
            ∧ fileName ts sourceFile ∈ fileNames ts
            ∧ relative_path d
              = pathRelative ts (project ts) (fileName ts sourceFile)) docs.
Proof.
  induction files as [|f files IH]; simpl; intros s1 u s2 H.
  - injection H as _ <-. exists []. rewrite app_nil_r. split; constructor.
  - inv_bind H. destruct (IH _ _ _ H) as (docs & Hw & Hall).
    assert (Hmono : Forall (fun d =>
        occurrences d ≠ []
        ∧ ∃ sourceFile, sourceFile ∈ f :: files
            ∧ fileName ts sourceFile ∈ fileNames ts
            ∧ relative_path d
              = pathRelative ts (project ts) (fileName ts sourceFile)) docs).
    { eapply Forall_impl; [exact Hall|].
      intros d (Hne & sf & Hin & Hrest). split; [exact Hne|].
      exists sf. split; [right; exact Hin|exact Hrest]. }
    apply indexSourceFile_spec in H0.
    case_bool_decide as Hinc.
    + destruct H0 as (v & Hv & Hcache & Hpath & Hwr).
      destruct (occurrences (doc v)) as [|o os] eqn:Ho.
      * exists docs. rewrite Hw, Hwr, app_nil_r. split; [reflexivity|exact Hmono].
      * exists (doc v :: docs). rewrite Hw, Hwr, <- app_assoc.
        split; [reflexivity|]. constructor; [|exact Hmono].
        split; [rewrite Ho; discriminate|].
        exists f. split; [left|]. split; [exact Hinc|exact Hpath].
    + subst s. exists docs. split; [exact Hw|exact Hmono].
Qed.
End Documents.

(** C10. What [Indexer.index] writes: first the metadata, then documents,
    each of them the document of the visitor of a source file of the program
    whose name is listed in [config.fileNames], and only if that visitor
    pushed at least one occurrence. File by file: a file that is not listed
    leaves the indexer as it is; a listed file hands its symbols cache on
    and contributes its document when it has occurrences and nothing when
    it has none. *)
Theorem index_writes_documents_with_occurrences (ts : Host) (fuel : nat)
    (s0 : Indexer) (u : unit) (s : Indexer) :
  index ts fuel s0 = Ok (u, s) →
  (∃ docs,
     written s = written s0 ++ IndexMetadata (project ts)
                   :: map (fun d => IndexDocuments [d]) docs
     ∧ Forall (fun d =>
         occurrences d ≠ []
         ∧ ∃ sourceFile, sourceFile ∈ getSourceFiles ts
             ∧ fileName ts sourceFile ∈ fileNames ts
             ∧ relative_path d
               = pathRelative ts (project ts) (fileName ts sourceFile)) docs)
  ∧ (∀ sourceFile s1 u' s2,
       indexSourceFile ts fuel sourceFile s1 = Ok (u', s2) →
       if bool_decide (fileName ts sourceFile ∈ fileNames ts)
       then ∃ v,
              Visitor_index ts fuel sourceFile
                (newVisitor
                   {| relative_path :=
                        pathRelative ts (project ts) (fileName ts sourceFile);
                      occurrences := [] |} (cache s1)) = Ok (tt, v)
              ∧ cache s2 = symbolsCache v
              ∧ relative_path (doc v)
                = pathRelative ts (project ts) (fileName ts sourceFile)
              ∧ written s2
                = written s1 ++ match occurrences (doc v) with
                                | [] => []
                                | _ :: _ => [IndexDocuments [doc v]]
                                end
       else s2 = s1).
Proof.
  intros H. split.
  - unfold index in H. inv_bind H.
    cbv [writeIndex modify] in H0. injection H0 as _ <-.
    destruct (index_loop_spec ts fuel _ _ _ _ H) as (docs & Hw & Hall).
    exists docs. split; [|exact Hall].
    rewrite Hw. simpl. rewrite <- app_assoc. reflexivity.
  - intros sourceFile s1 u' s2. apply indexSourceFile_spec.
Qed.

Lemma index_writes_documents_with_occurrences_witness :
  let ts := TypedSamples.sampleHost in
  ∃ s da db,
    index ts 10 TypedSamples.start = Ok (tt, s)
    ∧ written s = [IndexMetadata "/p"; IndexDocuments [da]; IndexDocuments [db]]
    ∧ relative_path da = "/p/a.ts" ∧ relative_path db = "/p/b.ts"
    ∧ fileName ts 30 ∈ fileNames ts
    ∧ indexSourceFile ts 10 30 s = Ok (tt, s)
    ∧ indexSourceFile ts 10 40 s = Ok (tt, s).
Proof.
  intros ts.
  destruct (index ts 10 TypedSamples.start) as [[[] s]| |] eqn:E;
    [|vm_compute in E; discriminate..].
  destruct (index_writes_documents_with_occurrences ts 10 _ _ _ E)
    as ((docs & Hw & Hall) & _).
  assert (Hs : ∃ da db,
            written s = [IndexMetadata "/p"; IndexDocuments [da];
                         IndexDocuments [db]]
            ∧ relative_path da = "/p/a.ts" ∧ relative_path db = "/p/b.ts"
            ∧ indexSourceFile ts 10 30 s = Ok (tt, s)
            ∧ indexSourceFile ts 10 40 s = Ok (tt, s)).
  { vm_compute in E. injection E as <-.
    eexists _, _. split; [reflexivity|]. split; [reflexivity|].
    split; [reflexivity|]. split; vm_compute; reflexivity. }
  destruct Hs as (da & db & H1 & H2 & H3 & H4 & H5).
  exists s, da, db. repeat split; try assumption.
  vm_compute. repeat constructor.
Defined.

End TypedClaims.

(** ** What the traversals of the graph indexers keep *)

Module GraphRuns.
Import Lsif LsifFacts GraphFacts GraphClaims.

(** *** Traversals step as their calls do *)

Section Traversal.
Variable ts : Oracle.
Variable getResolverType : Symbol → Node → V2.ResolverType.
Variable R : Indexer → Indexer → Prop.
Hypothesis HR : PreOrder R.
Hypothesis Hfresh : steps R freshId.
Hypothesis Hemit : ∀ r, steps R (emit (ERange r)).
Hypothesis Hrange : ∀ l r, steps R (DocumentData_addRange l r).
Hypothesis Hreference : ∀ l f r, steps R (SymbolData_addReference l f r).
Hypothesis Hcurrent : ∀ f d, steps R (setCurrent f d).
Hypothesis Hdocument : ∀ f, steps R (getOrCreateDocumentData ts f).

Lemma traversal_reads : (∀ l, steps R (readDocument l)) ∧ (∀ l, steps R (readSymbol l)).
Proof.
  split; intros l s a s'.
  - unfold readDocument. destruct (documentStore s !! l); intros [= _ <-].
    reflexivity.
  - unfold readSymbol. destruct (symbolStore s !! l); intros [= _ <-].
    reflexivity.
Qed.

Lemma traversal_vertexRange r t : steps R (vertexRange r t).
Proof. unfold vertexRange. solve_steps. Qed.

Section Graph.
Hypothesis Hsymbol : ∀ fuel symbol node,
  steps R (Graph.getOrCreateSymbolData ts fuel symbol node).

Lemma Graph_visitSymbol_traversal fuel node :
  steps R (Graph.visitSymbol ts fuel node).
Proof.
  destruct traversal_reads as [Hrd Hrs]. pose proof traversal_vertexRange as Hv.
  unfold Graph.visitSymbol. solve_steps.
Qed.

Lemma Graph_preVisit_traversal fuel node :
  steps R (Graph.preVisit ts fuel node).
Proof.
  pose proof Graph_visitSymbol_traversal as Hv.
  unfold Graph.preVisit. solve_steps.
Qed.

Lemma Graph_exportSpecifiers_traversal fuel documentData specifiers :
  steps R (Graph.exportSpecifiers ts fuel documentData specifiers).
Proof.
  destruct traversal_reads as [Hrd Hrs].
  induction specifiers as [|element rest IH]; simpl; unfold Graph.exportSymbol;
    solve_steps.
Qed.

Lemma Graph_postVisit_traversal fuel node :
  steps R (Graph.postVisit ts fuel node).
Proof.
  destruct traversal_reads as [Hrd Hrs].
  pose proof Graph_exportSpecifiers_traversal as He.
  unfold Graph.postVisit, Graph.exportSymbol. solve_steps.
Qed.

Lemma Graph_visit_traversal fuel : ∀ node, steps R (Graph.visit ts fuel node).
Proof.
  pose proof Graph_preVisit_traversal as Hpre.
  pose proof Graph_postVisit_traversal as Hpost.
  induction fuel as [|fuel IH]; intros node; simpl; solve_steps.
Qed.

Lemma Graph_index_traversal fuel sourceFiles :
  steps R (Graph.index_sourceFiles ts fuel sourceFiles).
Proof.
  pose proof Graph_visit_traversal as Hv.
  unfold Graph.index_sourceFiles. solve_steps.
Qed.
End Graph.

Section V2.
Hypothesis Hsymbol : ∀ symbol node r,
  steps R (V2.getOrCreateSymbolData ts symbol node r).

Lemma V2_visitSymbol_traversal node :
  steps R (V2.visitSymbol ts getResolverType node).
Proof.
  destruct traversal_reads as [Hrd Hrs]. pose proof traversal_vertexRange as Hv.
  unfold V2.visitSymbol. solve_steps.
Qed.

Lemma V2_preVisit_traversal node :
  steps R (V2.preVisit ts getResolverType node).
Proof.
  pose proof V2_visitSymbol_traversal as Hv.
  unfold V2.preVisit. solve_steps.
Qed.

Lemma V2_postVisit_traversal node : steps R (V2.postVisit ts node).
Proof. unfold V2.postVisit. solve_steps. Qed.

Lemma V2_visit_traversal fuel : ∀ node,
  steps R (V2.visit ts getResolverType fuel node).
Proof.
  pose proof V2_preVisit_traversal as Hpre.
  pose proof V2_postVisit_traversal as Hpost.
  induction fuel as [|fuel IH]; intros node; simpl; solve_steps.
Qed.

Lemma V2_index_traversal fuel sourceFiles :
  steps R (V2.index_sourceFiles ts getResolverType fuel sourceFiles).
Proof.
  pose proof V2_visit_traversal as Hv.
  unfold V2.index_sourceFiles. solve_steps.
Qed.
End V2.
End Traversal.

Section Split.
Variable ts : Oracle.

(** [makeSymbolData] is its nested calls followed by one allocation. *)
Lemma makeSymbolData_split (P : Indexer → Indexer → Prop) recur symbol node
    s l s1 :
  PreOrder P →
  (∀ sym n, nestedSymbol ts symbol node sym → steps P (recur sym n)) →
  Graph.makeSymbolData ts recur symbol node s = Ok (l, s1) →
  ∃ s0 document v,
    P s s0 ∧ allocSymbol (newSymbolData document v) s0 = Ok (l, s1).
Proof.
  intros HP Hrec H.
  assert (Hdirect : ∀ doc v, allocSymbol (newSymbolData doc v) s = Ok (l, s1) →
    ∃ s0 document v,
      P s s0 ∧ allocSymbol (newSymbolData document v) s0 = Ok (l, s1)).
  { intros doc v Hd. exists s, doc, v. split; [reflexivity|exact Hd]. }
  assert (Hone : ∀ sym doc f, nestedSymbol ts symbol node sym →
    bind (recur sym None) (fun a => allocSymbol (newSymbolData doc (f a))) s
    = Ok (l, s1) →
    ∃ s0 document v,
      P s s0 ∧ allocSymbol (newSymbolData document v) s0 = Ok (l, s1)).
  { intros sym doc f Hn Hb. inv_bind Hb. exists s0, doc, (f a).
    split; [eapply Hrec; eassumption|exact Hb]. }
  assert (Hmany : ∀ syms doc f, (∀ m, m ∈ syms → nestedSymbol ts symbol node m) →
    bind (mapM (fun m => recur m None) syms)
      (fun a => allocSymbol (newSymbolData doc (f a))) s = Ok (l, s1) →
    ∃ s0 document v,
      P s s0 ∧ allocSymbol (newSymbolData document v) s0 = Ok (l, s1)).
  { intros syms doc f Hn Hb. inv_bind Hb. exists s0, doc, (f a).
    split; [|exact Hb].
    eapply (steps_mapM_elem _ HP); [|eassumption].
    intros m Hm. apply Hrec, Hn, Hm. }
  unfold Graph.makeSymbolData in H.
  inv_bind H. injection H0 as <- <-. inv_bind H. injection H0 as <- <-.
  destruct (currentDocumentData s); [|discriminate].
  destruct (currentSourceFile s); [|discriminate].
  inv_bind H.
  assert (s0 = s) as ->.
  { unfold readDocument in H0. destruct (documentStore s !! n); [|discriminate].
    injection H0 as _ <-. reflexivity. }
  cbv zeta in H.
  assert (Hmembers : ∀ m,
    m ∈ match getSymbolParent ts symbol with
        | Some container =>
            default [] (findBaseMembers ts container (getName ts symbol))
        | None => []
        end → nestedSymbol ts symbol node m).
  { intros m Hm. destruct (getSymbolParent ts symbol) as [c|] eqn:Ec;
      [|inversion Hm].
    destruct (findBaseMembers ts c (getName ts symbol)) as [ms|] eqn:Em;
      [|inversion Hm].
    right. left. eauto. }
  destruct (isTransient ts symbol);
    [destruct (isComposite ts symbol node);
     [destruct (getCompositeSymbols ts symbol node) as [cs|] eqn:Ecs|];
     try case_bool_decide|];
    try (eapply Hdirect, H);
    try (eapply (Hmany _ _ (fun a => UnionOrIntersection a _)); [|exact H];
         intros m Hm; right; right; eauto);
    (destruct (isAliasSymbol ts symbol) eqn:Ea;
     [eapply (Hone _ _ (fun a => Alias a _)); [|exact H]; left; auto|]);
    (destruct (isMethodSymbol ts symbol);
     [eapply (Hmany _ _ (fun a => Method a _)); [|exact H]; exact Hmembers
     |eapply Hdirect, H]).
Qed.
End Split.

Section Documents.
Variable ts : Oracle.
Variable getResolverType : Symbol → Node → V2.ResolverType.
Variable R : Indexer → Indexer → Prop.
Hypothesis HR : PreOrder R.
Hypothesis Hsame : ∀ s s', sameDocuments s s' → R s s'.
Hypothesis Hdocument : ∀ f, steps R (getOrCreateDocumentData ts f).

Lemma documents_update f : (∀ s, sameDocuments s (f s)) → steps R (modify f).
Proof. intros H. apply steps_modify. intros s. apply Hsame, H. Qed.

Lemma documents_freshId : steps R freshId.
Proof. intros s a s' [= _ <-]. apply Hsame. repeat split. Qed.

Lemma documents_emitRange r : steps R (emit (ERange r)).
Proof.
  apply documents_update. intros s. split; [|split; reflexivity].
  unfold documentsEmitted. simpl. rewrite omap_app. simpl. apply app_nil_r.
Qed.

Lemma documents_emitMoniker l m : steps R (emit (EMonikerAttach l m)).
Proof.
  apply documents_update. intros s. split; [|split; reflexivity].
  unfold documentsEmitted. simpl. rewrite omap_app. simpl. apply app_nil_r.
Qed.

Lemma documents_addRange l r : steps R (DocumentData_addRange l r).
Proof.
  apply documents_update. intros s. split; [reflexivity|]. split; [reflexivity|].
  simpl. rewrite (list_fmap_alter documentView _ id).
  - apply list_alter_id. reflexivity.
  - apply Forall_forall. intros x _. reflexivity.
Qed.

Lemma documents_setSymbolStore f : steps R (setSymbolStore f).
Proof. apply documents_update. intros s. repeat split. Qed.

Lemma documents_setSymbolDatas f : steps R (setSymbolDatas f).
Proof. apply documents_update. intros s. repeat split. Qed.

Lemma documents_setCurrent f d : steps R (setCurrent f d).
Proof. apply documents_update. intros s. repeat split. Qed.

Lemma documents_reads :
  (∀ l, steps R (readDocument l)) ∧ (∀ l, steps R (readSymbol l)).
Proof.
  split; intros l s a s'.
  - unfold readDocument. destruct (documentStore s !! l); intros [= _ <-].
    reflexivity.
  - unfold readSymbol. destruct (symbolStore s !! l); intros [= _ <-].
    reflexivity.
Qed.

Ltac documents_hints :=
  pose proof documents_freshId; pose proof documents_emitRange;
  pose proof documents_emitMoniker; pose proof documents_addRange;
  pose proof documents_setSymbolStore; pose proof documents_setSymbolDatas;
  pose proof documents_setCurrent;
  let H1 := fresh in let H2 := fresh in
  destruct documents_reads as [H1 H2].

Lemma documents_allocSymbol d : steps R (allocSymbol d).
Proof. documents_hints. unfold allocSymbol. solve_steps. Qed.

Lemma documents_symbolData :
  (∀ l, steps R (SymbolData_begin l))
  ∧ (∀ l m, steps R (SymbolData_addMoniker l m))
  ∧ (∀ l f d, steps R (SymbolData_addDefinition l f d))
  ∧ (∀ l i, steps R (SymbolData_addDefinitionInfo l i))
  ∧ (∀ l f r, steps R (SymbolData_addReference l f r))
  ∧ (∀ l h, steps R (SymbolData_addHover l h)).
Proof.
  documents_hints. repeat split; intros;
    [unfold SymbolData_begin|unfold SymbolData_addMoniker
    |unfold SymbolData_addDefinition|unfold SymbolData_addDefinitionInfo
    |unfold SymbolData_addReference|unfold SymbolData_addHover]; solve_steps.
Qed.

Lemma documents_monikerLoop files : ∀ acc, steps R (monikerLoop ts acc files).
Proof.
  documents_hints.
  induction files as [|f files IH]; intros acc; simpl; solve_steps.
Qed.

Lemma documents_resolveMonikerPath files : steps R (resolveMonikerPath ts files).
Proof.
  pose proof documents_monikerLoop. unfold resolveMonikerPath. solve_steps.
Qed.

Lemma documents_vertexRange r t : steps R (vertexRange r t).
Proof. documents_hints. unfold vertexRange. solve_steps. Qed.

Lemma documents_Graph_emitDefinitions v symbol l ds :
  steps R (Graph.emitDefinitions ts v symbol l ds).
Proof.
  documents_hints. pose proof documents_vertexRange.
  destruct documents_symbolData as (? & ? & ? & ? & ? & ?).
  unfold Graph.emitDefinitions, Graph.emitDefinition. solve_steps.
Qed.

Lemma documents_V2_emitDefinition d l t n r :
  steps R (V2.emitDefinition ts d l t n r).
Proof.
  documents_hints. pose proof documents_vertexRange.
  destruct documents_symbolData as (? & ? & ? & ? & ? & ?).
  unfold V2.emitDefinition. solve_steps.
Qed.

Lemma documents_Graph_body recur symbol node :
  (∀ sym n, steps R (recur sym n)) →
  steps R (Graph.getOrCreateSymbolData_body ts recur symbol node).
Proof.
  intros Hrec. documents_hints.
  pose proof documents_allocSymbol. pose proof documents_resolveMonikerPath.
  pose proof documents_Graph_emitDefinitions.
  destruct documents_symbolData as (? & ? & ? & ? & ? & ?).
  unfold Graph.getOrCreateSymbolData_body, Graph.makeSymbolData,
    Graph.SymbolData_getSourceFiles, Graph.SymbolData_getDeclarations.
  solve_steps.
Qed.

Lemma documents_Graph_symbol fuel : ∀ symbol node,
  steps R (Graph.getOrCreateSymbolData ts fuel symbol node).
Proof.
  induction fuel as [|fuel IH]; intros symbol node; simpl;
    apply documents_Graph_body; [|exact IH].
  intros sym n. apply steps_stuck.
Qed.

Lemma documents_V2_symbol symbol node r :
  steps R (V2.getOrCreateSymbolData ts symbol node r).
Proof.
  documents_hints.
  pose proof documents_allocSymbol. pose proof documents_resolveMonikerPath.
  pose proof documents_V2_emitDefinition.
  destruct documents_symbolData as (? & ? & ? & ? & ? & ?).
  unfold V2.getOrCreateSymbolData. solve_steps.
Qed.

Lemma documents_Graph_index fuel sourceFiles :
  steps R (Graph.index_sourceFiles ts fuel sourceFiles).
Proof.
  destruct documents_symbolData as (? & ? & ? & ? & ? & ?).
  apply Graph_index_traversal;
    auto using documents_freshId, documents_emitRange, documents_addRange,
      documents_setCurrent, documents_Graph_symbol.
Qed.

Lemma documents_V2_index fuel sourceFiles :
  steps R (V2.index_sourceFiles ts getResolverType fuel sourceFiles).
Proof.
  destruct documents_symbolData as (? & ? & ? & ? & ? & ?).
  apply V2_index_traversal;
    auto using documents_freshId, documents_emitRange, documents_addRange,
      documents_setCurrent, documents_V2_symbol.
Qed.
End Documents.

Section DocumentCache.
Variable ts : Oracle.

(** What [getOrCreateDocumentData] does: nothing on a hit; on a miss one
    document data, its vertex emitted, its file name entered. *)
Lemma getOrCreateDocumentData_run sourceFile s :
  match documentDatas s !! fileName ts sourceFile with
  | Some l => getOrCreateDocumentData ts sourceFile s = Ok (l, s)
  | None =>
      ∃ d,
        getOrCreateDocumentData ts sourceFile s
        = Ok (length (documentStore s),
              {| emitted := emitted s ++ [EDocument (document d)];
                 nextId := S (nextId s);
                 documentStore := documentStore s ++ [d];
                 symbolStore := symbolStore s;
                 documentDatas :=
                   <[fileName ts sourceFile := length (documentStore s)]>
                     (documentDatas s);
                 symbolDatas := symbolDatas s;
                 currentSourceFile := currentSourceFile s;
                 currentDocumentData := currentDocumentData s |})
        ∧ uri (document d) = fileName ts sourceFile
        ∧ externalLibrary d = isSourceFileFromExternalLibrary ts sourceFile
        ∧ monikerPath d
          = (if isSourceFileFromExternalLibrary ts sourceFile
             then Some (tssComputeMonikerPath ts (projectRoot ts)
                          (fileName ts sourceFile))
             else computeMonikerPath ts sourceFile)
        ∧ ranges d = [] ∧ dphase d = Begun
  end.
Proof.
  destruct (documentDatas s !! fileName ts sourceFile) as [l0|] eqn:E.
  { unfold getOrCreateDocumentData, bind, gets. rewrite E. reflexivity. }
  eexists {| document := {| did := nextId s; uri := fileName ts sourceFile |};
             dphase := Begun |}.
  split; [|simpl; repeat split; reflexivity].
  unfold getOrCreateDocumentData. unfold bind at 1. unfold gets. rewrite E.
  cbv [bind vertexDocument freshId ret allocDocument gets setDocumentStore
       modify DocumentData_begin readDocument emit setDocumentDatas].
  simpl. rewrite lookup_app_r by reflexivity.
  rewrite Nat.sub_diag. simpl.
  rewrite alter_app_r_alt by reflexivity. rewrite Nat.sub_diag. simpl.
  reflexivity.
Qed.

Lemma documentsEmitted_app s s' e :
  emitted s' = emitted s ++ [e] →
  documentsEmitted s'
  = documentsEmitted s ++ match e with EDocument d => [d] | _ => [] end.
Proof.
  intros H. unfold documentsEmitted. rewrite H, omap_app.
  destruct e; reflexivity.
Qed.

Lemma OneDocumentPerFile_initial : OneDocumentPerFile initial.
Proof.
  split; [reflexivity|]. split; [|reflexivity].
  intros f l H. simpl in H. rewrite lookup_empty in H. discriminate.
Qed.

Lemma OneDocumentPerFile_same s s' :
  sameDocuments s s' → preservesInv OneDocumentPerFile s s'.
Proof.
  intros (He & Hd & Hv) (H1 & H2 & H3).
  assert (Hlen : length (documentStore s') = length (documentStore s)).
  { rewrite <- (length_fmap documentView), Hv, length_fmap. reflexivity. }
  assert (Hdoc : document <$> documentStore s' = document <$> documentStore s).
  { assert (E : ∀ st : list DocumentData,
              document <$> st
              = (fun x : DocumentVertex * bool * option string => x.1.1)
                  <$> (documentView <$> st)).
    { intros st. rewrite <- list_fmap_compose. reflexivity. }
    rewrite !E, Hv. reflexivity. }
  split; [rewrite Hd, Hlen; exact H1|]. split; [|rewrite He, Hdoc; exact H3].
  intros f l Hl. rewrite Hd in Hl. destruct (H2 f l Hl) as (d & Hsd & Hu).
  assert (Hl' : document <$> documentStore s' !! l = Some (document d)).
  { rewrite <- list_lookup_fmap, Hdoc, list_lookup_fmap, Hsd. reflexivity. }
  destruct (documentStore s' !! l) as [d'|]; [|discriminate].
  injection Hl' as Hl'. exists d'. split; [reflexivity|]. rewrite Hl'. exact Hu.
Qed.

Lemma OneDocumentPerFile_document sourceFile :
  steps (preservesInv OneDocumentPerFile) (getOrCreateDocumentData ts sourceFile).
Proof.
  intros s l s' H (H1 & H2 & H3).
  pose proof (getOrCreateDocumentData_run sourceFile s) as Hrun.
  destruct (documentDatas s !! fileName ts sourceFile) as [l0|] eqn:E.
  { rewrite Hrun in H. injection H as _ <-. repeat split; assumption. }
  destruct Hrun as (d & Hrun & Hu & _). rewrite Hrun in H.
  injection H as _ <-. split; [|split]; simpl.
  - rewrite map_size_insert_None by exact E. rewrite length_app. simpl. lia.
  - intros f l' Hl'. destruct (decide (fileName ts sourceFile = f)) as [<-|Hne].
    + rewrite lookup_insert_eq in Hl'. injection Hl' as <-. exists d.
      split; [|exact Hu]. rewrite lookup_app_r by reflexivity.
      rewrite Nat.sub_diag. reflexivity.
    + rewrite lookup_insert_ne in Hl' by exact Hne.
      destruct (H2 f l' Hl') as (d' & Hd' & Hu'). exists d'.
      split; [|exact Hu']. apply lookup_app_l_Some, Hd'.
  - rewrite (documentsEmitted_app s _ (EDocument (document d))) by reflexivity.
    rewrite H3, fmap_app. reflexivity.
Qed.

Lemma DocumentsKept_preorder : PreOrder DocumentsKept.
Proof.
  split.
  - intros s. repeat split; reflexivity.
  - intros s1 s2 s3 (A1 & B1 & C1) (A2 & B2 & C2).
    repeat split; etransitivity; eassumption.
Qed.

Lemma DocumentsKept_same s s' : sameDocuments s s' → DocumentsKept s s'.
Proof.
  intros (He & Hd & Hv). unfold DocumentsKept. rewrite He, Hd, Hv.
  repeat split; reflexivity.
Qed.

Lemma DocumentsKept_document sourceFile :
  steps DocumentsKept (getOrCreateDocumentData ts sourceFile).
Proof.
  intros s l s' H.
  pose proof (getOrCreateDocumentData_run sourceFile s) as Hrun.
  destruct (documentDatas s !! fileName ts sourceFile) as [l0|] eqn:E.
  { rewrite Hrun in H. injection H as _ <-. apply DocumentsKept_preorder. }
  destruct Hrun as (d & Hrun & _). rewrite Hrun in H.
  injection H as _ <-. split; [|split]; simpl.
  - apply insert_subseteq, E.
  - rewrite fmap_app. apply prefix_app_r. reflexivity.
  - unfold documentsEmitted. simpl. rewrite omap_app.
    apply prefix_app_r. reflexivity.
Qed.
End DocumentCache.

Lemma DocumentsRun_preorder : PreOrder DocumentsRun.
Proof.
  pose proof DocumentsKept_preorder as HP. split.
  - intros s. split; [reflexivity|intros H; exact H].
  - intros s1 s2 s3 [A1 B1] [A2 B2]. split; [etransitivity; eassumption|].
    intros H. apply B2, B1, H.
Qed.

Lemma DocumentsRun_same s s' : sameDocuments s s' → DocumentsRun s s'.
Proof.
  intros H. split; [apply DocumentsKept_same, H|].
  apply OneDocumentPerFile_same, H.
Qed.

Lemma DocumentsRun_document ts sourceFile :
  steps DocumentsRun (getOrCreateDocumentData ts sourceFile).
Proof.
  intros s l s' H. split.
  - eapply DocumentsKept_document, H.
  - eapply OneDocumentPerFile_document, H.
Qed.

(** X9. The document cache stays a one-to-one table over a run of either
    indexer: as many file names as document data, every file name in front
    of the document data with that name, one document vertex emitted per
    document data, in the order of creation. And what was created is kept:
    no cache entry is replaced or removed, a document data keeps its vertex,
    its library flag and its moniker path, the vertices emitted stay. *)
Theorem documents_are_created_once_and_kept (ts : Oracle)
    (getResolverType : Symbol → Node → V2.ResolverType) (fuel : nat)
    (sourceFiles : list Node) (s s' : Indexer) :
  Graph.index_sourceFiles ts fuel sourceFiles s = Ok (tt, s')
  ∨ V2.index_sourceFiles ts getResolverType fuel sourceFiles s = Ok (tt, s') →
  (OneDocumentPerFile s → OneDocumentPerFile s')
  ∧ documentDatas s ⊆ documentDatas s'
  ∧ (documentView <$> documentStore s)
      `prefix_of` (documentView <$> documentStore s')
  ∧ documentsEmitted s `prefix_of` documentsEmitted s'.
Proof.
  intros H.
  assert (HR : DocumentsRun s s').
  { destruct H as [H|H].
    - eapply (documents_Graph_index ts DocumentsRun DocumentsRun_preorder
                DocumentsRun_same (DocumentsRun_document ts)), H.
    - eapply (documents_V2_index ts getResolverType DocumentsRun
                DocumentsRun_preorder DocumentsRun_same
                (DocumentsRun_document ts)), H. }
  destruct HR as [(A & B & C) D]. auto.
Qed.

Lemma documents_are_created_once_and_kept_witness :
  ∃ s', V2.index_sourceFiles Samples.sampleOracle (fun _ _ => V2.standard) 5
          [0; 21] Samples.insideFile = Ok (tt, s')
        ∧ OneDocumentPerFile Samples.insideFile
        ∧ OneDocumentPerFile s'
        ∧ documentDatas Samples.insideFile ⊆ documentDatas s'
        ∧ (documentView <$> documentStore Samples.insideFile)
            `prefix_of` (documentView <$> documentStore s')
        ∧ documentsEmitted Samples.insideFile `prefix_of` documentsEmitted s'.
Proof.
  destruct (V2.index_sourceFiles Samples.sampleOracle (fun _ _ => V2.standard)
              5 [0; 21] Samples.insideFile) as [[[] s']| |] eqn:E;
    [|vm_compute in E; discriminate..].
  assert (H0 : OneDocumentPerFile Samples.insideFile).
  { destruct (getOrCreateDocumentData Samples.sampleOracle 0 initial)
      as [[l sd]| |] eqn:Ed; [|vm_compute in Ed; discriminate..].
    pose proof (OneDocumentPerFile_document _ _ _ _ _ Ed
                  OneDocumentPerFile_initial) as Hd.
    assert (He : emitted Samples.insideFile = emitted sd
                 ∧ documentDatas Samples.insideFile = documentDatas sd
                 ∧ documentStore Samples.insideFile = documentStore sd).
    { vm_compute in Ed. injection Ed as <- <-. vm_compute. auto. }
    destruct He as (He1 & He2 & He3).
    unfold OneDocumentPerFile, documentsEmitted in *.
    rewrite He1, He2, He3. exact Hd. }
  exists s'. split; [reflexivity|]. split; [exact H0|].
  destruct (documents_are_created_once_and_kept Samples.sampleOracle
              (fun _ _ => V2.standard) 5 [0; 21] Samples.insideFile s'
              (or_intror E)) as (A & B & C & D).
  auto.
Defined.

Lemma Accrues_preorder : PreOrder Accrues.
Proof.
  split.
  - intros s l sd H. exists sd. repeat split; [exact H|reflexivity].
  - intros s1 s2 s3 H1 H2 l sd H.
    destruct (H1 l sd H) as (sd2 & E2 & V2 & P2).
    destruct (H2 l sd2 E2) as (sd3 & E3 & V3 & P3).
    exists sd3. split; [exact E3|]. split; [congruence|].
    etransitivity; eassumption.
Qed.

Lemma Accumulates_preorder : PreOrder Accumulates.
Proof.
  pose proof Accrues_preorder as HP.
  split.
  - intros s. split; [reflexivity|intros H; exact H].
  - intros s1 s2 s3 [A1 B1] [A2 B2]. split; [etransitivity; eassumption|].
    intros H. auto.
Qed.

Lemma Accumulates_docframed : DocFramed Accumulates.
Proof.
  split; [apply Accumulates_preorder|]. intros s s' [_ Hs]. split.
  - intros l sd H. exists sd. rewrite Hs. repeat split; [exact H|reflexivity].
  - intros H l sd. rewrite Hs. apply H.
Qed.

Lemma Fills_docframed l : DocFramed (Fills l).
Proof.
  split; [split|].
  - intros s. repeat split.
  - intros s1 s2 s3 (A1 & B1 & C1) (A2 & B2 & C2). split; [|split; congruence].
    intros i Hi. rewrite A2, A1 by exact Hi. reflexivity.
  - intros s s' [_ Hs]. unfold Fills. rewrite Hs. repeat split.
Qed.

#[local] Hint Resolve Accumulates_docframed Fills_docframed : steps.

Lemma Fills_alter f l :
  (∀ sd, monikers (f sd) = monikers sd) →
  steps (Fills l) (setSymbolStore (alter f l)).
Proof.
  intros Hf. apply steps_modify. intros s. split; [|split]; simpl.
  - intros i Hi. apply list_lookup_alter_ne. lia.
  - apply length_alter.
  - rewrite (list_fmap_alter monikers f id).
    + apply list_alter_id. reflexivity.
    + apply Forall_forall. intros x _. apply Hf.
Qed.

Section Frozen.
Variable ts : Oracle.
Variable getResolverType : Symbol → Node → V2.ResolverType.

Lemma Fills_symbolData l :
  steps (Fills l) (SymbolData_begin l)
  ∧ (∀ f d, steps (Fills l) (SymbolData_addDefinition l f d))
  ∧ (∀ i, steps (Fills l) (SymbolData_addDefinitionInfo l i))
  ∧ (∀ h, steps (Fills l) (SymbolData_addHover l h)).
Proof.
  split; [|split; [|split]]; intros; apply Fills_alter; reflexivity.
Qed.

Lemma Fills_Graph_emitDefinitions v symbol l ds :
  steps (Fills l) (Graph.emitDefinitions ts v symbol l ds).
Proof.
  destruct (Fills_symbolData l) as (? & ? & ? & ?).
  unfold Graph.emitDefinitions, Graph.emitDefinition. solve_steps.
Qed.

Lemma Fills_V2_emitDefinition d l t n r :
  steps (Fills l) (V2.emitDefinition ts d l t n r).
Proof.
  destruct (Fills_symbolData l) as (? & ? & ? & ?).
  unfold V2.emitDefinition. solve_steps.
Qed.

Lemma moniker_step (mo : option Moniker) l s u s' :
  match mo with
  | Some moniker => SymbolData_addMoniker l moniker
  | None => ret tt
  end s = Ok (u, s') →
  (∀ i, (i < l)%nat → symbolStore s' !! i = symbolStore s !! i)
  ∧ length (symbolStore s') = length (symbolStore s)
  ∧ ∃ ms, (length ms ≤ 1)%nat
          ∧ monikers <$> symbolStore s'
            = alter (fun x => x ++ ms) l (monikers <$> symbolStore s).
Proof.
  destruct mo as [m|].
  - cbv [SymbolData_addMoniker bind emit modify setSymbolStore].
    intros [= _ <-]. simpl. split; [|split].
    + intros i Hi. apply list_lookup_alter_ne. lia.
    + apply length_alter.
    + exists [m]. split; [simpl; lia|].
      apply list_fmap_alter, Forall_forall. intros x _. reflexivity.
  - intros [= _ <-]. split; [auto|]. split; [reflexivity|].
    exists []. split; [simpl; lia|]. symmetry. apply list_alter_id.
    intros x. apply app_nil_r.
Qed.

(** The creation of a symbol data, once its nested calls are over. *)
Lemma creation_accumulates s s0 doc v l s1 s3 s4 s5 s' :
  Accumulates s s0 →
  allocSymbol (newSymbolData doc v) s0 = Ok (l, s1) →
  Fills l s1 s3 →
  (∀ i, (i < l)%nat → symbolStore s4 !! i = symbolStore s3 !! i)
  ∧ length (symbolStore s4) = length (symbolStore s3)
  ∧ (∃ ms, (length ms ≤ 1)%nat
           ∧ monikers <$> symbolStore s4
             = alter (fun x => x ++ ms) l (monikers <$> symbolStore s3)) →
  Fills l s4 s5 →
  symbolStore s' = symbolStore s5 →
  Accumulates s s'.
Proof.
  intros [Hacc Hinv] Halloc (A1 & B1 & C1) (A2 & B2 & ms & Hms & C2)
    (A3 & B3 & C3) Hs'.
  cbv [allocSymbol bind gets setSymbolStore modify ret] in Halloc.
  injection Halloc as <- <-. simpl in *.
  assert (Hold : ∀ i, (i < length (symbolStore s0))%nat →
            symbolStore s' !! i = symbolStore s0 !! i).
  { intros i Hi. rewrite Hs', A3, A2, A1 by exact Hi.
    apply lookup_app_l, Hi. }
  split.
  - intros l0 sd Hl0. destruct (Hacc l0 sd Hl0) as (sd0 & E0 & V0 & P0).
    exists sd0. rewrite Hold by (eapply lookup_lt_Some, E0).
    repeat split; assumption.
  - intros HI l0 sd Hl0. specialize (Hinv HI).
    destruct (decide (l0 < length (symbolStore s0))%nat) as [Hlt|Hge].
    + rewrite Hold in Hl0 by exact Hlt. eapply Hinv, Hl0.
    + assert (Hlen : length (symbolStore s') = S (length (symbolStore s0))).
      { rewrite Hs', B3, B2, B1, length_app. simpl. lia. }
      assert (l0 = length (symbolStore s0)) as ->.
      { apply lookup_lt_Some in Hl0. lia. }
      assert (Hm : monikers <$> symbolStore s' !! length (symbolStore s0)
                   = Some ([] ++ ms)).
      { rewrite <- list_lookup_fmap, Hs', C3, C2, list_lookup_alter_eq, C1.
        rewrite fmap_app, lookup_app_r by (rewrite length_fmap; lia).
        rewrite length_fmap, Nat.sub_diag. reflexivity. }
      rewrite Hl0 in Hm. injection Hm as ->. exact Hms.
Qed.

Lemma Accumulates_V2_symbol symbol node r :
  steps Accumulates (V2.getOrCreateSymbolData ts symbol node r).
Proof.
  intros s l s' H. pose proof Accumulates_preorder as HP.
  unfold V2.getOrCreateSymbolData in H.
  inv_bind H. injection H0 as <- <-.
  destruct (currentDocumentData s); [|discriminate].
  inv_bind H. injection H0 as <- <-.
  destruct (symbolDatas s !! createSymbolKey ts symbol) eqn:E.
  { injection H as _ <-. reflexivity. }
  inv_bind H. rename s0 into sa, H0 into Hread.
  inv_bind H. rename s0 into s1, H0 into Halloc, a0 into l0.
  inv_bind H. rename s0 into s2, H0 into Hbegin.
  inv_bind H. rename s0 into s3, H0 into Hpath. destruct a1 as [mp ext].
  inv_bind H. rename s0 into s4, H0 into Hmon.
  inv_bind H. rename s0 into s5, H0 into Hdefs.
  inv_bind H. injection H as <- <-.
  cbv [setSymbolDatas modify] in H0. injection H0 as _ <-.
  pose proof (Fills_docframed l0) as HF.
  destruct (Fills_symbolData l0) as (Hb & _).
  eapply (creation_accumulates s sa _ _ l0 s1 s3 s4 s5).
  - eapply readDocument_steps; [apply Accumulates_docframed|exact Hread].
  - exact Halloc.
  - destruct HF as [HFP _]. transitivity s2.
    + eapply Hb, Hbegin.
    + eapply resolveMonikerPath_steps; [apply Fills_docframed|exact Hpath].
  - eapply moniker_step, Hmon.
  - destruct HF as [HFP _]. eapply (steps_forM _ HFP); [|exact Hdefs].
    intros d. cbv beta. destruct (V2.getText ts symbol d r) as [[t n']|].
    + apply Fills_V2_emitDefinition.
    + apply steps_ret, HFP.
  - reflexivity.
Qed.

Lemma Accumulates_Graph_body recur symbol node :
  (∀ sym n, steps Accumulates (recur sym n)) →
  steps Accumulates (Graph.getOrCreateSymbolData_body ts recur symbol node).
Proof.
  intros Hrec s l s' H. pose proof Accumulates_preorder as HP.
  unfold Graph.getOrCreateSymbolData_body in H.
  inv_bind H. injection H0 as <- <-.
  destruct (currentDocumentData s); [|discriminate].
  inv_bind H. injection H0 as <- <-.
  destruct (symbolDatas s !! createSymbolKey ts symbol) eqn:E.
  { injection H as _ <-. reflexivity. }
  inv_bind H. rename s0 into s1, H0 into Hmake, a into l0.
  inv_bind H. rename s0 into s2, H0 into Hbegin.
  inv_bind H. rename s0 into s2', H0 into Hread, a0 into sd.
  inv_bind H. rename s0 into s2'', H0 into Hfiles, a0 into files.
  inv_bind H. rename s0 into s3, H0 into Hpath. destruct a0 as [mp ext].
  inv_bind H. rename s0 into s4, H0 into Hmon.
  inv_bind H. rename s0 into s4', H0 into Hdecls, a1 into ds.
  inv_bind H. rename s0 into s5, H0 into Hdefs.
  inv_bind H. injection H as <- <-.
  cbv [setSymbolDatas modify] in H0. injection H0 as _ <-.
  destruct (makeSymbolData_split ts Accumulates recur symbol node s l0 s1 HP)
    as (s0 & doc & v & Hs0 & Halloc); [intros; apply Hrec|exact Hmake|].
  pose proof (Fills_docframed l0) as HF.
  destruct (Fills_symbolData l0) as (Hb & _).
  eapply (creation_accumulates s s0 _ _ l0 s1 s3 s4 s5).
  - exact Hs0.
  - exact Halloc.
  - destruct HF as [HFP _]. transitivity s2; [eapply Hb, Hbegin|].
    transitivity s2'.
    { eapply readSymbol_steps; [apply Fills_docframed|exact Hread]. }
    transitivity s2''.
    { eapply Graph_getSourceFiles_steps; [apply Fills_docframed|exact Hfiles]. }
    eapply resolveMonikerPath_steps; [apply Fills_docframed|exact Hpath].
  - eapply moniker_step, Hmon.
  - destruct HF as [HFP _]. transitivity s4'.
    { eapply Graph_getDeclarations_steps; [apply Fills_docframed|exact Hdecls]. }
    eapply Fills_Graph_emitDefinitions, Hdefs.
  - reflexivity.
Qed.

Lemma Accumulates_Graph_symbol fuel symbol node :
  steps Accumulates (Graph.getOrCreateSymbolData ts fuel symbol node).
Proof.
  revert symbol node. induction fuel as [|fuel IH]; intros symbol node; simpl;
    apply Accumulates_Graph_body; [|exact IH].
  intros sym n. apply steps_stuck.
Qed.

Lemma Accumulates_addReference l f r :
  steps Accumulates (SymbolData_addReference l f r).
Proof.
  apply steps_modify. intros s. split.
  - intros l0 sd H. simpl. destruct (decide (l0 = l)) as [->|Hne].
    + rewrite list_lookup_alter_eq, H. simpl. eexists. split; [reflexivity|].
      split; [reflexivity|]. simpl. apply prefix_app_r. reflexivity.
    + rewrite list_lookup_alter_ne by congruence. exists sd.
      repeat split; [exact H|reflexivity].
  - intros HI l0 sd. simpl. destruct (decide (l0 = l)) as [->|Hne].
    + rewrite list_lookup_alter_eq. destruct (symbolStore s !! l) eqn:E;
        [|discriminate]. intros [= <-]. simpl. eapply HI, E.
    + rewrite list_lookup_alter_ne by congruence. apply HI.
Qed.

Lemma Accumulates_setCurrent f d : steps Accumulates (setCurrent f d).
Proof.
  apply steps_modify. intros s. split.
  - intros l sd H. exists sd. repeat split; [exact H|reflexivity].
  - intros H. exact H.
Qed.

Lemma Accumulates_Graph_index fuel sourceFiles :
  steps Accumulates (Graph.index_sourceFiles ts fuel sourceFiles).
Proof.
  pose proof Accumulates_docframed as HD.
  apply Graph_index_traversal;
    first [ apply Accumulates_preorder | apply Accumulates_addReference
          | apply Accumulates_setCurrent | apply Accumulates_Graph_symbol
          | intros; solve [eauto with steps] ].
Qed.

Lemma Accumulates_V2_index fuel sourceFiles :
  steps Accumulates (V2.index_sourceFiles ts getResolverType fuel sourceFiles).
Proof.
  pose proof Accumulates_docframed as HD.
  apply V2_index_traversal;
    first [ apply Accumulates_preorder | apply Accumulates_addReference
          | apply Accumulates_setCurrent | apply Accumulates_V2_symbol
          | intros; solve [eauto with steps] ].
Qed.

End Frozen.

(** X10. Indexing never rewrites a symbol data it has created: over a run of
    either indexer every symbol data that exists keeps its document, its
    variant, its definitions, its definition sites, its monikers and its
    hovers, and its references only grow at the end; and no symbol data
    ever holds more than one moniker. *)
Theorem symbol_data_only_gains_references (ts : Oracle)
    (getResolverType : Symbol → Node → V2.ResolverType) (fuel : nat)
    (sourceFiles : list Node) (s s' : Indexer) :
  Graph.index_sourceFiles ts fuel sourceFiles s = Ok (tt, s')
  ∨ V2.index_sourceFiles ts getResolverType fuel sourceFiles s = Ok (tt, s') →
  (∀ l sd, symbolStore s !! l = Some sd →
     ∃ sd', symbolStore s' !! l = Some sd'
            ∧ frozenView sd' = frozenView sd
            ∧ references sd `prefix_of` references sd')
  ∧ (AtMostOneMoniker s → AtMostOneMoniker s').
Proof.
  intros [H|H].
  - exact (Accumulates_Graph_index ts fuel sourceFiles _ _ _ H).
  - exact (Accumulates_V2_index ts getResolverType fuel sourceFiles _ _ _ H).
Qed.

Lemma symbol_data_only_gains_references_witness :
  ∃ s', Graph.index_sourceFiles Samples.layeredOracle 5 [0] Samples.fooDeclared
        = Ok (tt, s')
        ∧ (∀ l sd, symbolStore Samples.fooDeclared !! l = Some sd →
             ∃ sd', symbolStore s' !! l = Some sd'
                    ∧ frozenView sd' = frozenView sd
                    ∧ references sd `prefix_of` references sd')
        ∧ (AtMostOneMoniker Samples.fooDeclared → AtMostOneMoniker s').
Proof.
  destruct (Graph.index_sourceFiles Samples.layeredOracle 5 [0]
              Samples.fooDeclared) as [[[] s']| |] eqn:E;
    [|vm_compute in E; discriminate..].
  exists s'. split; [reflexivity|].
  apply (symbol_data_only_gains_references Samples.layeredOracle
           (fun _ _ => V2.standard) 5 [0] Samples.fooDeclared s').
  left. exact E.
Defined.

Lemma escapeDots_app a b :
  Graph.escapeDots (a +:+ b) = Graph.escapeDots a +:+ Graph.escapeDots b.
Proof.
  induction a as [|c a IH]; simpl; [reflexivity|].
  case_bool_decide; simpl; rewrite IH; reflexivity.
Qed.

Lemma escapeDots_length a :
  String.length (Graph.escapeDots a) = String.length a + dots a.
Proof.
  induction a as [|c a IH]; simpl; [reflexivity|].
  case_bool_decide; simpl; rewrite IH; lia.
Qed.

Lemma escapeDots_inj a : ∀ b, Graph.escapeDots a = Graph.escapeDots b → a = b.
Proof.
  induction a as [|c a IH]; intros [|d b] H; simpl in H.
  - reflexivity.
  - case_bool_decide; discriminate.
  - case_bool_decide; discriminate.
  - repeat case_bool_decide; simplify_eq; f_equal; auto.
Qed.

Lemma substring_inner q inner q' :
  String.substring 1 (String.length (String q (inner +:+ String q' EmptyString)) - 2)
    (String q (inner +:+ String q' EmptyString)) = inner.
Proof.
  simpl. 
  assert (E : String.length (inner +:+ String q' EmptyString) - 1
              = String.length inner).
  { induction inner as [|c i IH]; simpl; [reflexivity|].
    destruct (String.length (i +:+ String q' EmptyString)) eqn:El.
    - destruct i; discriminate.
    - simpl in IH. rewrite Nat.sub_0_r in IH. rewrite IH. reflexivity. }
  rewrite E. clear E. induction inner as [|c i IH]; simpl; [reflexivity|].
  rewrite IH. reflexivity.
Qed.

Section Calls.
Variable ts : Oracle.

(** X6. [getOrCreateDocumentData] never fails and keeps one document data
    per file name. On a hit it returns the document data of the file name
    and changes nothing. On a miss it creates one document data, with the
    file name as its uri, the library flag of the source file and the
    moniker path computed for it, emits its vertex, and enters it under
    the file name; no symbol data and no other cache entry is touched.
    Afterwards every source file of that name gets the same document data
    back, with the state left as it is. *)
Theorem document_data_is_created_once (sourceFile : Node) (s : Indexer) :
  ∃ l s',
    getOrCreateDocumentData ts sourceFile s = Ok (l, s')
    ∧ documentDatas s' !! fileName ts sourceFile = Some l
    ∧ (∀ sourceFile', fileName ts sourceFile' = fileName ts sourceFile →
         getOrCreateDocumentData ts sourceFile' s' = Ok (l, s'))
    ∧ match documentDatas s !! fileName ts sourceFile with
      | Some l0 => l = l0 ∧ s' = s
      | None =>
          l = length (documentStore s)
          ∧ documentDatas s' = <[fileName ts sourceFile := l]> (documentDatas s)
          ∧ symbolStore s' = symbolStore s
          ∧ symbolDatas s' = symbolDatas s
          ∧ ∃ d, documentStore s' = documentStore s ++ [d]
                 ∧ emitted s' = emitted s ++ [EDocument (document d)]
                 ∧ uri (document d) = fileName ts sourceFile
                 ∧ externalLibrary d
                   = isSourceFileFromExternalLibrary ts sourceFile
                 ∧ monikerPath d
                   = (if isSourceFileFromExternalLibrary ts sourceFile
                      then Some (tssComputeMonikerPath ts (projectRoot ts)
                                   (fileName ts sourceFile))
                      else computeMonikerPath ts sourceFile)
                 ∧ ranges d = [] ∧ dphase d = Begun
      end.
Proof.
  assert (Hhit : ∀ s0 l0, documentDatas s0 !! fileName ts sourceFile = Some l0 →
            ∀ sourceFile', fileName ts sourceFile' = fileName ts sourceFile →
            getOrCreateDocumentData ts sourceFile' s0 = Ok (l0, s0)).
  { intros s0 l0 E sf' Hf. unfold getOrCreateDocumentData, bind, gets.
    rewrite Hf, E. reflexivity. }
  destruct (documentDatas s !! fileName ts sourceFile) as [l0|] eqn:E.
  { exists l0, s. split; [apply Hhit; [exact E|reflexivity]|].
    split; [exact E|]. split; [eauto|]. split; reflexivity. }
  assert (Hrun : ∃ d,
    getOrCreateDocumentData ts sourceFile s
    = Ok (length (documentStore s),
          {| emitted := emitted s ++ [EDocument (document d)];
             nextId := S (nextId s);
             documentStore := documentStore s ++ [d];
             symbolStore := symbolStore s;
             documentDatas := <[fileName ts sourceFile := length (documentStore s)]>
                                (documentDatas s);
             symbolDatas := symbolDatas s;
             currentSourceFile := currentSourceFile s;
             currentDocumentData := currentDocumentData s |})
    ∧ uri (document d) = fileName ts sourceFile
    ∧ externalLibrary d = isSourceFileFromExternalLibrary ts sourceFile
    ∧ monikerPath d
      = (if isSourceFileFromExternalLibrary ts sourceFile
         then Some (tssComputeMonikerPath ts (projectRoot ts)
                      (fileName ts sourceFile))
         else computeMonikerPath ts sourceFile)
    ∧ ranges d = [] ∧ dphase d = Begun).
  { eexists {| document := {| did := nextId s; uri := fileName ts sourceFile |};
               dphase := Begun |}.
    split; [|simpl; repeat split; reflexivity].
    unfold getOrCreateDocumentData. unfold bind at 1. unfold gets. rewrite E.
    cbv [bind vertexDocument freshId ret allocDocument gets setDocumentStore
         modify DocumentData_begin readDocument emit setDocumentDatas].
    simpl. rewrite lookup_app_r by reflexivity.
    rewrite Nat.sub_diag. simpl.
    rewrite alter_app_r_alt by reflexivity. rewrite Nat.sub_diag. simpl.
    reflexivity. }
  destruct Hrun as (d & Hrun & Hd).
  eexists _, _. split; [exact Hrun|]. simpl.
  assert (Hl : <[fileName ts sourceFile := length (documentStore s)]>
                 (documentDatas s) !! fileName ts sourceFile
               = Some (length (documentStore s)))
    by apply lookup_insert_eq.
  split; [exact Hl|]. split; [intros sf' Hf; apply Hhit; [exact Hl|exact Hf]|].
  repeat (split; [reflexivity|]).
  exists d. split; [reflexivity|]. split; [reflexivity|]. exact Hd.
Qed.

(** X7. A use site of a known symbol is one reference, recorded alike by
    both graph indexers. Inside a document, at a node whose symbol has a
    symbol data and whose site is none of its definition sites, [visitSymbol]
    makes one range vertex with the next identifier, the range of the node
    and a reference tag with its text; emits it; appends it to the ranges
    of the current document data and to the references of the symbol data;
    and changes nothing else: no definition site, no moniker, no cache
    entry, not the document context. *)
Theorem reference_is_recorded_consistently
    (getResolverType : Symbol → Node → V2.ResolverType) (s : Indexer)
    (sourceFile : Node) (documentData : loc) (node : Node) (symbol : Symbol)
    (l : loc) (sd : SymbolData) :
  currentSourceFile s = Some sourceFile →
  currentDocumentData s = Some documentData →
  checkerSymbolAtLocation ts node = Some symbol →
  symbolDatas s !! createSymbolKey ts symbol = Some l →
  symbolStore s !! l = Some sd →
  hasDefinitionInfo sd (createDefinitionInfo ts sourceFile node) = false →
  let reference := {| rid := nextId s;
                      range := rangeFromNode ts sourceFile node;
                      tag := ReferenceTag (nodeText ts node) |} in
  ∃ s',
    (∀ fuel, Graph.visitSymbol ts fuel node s = Ok (tt, s'))
    ∧ V2.visitSymbol ts getResolverType node s = Ok (tt, s')
    ∧ emitted s' = emitted s ++ [ERange reference]
    ∧ nextId s' = S (nextId s)
    ∧ (∀ d, ranges <$> documentStore s' !! d
            = (if decide (d = documentData)
               then (fun x => ranges x ++ [reference])
               else ranges) <$> documentStore s !! d)
    ∧ (∀ k, references <$> symbolStore s' !! k
            = (if decide (k = l)
               then (fun x => references x ++ [(sourceFile, reference)])
               else references) <$> symbolStore s !! k)
    ∧ sitesOf s' = sitesOf s
    ∧ monikers <$> symbolStore s' = monikers <$> symbolStore s
    ∧ symbolDatas s' = symbolDatas s ∧ documentDatas s' = documentDatas s
    ∧ currentSourceFile s' = currentSourceFile s
    ∧ currentDocumentData s' = currentDocumentData s.
Proof.
  intros Hsf Hd Hsym Hl Hsd Hhas reference.
  assert (Hg : ∀ fuel, Graph.getOrCreateSymbolData ts fuel symbol (Some node) s
                       = Ok (l, s)).
  { intros fuel. apply Graph_lookup_hit; [rewrite Hd; eauto|exact Hl]. }
  assert (Hv : V2.getOrCreateSymbolData ts symbol node
                 (getResolverType symbol node) s = Ok (l, s)).
  { apply V2_lookup_hit; [rewrite Hd; eauto|exact Hl]. }
  destruct s as [em nid ds ss dd sdm csf cdd]. simpl in *. subst csf cdd.
  eexists. split; [|split].
  - intros fuel. unfold Graph.visitSymbol, bind, gets, readSymbol. simpl.
    rewrite Hsym, Hg. simpl. rewrite Hsd, Hhas. reflexivity.
  - unfold V2.visitSymbol, bind, gets, readSymbol. simpl.
    rewrite Hsym, Hv. simpl. rewrite Hsd, Hhas. reflexivity.
  - simpl. split; [reflexivity|]. split; [reflexivity|].
    split; [|split; [|split; [|split; [|repeat split]]]].
    + intros d. destruct (decide (d = documentData)) as [->|Hne].
      * rewrite list_lookup_alter_eq. destruct (ds !! documentData);
          reflexivity.
      * rewrite list_lookup_alter_ne by auto. reflexivity.
    + intros k. destruct (decide (k = l)) as [->|Hne].
      * rewrite list_lookup_alter_eq. destruct (ss !! l); reflexivity.
      * rewrite list_lookup_alter_ne by auto. reflexivity.
    + unfold sitesOf. simpl. rewrite (list_fmap_alter sitesView _ id).
      * apply list_alter_id. reflexivity.
      * apply Forall_forall. intros x _. reflexivity.
    + rewrite (list_fmap_alter monikers _ id).
      * apply list_alter_id. reflexivity.
      * apply Forall_forall. intros x _. reflexivity.
Qed.
End Calls.

Lemma reference_is_recorded_consistently_witness :
  ∃ s', Graph.visitSymbol Samples.sampleOracle 1 3 Samples.fooDeclared
        = Ok (tt, s')
        ∧ V2.visitSymbol Samples.sampleOracle (fun _ _ => V2.standard) 3
            Samples.fooDeclared = Ok (tt, s')
        ∧ emitted s'
          = emitted Samples.fooDeclared
            ++ [ERange {| rid := nextId Samples.fooDeclared;
                          range := rangeFromNode Samples.sampleOracle 0 3;
                          tag := ReferenceTag "foo" |}].
Proof.
  destruct (symbolStore Samples.fooDeclared !! 0) as [sd|] eqn:E;
    [|vm_compute in E; discriminate].
  destruct (reference_is_recorded_consistently Samples.sampleOracle
              (fun _ _ => V2.standard) Samples.fooDeclared 0 0 3 10 0 sd)
    as (s' & H1 & H2 & H3 & _);
    try (vm_compute; reflexivity); try exact E.
  { vm_compute in E. injection E as <-. vm_compute. reflexivity. }
  exists s'. split; [apply H1|]. split; [exact H2|exact H3].
Defined.

(** X8. The export name of a symbol is its escaped name with every dot
    doubled, after the first and the last character were dropped when the
    first is a quote (whatever the last is). On names that do not start with
    a quote it is one-to-one, and as much longer as there are dots. *)
Theorem export_names_escape_dots (ts : Oracle) (symbol symbol' : Symbol) :
  let name := getEscapedName ts symbol in
  let name' := getEscapedName ts symbol' in
  (Graph.isQuote (String.get 0 name) = false →
   String.length (Graph.getExportSymbolName ts symbol)
   = String.length name + dots name
   ∧ (Graph.isQuote (String.get 0 name') = false →
      Graph.getExportSymbolName ts symbol = Graph.getExportSymbolName ts symbol' →
      name = name'))
  ∧ (∀ q inner q',
       Graph.isQuote (Some q) = true →
       name = String q (inner +:+ String q' EmptyString) →
       Graph.getExportSymbolName ts symbol = Graph.escapeDots inner)
  ∧ (∀ q, Graph.isQuote (Some q) = true →
          name = String q EmptyString →
          Graph.getExportSymbolName ts symbol = EmptyString).
Proof.
  intros name name'. unfold Graph.getExportSymbolName. fold name name'.
  split; [|split].
  - intros Hq. rewrite Hq. split; [apply escapeDots_length|].
    intros Hq' H. rewrite Hq' in H. apply escapeDots_inj, H.
  - intros q inner q' Hq ->. simpl String.get. rewrite Hq.
    rewrite substring_inner. reflexivity.
  - intros q Hq ->. simpl String.get. rewrite Hq. reflexivity.
Qed.

Lemma export_names_escape_dots_witness :
  let ts := ExtraSamples.namedOracle
              (fun symbol => if decide (symbol = 10) then "'./a.b'"
                             else if decide (symbol = 11) then "a.b"
                             else "c") in
  Graph.getExportSymbolName ts 10 = "../a..b"
  ∧ String.length (Graph.getExportSymbolName ts 11) = 4.
Proof.
  intros ts.
  destruct (export_names_escape_dots ts 10 12) as (_ & H & _).
  destruct (export_names_escape_dots ts 11 12) as (H' & _).
  split.
  - rewrite (H "'"%char "./a.b" "'"%char) by reflexivity. reflexivity.
  - destruct (H' eq_refl) as [Hl _]. exact Hl.
Defined.

Section Runs.
Context {S : Type}.
Variable errors : string → Prop.

Lemma runs_ret {A} (P : S → Prop) (a : A) (Q : A → S → Prop) :
  (∀ s, P s → Q a s) → runs errors P (ret a) Q.
Proof. intros H s Hs. apply H, Hs. Qed.

Lemma runs_gets {A} (P : S → Prop) (f : S → A) (Q : A → S → Prop) :
  (∀ s, P s → Q (f s) s) → runs errors P (gets f) Q.
Proof. intros H s Hs. apply H, Hs. Qed.

Lemma runs_modify (P : S → Prop) (f : S → S) (Q : unit → S → Prop) :
  (∀ s, P s → Q tt (f s)) → runs errors P (modify f) Q.
Proof. intros H s Hs. apply H, Hs. Qed.

Lemma runs_bind {A B} (P : S → Prop) (m : StateM S A) (Q1 : A → S → Prop)
    (k : A → StateM S B) (Q : B → S → Prop) :
  runs errors P m Q1 → (∀ a, runs errors (Q1 a) (k a) Q) →
  runs errors P (bind m k) Q.
Proof.
  intros Hm Hk s Hs. specialize (Hm s Hs). unfold bind.
  destruct (m s) as [[a s1]|e|]; [apply Hk, Hm|exact Hm|exact Hm].
Qed.

Lemma runs_conseq {A} (P P' : S → Prop) (m : StateM S A) (Q Q' : A → S → Prop) :
  runs errors P m Q → (∀ s, P' s → P s) → (∀ a s, Q a s → Q' a s) →
  runs errors P' m Q'.
Proof.
  intros Hm HP HQ s Hs. specialize (Hm s (HP s Hs)).
  destruct (m s) as [[a s1]|e|]; [apply HQ, Hm|exact Hm|exact Hm].
Qed.

Lemma runs_pure {A} (C : Prop) (P : S → Prop) (m : StateM S A)
    (Q : A → S → Prop) :
  (C → runs errors P m Q) → runs errors (fun s => P s ∧ C) m Q.
Proof. intros H s [Hs HC]. apply H; assumption. Qed.

Lemma runs_forM {A} (I : S → Prop) (f : A → StateM S unit) l :
  (∀ a, a ∈ l → runs errors I (f a) (fun _ => I)) →
  runs errors I (forM f l) (fun _ => I).
Proof.
  induction l as [|a l IH]; intros Hf; simpl.
  - apply runs_ret. auto.
  - eapply runs_bind; [apply Hf; left|].
    intros ?. apply IH. intros b Hb. apply Hf. right. exact Hb.
Qed.

Lemma runs_mapM {A B} (I : S → Prop) (f : A → StateM S B) l :
  (∀ a, a ∈ l → runs errors I (f a) (fun _ => I)) →
  runs errors I (mapM f l) (fun _ => I).
Proof.
  induction l as [|a l IH]; intros Hf; simpl.
  - apply runs_ret. auto.
  - eapply runs_bind; [apply Hf; left|].
    intros b. eapply runs_bind; [apply IH; intros c Hc; apply Hf; right; exact Hc|].
    intros bs. apply runs_ret. auto.
Qed.
End Runs.

Lemma runs_throw {S A} (errors : string → Prop) (P : S → Prop) msg
    (Q : A → S → Prop) :
  errors msg → runs errors P (throw msg) Q.
Proof. intros H s _. exact H. Qed.

Section Finishes.
Context {S : Type}.

Lemma finishes_ret {A} (a : A) : finishes (S:=S) (ret a).
Proof. apply runs_ret. auto. Qed.

Lemma finishes_throw {A} msg : finishes (S:=S) (throw (A:=A) msg).
Proof. apply runs_throw. exact I. Qed.

Lemma finishes_gets {A} (f : S → A) : finishes (gets f).
Proof. apply runs_gets. auto. Qed.

Lemma finishes_modify (f : S → S) : finishes (modify f).
Proof. apply runs_modify. auto. Qed.

Lemma finishes_bind {A B} (m : StateM S A) (k : A → StateM S B) :
  finishes m → (∀ a, finishes (k a)) → finishes (bind m k).
Proof. intros Hm Hk. eapply runs_bind; [exact Hm|]. intros a. apply Hk. Qed.

Lemma finishes_forM {A} (f : A → StateM S unit) l :
  (∀ a, a ∈ l → finishes (f a)) → finishes (forM f l).
Proof. intros H. apply (runs_forM (fun _ => True) (fun _ => True)). exact H. Qed.

Lemma finishes_mapM {A B} (f : A → StateM S B) l :
  (∀ a, a ∈ l → finishes (f a)) → finishes (mapM f l).
Proof.
  intros H.
  eapply runs_conseq; [apply (runs_mapM (fun _ => True) (fun _ => True)), H|auto..].
Qed.
End Finishes.

Create HintDb finishes discriminated.
#[global] Hint Resolve finishes_ret finishes_throw finishes_gets
  finishes_modify : finishes.

Ltac finishes_step :=
  first
    [ solve [auto with finishes]
    | apply finishes_bind; [|intros ?]
    | apply finishes_forM; intros ? _
    | apply finishes_mapM; intros ? _
    | match goal with
      | |- finishes (match ?x with _ => _ end) => destruct x eqn:?
      | |- finishes (if ?b then _ else _) => destruct b eqn:?
      | |- finishes (let '(_, _) := ?x in _) => destruct x
      end ].

Ltac solve_finishes := repeat finishes_step.

Section Termination.
Variable ts : Oracle.
Variable getResolverType : Symbol → Node → V2.ResolverType.

Lemma finishes_read :
  (∀ l, finishes (readDocument l)) ∧ (∀ l, finishes (readSymbol l)).
Proof.
  split; intros l s _.
  - unfold readDocument. destruct (documentStore s !! l); auto.
  - unfold readSymbol. destruct (symbolStore s !! l); auto.
Qed.

Lemma finishes_freshId : finishes freshId.
Proof. intros s _. exact I. Qed.

Lemma finishes_document f : finishes (getOrCreateDocumentData ts f).
Proof.
  destruct finishes_read as [Hd Hs]. pose proof finishes_freshId.
  unfold getOrCreateDocumentData, vertexDocument, allocDocument,
    DocumentData_begin, emit, setDocumentStore, setDocumentDatas.
  solve_finishes.
Qed.

Lemma finishes_monikerLoop files : ∀ acc, finishes (monikerLoop ts acc files).
Proof.
  destruct finishes_read as [Hd Hs]. pose proof finishes_document.
  induction files as [|f files IH]; intros acc; simpl; solve_finishes.
Qed.

Lemma finishes_resolveMonikerPath files :
  finishes (resolveMonikerPath ts files).
Proof.
  pose proof finishes_monikerLoop. unfold resolveMonikerPath. solve_finishes.
Qed.

Lemma finishes_symbolData :
  (∀ l, finishes (SymbolData_begin l))
  ∧ (∀ l m, finishes (SymbolData_addMoniker l m))
  ∧ (∀ l f d, finishes (SymbolData_addDefinition l f d))
  ∧ (∀ l i, finishes (SymbolData_addDefinitionInfo l i))
  ∧ (∀ l f r, finishes (SymbolData_addReference l f r))
  ∧ (∀ l h, finishes (SymbolData_addHover l h))
  ∧ (∀ l r, finishes (DocumentData_addRange l r))
  ∧ (∀ r t, finishes (vertexRange r t))
  ∧ (∀ e, finishes (emit e))
  ∧ (∀ d, finishes (allocSymbol d))
  ∧ (∀ f, finishes (setSymbolDatas f))
  ∧ (∀ f d, finishes (setCurrent f d)).
Proof.
  pose proof finishes_freshId.
  repeat split; intros;
    unfold SymbolData_begin, SymbolData_addMoniker, SymbolData_addDefinition,
      SymbolData_addDefinitionInfo, SymbolData_addReference,
      SymbolData_addHover, DocumentData_addRange, vertexRange, allocSymbol,
      emit, setSymbolStore, setDocumentStore, setSymbolDatas, setCurrent;
    solve_finishes.
Qed.

Lemma finishes_Graph_emitDefinitions v symbol l ds :
  finishes (Graph.emitDefinitions ts v symbol l ds).
Proof.
  destruct finishes_symbolData
    as (? & ? & ? & ? & ? & ? & ? & ? & ? & ? & ? & ?).
  pose proof finishes_document.
  unfold Graph.emitDefinitions, Graph.emitDefinition. solve_finishes.
Qed.

Lemma finishes_makeSymbolData recur symbol node :
  (∀ sym n, nestedSymbol ts symbol node sym → finishes (recur sym n)) →
  finishes (Graph.makeSymbolData ts recur symbol node).
Proof.
  intros Hrec.
  destruct finishes_symbolData
    as (? & ? & ? & ? & ? & ? & ? & ? & ? & ? & ? & ?).
  destruct finishes_read as [? ?].
  assert (Halias : isAliasSymbol ts symbol = true →
            finishes (recur (getAliasedSymbol ts symbol) None)).
  { intros E. apply Hrec. left. auto. }
  assert (Hmembers : ∀ m,
            m ∈ match getSymbolParent ts symbol with
                | Some container =>
                    default [] (findBaseMembers ts container (getName ts symbol))
                | None => []
                end → finishes (recur m None)).
  { intros m Hm. apply Hrec. right. left.
    destruct (getSymbolParent ts symbol) as [c|]; [|inversion Hm].
    destruct (findBaseMembers ts c (getName ts symbol)) as [ms|] eqn:E;
      [|inversion Hm].
    eauto. }
  assert (Hcomposites : ∀ cs m, getCompositeSymbols ts symbol node = Some cs →
            m ∈ cs → finishes (recur m None)).
  { intros cs m E Hm. apply Hrec. right. right. eauto. }
  unfold Graph.makeSymbolData.
  repeat first
    [ solve [auto with finishes]
    | solve [eauto]
    | apply finishes_bind; [|intros ?]
    | apply finishes_mapM; intros ? ?
    | match goal with
      | |- finishes (match ?x with _ => _ end) => destruct x eqn:?
      | |- finishes (if ?b then _ else _) => destruct b eqn:?
      end ].
Qed.

Lemma finishes_Graph_body recur symbol node :
  (∀ sym n, nestedSymbol ts symbol node sym → finishes (recur sym n)) →
  finishes (Graph.getOrCreateSymbolData_body ts recur symbol node).
Proof.
  intros Hrec.
  destruct finishes_symbolData
    as (? & ? & ? & ? & ? & ? & ? & ? & ? & ? & ? & ?).
  destruct finishes_read as [? ?].
  pose proof (finishes_makeSymbolData recur symbol node Hrec).
  pose proof finishes_resolveMonikerPath.
  pose proof finishes_Graph_emitDefinitions.
  unfold Graph.getOrCreateSymbolData_body, Graph.SymbolData_getSourceFiles,
    Graph.SymbolData_getDeclarations.
  solve_finishes.
Qed.

Section Ranked.
Variable rank : Symbol → nat.
Hypothesis Hrank : Acyclic ts rank.

Lemma nested_rank symbol node sym :
  nestedSymbol ts symbol node sym → (rank sym < rank symbol)%nat.
Proof.
  destruct Hrank as (_ & Ha & Hm & Hc).
  intros [[E ->]|[(c & ms & Ec & Em & Hin)|(cs & Ec & Hin)]].
  - apply Ha, E.
  - eapply Hm; eassumption.
  - eapply Hc; eassumption.
Qed.

Lemma finishes_Graph_symbol fuel : ∀ symbol node,
  (rank symbol ≤ fuel)%nat →
  finishes (Graph.getOrCreateSymbolData ts fuel symbol node).
Proof.
  induction fuel as [|fuel IH]; intros symbol node Hle; simpl;
    apply finishes_Graph_body; intros sym n Hn;
    apply (nested_rank symbol node sym) in Hn.
  - lia.
  - apply IH. lia.
Qed.

Section Bounded.
Variable bound : nat.
Hypothesis Hbound : ∀ symbol, (rank symbol ≤ bound)%nat.

Lemma finishes_Graph_visitSymbol fuel node :
  (bound ≤ fuel)%nat → finishes (Graph.visitSymbol ts fuel node).
Proof.
  intros Hle.
  destruct finishes_symbolData
    as (? & ? & ? & ? & ? & ? & ? & ? & ? & ? & ? & ?).
  destruct finishes_read as [? ?].
  assert (∀ symbol n, finishes (Graph.getOrCreateSymbolData ts fuel symbol n)).
  { intros symbol n. apply finishes_Graph_symbol.
    specialize (Hbound symbol). lia. }
  unfold Graph.visitSymbol. solve_finishes.
Qed.

Lemma finishes_Graph_preVisit fuel node :
  (bound ≤ fuel)%nat → finishes (Graph.preVisit ts fuel node).
Proof.
  intros Hle.
  destruct finishes_symbolData
    as (? & ? & ? & ? & ? & ? & ? & ? & ? & ? & ? & ?).
  pose proof finishes_document.
  pose proof (fun n => finishes_Graph_visitSymbol fuel n Hle).
  unfold Graph.preVisit. solve_finishes.
Qed.

Lemma finishes_Graph_exportSpecifiers fuel documentData specifiers :
  (bound ≤ fuel)%nat →
  finishes (Graph.exportSpecifiers ts fuel documentData specifiers).
Proof.
  intros Hle. destruct finishes_read as [? ?].
  assert (∀ symbol n, finishes (Graph.getOrCreateSymbolData ts fuel symbol n)).
  { intros symbol n. apply finishes_Graph_symbol.
    specialize (Hbound symbol). lia. }
  induction specifiers as [|element rest IH]; simpl; unfold Graph.exportSymbol;
    solve_finishes.
Qed.

Lemma finishes_Graph_postVisit fuel node :
  (bound ≤ fuel)%nat → finishes (Graph.postVisit ts fuel node).
Proof.
  intros Hle. destruct finishes_read as [? ?].
  destruct finishes_symbolData
    as (? & ? & ? & ? & ? & ? & ? & ? & ? & ? & ? & ?).
  assert (∀ symbol n, finishes (Graph.getOrCreateSymbolData ts fuel symbol n)).
  { intros symbol n. apply finishes_Graph_symbol.
    specialize (Hbound symbol). lia. }
  pose proof (fun d l => finishes_Graph_exportSpecifiers fuel d l Hle).
  unfold Graph.postVisit, Graph.exportSymbol. solve_finishes.
Qed.

Variable height : Node → nat.
Hypothesis Hheight : Shallow ts height.

Lemma finishes_Graph_visit fuel : ∀ node,
  (height node + bound ≤ fuel)%nat → finishes (Graph.visit ts fuel node).
Proof.
  induction fuel as [|fuel IH]; intros node Hle; simpl.
  - apply finishes_bind; [apply finishes_Graph_preVisit; lia|].
    intros [|]; [|auto with finishes].
    apply finishes_bind; [|intros ?; apply finishes_Graph_postVisit; lia].
    apply finishes_forM. intros c Hc. apply Hheight in Hc. lia.
  - apply finishes_bind; [apply finishes_Graph_preVisit; lia|].
    intros [|]; [|auto with finishes].
    apply finishes_bind; [|intros ?; apply finishes_Graph_postVisit; lia].
    apply finishes_forM. intros c Hc. apply IH. apply Hheight in Hc. lia.
Qed.

Lemma finishes_Graph_index fuel sourceFiles :
  (∀ f, f ∈ sourceFiles → (height f + bound ≤ fuel)%nat) →
  finishes (Graph.index_sourceFiles ts fuel sourceFiles).
Proof.
  intros Hle. unfold Graph.index_sourceFiles. apply finishes_forM.
  intros f Hf. destruct (_ || _); [auto with finishes|].
  apply finishes_Graph_visit, Hle, Hf.
Qed.
End Bounded.
End Ranked.
End Termination.

Section Success.
Variable ts : Oracle.
Variable getResolverType : Symbol → Node → V2.ResolverType.
Variable errors : string → Prop.

Lemma Within_frame f d n s s' :
  length (documentStore s') = length (documentStore s) →
  length (symbolStore s') = length (symbolStore s) →
  documentDatas s' = documentDatas s →
  symbolDatas s' = symbolDatas s →
  currentSourceFile s' = currentSourceFile s →
  currentDocumentData s' = currentDocumentData s →
  Within f d n s → Within f d n s'.
Proof.
  intros H1 H2 H3 H4 H5 H6 ((A & B & C) & Hf & Hd & Hn).
  unfold Within, Sound. rewrite H1, H2, H3, H4, H5, H6. auto.
Qed.

Lemma Within_weaken f d n n' s : (n ≤ n')%nat → Within f d n' s → Within f d n s.
Proof. intros Hle (A & B & C & D). repeat split; try assumption; try apply A. lia. Qed.

Lemma runs_frame {A} f d n (m : M A) :
  (∀ s, ∃ a s', m s = Ok (a, s')
                ∧ length (documentStore s') = length (documentStore s)
                ∧ length (symbolStore s') = length (symbolStore s)
                ∧ documentDatas s' = documentDatas s
                ∧ symbolDatas s' = symbolDatas s
                ∧ currentSourceFile s' = currentSourceFile s
                ∧ currentDocumentData s' = currentDocumentData s) →
  runs errors (Within f d n) m (fun _ => Within f d n).
Proof.
  intros H s Hs. destruct (H s) as (a & s' & -> & H1 & H2 & H3 & H4 & H5 & H6).
  eapply Within_frame; eassumption.
Qed.

Lemma Within_updates f d n :
  (∀ l, runs errors (Within f d n) (SymbolData_begin l) (fun _ => Within f d n))
  ∧ (∀ l m, runs errors (Within f d n) (SymbolData_addMoniker l m)
              (fun _ => Within f d n))
  ∧ (∀ l sf r, runs errors (Within f d n) (SymbolData_addDefinition l sf r)
                 (fun _ => Within f d n))
  ∧ (∀ l i, runs errors (Within f d n) (SymbolData_addDefinitionInfo l i)
              (fun _ => Within f d n))
  ∧ (∀ l sf r, runs errors (Within f d n) (SymbolData_addReference l sf r)
                 (fun _ => Within f d n))
  ∧ (∀ l h, runs errors (Within f d n) (SymbolData_addHover l h)
              (fun _ => Within f d n))
  ∧ (∀ l r, runs errors (Within f d n) (DocumentData_addRange l r)
              (fun _ => Within f d n))
  ∧ (∀ r t, runs errors (Within f d n) (vertexRange r t)
              (fun _ => Within f d n))
  ∧ (∀ e, runs errors (Within f d n) (emit e) (fun _ => Within f d n)).
Proof.
  repeat match goal with |- _ ∧ _ => split end; intros; apply runs_frame;
    intros s; eexists _, _; (split; [reflexivity|]); simpl;
    rewrite ?length_alter; auto 10.
Qed.

Lemma document_runs f d n sourceFile :
  runs errors (Within f d n) (getOrCreateDocumentData ts sourceFile)
    (fun l s' => Within f d n s'
                 ∧ documentDatas s' !! fileName ts sourceFile = Some l).
Proof.
  intros s Hs. pose proof (getOrCreateDocumentData_run ts sourceFile s) as Hrun.
  destruct (documentDatas s !! fileName ts sourceFile) as [l|] eqn:E.
  { rewrite Hrun. auto. }
  destruct Hrun as (dd & -> & _). split; [|apply lookup_insert_eq].
  destruct Hs as ((A & B & C) & Hf & Hd & Hn).
  split; [|simpl; auto]. split; [|split]; simpl.
  - intros f' l. rewrite length_app. simpl.
    destruct (decide (fileName ts sourceFile = f')) as [<-|Hne].
    + rewrite lookup_insert_eq. intros [= <-]. lia.
    + rewrite lookup_insert_ne by exact Hne. intros H.
      apply A in H. lia.
  - exact B.
  - intros d0 H. rewrite length_app. apply C in H. lia.
Qed.

Lemma readDocument_runs (P : Indexer → Prop) l :
  (∀ s, P s → (l < length (documentStore s))%nat) →
  runs errors P (readDocument l) (fun _ => P).
Proof.
  intros H s Hs. unfold readDocument.
  destruct (lookup_lt_is_Some_2 _ _ (H s Hs)) as [x ->]. exact Hs.
Qed.

Lemma readSymbol_runs (P : Indexer → Prop) l :
  (∀ s, P s → (l < length (symbolStore s))%nat) →
  runs errors P (readSymbol l) (fun _ => P).
Proof.
  intros H s Hs. unfold readSymbol.
  destruct (lookup_lt_is_Some_2 _ _ (H s Hs)) as [x ->]. exact Hs.
Qed.

Lemma monikerLoop_runs f d n files : ∀ acc,
  runs errors (Within f d n) (monikerLoop ts acc files) (fun _ => Within f d n).
Proof.
  induction files as [|file files IH]; intros acc; simpl.
  - apply runs_ret. auto.
  - eapply runs_bind; [apply document_runs|]. intros l.
    eapply runs_bind.
    + apply readDocument_runs. intros s [((A & _) & _) E]. eapply A, E.
    + intros dd. eapply runs_conseq; [apply IH| |auto]. intros s [Hs _]. exact Hs.
Qed.

Lemma resolveMonikerPath_runs f d n files :
  runs errors (Within f d n) (resolveMonikerPath ts files)
    (fun _ => Within f d n).
Proof.
  unfold resolveMonikerPath. eapply runs_bind; [apply monikerLoop_runs|].
  intros acc. apply runs_ret. auto.
Qed.

Lemma V2_emitDefinition_runs f d n declaration l text node r :
  runs errors (Within f d n) (V2.emitDefinition ts declaration l text node r)
    (fun _ => Within f d n).
Proof.
  destruct (Within_updates f d n) as (? & ? & ? & ? & ? & ? & ? & ? & ?).
  unfold V2.emitDefinition.
  eapply runs_bind; [apply document_runs|]. intros dl.
  eapply runs_conseq with (P := Within f d n) (Q := fun _ => Within f d n);
    [|intros s [Hs _]; exact Hs|auto].
  repeat first
    [ solve [auto]
    | apply runs_ret; solve [auto]
    | eapply runs_bind; [solve [auto]|intros ?]
    | match goal with
      | |- runs _ _ (match ?x with _ => _ end) _ => destruct x
      | |- runs _ _ (if ?b then _ else _) _ => destruct b
      end ].
Qed.

Lemma allocSymbol_runs f d n sd :
  runs errors (Within f d n) (allocSymbol sd)
    (fun l s' => Within f d (S l) s' ∧ (n ≤ l)%nat).
Proof.
  intros s ((A & B & C) & Hf & Hd & Hn).
  cbv [allocSymbol bind gets setSymbolStore modify ret]. unfold Within. simpl.
  rewrite length_app. simpl.
  split; [|exact Hn]. split; [|split; [exact Hf|split; [exact Hd|lia]]].
  split; [exact A|]. split; [|exact C]. simpl.
  intros k l H. rewrite length_app. apply B in H. lia.
Qed.

Lemma V2_symbol_runs f d n symbol node r :
  runs errors (Within f (Some d) n)
    (V2.getOrCreateSymbolData ts symbol node r)
    (fun l s' => Within f (Some d) n s'
                 ∧ symbolDatas s' !! createSymbolKey ts symbol = Some l).
Proof.
  unfold V2.getOrCreateSymbolData.
  eapply runs_bind with (Q1 := fun a s => Within f (Some d) n s ∧ a = Some d).
  { apply runs_gets. intros s Hs. split; [exact Hs|]. apply Hs. }
  intros cur. apply runs_pure. intros ->.
  eapply runs_bind
    with (Q1 := fun a s => Within f (Some d) n s
                           ∧ a = symbolDatas s !! createSymbolKey ts symbol).
  { apply runs_gets. auto. }
  intros [l|].
  { apply runs_ret. intros s [Hs E]. auto. }
  eapply runs_conseq with (P := Within f (Some d) n);
    [|intros s [Hs _]; exact Hs|intros a s H; exact H].
  eapply runs_bind.
  { apply readDocument_runs. intros s ((_ & _ & C) & _ & Hd & _). apply C, Hd. }
  intros dd. eapply runs_bind; [apply allocSymbol_runs|].
  intros l. apply runs_pure. intros Hl.
  destruct (Within_updates f (Some d) (S l))
    as (? & ? & ? & ? & ? & ? & ? & ? & ?).
  eapply runs_bind; [solve [auto]|]. intros _u.
  eapply runs_bind; [apply resolveMonikerPath_runs|]. intros [mp ext].
  eapply runs_bind with (Q1 := fun _ => Within f (Some d) (S l)).
  { destruct (monikerFor _ _ _ _ _); [auto|apply runs_ret; auto]. }
  intros _u1. eapply runs_bind.
  { apply runs_forM. intros decl _.
    destruct (V2.getText ts symbol decl r) as [[t nd]|];
      [apply V2_emitDefinition_runs|apply runs_ret; auto]. }
  intros _u2. eapply runs_bind with
    (Q1 := fun _ s => Within f (Some d) n s
                      ∧ symbolDatas s !! createSymbolKey ts symbol = Some l).
  { apply runs_modify. intros s ((A & B & C) & Hf & Hd & Hn). simpl.
    split; [|apply lookup_insert_eq]. split; [|simpl; repeat split; auto; lia].
    split; [exact A|]. split; [|exact C]. simpl. intros k l0.
    destruct (decide (createSymbolKey ts symbol = k)) as [<-|Hne].
    - rewrite lookup_insert_eq. intros [= <-]. lia.
    - rewrite lookup_insert_ne by exact Hne. apply B. }
  intros _u3. apply runs_ret. auto.
Qed.

Lemma Sound_within s :
  Sound s → Within (currentSourceFile s) (currentDocumentData s) 0 s.
Proof. intros H. split; [exact H|]. repeat split. lia. Qed.

Lemma runs_sound {A} (m : M A) :
  (∀ f d, runs errors (Within f d 0) m (fun _ => Within f d 0)) →
  runs errors Sound m (fun _ => Sound).
Proof.
  intros H s Hs. specialize (H _ _ s (Sound_within s Hs)).
  destruct (m s) as [[a s']|e|]; [apply H|exact H|exact H].
Qed.

Lemma V2_visitSymbol_runs node :
  runs errors Sound (V2.visitSymbol ts getResolverType node) (fun _ => Sound).
Proof.
  apply runs_sound. intros f d.
  destruct (Within_updates f d 0) as (? & ? & ? & ? & ? & ? & ? & ? & ?).
  unfold V2.visitSymbol.
  eapply runs_bind with (Q1 := fun a s => Within f d 0 s ∧ a = f).
  { apply runs_gets. intros s Hs. split; [exact Hs|]. apply Hs. }
  intros curFile. apply runs_pure. intros ->.
  eapply runs_bind with (Q1 := fun a s => Within f d 0 s ∧ a = d).
  { apply runs_gets. intros s Hs. split; [exact Hs|]. apply Hs. }
  intros cur. apply runs_pure. intros ->.
  destruct f as [sourceFile|], d as [documentData|];
    try (apply runs_ret; solve [auto]).
  destruct (checkerSymbolAtLocation ts node) as [symbol|];
    [|apply runs_ret; solve [auto]].
  eapply runs_bind; [apply V2_symbol_runs|]. intros l.
  eapply runs_bind.
  { apply readSymbol_runs. intros s [((_ & B & _) & _) E]. eapply B, E. }
  intros sd.
  eapply runs_conseq with (P := Within (Some sourceFile) (Some documentData) 0)
                          (Q := fun _ => Within (Some sourceFile)
                                           (Some documentData) 0);
    [|intros s [Hs _]; exact Hs|auto].
  destruct (hasDefinitionInfo sd _); [apply runs_ret; solve [auto]|].
  eapply runs_bind; [solve [auto]|]. intros reference.
  eapply runs_bind; [solve [auto]|]. intros _u.
  eapply runs_bind; [solve [auto]|]. intros _u1. auto.
Qed.

Lemma setCurrent_runs f d :
  runs errors (fun s => Sound s
                        ∧ ∀ l, d = Some l → (l < length (documentStore s))%nat)
    (setCurrent f d) (fun _ => Sound).
Proof.
  apply runs_modify. intros s [(A & B & C) Hd]. split; [exact A|].
  split; [exact B|]. exact Hd.
Qed.

Lemma V2_preVisit_runs node :
  runs errors Sound (V2.preVisit ts getResolverType node) (fun _ => Sound).
Proof.
  pose proof (V2_visitSymbol_runs node) as Hv.
  assert (Hs : runs errors Sound
                 (V2.visitSymbol ts getResolverType node;; ret false)
                 (fun _ => Sound)).
  { eapply runs_bind; [exact Hv|]. intros _u. apply runs_ret. auto. }
  unfold V2.preVisit.
  destruct (kind ts node); try exact Hs; try (apply runs_ret; solve [auto]).
  eapply runs_bind
    with (Q1 := fun l s => Sound s ∧ (l < length (documentStore s))%nat).
  { intros s Hsd.
    pose proof (document_runs _ _ 0 node s (Sound_within s Hsd)) as H.
    destruct (getOrCreateDocumentData ts node s) as [[l s']|e|];
      [|exact H|exact H].
    destruct H as [(Hs' & _) E]. split; [exact Hs'|].
    destruct Hs' as (A & _). eapply A, E. }
  intros l. eapply runs_bind with (Q1 := fun _ => Sound).
  - eapply runs_conseq; [apply (setCurrent_runs (Some node) (Some l))| |auto].
    intros s [Hsd Hl]. split; [exact Hsd|]. intros l0 [= <-]. exact Hl.
  - intros _u. apply runs_ret. auto.
Qed.

Lemma V2_postVisit_runs node :
  runs errors Sound (V2.postVisit ts node) (fun _ => Sound).
Proof.
  unfold V2.postVisit. destruct (isKind _ _); [|apply runs_ret; auto].
  eapply runs_conseq; [apply (setCurrent_runs None None)| |auto].
  intros s Hs. split; [exact Hs|]. intros l [=].
Qed.

Section Height.
Variable height : Node → nat.
Hypothesis Hheight : Shallow ts height.

Lemma V2_visit_runs fuel : ∀ node,
  (height node ≤ fuel)%nat →
  runs errors Sound (V2.visit ts getResolverType fuel node) (fun _ => Sound).
Proof.
  induction fuel as [|fuel IH]; intros node Hle; simpl.
  - eapply runs_bind; [apply V2_preVisit_runs|].
    intros [|]; [|apply runs_ret; auto].
    eapply runs_bind; [|intros ?; apply V2_postVisit_runs].
    apply runs_forM. intros c Hc. apply Hheight in Hc. lia.
  - eapply runs_bind; [apply V2_preVisit_runs|].
    intros [|]; [|apply runs_ret; auto].
    eapply runs_bind; [|intros ?; apply V2_postVisit_runs].
    apply runs_forM. intros c Hc. apply IH. apply Hheight in Hc. lia.
Qed.

Lemma V2_index_runs fuel sourceFiles :
  (∀ f, f ∈ sourceFiles → (height f ≤ fuel)%nat) →
  runs errors Sound (V2.index_sourceFiles ts getResolverType fuel sourceFiles)
    (fun _ => Sound).
Proof.
  intros Hle. unfold V2.index_sourceFiles. apply runs_forM.
  intros f Hf. destruct (_ || _); [apply runs_ret; auto|].
  apply V2_visit_runs, Hle, Hf.
Qed.
End Height.
End Success.

Lemma sample_shallow baseMembers :
  Shallow (Samples.sampleOracleWith baseMembers) ExtraSamples.sampleHeight.
Proof.
  intros n c H. simpl in H.
  destruct n as [|[|[|[|[|[|n]]]]]]; simpl in H;
    repeat (apply elem_of_cons in H as [->|H]; [simpl; lia|]);
    apply elem_of_nil in H; contradiction.
Qed.

Lemma Sound_initial : Sound initial.
Proof.
  split; [|split]; simpl; intros ? ?; try rewrite lookup_empty; discriminate.
Qed.

(** X11. The v2 indexer never fails on finite syntax trees: from a state
    whose references all point into the stores, with fuel for the height of
    the trees, the loop over the source files comes back with a value,
    without an error thrown, in a state of the same kind. *)
Theorem v2_indexing_succeeds (ts : Oracle)
    (getResolverType : Symbol → Node → V2.ResolverType)
    (height : Node → nat) (fuel : nat) (sourceFiles : list Node)
    (s : Indexer) :
  Shallow ts height →
  (∀ f, f ∈ sourceFiles → (height f ≤ fuel)%nat) →
  Sound s →
  ∃ s', V2.index_sourceFiles ts getResolverType fuel sourceFiles s = Ok (tt, s')
        ∧ Sound s'.
Proof.
  intros Hh Hle Hs.
  pose proof (V2_index_runs ts getResolverType (fun _ => False) height Hh fuel
                sourceFiles Hle s Hs) as H.
  destruct (V2.index_sourceFiles ts getResolverType fuel sourceFiles s)
    as [[[] s']|e|]; [eauto|destruct H|destruct H].
Qed.

Lemma v2_indexing_succeeds_witness :
  ∃ s', V2.index_sourceFiles Samples.sampleOracle (fun _ _ => V2.standard) 2
          [0; 21] initial = Ok (tt, s')
        ∧ Sound s'.
Proof.
  apply (v2_indexing_succeeds Samples.sampleOracle (fun _ _ => V2.standard)
           ExtraSamples.sampleHeight 2 [0; 21] initial).
  - apply sample_shallow.
  - intros f Hf. repeat (apply elem_of_cons in Hf as [->|Hf]; [simpl; lia|]).
    apply elem_of_nil in Hf. contradiction.
  - apply Sound_initial.
Defined.

(** X12. The graph indexer comes to an end where the symbols are layered:
    with a measure that every nested call of [makeSymbolData] decreases, a
    bound on it, and fuel for the height of the trees on top of that bound,
    no call of [getOrCreateSymbolData] and no run over the source files
    spends its fuel: they come back with a value or a thrown error. *)
Theorem graph_indexing_terminates (ts : Oracle) (rank : Symbol → nat)
    (bound : nat) (height : Node → nat) (fuel : nat)
    (sourceFiles : list Node) (s : Indexer) :
  Acyclic ts rank →
  (∀ symbol, (rank symbol ≤ bound)%nat) →
  Shallow ts height →
  (∀ f, f ∈ sourceFiles → (height f + bound ≤ fuel)%nat) →
  Graph.index_sourceFiles ts fuel sourceFiles s ≠ OutOfFuel
  ∧ (∀ fuel' symbol node,
       (rank symbol ≤ fuel')%nat →
       Graph.getOrCreateSymbolData ts fuel' symbol node s ≠ OutOfFuel).
Proof.
  intros Hr Hb Hh Hle. split.
  - pose proof (finishes_Graph_index ts rank Hr bound Hb height Hh fuel
                  sourceFiles Hle s I) as H.
    intros E. rewrite E in H. exact H.
  - intros fuel' symbol node Hf.
    pose proof (finishes_Graph_symbol ts rank Hr fuel' symbol node Hf s I) as H.
    intros E. rewrite E in H. exact H.
Qed.

Lemma graph_indexing_terminates_witness :
  Graph.index_sourceFiles Samples.layeredOracle 3 [0; 21] initial ≠ OutOfFuel
  ∧ Graph.getOrCreateSymbolData Samples.layeredOracle 1 12 None
      Samples.insideFile ≠ OutOfFuel.
Proof.
  split.
  - apply (graph_indexing_terminates Samples.layeredOracle Samples.layeredRank
             1 ExtraSamples.sampleHeight 3 [0; 21] initial).
    + apply layered_sample_acyclic.
    + intros symbol. unfold Samples.layeredRank.
      do 16 (destruct symbol as [|symbol]; [lia|]). lia.
    + apply sample_shallow.
    + intros f Hf. repeat (apply elem_of_cons in Hf as [->|Hf]; [simpl; lia|]).
      apply elem_of_nil in Hf. contradiction.
  - apply (graph_indexing_terminates Samples.layeredOracle Samples.layeredRank
             1 ExtraSamples.sampleHeight 3 [0; 21] Samples.insideFile).
    + apply layered_sample_acyclic.
    + intros symbol. unfold Samples.layeredRank.
      do 16 (destruct symbol as [|symbol]; [lia|]). lia.
    + apply sample_shallow.
    + intros f Hf. repeat (apply elem_of_cons in Hf as [->|Hf]; [simpl; lia|]).
      apply elem_of_nil in Hf. contradiction.
    + simpl. lia.
Defined.

Section Inside.
Variable ts : Oracle.
Variable errors : string → Prop.

Ltac runs_step :=
  first
    [ solve [auto]
    | apply runs_ret; solve [auto]
    | eapply runs_bind; [solve [eauto]|intros ?]
    | match goal with
      | |- runs _ _ (match ?x with _ => _ end) _ => destruct x eqn:?
      | |- runs _ _ (if ?b then _ else _) _ => destruct b eqn:?
      end ].

Lemma Graph_getSourceFiles_runs f d n v symbol node :
  runs errors (Within f d n) (Graph.SymbolData_getSourceFiles ts v symbol node)
    (fun _ => Within f d n).
Proof. unfold Graph.SymbolData_getSourceFiles. repeat runs_step. Qed.

Lemma Graph_getDeclarations_runs f d n v symbol node :
  runs errors (Within f d n) (Graph.SymbolData_getDeclarations ts v symbol node)
    (fun _ => Within f d n).
Proof. unfold Graph.SymbolData_getDeclarations. repeat runs_step. Qed.

Lemma Graph_emitDefinition_runs f d n declaration l text node :
  runs errors (Within f d n) (Graph.emitDefinition ts declaration l text node)
    (fun _ => Within f d n).
Proof.
  destruct (Within_updates errors f d n) as (? & ? & ? & ? & ? & ? & ? & ? & ?).
  unfold Graph.emitDefinition.
  eapply runs_bind; [apply document_runs|]. intros dl.
  eapply runs_conseq with (P := Within f d n) (Q := fun _ => Within f d n);
    [|intros s [Hs _]; exact Hs|auto].
  repeat runs_step.
Qed.

Lemma Graph_emitDefinitions_runs f d n v symbol l ds :
  runs errors (Within f d n) (Graph.emitDefinitions ts v symbol l ds)
    (fun _ => Within f d n).
Proof.
  unfold Graph.emitDefinitions. apply runs_forM. intros decl _.
  destruct (Graph.SymbolData_getText ts v symbol decl) as [[t nd]|];
    [apply Graph_emitDefinition_runs|apply runs_ret; auto].
Qed.

Lemma Graph_makeSymbolData_runs f d n recur symbol node :
  (∀ sym n0, nestedSymbol ts symbol node sym →
     runs errors (Within (Some f) (Some d) n) (recur sym n0)
       (fun _ => Within (Some f) (Some d) n)) →
  runs errors (Within (Some f) (Some d) n)
    (Graph.makeSymbolData ts recur symbol node)
    (fun l s' => Within (Some f) (Some d) (S l) s' ∧ (n ≤ l)%nat).
Proof.
  intros Hrec.
  assert (Halias : isAliasSymbol ts symbol = true →
            runs errors (Within (Some f) (Some d) n)
              (recur (getAliasedSymbol ts symbol) None)
              (fun _ => Within (Some f) (Some d) n)).
  { intros E. apply Hrec. left. auto. }
  assert (Hmembers : ∀ m,
            m ∈ match getSymbolParent ts symbol with
                | Some container =>
                    default [] (findBaseMembers ts container (getName ts symbol))
                | None => []
                end →
            runs errors (Within (Some f) (Some d) n) (recur m None)
              (fun _ => Within (Some f) (Some d) n)).
  { intros m Hm. apply Hrec. right. left.
    destruct (getSymbolParent ts symbol) as [c|]; [|inversion Hm].
    destruct (findBaseMembers ts c (getName ts symbol)) as [ms|] eqn:E;
      [|inversion Hm].
    eauto. }
  assert (Hcomposites : ∀ cs m, getCompositeSymbols ts symbol node = Some cs →
            m ∈ cs →
            runs errors (Within (Some f) (Some d) n) (recur m None)
              (fun _ => Within (Some f) (Some d) n)).
  { intros cs m E Hm. apply Hrec. right. right. eauto. }
  pose proof (allocSymbol_runs errors (Some f) (Some d) n) as Halloc.
  unfold Graph.makeSymbolData.
  eapply runs_bind with (Q1 := fun a s => Within (Some f) (Some d) n s
                                          ∧ a = Some d).
  { apply runs_gets. intros s Hs. split; [exact Hs|]. apply Hs. }
  intros cur. apply runs_pure. intros ->.
  eapply runs_bind with (Q1 := fun a s => Within (Some f) (Some d) n s
                                          ∧ a = Some f).
  { apply runs_gets. intros s Hs. split; [exact Hs|]. apply Hs. }
  intros curFile. apply runs_pure. intros ->.
  eapply runs_bind.
  { apply readDocument_runs. intros s ((_ & _ & C) & _ & Hd & _). apply C, Hd. }
  intros dd.
  repeat first
    [ solve [auto]
    | eapply runs_bind; [solve [eauto]|intros ?]
    | eapply runs_bind; [apply runs_mapM; intros ? ?; solve [eauto]|intros ?]
    | match goal with
      | |- runs _ _ (match ?x with _ => _ end) _ => destruct x eqn:?
      | |- runs _ _ (if ?b then _ else _) _ => destruct b eqn:?
      end ].
Qed.

Lemma Graph_body_runs f d n recur symbol node :
  (∀ sym n0, nestedSymbol ts symbol node sym →
     runs errors (Within (Some f) (Some d) n) (recur sym n0)
       (fun _ => Within (Some f) (Some d) n)) →
  runs errors (Within (Some f) (Some d) n)
    (Graph.getOrCreateSymbolData_body ts recur symbol node)
    (fun l s' => Within (Some f) (Some d) n s'
                 ∧ symbolDatas s' !! createSymbolKey ts symbol = Some l).
Proof.
  intros Hrec. unfold Graph.getOrCreateSymbolData_body.
  eapply runs_bind with (Q1 := fun a s => Within (Some f) (Some d) n s
                                          ∧ a = Some d).
  { apply runs_gets. intros s Hs. split; [exact Hs|]. apply Hs. }
  intros cur. apply runs_pure. intros ->.
  eapply runs_bind
    with (Q1 := fun a s => Within (Some f) (Some d) n s
                           ∧ a = symbolDatas s !! createSymbolKey ts symbol).
  { apply runs_gets. auto. }
  intros [l|].
  { apply runs_ret. intros s [Hs E]. auto. }
  eapply runs_conseq with (P := Within (Some f) (Some d) n);
    [|intros s [Hs _]; exact Hs|intros a s H; exact H].
  eapply runs_bind; [apply Graph_makeSymbolData_runs, Hrec|].
  intros l. apply runs_pure. intros Hl.
  destruct (Within_updates errors (Some f) (Some d) (S l))
    as (? & ? & ? & ? & ? & ? & ? & ? & ?).
  eapply runs_bind; [solve [auto]|]. intros _u.
  eapply runs_bind.
  { apply readSymbol_runs. intros s (_ & _ & _ & Hn). lia. }
  intros sd.
  eapply runs_bind; [apply Graph_getSourceFiles_runs|]. intros files.
  eapply runs_bind; [apply resolveMonikerPath_runs|]. intros [mp ext].
  eapply runs_bind with (Q1 := fun _ => Within (Some f) (Some d) (S l)).
  { destruct (monikerFor _ _ _ _ _); [auto|apply runs_ret; auto]. }
  intros _u1.
  eapply runs_bind; [apply Graph_getDeclarations_runs|]. intros ds.
  eapply runs_bind; [apply Graph_emitDefinitions_runs|].
  intros _u2. eapply runs_bind with
    (Q1 := fun _ s => Within (Some f) (Some d) n s
                      ∧ symbolDatas s !! createSymbolKey ts symbol = Some l).
  { apply runs_modify. intros s ((A & B & C) & Hf & Hd & Hn). simpl.
    split; [|apply lookup_insert_eq]. split; [|simpl; repeat split; auto; lia].
    split; [exact A|]. split; [|exact C]. simpl. intros k l0.
    destruct (decide (createSymbolKey ts symbol = k)) as [<-|Hne].
    - rewrite lookup_insert_eq. intros [= <-]. lia.
    - rewrite lookup_insert_ne by exact Hne. apply B. }
  intros _u3. apply runs_ret. auto.
Qed.

Section Ranked.
Variable rank : Symbol → nat.
Hypothesis Hrank : Acyclic ts rank.

Lemma Graph_symbol_runs f d n fuel : ∀ symbol node,
  (rank symbol ≤ fuel)%nat →
  runs errors (Within (Some f) (Some d) n)
    (Graph.getOrCreateSymbolData ts fuel symbol node)
    (fun l s' => Within (Some f) (Some d) n s'
                 ∧ symbolDatas s' !! createSymbolKey ts symbol = Some l).
Proof.
  induction fuel as [|fuel IH]; intros symbol node Hle; simpl;
    apply Graph_body_runs; intros sym n0 Hn;
    apply (nested_rank ts rank Hrank symbol node sym) in Hn.
  - lia.
  - eapply runs_conseq; [apply IH; lia|auto|]. intros a s [Hs _]. exact Hs.
Qed.

Section Bounded.
Variable bound : nat.
Hypothesis Hbound : ∀ symbol, (rank symbol ≤ bound)%nat.

Lemma Graph_symbol_keeps f d fuel symbol node :
  (bound ≤ fuel)%nat →
  runs errors (Within (Some f) (Some d) 0)
    (Graph.getOrCreateSymbolData ts fuel symbol node)
    (fun _ => Within (Some f) (Some d) 0).
Proof.
  intros Hle.
  assert (Hr : (rank symbol ≤ fuel)%nat) by (specialize (Hbound symbol); lia).
  eapply runs_conseq; [apply (Graph_symbol_runs f d 0 fuel symbol node Hr)| |].
  - intros s Hs. exact Hs.
  - intros a s [Hs _]. exact Hs.
Qed.

Lemma Graph_visitSymbol_runs f d fuel node :
  (bound ≤ fuel)%nat →
  runs errors (Within (Some f) (Some d) 0) (Graph.visitSymbol ts fuel node)
    (fun _ => Within (Some f) (Some d) 0).
Proof.
  intros Hle.
  destruct (Within_updates errors (Some f) (Some d) 0)
    as (? & ? & ? & ? & ? & ? & ? & ? & ?).
  unfold Graph.visitSymbol.
  eapply runs_bind with (Q1 := fun a s => Within (Some f) (Some d) 0 s
                                          ∧ a = Some f).
  { apply runs_gets. intros s Hs. split; [exact Hs|]. apply Hs. }
  intros curFile. apply runs_pure. intros ->.
  eapply runs_bind with (Q1 := fun a s => Within (Some f) (Some d) 0 s
                                          ∧ a = Some d).
  { apply runs_gets. intros s Hs. split; [exact Hs|]. apply Hs. }
  intros cur. apply runs_pure. intros ->.
  destruct (checkerSymbolAtLocation ts node) as [symbol|];
    [|apply runs_ret; solve [auto]].
  eapply runs_bind.
  { apply Graph_symbol_runs. specialize (Hbound symbol). lia. }
  intros l. eapply runs_bind.
  { apply readSymbol_runs. intros s [((_ & B & _) & _) E]. eapply B, E. }
  intros sd.
  eapply runs_conseq with (P := Within (Some f) (Some d) 0)
                          (Q := fun _ => Within (Some f) (Some d) 0);
    [|intros s [Hs _]; exact Hs|auto].
  repeat runs_step.
Qed.

Lemma Graph_exportSpecifiers_runs f d fuel specifiers :
  (bound ≤ fuel)%nat →
  runs errors (Within (Some f) (Some d) 0)
    (Graph.exportSpecifiers ts fuel d specifiers)
    (fun _ => Within (Some f) (Some d) 0).
Proof.
  intros Hle.
  pose proof (fun symbol node => Graph_symbol_keeps f d fuel symbol node Hle).
  assert (Hread : runs errors (Within (Some f) (Some d) 0) (readDocument d)
                    (fun _ => Within (Some f) (Some d) 0)).
  { apply readDocument_runs. intros s ((_ & _ & C) & _ & Hd & _). apply C, Hd. }
  assert (Hgets : ∀ A (g : Indexer → A),
            runs errors (Within (Some f) (Some d) 0) (gets g)
              (fun _ => Within (Some f) (Some d) 0)).
  { intros A g. apply runs_gets. auto. }
  induction specifiers as [|element rest IH]; simpl; unfold Graph.exportSymbol;
    repeat runs_step.
Qed.

Lemma Graph_postVisit_runs f d fuel node :
  (bound ≤ fuel)%nat → kind ts node ≠ SourceFile →
  runs errors (Within (Some f) (Some d) 0) (Graph.postVisit ts fuel node)
    (fun _ => Within (Some f) (Some d) 0).
Proof.
  intros Hle Hk.
  pose proof (fun symbol node => Graph_symbol_keeps f d fuel symbol node Hle).
  pose proof (fun l => Graph_exportSpecifiers_runs f d fuel l Hle).
  assert (Hread : runs errors (Within (Some f) (Some d) 0) (readDocument d)
                    (fun _ => Within (Some f) (Some d) 0)).
  { apply readDocument_runs. intros s ((_ & _ & C) & _ & Hd & _). apply C, Hd. }
  assert (Hgets : ∀ A (g : Indexer → A),
            runs errors (Within (Some f) (Some d) 0) (gets g)
              (fun _ => Within (Some f) (Some d) 0)).
  { intros A g. apply runs_gets. auto. }
  assert (Hcur : ∀ A (k : option loc → M A) Q,
            runs errors (Within (Some f) (Some d) 0) (k (Some d)) Q →
            runs errors (Within (Some f) (Some d) 0)
              (let* cur := gets currentDocumentData in k cur) Q).
  { intros A k Q Hkd.
    eapply runs_bind with (Q1 := fun a s => Within (Some f) (Some d) 0 s
                                            ∧ a = Some d).
    - apply runs_gets. intros s Hs. split; [exact Hs|]. apply Hs.
    - intros cur. apply runs_pure. intros ->. exact Hkd. }
  unfold Graph.postVisit, Graph.exportSymbol.
  destruct (kind ts node); try contradiction; try (apply runs_ret; solve [auto]).
  - apply Hcur. repeat runs_step.
  - apply Hcur. repeat runs_step.
Qed.

Lemma Graph_preVisit_runs f d fuel node :
  (bound ≤ fuel)%nat → kind ts node ≠ SourceFile →
  runs errors (Within (Some f) (Some d) 0) (Graph.preVisit ts fuel node)
    (fun _ => Within (Some f) (Some d) 0).
Proof.
  intros Hle Hk. pose proof (Graph_visitSymbol_runs f d fuel node Hle).
  unfold Graph.preVisit.
  destruct (kind ts node); try contradiction; repeat runs_step.
Qed.

Variable height : Node → nat.
Hypothesis Hheight : Shallow ts height.
Hypothesis Hfiles : FilesAtTop ts.

Lemma Graph_visit_inner f d fuel : ∀ node,
  (height node + bound ≤ fuel)%nat → kind ts node ≠ SourceFile →
  runs errors (Within (Some f) (Some d) 0) (Graph.visit ts fuel node)
    (fun _ => Within (Some f) (Some d) 0).
Proof.
  induction fuel as [|fuel IH]; intros node Hle Hk; simpl.
  - eapply runs_bind; [apply Graph_preVisit_runs; [lia|exact Hk]|].
    intros [|]; [|apply runs_ret; auto].
    eapply runs_bind; [|intros ?; apply Graph_postVisit_runs; [lia|exact Hk]].
    apply runs_forM. intros c Hc. apply Hheight in Hc. lia.
  - eapply runs_bind; [apply Graph_preVisit_runs; [lia|exact Hk]|].
    intros [|]; [|apply runs_ret; auto].
    eapply runs_bind; [|intros ?; apply Graph_postVisit_runs; [lia|exact Hk]].
    apply runs_forM. intros c Hc. apply IH.
    + apply Hheight in Hc. lia.
    + eapply Hfiles, Hc.
Qed.

Lemma Graph_visit_file fuel file :
  (height file + bound ≤ fuel)%nat → kind ts file = SourceFile →
  runs errors Sound (Graph.visit ts fuel file) (fun _ => Sound).
Proof.
  intros Hle Hk.
  assert (Hchildren : ∀ d,
    runs errors (Within (Some file) (Some d) 0)
      (forM (match fuel with
             | 0 => fun _ => stuck
             | S fuel' => Graph.visit ts fuel'
             end) (children ts file))
      (fun _ => Within (Some file) (Some d) 0)).
  { intros d. apply runs_forM. intros c Hc.
    pose proof (Hheight _ _ Hc) as Hlt.
    destruct fuel as [|fuel]; [lia|].
    apply Graph_visit_inner; [lia|eapply Hfiles, Hc]. }
  assert (E : Graph.visit ts fuel file
              = (let* descend := Graph.preVisit ts fuel file in
                 if descend then
                   forM (match fuel with
                         | 0 => fun _ => stuck
                         | S fuel' => Graph.visit ts fuel'
                         end) (children ts file);;
                   Graph.postVisit ts fuel file
                 else ret tt)) by (destruct fuel; reflexivity).
  rewrite E. unfold Graph.preVisit, Graph.postVisit. rewrite Hk.
  eapply runs_bind with (Q1 := fun b s =>
    b = true ∧ ∃ d, Within (Some file) (Some d) 0 s).
  { eapply runs_bind
      with (Q1 := fun l s => Sound s ∧ (l < length (documentStore s))%nat).
    { intros s Hsd.
      pose proof (document_runs ts errors _ _ 0 file s (Sound_within s Hsd)) as H.
      destruct (getOrCreateDocumentData ts file s) as [[l s']|e|];
        [|exact H|exact H].
      destruct H as [(Hs' & _) E']. split; [exact Hs'|].
      destruct Hs' as (A & _). eapply A, E'. }
    intros l. eapply runs_bind
      with (Q1 := fun _ s => Within (Some file) (Some l) 0 s).
    - apply runs_modify. intros s [(A & B & C) Hl].
      split; [|simpl; repeat split; lia].
      split; [exact A|]. split; [exact B|]. simpl. intros d0 [= <-]. exact Hl.
    - intros _u. apply runs_ret. eauto. }
  intros b s [-> [d Hs]]. revert s Hs.
  change (runs errors (Within (Some file) (Some d) 0)
            (forM (match fuel with
                   | 0 => fun _ => stuck
                   | S fuel' => Graph.visit ts fuel'
                   end) (children ts file);; setCurrent None None)
            (fun _ => Sound)).
  eapply runs_bind; [apply Hchildren|]. intros _u.
  apply runs_modify. intros s ((A & B & C) & _). split; [exact A|].
  split; [exact B|]. simpl. intros d0 [=].
Qed.

Lemma Graph_index_runs fuel sourceFiles :
  (∀ f, f ∈ sourceFiles →
        kind ts f = SourceFile ∧ (height f + bound ≤ fuel)%nat) →
  runs errors Sound (Graph.index_sourceFiles ts fuel sourceFiles)
    (fun _ => Sound).
Proof.
  intros Hle. unfold Graph.index_sourceFiles. apply runs_forM.
  intros f Hf. destruct (_ || _); [apply runs_ret; auto|].
  destruct (Hle f Hf). apply Graph_visit_file; assumption.
Qed.
End Bounded.
End Ranked.
End Inside.

Lemma sample_filesAtTop baseMembers :
  FilesAtTop (Samples.sampleOracleWith baseMembers).
Proof.
  intros n c H. simpl in H.
  destruct n as [|[|[|[|[|[|n]]]]]]; simpl in H;
    repeat (apply elem_of_cons in H as [->|H]; [simpl; discriminate|]);
    apply elem_of_nil in H; contradiction.
Qed.

(** X13. The graph indexer comes back, without an error, on a layered
    program: where a bounded measure decreases along the nested calls of
    [makeSymbolData], the source files are the roots of finite trees with
    no source file below them, and every reference held points into the
    stores, the run over the source files returns a value and leaves a
    state of the same kind. Neither of the context errors ([Illegal symbol
    context], [Illegal statement context]) is met, and no reference
    dangles. *)
Theorem graph_indexing_succeeds (ts : Oracle)
    (rank : Symbol → nat) (bound : nat) (height : Node → nat) (fuel : nat)
    (sourceFiles : list Node) (s : Indexer) :
  Acyclic ts rank →
  (∀ symbol, (rank symbol ≤ bound)%nat) →
  Shallow ts height →
  FilesAtTop ts →
  (∀ f, f ∈ sourceFiles →
        kind ts f = SourceFile ∧ (height f + bound ≤ fuel)%nat) →
  Sound s →
  ∃ s', Graph.index_sourceFiles ts fuel sourceFiles s = Ok (tt, s')
        ∧ Sound s'.
Proof.
  intros Hr Hb Hh Hf Hle Hs.
  pose proof (Graph_index_runs ts (fun _ => False) rank Hr bound Hb height Hh
                Hf fuel sourceFiles Hle s Hs) as H.
  destruct (Graph.index_sourceFiles ts fuel sourceFiles s)
    as [[[] s']|e|]; [eauto|destruct H|destruct H].
Qed.

Lemma graph_indexing_succeeds_witness :
  ∃ s', Graph.index_sourceFiles Samples.layeredOracle 3 [0; 21] initial
        = Ok (tt, s')
        ∧ Sound s'.
Proof.
  apply (graph_indexing_succeeds Samples.layeredOracle Samples.layeredRank 1
           ExtraSamples.sampleHeight 3 [0; 21] initial).
  - apply layered_sample_acyclic.
  - intros symbol. unfold Samples.layeredRank.
    do 16 (destruct symbol as [|symbol]; [lia|]). lia.
  - apply sample_shallow.
  - apply sample_filesAtTop.
  - intros f Hf. repeat (apply elem_of_cons in Hf as [->|Hf];
                         [split; [reflexivity|simpl; lia]|]).
    apply elem_of_nil in Hf. contradiction.
  - apply Sound_initial.
Defined.

End GraphRuns.

(** ** What the creation of a symbol data attaches and records *)

Module GraphCreation.
Import Lsif LsifFacts GraphFacts GraphClaims GraphRuns.

Lemma forallb_pathOf p ds :
  forallb (fun x : option string * bool => bool_decide (x.1 = Some p))
    (pathOf <$> ds)
  = forallb (fun d => bool_decide (monikerPath d = Some p)) ds.
Proof.
  induction ds as [|d ds IH]; [reflexivity|].
  rewrite fmap_cons. cbn [forallb]. rewrite IH. reflexivity.
Qed.

(** The loop of [getOrCreateSymbolData] computes the agreed path. *)
Lemma settle_agreedPath ds : ∀ flag,
  settle (fold_left monikerStep ds (Undefined, flag))
  = agreedPath flag (pathOf <$> ds).
Proof.
  induction ds as [|d ds IH]; intros flag; [reflexivity|].
  rewrite fmap_cons. cbn [fold_left].
  change (monikerStep (Undefined, flag) d)
    with (match monikerPath d with Some p => Path p | None => Undefined end,
          externalLibrary d).
  unfold pathOf at 1. cbn [agreedPath].
  destruct (monikerPath d) as [p|]; [|apply IH].
  rewrite fold_monikerStep_path, forallb_pathOf.
  destruct (forallb _ ds); reflexivity.
Qed.

Lemma agreedPath_first pre : ∀ flag p e post,
  Forall (fun x : option string * bool => x.1 = None) pre →
  agreedPath flag (pre ++ (Some p, e) :: post)
  = if forallb (fun x => bool_decide (x.1 = Some p)) post
    then (Some p, e) else (None, false).
Proof.
  induction pre as [|[q e'] pre IH]; intros flag p e post Hpre; simpl;
    [reflexivity|].
  inversion Hpre as [|? ? Hq Hrest]; subst. simpl in Hq. subst q.
  apply IH, Hrest.
Qed.

Lemma agreedPath_conflict paths : ∀ flag p q,
  Some p ∈ paths.*1 → Some q ∈ paths.*1 → p ≠ q →
  agreedPath flag paths = (None, false).
Proof.
  induction paths as [|[[r|] e] paths IH]; intros flag p q Hp Hq Hne;
    rewrite ?fmap_cons in Hp, Hq; cbn [agreedPath fst] in *.
  - inversion Hp.
  - destruct (forallb _ paths) eqn:Hall; [|reflexivity]. exfalso.
    rewrite forallb_forall in Hall.
    assert (Hsame : ∀ x, Some x ∈ Some r :: paths.*1 → x = r).
    { intros x Hx. apply elem_of_cons in Hx as [[= ->]|Hx]; [reflexivity|].
      apply list_elem_of_fmap in Hx as ([y e'] & Hy & Hin). simpl in Hy.
      apply list_elem_of_In, Hall, bool_decide_eq_true in Hin. simpl in Hin.
      congruence. }
    apply Hne. rewrite (Hsame p Hp), (Hsame q Hq). reflexivity.
  - apply elem_of_cons in Hp as [[=]|Hp].
    apply elem_of_cons in Hq as [[=]|Hq].
    exact (IH _ p q Hp Hq Hne).
Qed.

Section Creation.
Variable ts : Oracle.

Lemma documentPath_kept s s' f dl d :
  DocumentsKept s s' →
  documentDatas s !! fileName ts f = Some dl →
  documentStore s !! dl = Some d →
  documentPath ts s' f = pathOf d.
Proof.
  intros (Hsub & Hpre & _) Hdl Hd. unfold documentPath.
  rewrite (lookup_weaken _ _ _ _ Hdl Hsub).
  assert (Hv : (documentView <$> documentStore s') !! dl = Some (documentView d)).
  { eapply prefix_lookup_Some; [|exact Hpre].
    rewrite list_lookup_fmap, Hd. reflexivity. }
  rewrite list_lookup_fmap in Hv.
  destruct (documentStore s' !! dl) as [d'|]; [|discriminate].
  injection Hv as _ He Hp. unfold pathOf. rewrite He, Hp. reflexivity.
Qed.

(** The document data the loop reads are those the state holds for the
    files, then and later. *)
Lemma documentsOf_paths files : ∀ s ds s',
  documentsOf ts files s = Ok (ds, s') →
  DocumentsKept s s'
  ∧ ∀ s'', DocumentsKept s' s'' →
           pathOf <$> ds = documentPath ts s'' <$> files.
Proof.
  pose proof DocumentsKept_preorder as HP.
  unfold documentsOf.
  induction files as [|f files IH]; simpl; intros s ds s' H.
  - injection H as <- <-. split; [reflexivity|]. intros; reflexivity.
  - inv_binds H. injection H as <- <-.
    rename H1 into Hrest, a into d, s0 into s2. inv_bind H0.
    rename H0 into Hread, H into Hdoc, a into dl.
    destruct (IH _ _ _ Hrest) as [Hkept Hpaths].
    assert (Hstep : DocumentsKept s s0)
      by (eapply DocumentsKept_document, Hdoc).
    assert (Hhas : documentDatas s0 !! fileName ts f = Some dl).
    { pose proof (getOrCreateDocumentData_run ts f s) as Hrun.
      destruct (documentDatas s !! fileName ts f) as [l0|] eqn:E.
      - rewrite Hrun in Hdoc. injection Hdoc as <- <-. exact E.
      - destruct Hrun as (d0 & Hrun & _). rewrite Hrun in Hdoc.
        injection Hdoc as <- <-. simpl. apply lookup_insert_eq. }
    unfold readDocument in Hread.
    destruct (documentStore s0 !! dl) as [d'|] eqn:Hd; [|discriminate].
    injection Hread as -> <-.
    split; [etransitivity; eassumption|].
    intros s'' Hlater. rewrite !fmap_cons. f_equal; [|apply Hpaths, Hlater].
    symmetry. eapply documentPath_kept; [|exact Hhas|exact Hd].
    etransitivity; eassumption.
Qed.

Lemma resolveMonikerPath_agreed files s mp ext s' :
  resolveMonikerPath ts files s = Ok ((mp, ext), s') →
  DocumentsKept s s'
  ∧ ∀ s'', DocumentsKept s' s'' →
           (mp, ext) = agreedPath false (documentPath ts s'' <$> files).
Proof.
  intros H. unfold resolveMonikerPath in H. inv_bind H.
  injection H as Hsettle <-.
  rewrite monikerLoop_documentsOf in H0.
  destruct (documentsOf ts files s) as [[ds s1]| |] eqn:Hds; [|discriminate..].
  injection H0 as <- <-.
  destruct (documentsOf_paths _ _ _ _ Hds) as [Hkept Hpaths].
  split; [exact Hkept|]. intros s'' Hlater.
  rewrite <- (Hpaths s'' Hlater), <- settle_agreedPath. symmetry. exact Hsettle.
Qed.

(** The moniker step attaches what [monikerFor] made, to the symbol data
    it is given, and leaves the documents alone. *)
Lemma moniker_attached (mo : option Moniker) l s u s' :
  match mo with
  | Some moniker => SymbolData_addMoniker l moniker
  | None => ret tt
  end s = Ok (u, s') →
  monikers <$> symbolStore s'
  = alter (fun x => x ++ option_list mo) l (monikers <$> symbolStore s)
  ∧ sameSites s s'
  ∧ DocumentsKept s s'.
Proof.
  pose proof DocumentsKept_preorder as HP.
  destruct mo as [m|]; intros H.
  - split; [|split].
    + revert H. cbv [SymbolData_addMoniker bind emit modify setSymbolStore].
      intros [= _ <-]. simpl.
      apply list_fmap_alter, Forall_forall. intros x _. reflexivity.
    + eapply SymbolData_addMoniker_sites, H.
    + revert H. cbv [SymbolData_addMoniker bind emit modify setSymbolStore].
      intros [= _ <-]. apply DocumentsKept_same.
      unfold sameDocuments, documentsEmitted. simpl.
      rewrite omap_app. simpl. rewrite app_nil_r. repeat split.
  - injection H as _ <-. split; [|split; reflexivity].
    symmetry. apply list_alter_id. intros x. apply app_nil_r.
Qed.

End Creation.

Section Created.
Variable ts : Oracle.

Lemma V2_emitDefinitions_records symbol r l declarations : ∀ s u s',
  forM (fun declaration =>
          match V2.getText ts symbol declaration r with
          | None => ret tt
          | Some (text, node) =>
              V2.emitDefinition ts declaration l text node r
          end) declarations s = Ok (u, s') →
  sitesOf s'
  = alter (record (sitesRecorded ts symbol r declarations)) l (sitesOf s).
Proof.
  induction declarations as [|d ds IH]; intros s u s' H; simpl in H.
  - injection H as _ <-. symmetry. apply list_alter_id, record_nil.
  - inv_bind H. apply IH in H. rewrite H. unfold sitesRecorded. simpl.
    destruct (V2.getText ts symbol d r) as [[text node]|].
    + change (V2.emitDefinition ts d l text node r)
        with (Graph.emitDefinition ts d l text node) in H0.
      apply Graph_emitDefinition_records in H0. rewrite H0.
      rewrite list_alter_alter_eq. apply list_alter_ext; [|reflexivity].
      intros x _. apply record_record.
    + injection H0 as _ <-. reflexivity.
Qed.

Lemma V2_emitDefinitions_fill symbol r l declarations :
  steps (Fills l)
    (forM (fun declaration =>
             match V2.getText ts symbol declaration r with
             | None => ret tt
             | Some (text, node) =>
                 V2.emitDefinition ts declaration l text node r
             end) declarations)
  ∧ steps DocumentsKept
      (forM (fun declaration =>
               match V2.getText ts symbol declaration r with
               | None => ret tt
               | Some (text, node) =>
                   V2.emitDefinition ts declaration l text node r
               end) declarations).
Proof.
  destruct (Fills_docframed l) as [HFP _].
  pose proof DocumentsKept_preorder as HP.
  split; apply steps_forM; try assumption; intros d; cbv beta;
    destruct (V2.getText ts symbol d r) as [[t n]|];
    try (apply steps_ret; assumption).
  - apply Fills_V2_emitDefinition.
  - apply (documents_V2_emitDefinition ts DocumentsKept HP);
      [apply DocumentsKept_same|apply DocumentsKept_document].
Qed.

(** The symbol data at [l] once it is allocated, begun, given its moniker
    and its definitions. *)
Lemma creation_filled doc v l s0 s1 s3 s4 s5 mo infos :
  allocSymbol (newSymbolData doc v) s0 = Ok (l, s1) →
  sameSites s1 s3 → Fills l s1 s3 →
  monikers <$> symbolStore s4
  = alter (fun x => x ++ option_list mo) l (monikers <$> symbolStore s3) →
  sameSites s3 s4 →
  sitesOf s5 = alter (record infos) l (sitesOf s4) →
  Fills l s4 s5 →
  ∃ sd, symbolStore s5 !! l = Some sd
        ∧ variant sd = v
        ∧ definitionInfo sd = infos
        ∧ length (definitions sd) = length infos
        ∧ monikers sd = option_list mo.
Proof.
  intros Halloc Hs13 (_ & _ & Hm13) Hm34 Hs34 Hs45 (_ & _ & Hm45).
  cbv [allocSymbol bind gets setSymbolStore modify ret] in Halloc.
  injection Halloc as <- <-.
  assert (Hview : sitesOf s5 !! length (symbolStore s0)
                  = Some (record infos (v, [], 0))).
  { rewrite Hs45, list_lookup_alter_eq, Hs34, Hs13. unfold sitesOf. simpl.
    rewrite fmap_app, lookup_app_r by (rewrite length_fmap; lia).
    rewrite length_fmap, Nat.sub_diag. reflexivity. }
  assert (Hmon : (monikers <$> symbolStore s5) !! length (symbolStore s0)
                 = Some ([] ++ option_list mo)).
  { rewrite Hm45, Hm34, list_lookup_alter_eq, Hm13. simpl.
    rewrite fmap_app, lookup_app_r by (rewrite length_fmap; lia).
    rewrite length_fmap, Nat.sub_diag. reflexivity. }
  unfold sitesOf in Hview. rewrite list_lookup_fmap in Hview.
  rewrite list_lookup_fmap in Hmon.
  destruct (symbolStore s5 !! length (symbolStore s0)) as [sd|];
    [|discriminate].
  injection Hview as Hvar Hinfo Hlen. injection Hmon as Hmon.
  exists sd. split; [reflexivity|]. repeat split; assumption.
Qed.

(** What [getOrCreateSymbolData] of src/v2/indexer.ts creates. *)
Lemma V2_creation symbol node r s l s' :
  symbolDatas s !! createSymbolKey ts symbol = None →
  V2.getOrCreateSymbolData ts symbol node r s = Ok (l, s') →
  ∃ sd, symbolStore s' !! l = Some sd
        ∧ definitionInfo sd
          = sitesRecorded ts symbol r (V2.getDeclarations ts symbol node r)
        ∧ length (definitions sd) = length (definitionInfo sd)
        ∧ monikers sd
          = attachedMonikers ts symbol (V2.getSourceFiles ts symbol node r) s'.
Proof.
  intros E H. pose proof DocumentsKept_preorder as HP.
  pose proof (docframed_preorder _ sameSites_docframed) as HSP.
  unfold V2.getOrCreateSymbolData in H.
  inv_bind H. injection H0 as <- <-.
  destruct (currentDocumentData s); [|discriminate].
  inv_bind H. injection H0 as <- <-. rewrite E in H.
  inv_bind H. rename s0 into sa, H0 into Hread.
  inv_bind H. rename s0 into s1, H0 into Halloc, a0 into l0.
  inv_bind H. rename s0 into s2, H0 into Hbegin.
  inv_bind H. rename s0 into s3, H0 into Hpath. destruct a1 as [mp ext].
  inv_bind H. rename s0 into s4, H0 into Hmon.
  inv_bind H. rename s0 into s5, H0 into Hdefs.
  inv_bind H. injection H as <- <-.
  cbv [setSymbolDatas modify] in H0. injection H0 as _ <-.
  destruct (Fills_docframed l0) as [HFP _].
  destruct (Fills_symbolData l0) as (Hb & _).
  destruct (resolveMonikerPath_agreed ts _ _ _ _ _ Hpath) as [_ Hagreed].
  set (mo := monikerFor ts symbol
               (getExportPath ts symbol
                  (getLocationKind ts (V2.getSourceFiles ts symbol node r)))
               mp ext) in *.
  destruct (moniker_attached mo _ _ _ _ Hmon) as (Hm34 & Hs34 & Hd34).
  destruct (V2_emitDefinitions_fill symbol r l0
              (V2.getDeclarations ts symbol node r)) as [Hf45 Hd45].
  destruct (creation_filled _ _ l0 sa s1 s3 s4 s5 mo
              (sitesRecorded ts symbol r (V2.getDeclarations ts symbol node r))
              Halloc) as (sd & Hsd & _ & Hinfo & Hlen & Hmonikers).
  - transitivity s2; [eapply SymbolData_begin_sites, Hbegin|].
    eapply resolveMonikerPath_steps; [apply sameSites_docframed|exact Hpath].
  - transitivity s2; [eapply Hb, Hbegin|].
    eapply resolveMonikerPath_steps; [apply Fills_docframed|exact Hpath].
  - exact Hm34.
  - exact Hs34.
  - eapply V2_emitDefinitions_records, Hdefs.
  - eapply Hf45, Hdefs.
  - exists sd. split; [exact Hsd|]. split; [exact Hinfo|].
    split; [rewrite Hinfo; exact Hlen|].
    rewrite Hmonikers. unfold attachedMonikers.
    rewrite <- (Hagreed _); [reflexivity|].
    transitivity s4; [exact Hd34|].
    transitivity s5; [eapply Hd45, Hdefs|].
    apply DocumentsKept_same. repeat split.
Qed.

Lemma Graph_getSourceFiles_used v symbol node s files s' :
  Graph.SymbolData_getSourceFiles ts v symbol node s = Ok (files, s') →
  files = sourceFilesUsed ts v symbol node ∧ s' = s.
Proof.
  unfold Graph.SymbolData_getSourceFiles, sourceFilesUsed.
  destruct (Graph.usesOnlyUseSite v); [destruct node|];
    intros [= <- <-]; split; reflexivity.
Qed.

(** What [getOrCreateSymbolData] of src/indexer.ts creates, from the symbol
    data [makeSymbolData] made. *)
Lemma Graph_body_creation recur symbol node s l s' :
  symbolDatas s !! createSymbolKey ts symbol = None →
  Graph.getOrCreateSymbolData_body ts recur symbol node s = Ok (l, s') →
  ∃ s1 sd1 sd,
    Graph.makeSymbolData ts recur symbol node s = Ok (l, s1)
    ∧ symbolStore s1 !! l = Some sd1
    ∧ symbolStore s' !! l = Some sd
    ∧ variant sd = variant sd1
    ∧ definitionInfo sd
      = recordedSites ts (variant sd) symbol
          (declarationsUsed ts (variant sd) symbol node)
    ∧ length (definitions sd) = length (definitionInfo sd)
    ∧ monikers sd
      = attachedMonikers ts symbol
          (sourceFilesUsed ts (variant sd) symbol node) s'.
Proof.
  intros E H. pose proof DocumentsKept_preorder as HP.
  pose proof (docframed_preorder _ sameSites_docframed) as HSP.
  unfold Graph.getOrCreateSymbolData_body in H.
  inv_bind H. injection H0 as <- <-.
  destruct (currentDocumentData s); [|discriminate].
  inv_bind H. injection H0 as <- <-. rewrite E in H.
  inv_bind H. rename s0 into s1, H0 into Hmake, a into l0.
  inv_bind H. rename s0 into s2, H0 into Hbegin.
  inv_bind H. rename s0 into s2', H0 into Hread, a0 into sd2.
  inv_bind H. rename s0 into s2'', H0 into Hfiles, a0 into files.
  inv_bind H. rename s0 into s3, H0 into Hpath. destruct a0 as [mp ext].
  inv_bind H. rename s0 into s4, H0 into Hmon.
  inv_bind H. rename s0 into s4', H0 into Hdecls, a1 into ds.
  inv_bind H. rename s0 into s5, H0 into Hdefs.
  inv_bind H. injection H as <- <-.
  cbv [setSymbolDatas modify] in H0. injection H0 as _ <-.
  destruct (makeSymbolData_split ts (fun _ _ => True) recur symbol node s l0 s1)
    as (s0 & doc & v & _ & Halloc);
    [split; intros ?; auto|intros ? ? ? ? ? ? ?; exact I|exact Hmake|].
  pose proof (allocSymbol_lookup _ _ _ _ Halloc) as Hsd1.
  destruct (Fills_docframed l0) as [HFP _].
  destruct (Fills_symbolData l0) as (Hb & _).
  assert (Hs12 : sameSites s1 s2) by (eapply SymbolData_begin_sites, Hbegin).
  assert (variant sd2 = v ∧ s2' = s2) as [Hv ->].
  { unfold readSymbol in Hread.
    assert (Hview : sitesOf s2 !! l0 = Some (v, [], 0)).
    { rewrite Hs12. unfold sitesOf. rewrite list_lookup_fmap, Hsd1.
      reflexivity. }
    unfold sitesOf in Hview. rewrite list_lookup_fmap in Hview.
    destruct (symbolStore s2 !! l0) as [x|]; [|discriminate].
    injection Hread as <- <-. injection Hview as -> _ _.
    split; reflexivity. }
  rewrite Hv in *. clear Hv Hread sd2.
  apply Graph_getSourceFiles_used in Hfiles as [-> ->].
  apply Graph_getDeclarations_used in Hdecls as [-> ->].
  destruct (resolveMonikerPath_agreed ts _ _ _ _ _ Hpath) as [_ Hagreed].
  set (mo := monikerFor ts symbol
               (getExportPath ts symbol
                  (getLocationKind ts (sourceFilesUsed ts v symbol node)))
               mp ext) in *.
  destruct (moniker_attached mo _ _ _ _ Hmon) as (Hm34 & Hs34 & Hd34).
  destruct (creation_filled _ _ l0 s0 s1 s3 s4 s5 mo
              (recordedSites ts v symbol (declarationsUsed ts v symbol node))
              Halloc) as (sd & Hsd & Hvar & Hinfo & Hlen & Hmonikers).
  - transitivity s2; [exact Hs12|].
    eapply resolveMonikerPath_steps; [apply sameSites_docframed|exact Hpath].
  - transitivity s2; [eapply Hb, Hbegin|].
    eapply resolveMonikerPath_steps; [apply Fills_docframed|exact Hpath].
  - exact Hm34.
  - exact Hs34.
  - eapply Graph_emitDefinitions_records, Hdefs.
  - eapply Fills_Graph_emitDefinitions, Hdefs.
  - exists s1, (newSymbolData doc v), sd.
    split; [exact Hmake|]. split; [exact Hsd1|]. split; [exact Hsd|].
    split; [exact Hvar|]. rewrite Hvar.
    split; [exact Hinfo|]. split; [rewrite Hinfo; exact Hlen|].
    rewrite Hmonikers. unfold attachedMonikers.
    rewrite <- (Hagreed _); [reflexivity|].
    transitivity s4; [exact Hd34|].
    transitivity s5.
    { eapply (documents_Graph_emitDefinitions ts DocumentsKept HP);
        [apply DocumentsKept_same|apply DocumentsKept_document|exact Hdefs]. }
    apply DocumentsKept_same. repeat split.
Qed.

Lemma Graph_creation fuel symbol node s l s' :
  symbolDatas s !! createSymbolKey ts symbol = None →
  Graph.getOrCreateSymbolData ts fuel symbol node s = Ok (l, s') →
  ∃ sd,
    symbolStore s' !! l = Some sd
    ∧ (Graph.usesOnlyUseSite (variant sd) = true
       ↔ isTransient ts symbol = true
         ∧ ((isComposite ts symbol node = true
             ∧ is_Some (getCompositeSymbols ts symbol node))
            ∨ Z.land (getFlags ts symbol) (Z.lnot SymbolFlags_Transient)
              = 0%Z))
    ∧ definitionInfo sd
      = recordedSites ts (variant sd) symbol
          (declarationsUsed ts (variant sd) symbol node)
    ∧ length (definitions sd) = length (definitionInfo sd)
    ∧ monikers sd
      = attachedMonikers ts symbol
          (sourceFilesUsed ts (variant sd) symbol node) s'.
Proof.
  intros E H.
  assert (Hbody : ∃ recur,
    Graph.getOrCreateSymbolData_body ts recur symbol node s = Ok (l, s'))
    by (destruct fuel; simpl in H; eauto).
  destruct Hbody as [recur Hbody].
  destruct (Graph_body_creation recur symbol node s l s' E Hbody)
    as (s1 & sd1 & sd & Hmake & Hsd1 & Hsd & Hvar & Hinfo & Hlen & Hmon).
  exists sd. split; [exact Hsd|]. split; [|auto].
  pose proof (makeSymbolData_variant ts recur symbol node s l s1 sd1
                Hmake Hsd1) as Hv.
  rewrite Hvar.
  destruct (variant sd1); simpl; split; try discriminate; try tauto.
  - intros [Ht [Hc|Hf]]; destruct Hv as [Hv|[Hv1 Hv2]]; congruence || tauto.
  - intros [Ht [Hc|Hf]]; destruct Hv as [Hv|[Hv1 Hv2]]; congruence || tauto.
  - intros [Ht [Hc|Hf]]; destruct Hv as [Hv|[Hv1 Hv2]]; congruence || tauto.
Qed.

End Created.

(** C5. What the creation of a symbol data uses as declarations and as
    source files, by variant. In src/v2/indexer.ts, for a symbol resolved as
    [transient] or [unionOrIntersection] the definition sites recorded are
    those of the use-site node alone, with one definition emitted for each,
    and the moniker is computed from the source file of the use-site node
    alone; for [standard], [alias] and [method] both come from the
    declaration list of the oracle. In src/indexer.ts the symbol data
    [makeSymbolData] returns is one of the two use-site classes exactly when
    the symbol is transient and either a composite at the node or without
    any flag besides the transient one; the sites and the moniker then come
    from the use-site node, and from the declaration list of the oracle
    otherwise. *)
Theorem use_site_variants_emit_from_the_use_site (ts : Oracle) :
  (∀ symbol node r s l s',
     symbolDatas s !! createSymbolKey ts symbol = None →
     V2.getOrCreateSymbolData ts symbol node r s = Ok (l, s') →
     ∃ sd, symbolStore s' !! l = Some sd
       ∧ length (definitions sd) = length (definitionInfo sd)
       ∧ match r with
         | V2.transient | V2.unionOrIntersection =>
             V2.getDeclarations ts symbol node r = [node]
             ∧ V2.getSourceFiles ts symbol node r = [getSourceFile ts node]
             ∧ definitionInfo sd = sitesRecorded ts symbol r [node]
             ∧ monikers sd
               = attachedMonikers ts symbol [getSourceFile ts node] s'
         | V2.standard | V2.alias | V2.method =>
             V2.getDeclarations ts symbol node r
             = default [] (symbolDeclarations ts symbol)
             ∧ V2.getSourceFiles ts symbol node r
               = getUniqueSourceFiles ts (symbolDeclarations ts symbol)
             ∧ definitionInfo sd
               = sitesRecorded ts symbol r
                   (default [] (symbolDeclarations ts symbol))
             ∧ monikers sd
               = attachedMonikers ts symbol
                   (getUniqueSourceFiles ts (symbolDeclarations ts symbol)) s'
         end)
  ∧ (∀ fuel symbol node s l s',
       symbolDatas s !! createSymbolKey ts symbol = None →
       Graph.getOrCreateSymbolData ts fuel symbol (Some node) s = Ok (l, s') →
       ∃ sd, symbolStore s' !! l = Some sd
         ∧ (Graph.usesOnlyUseSite (variant sd) = true
            ↔ isTransient ts symbol = true
              ∧ ((isComposite ts symbol (Some node) = true
                  ∧ is_Some (getCompositeSymbols ts symbol (Some node)))
                 ∨ Z.land (getFlags ts symbol) (Z.lnot SymbolFlags_Transient)
                   = 0%Z))
         ∧ length (definitions sd) = length (definitionInfo sd)
         ∧ if Graph.usesOnlyUseSite (variant sd)
           then definitionInfo sd = recordedSites ts (variant sd) symbol [node]
                ∧ monikers sd
                  = attachedMonikers ts symbol [getSourceFile ts node] s'
           else definitionInfo sd
                = recordedSites ts (variant sd) symbol
                    (default [] (symbolDeclarations ts symbol))
                ∧ monikers sd
                  = attachedMonikers ts symbol
                      (getUniqueSourceFiles ts (symbolDeclarations ts symbol))
                      s').
Proof.
  split.
  - intros symbol node r s l s' E H.
    destruct (V2_creation ts symbol node r s l s' E H)
      as (sd & Hsd & Hinfo & Hlen & Hmon).
    exists sd. split; [exact Hsd|]. split; [exact Hlen|].
    destruct r; repeat split; assumption.
  - intros fuel symbol node s l s' E H.
    destruct (Graph_creation ts fuel symbol (Some node) s l s' E H)
      as (sd & Hsd & Hclass & Hinfo & Hlen & Hmon).
    exists sd. split; [exact Hsd|]. split; [exact Hclass|].
    split; [exact Hlen|].
    unfold declarationsUsed in Hinfo. unfold sourceFilesUsed in Hmon.
    destruct (Graph.usesOnlyUseSite (variant sd)); split; assumption.
Qed.

Lemma use_site_variants_emit_from_the_use_site_witness :
  let ts := Samples.sampleOracle in
  (∃ l s' sd,
     V2.getOrCreateSymbolData ts 14 3 V2.transient Samples.insideFile
     = Ok (l, s')
     ∧ symbolStore s' !! l = Some sd
     ∧ definitionInfo sd = sitesRecorded ts 14 V2.transient [3]
     ∧ monikers sd = attachedMonikers ts 14 [0] s')
  ∧ (∃ l s' sd,
       Graph.getOrCreateSymbolData ts 0 14 (Some 3) Samples.insideFile
       = Ok (l, s')
       ∧ symbolStore s' !! l = Some sd
       ∧ variant sd = Transient
       ∧ definitionInfo sd = recordedSites ts Transient 14 [3]
       ∧ monikers sd = attachedMonikers ts 14 [0] s')
  ∧ (∃ l s' sd,
       V2.getOrCreateSymbolData ts 10 3 V2.standard Samples.insideFile
       = Ok (l, s')
       ∧ symbolStore s' !! l = Some sd
       ∧ definitionInfo sd = sitesRecorded ts 10 V2.standard [1]
       ∧ length (definitionInfo sd) = 1).
Proof.
  intros ts.
  destruct (use_site_variants_emit_from_the_use_site ts) as [HV2 HG].
  split; [|split].
  - destruct (V2.getOrCreateSymbolData ts 14 3 V2.transient Samples.insideFile)
      as [[l s']| |] eqn:E; [|vm_compute in E; discriminate..].
    destruct (HV2 14 3 V2.transient Samples.insideFile l s'
                ltac:(vm_compute; reflexivity) E)
      as (sd & Hsd & _ & _ & _ & Hinfo & Hmon).
    exists l, s', sd. repeat split; assumption.
  - destruct (Graph.getOrCreateSymbolData ts 0 14 (Some 3) Samples.insideFile)
      as [[l s']| |] eqn:E; [|vm_compute in E; discriminate..].
    destruct (HG 0 14 3 Samples.insideFile l s'
                ltac:(vm_compute; reflexivity) E) as (sd & Hsd & _ & _ & Huse).
    assert (Hv : variant sd = Transient).
    { vm_compute in E. injection E as <- <-. vm_compute in Hsd.
      injection Hsd as <-. reflexivity. }
    rewrite Hv in Huse. destruct Huse as [Hinfo Hmon].
    exists l, s', sd. repeat split; assumption.
  - destruct (V2.getOrCreateSymbolData ts 10 3 V2.standard Samples.insideFile)
      as [[l s']| |] eqn:E; [|vm_compute in E; discriminate..].
    destruct (HV2 10 3 V2.standard Samples.insideFile l s'
                ltac:(vm_compute; reflexivity) E)
      as (sd & Hsd & _ & _ & _ & Hinfo & _).
    exists l, s', sd. split; [reflexivity|]. split; [exact Hsd|].
    split; [exact Hinfo|]. rewrite Hinfo. reflexivity.
Defined.

(** C3, amended. The moniker of a symbol is made from the path its source
    files agree on. When [getOrCreateSymbolData] creates a symbol data, in
    either graph indexer, the monikers of that symbol data are what
    [monikerFor] makes from the export path and from the agreed path of the
    documents of the source files, read in the order of enumeration: files
    without a path are passed over; the first file with a path supplies the
    candidate and its library flag; if any later file has a different
    value, another path or no path, the symbol gets no path and the flag is
    reset to false. So a symbol two of whose files have different paths
    gets no moniker path, and so does a symbol none of whose files has
    one. *)
Theorem later_differing_path_voids_the_moniker_path (ts : Oracle) :
  (∀ symbol node r s l s',
     symbolDatas s !! createSymbolKey ts symbol = None →
     V2.getOrCreateSymbolData ts symbol node r s = Ok (l, s') →
     ∃ sd, symbolStore s' !! l = Some sd
       ∧ monikers sd
         = attachedMonikers ts symbol (V2.getSourceFiles ts symbol node r) s')
  ∧ (∀ fuel symbol node s l s',
       symbolDatas s !! createSymbolKey ts symbol = None →
       Graph.getOrCreateSymbolData ts fuel symbol node s = Ok (l, s') →
       ∃ sd, symbolStore s' !! l = Some sd
         ∧ monikers sd
           = attachedMonikers ts symbol
               (sourceFilesUsed ts (variant sd) symbol node) s')
  ∧ (∀ flag pre p e post,
       Forall (fun x : option string * bool => x.1 = None) pre →
       agreedPath flag (pre ++ (Some p, e) :: post)
       = if forallb (fun x => bool_decide (x.1 = Some p)) post
         then (Some p, e) else (None, false))
  ∧ (∀ flag paths p q,
       Some p ∈ paths.*1 → Some q ∈ paths.*1 → p ≠ q →
       agreedPath flag paths = (None, false))
  ∧ (∀ flag paths,
       Forall (fun x : option string * bool => x.1 = None) paths →
       (agreedPath flag paths).1 = None).
Proof.
  split; [|split; [|split; [|split]]].
  - intros symbol node r s l s' E H.
    destruct (V2_creation ts symbol node r s l s' E H)
      as (sd & Hsd & _ & _ & Hmon).
    exists sd. split; assumption.
  - intros fuel symbol node s l s' E H.
    destruct (Graph_creation ts fuel symbol node s l s' E H)
      as (sd & Hsd & _ & _ & _ & Hmon).
    exists sd. split; assumption.
  - intros flag pre p e post Hpre. apply agreedPath_first, Hpre.
  - intros flag paths p q Hp Hq Hne.
    exact (agreedPath_conflict paths flag p q Hp Hq Hne).
  - intros flag paths. revert flag.
    induction paths as [|[q e] paths IH]; intros flag Hall; [reflexivity|].
    inversion Hall as [|? ? Hq Hrest]; subst. simpl in Hq. subst q.
    simpl. apply IH, Hrest.
Qed.

Lemma later_differing_path_voids_the_moniker_path_witness :
  let ts := ExtraSamples.exportingOracle (fun _ => false) in
  ∃ l s' sd,
    V2.getOrCreateSymbolData ts 11 22 V2.standard
      (ExtraSamples.insideFileOf ts) = Ok (l, s')
    ∧ V2.getSourceFiles ts 11 22 V2.standard = [0; 21]
    ∧ documentPath ts s' <$> [0; 21]
      = [(Some "/p/src/a.ts", false); (Some "/p/src/b.ts", false)]
    ∧ symbolStore s' !! l = Some sd
    ∧ monikers sd = [{| mkind := MExport; identifier := ":foo" |}].
Proof.
  intros ts.
  destruct (later_differing_path_voids_the_moniker_path ts) as [HV2 _].
  destruct (V2.getOrCreateSymbolData ts 11 22 V2.standard
              (ExtraSamples.insideFileOf ts))
    as [[l s']| |] eqn:E; [|vm_compute in E; discriminate..].
  destruct (HV2 11 22 V2.standard (ExtraSamples.insideFileOf ts) l s'
              ltac:(vm_compute; reflexivity) E) as (sd & Hsd & Hmon).
  exists l, s', sd. split; [reflexivity|]. split; [reflexivity|].
  assert (Hpaths : documentPath ts s' <$> [0; 21]
                   = [(Some "/p/src/a.ts", false); (Some "/p/src/b.ts", false)])
    by (vm_compute in E; injection E as <- <-; vm_compute; reflexivity).
  split; [exact Hpaths|]. split; [exact Hsd|].
  rewrite Hmon. unfold attachedMonikers.
  change (V2.getSourceFiles ts 11 22 V2.standard) with [0; 21].
  rewrite Hpaths. vm_compute. reflexivity.
Defined.

(** C3 as stated fails: of the two source files of symbol 11 the first has
    no moniker path and the second has one, so that the two values differ;
    the symbol is given the path of the second file, in both indexers. *)
Lemma pathless_file_before_the_candidate_keeps_it :
  let ts := ExtraSamples.exportingOracle (fun n => bool_decide (n = 0)) in
  (∃ l s' sd,
     V2.getOrCreateSymbolData ts 11 22 V2.standard
       (ExtraSamples.insideFileOf ts) = Ok (l, s')
     ∧ V2.getSourceFiles ts 11 22 V2.standard = [0; 21]
     ∧ documentPath ts s' <$> [0; 21]
       = [(None, false); (Some "/p/src/b.ts", false)]
     ∧ symbolStore s' !! l = Some sd
     ∧ monikers sd
       = [{| mkind := MExport; identifier := "/p/src/b.ts:foo" |}])
  ∧ (∃ l s' sd,
       Graph.getOrCreateSymbolData ts 0 11 (Some 22)
         (ExtraSamples.insideFileOf ts) = Ok (l, s')
       ∧ documentPath ts s' <$> [0; 21]
         = [(None, false); (Some "/p/src/b.ts", false)]
       ∧ symbolStore s' !! l = Some sd
       ∧ monikers sd
         = [{| mkind := MExport; identifier := "/p/src/b.ts:foo" |}])
  ∧ ∃ s', resolveMonikerPath ts [0; 21] (ExtraSamples.insideFileOf ts)
          = Ok ((Some "/p/src/b.ts", false), s').
Proof.
  intros ts. split; [|split].
  - destruct (V2.getOrCreateSymbolData ts 11 22 V2.standard
                (ExtraSamples.insideFileOf ts))
      as [[l s']| |] eqn:E; [|vm_compute in E; discriminate..].
    vm_compute in E. injection E as <- <-.
    eexists _, _, _. split; [reflexivity|]. split; [reflexivity|].
    split; [vm_compute; reflexivity|]. split; vm_compute; reflexivity.
  - destruct (Graph.getOrCreateSymbolData ts 0 11 (Some 22)
                (ExtraSamples.insideFileOf ts))
      as [[l s']| |] eqn:E; [|vm_compute in E; discriminate..].
    vm_compute in E. injection E as <- <-.
    eexists _, _, _. split; [reflexivity|].
    split; [vm_compute; reflexivity|]. split; vm_compute; reflexivity.
  - destruct (resolveMonikerPath ts [0; 21] (ExtraSamples.insideFileOf ts))
      as [[[mp ext] s']| |] eqn:E; [|vm_compute in E; discriminate..].
    exists s'. vm_compute in E. injection E as <- <- _. reflexivity.
Qed.

End GraphCreation.

(** ** What the resolutions of the visitor keep *)

Module TypedRuns.
Import Typed TypedFacts TypedClaims.

Lemma Resolves_preorder rank r : PreOrder (Resolves rank r).
Proof.
  split.
  - intros v. split; auto.
  - intros v1 v2 v3 [A1 B1] [A2 B2]. split; eauto.
Qed.

Lemma Resolves_mono rank r r' v v' :
  (r ≤ r')%nat → Resolves rank r v v' → Resolves rank r' v v'.
Proof. intros Hle [A B]. split; [exact A|]. intros n Hn. apply B. lia. Qed.

Section Memo.
Variable ts : Host.
Variable rank : Node → nat.
Hypothesis Hrank : Ranked ts rank.

Lemma cached_resolvedAs node sym v s v' n :
  cached node sym v = Ok (s, v') →
  s = sym
  ∧ resolvedAs v' n = if decide (node = n) then Some sym else resolvedAs v n.
Proof.
  intros [= <- <-]. split; [reflexivity|]. unfold resolvedAs. simpl.
  destruct (decide (node = n)) as [->|Hne].
  - rewrite lookup_insert_eq. reflexivity.
  - rewrite lookup_insert_ne by exact Hne. reflexivity.
Qed.

Lemma newLocalSymbol_resolvedAs node v s v' n :
  symbolsCache v !! node = None →
  newLocalSymbol node v = Ok (s, v') →
  resolvedAs v' n = if decide (node = n) then Some s else resolvedAs v n.
Proof.
  intros Hn H. unfold newLocalSymbol in H.
  destruct (Counter_next (localCounter v)) as [i c]. injection H as <- <-.
  unfold resolvedAs. simpl.
  destruct (decide (node = n)) as [<-|Hne].
  - rewrite Hn, lookup_insert_eq. reflexivity.
  - rewrite lookup_insert_ne by exact Hne. reflexivity.
Qed.

Lemma resolvedAs_None v n :
  resolvedAs v n = None → symbolsCache v !! n = None.
Proof. unfold resolvedAs. destruct (symbolsCache v !! n); [discriminate|auto]. Qed.

(** Entering a node the caches did not know. *)
Lemma enters_resolves node v v' s :
  resolvedAs v node = None →
  (∀ n, resolvedAs v' n = if decide (node = n) then Some s else resolvedAs v n) →
  Resolves rank (S (rank node)) v v' ∧ resolvedAs v' node = Some s.
Proof.
  intros Hn Hv'. split; [split|].
  - intros n x Hx. rewrite Hv'. destruct (decide (node = n)) as [->|];
      [rewrite Hn in Hx; discriminate|exact Hx].
  - intros n Hr Hx. rewrite Hv'. destruct (decide (node = n)) as [->|];
      [lia|exact Hx].
  - rewrite Hv'. rewrite decide_True by reflexivity. reflexivity.
Qed.

Lemma propertyCounter_same name v u v' :
  propertyCounter name v = Ok (u, v') → ∀ n, resolvedAs v' n = resolvedAs v n.
Proof.
  unfold propertyCounter, modify.
  destruct (propertyCounters v !! name); intros [= _ <-] m; reflexivity.
Qed.

Lemma propertyCounterNext_same name v k v' :
  propertyCounterNext name v = Ok (k, v') → ∀ n, resolvedAs v' n = resolvedAs v n.
Proof.
  unfold propertyCounterNext. cbv [Counter_next].
  intros [= _ <-] n. reflexivity.
Qed.

Lemma same_resolves r v v' :
  (∀ n, resolvedAs v' n = resolvedAs v n) → Resolves rank r v v'.
Proof. intros H. split; intros n; rewrite H; auto. Qed.

(** The memo table of [lsifSymbol]. *)
Lemma lsifSymbol_body_resolves recur fuel node v s v' :
  (∀ m v0 x v1, (rank m < rank node)%nat → recur m v0 = Ok (x, v1) →
                Resolves rank (S (rank m)) v0 v1) →
  lsifSymbol_body ts recur fuel node v = Ok (s, v') →
  Resolves rank (S (rank node)) v v'
  ∧ (kind ts node ≠ Block → kind ts node ≠ ImportSpecifier →
     resolvedAs v' node = Some s).
Proof.
  intros Hrec H.
  pose proof (Resolves_preorder rank (S (rank node))) as HP.
  assert (Hbelow : ∀ m v0 x v1, (rank m < rank node)%nat →
            recur m v0 = Ok (x, v1) →
            Resolves rank (rank node) v0 v1).
  { intros m v0 x v1 Hlt Hm. eapply Resolves_mono; [|eapply Hrec; eauto]. lia. }
  unfold lsifSymbol_body in H. inv_bind H. injection H0 as <- <-.
  fold (resolvedAs v node) in H.
  destruct (resolvedAs v node) as [x|] eqn:Hn.
  { injection H as <- <-. split; [reflexivity|]. intros _ _. exact Hn. }
  destruct (Hrank node) as [Hparent Hdecl].
  pose proof (Resolves_preorder rank (rank node)) as HP0.
  assert (Hfree : ∀ v0, Resolves rank (rank node) v v0 →
                        resolvedAs v0 node = None).
  { intros v0 [_ Hv0]. apply Hv0; [lia|exact Hn]. }
  assert (Hup : ∀ v0, Resolves rank (rank node) v v0 →
                      Resolves rank (S (rank node)) v v0).
  { intros v0. apply Resolves_mono. lia. }
  assert (Hcached : ∀ v0 sym,
            Resolves rank (rank node) v v0 →
            cached node sym v0 = Ok (s, v') →
            Resolves rank (S (rank node)) v v'
            ∧ (kind ts node ≠ Block → kind ts node ≠ ImportSpecifier →
               resolvedAs v' node = Some s)).
  { intros v0 sym Hv0 Hc.
    destruct (enters_resolves node v0 v' sym (Hfree v0 Hv0)) as [H1 H2].
    { intros n. eapply cached_resolvedAs in Hc as [_ Hc]. exact Hc. }
    apply (cached_resolvedAs node sym v0 s v' node) in Hc as [-> _].
    split; [etransitivity; [apply Hup, Hv0|exact H1]|intros _ _; exact H2]. }
  assert (Hlocal : ∀ v0,
            Resolves rank (rank node) v v0 →
            newLocalSymbol node v0 = Ok (s, v') →
            Resolves rank (S (rank node)) v v'
            ∧ (kind ts node ≠ Block → kind ts node ≠ ImportSpecifier →
               resolvedAs v' node = Some s)).
  { intros v0 Hv0 Hc.
    destruct (enters_resolves node v0 v' s (Hfree v0 Hv0)) as [H1 H2].
    { intros n. eapply newLocalSymbol_resolvedAs; [|exact Hc].
      apply resolvedAs_None, Hfree, Hv0. }
    split; [etransitivity; [apply Hup, Hv0|exact H1]|intros _ _; exact H2]. }
  assert (Hdesc : ∀ v0 owner,
            Resolves rank (rank node) v v0 →
            match descriptor ts fuel node with
            | Ok (Some desc) => cached node (global owner desc)
            | Ok None => newLocalSymbol node
            | Throw e => throw e
            | OutOfFuel => stuck
            end v0 = Ok (s, v') →
            Resolves rank (S (rank node)) v v'
            ∧ (kind ts node ≠ Block → kind ts node ≠ ImportSpecifier →
               resolvedAs v' node = Some s)).
  { intros v0 owner Hv0 Hc.
    destruct (descriptor ts fuel node) as [[desc|]| |];
      [eapply Hcached; eassumption|eapply Hlocal; eassumption
      |discriminate..]. }
  assert (Hdefault :
    kind ts node ≠ SourceFile →
    (let* owner := recur (parent ts node)
        in if isEmptyOrLocal owner
           then newLocalSymbol node
           else
            if isAnonymousContainerOfSymbols ts node
            then let* s := recur (parent ts node) in cached node s
            else
             if isKind (kind ts node) ImportSpecifier
             then
              if typeHasSymbol ts node
              then
               match default [] (typeDeclarations ts node) with
               | [] =>
                   match descriptor ts fuel node with
                   | Ok (Some desc) => cached node (global owner desc)
                   | Ok None => newLocalSymbol node
                   | Throw e => throw e
                   | OutOfFuel => stuck
                   end
               | declaration :: _ => recur declaration
               end
              else throw typeSymbolUndefined
             else
              match descriptor ts fuel node with
              | Ok (Some desc) => cached node (global owner desc)
              | Ok None => newLocalSymbol node
              | Throw e => throw e
              | OutOfFuel => stuck
              end) v = Ok (s, v') →
    Resolves rank (S (rank node)) v v'
    ∧ (kind ts node ≠ Block → kind ts node ≠ ImportSpecifier →
       resolvedAs v' node = Some s)).
  { intros K Hd. destruct (Hparent K) as [Hp _].
    inv_bind Hd. pose proof (Hbelow _ _ _ _ Hp H0) as Hv0.
    destruct (isEmptyOrLocal a); [eapply Hlocal; eassumption|].
    destruct (isAnonymousContainerOfSymbols ts node).
    { inv_bind Hd. eapply Hcached; [|exact Hd].
      etransitivity; [exact Hv0|eapply Hbelow; eassumption]. }
    unfold isKind in Hd. case_bool_decide as K2.
    - destruct (typeHasSymbol ts node); [|discriminate].
      destruct (typeDeclarations ts node) as [[|d ds]|] eqn:Ed; simpl in Hd;
        try (eapply Hdesc; eassumption).
      split; [|intros _ C; contradiction].
      apply Hup. etransitivity; [exact Hv0|].
      eapply Hbelow; [eapply Hdecl; reflexivity|exact Hd].
    - eapply Hdesc; eassumption. }
  destruct (kind ts node) eqn:K;
    try (apply Hdefault; [discriminate|exact H]).
  - destruct (packagesSymbol ts (fileName ts node));
      (eapply Hcached; [reflexivity|exact H]).
  - destruct Hparent as [_ Hsf]; [discriminate|].
    inv_bind H. pose proof (propertyCounter_same _ _ _ _ H0) as Hc0.
    inv_bind H. apply (Hbelow _ _ _ _ Hsf) in H1.
    inv_bind H. pose proof (propertyCounterNext_same _ _ _ _ H2) as Hc2.
    eapply Hcached; [|exact H].
    etransitivity; [apply same_resolves, Hc0|].
    etransitivity; [exact H1|]. apply same_resolves, Hc2.
  - destruct Hparent as [_ Hsf]; [discriminate|].
    inv_bind H. pose proof (propertyCounter_same _ _ _ _ H0) as Hc0.
    inv_bind H. apply (Hbelow _ _ _ _ Hsf) in H1.
    inv_bind H. pose proof (propertyCounterNext_same _ _ _ _ H2) as Hc2.
    eapply Hcached; [|exact H].
    etransitivity; [apply same_resolves, Hc0|].
    etransitivity; [exact H1|]. apply same_resolves, Hc2.
  - injection H as <- <-. split; [reflexivity|]. intros C. contradiction.
Qed.

Lemma lsifSymbol_resolves fuel : ∀ node v s v',
  lsifSymbol ts fuel node v = Ok (s, v') →
  Resolves rank (S (rank node)) v v'
  ∧ (kind ts node ≠ Block → kind ts node ≠ ImportSpecifier →
     resolvedAs v' node = Some s).
Proof.
  induction fuel as [|fuel IH]; intros node v s v' H; simpl in H;
    eapply lsifSymbol_body_resolves; try exact H.
  - intros m v0 x v1 _ [=].
  - intros m v0 x v1 _ Hm. eapply IH, Hm.
Qed.
End Memo.

Lemma Extends_preorder : PreOrder Extends.
Proof. split; [intros v n x H; exact H|intros v1 v2 v3 H1 H2 n x H; auto]. Qed.

#[local] Hint Resolve Extends_preorder : steps.

Section MemoRun.
Variable ts : Host.
Variable rank : Node → nat.
Hypothesis Hrank : Ranked ts rank.

Lemma lsifSymbol_extends fuel node : steps Extends (lsifSymbol ts fuel node).
Proof.
  intros v s v' H.
  destruct (lsifSymbol_resolves ts rank Hrank fuel node v s v' H) as [[He _] _].
  exact He.
Qed.

Lemma pushOccurrence_extends o : steps Extends (pushOccurrence o).
Proof. apply steps_modify. intros v n x H. exact H. Qed.

Lemma visit_extends fuel node : steps Extends (visit ts fuel node).
Proof.
  pose proof lsifSymbol_extends as Hl. pose proof pushOccurrence_extends as Hp.
  revert node. induction fuel as [|fuel IH]; intros node; simpl;
    unfold visitIdentifier; solve_steps.
Qed.

Lemma resolvedAs_hit fuel node v s :
  resolvedAs v node = Some s → lsifSymbol ts fuel node v = Ok (s, v).
Proof.
  intros H. apply lsifSymbol_in_cache. unfold resolvedAs in H.
  destruct (symbolsCache v !! node); [left; exact H|right; auto].
Qed.
End MemoRun.

(** X1. [lsifSymbol] is a memo table. On a program whose parent and
    declaration links are well founded, a resolution never changes what
    the two caches answered before. For a node that is neither a block nor
    an import specifier the symbol returned is entered under the node:
    every later resolution of the node, right away or after any traversal,
    with any fuel, returns the same symbol and leaves the visitor as it
    is. *)
Theorem resolution_is_memoised (ts : Host) (rank : Node → nat) (fuel : nat)
    (node : Node) (v : Visitor) (s : LsifSymbol) (v' : Visitor) :
  Ranked ts rank →
  lsifSymbol ts fuel node v = Ok (s, v') →
  (∀ n x, resolvedAs v n = Some x → resolvedAs v' n = Some x)
  ∧ (kind ts node ≠ Block → kind ts node ≠ ImportSpecifier →
     resolvedAs v' node = Some s
     ∧ (∀ fuel', lsifSymbol ts fuel' node v' = Ok (s, v'))
     ∧ (∀ fuel1 root v1,
          visit ts fuel1 root v' = Ok (tt, v1) →
          ∀ fuel2, lsifSymbol ts fuel2 node v1 = Ok (s, v1))).
Proof.
  intros Hrank H.
  destruct (lsifSymbol_resolves ts rank Hrank fuel node v s v' H) as [[He _] Hs].
  split; [exact He|]. intros K1 K2. specialize (Hs K1 K2).
  split; [exact Hs|]. split.
  - intros fuel'. apply resolvedAs_hit, Hs.
  - intros fuel1 root v1 Hv fuel2. apply resolvedAs_hit.
    eapply (visit_extends ts rank Hrank); eassumption.
Qed.

Lemma resolution_is_memoised_witness :
  let ts := TypedSamples.sampleHost in
  let v := newVisitor TypedSamples.docA ∅ in
  ∃ v' v1,
    lsifSymbol ts 10 10 v = Ok (local 2, v')
    ∧ visit ts 10 0 v' = Ok (tt, v1)
    ∧ lsifSymbol ts 0 10 v1 = Ok (local 2, v1).
Proof.
  intros ts v.
  destruct (lsifSymbol ts 10 10 v) as [[s v']| |] eqn:E;
    [|vm_compute in E; discriminate..].
  destruct (visit ts 10 0 v') as [[[] v1]| |] eqn:E1;
    [|vm_compute in E; injection E as <- <-; vm_compute in E1; discriminate..].
  destruct (resolution_is_memoised ts TypedSamples.sampleRank 10 10 v s v'
              sample_program_ranked E) as (_ & Hm).
  destruct Hm as (_ & _ & Hlater).
  - vm_compute. discriminate.
  - vm_compute. discriminate.
  - exists v', v1. assert (s = local 2) as ->.
    { vm_compute in E. injection E as <- _. reflexivity. }
    split; [reflexivity|]. split; [exact E1|]. apply (Hlater 10 0 v1 E1 0).
Defined.

Section Shared.
Variable ts : Host.
Hypothesis Hwf : WellFormed ts.

Lemma sharedOf_same v v' :
  symbolsCache v' = symbolsCache v → preservesInv sharedOf v v'.
Proof. intros H. unfold preservesInv, sharedOf. rewrite H. auto. Qed.

Lemma newLocalSymbol_shared node :
  steps (preservesInv sharedOf) (newLocalSymbol node).
Proof.
  intros v s v' H. apply sharedOf_same. unfold newLocalSymbol in H.
  cbv [Counter_next] in H. injection H as _ <-. reflexivity.
Qed.

Lemma propertyCounter_shared name :
  steps (preservesInv sharedOf) (propertyCounter name).
Proof.
  intros v s v' H. apply sharedOf_same. unfold propertyCounter, modify in H.
  destruct (propertyCounters v !! name); injection H as _ <-; reflexivity.
Qed.

Lemma propertyCounterNext_shared name :
  steps (preservesInv sharedOf) (propertyCounterNext name).
Proof.
  intros v s v' H. apply sharedOf_same. unfold propertyCounterNext in H.
  cbv [Counter_next] in H. injection H as _ <-. reflexivity.
Qed.

Lemma pushOccurrence_shared o : steps (preservesInv sharedOf) (pushOccurrence o).
Proof. intros v s v' [= _ <-]. apply sharedOf_same. reflexivity. Qed.

Lemma cached_shared node sym :
  (∀ i, sym ≠ local i) → steps (preservesInv sharedOf) (cached node sym).
Proof.
  intros Hs v s v' [= _ <-] Hv n i. simpl.
  destruct (decide (node = n)) as [->|Hne].
  - rewrite lookup_insert_eq. intros [= E]. exact (Hs i E).
  - rewrite lookup_insert_ne by exact Hne. apply Hv.
Qed.

Lemma lsifSymbol_body_shared recur fuel node :
  (∀ n, steps (preservesInv sharedOf) (recur n)) →
  (∀ v0 owner v1, recur (parent ts node) v0 = Ok (owner, v1) →
                  isEmptyOrLocal owner = false →
                  kind ts (parent ts node) ≠ ImportSpecifier →
                  recur (parent ts node) v1 = Ok (owner, v1)) →
  steps (preservesInv sharedOf) (lsifSymbol_body ts recur fuel node).
Proof.
  intros Hrec Hstable.
  destruct Hwf as [Hpkg Hcont].
  pose proof newLocalSymbol_shared as H1.
  pose proof propertyCounter_shared as H2.
  pose proof propertyCounterNext_shared as H3.
  assert (H4 : ∀ owner desc,
            steps (preservesInv sharedOf) (cached node (global owner desc))).
  { intros owner desc. apply cached_shared. discriminate. }
  assert (H5 : steps (preservesInv sharedOf) (cached node empty)).
  { apply cached_shared. discriminate. }
  assert (H6 : ∀ owner,
            steps (preservesInv sharedOf)
              (match descriptor ts fuel node with
               | Ok (Some desc) => cached node (global owner desc)
               | Ok None => newLocalSymbol node
               | Throw e => throw e
               | OutOfFuel => stuck
               end)).
  { intros owner. solve_steps. }
  assert (H7 : ∀ owner,
            steps (preservesInv sharedOf)
              (if isKind (kind ts node) ImportSpecifier
               then if typeHasSymbol ts node
                    then match default [] (typeDeclarations ts node) with
                         | [] => match descriptor ts fuel node with
                                 | Ok (Some desc) =>
                                     cached node (global owner desc)
                                 | Ok None => newLocalSymbol node
                                 | Throw e => throw e
                                 | OutOfFuel => stuck
                                 end
                         | declaration :: _ => recur declaration
                         end
                    else throw typeSymbolUndefined
               else match descriptor ts fuel node with
                    | Ok (Some desc) => cached node (global owner desc)
                    | Ok None => newLocalSymbol node
                    | Throw e => throw e
                    | OutOfFuel => stuck
                    end)).
  { intros owner. solve_steps. }
  assert (Hcontainer : ∀ owner v0 v1,
            recur (parent ts node) v0 = Ok (owner, v1) →
            isEmptyOrLocal owner = false →
            isAnonymousContainerOfSymbols ts node = true →
            ∀ s v', (let* s := recur (parent ts node) in cached node s) v1
                    = Ok (s, v') →
            preservesInv sharedOf v1 v').
  { intros owner v0 v1 Ho Hg Hc s v' H.
    rewrite bind_Ok in H. destruct H as (x & v2 & Hx & H).
    rewrite (Hstable _ _ _ Ho Hg (Hcont _ Hc)) in Hx. injection Hx as <- <-.
    eapply cached_shared; [|exact H]. destruct owner; discriminate. }
  unfold lsifSymbol_body.
  apply steps_bind; [auto with steps|apply steps_gets; auto with steps|].
  intros [x|]; [apply steps_ret; auto with steps|].
  assert (Hdefault : steps (preservesInv sharedOf)
    (let* owner := recur (parent ts node)
        in if isEmptyOrLocal owner
           then newLocalSymbol node
           else
            if isAnonymousContainerOfSymbols ts node
            then let* s := recur (parent ts node) in cached node s
            else
             if isKind (kind ts node) ImportSpecifier
             then
              if typeHasSymbol ts node
              then
               match default [] (typeDeclarations ts node) with
               | [] =>
                   match descriptor ts fuel node with
                   | Ok (Some desc) => cached node (global owner desc)
                   | Ok None => newLocalSymbol node
                   | Throw e => throw e
                   | OutOfFuel => stuck
                   end
               | declaration :: _ => recur declaration
               end
              else throw typeSymbolUndefined
             else
              match descriptor ts fuel node with
              | Ok (Some desc) => cached node (global owner desc)
              | Ok None => newLocalSymbol node
              | Throw e => throw e
              | OutOfFuel => stuck
              end)).
  { intros v s v' H. inv_bind H.
    pose proof (preservesInv_preorder sharedOf) as HP.
    transitivity s0; [eapply Hrec, H0|].
    destruct (isEmptyOrLocal a) eqn:Hg; [eapply H1, H|].
    destruct (isAnonymousContainerOfSymbols ts node) eqn:Hc.
    { eapply Hcontainer; eauto. }
    eapply H7, H. }
  destruct (kind ts node) eqn:K; try exact Hdefault.
  - destruct (packagesSymbol ts (fileName ts node)) as [pkg|] eqn:Ep;
      [|exact H5].
    apply cached_shared. intros i. eapply Hpkg, Ep.
  - solve_steps.
  - solve_steps.
  - apply steps_ret. auto with steps.
Qed.

Lemma lsifSymbol_shared fuel : ∀ node,
  steps (preservesInv sharedOf) (lsifSymbol ts fuel node).
Proof.
  induction fuel as [|fuel IH]; intros node; simpl;
    apply lsifSymbol_body_shared.
  - intros n. apply steps_stuck.
  - intros v0 owner v1 [=].
  - exact IH.
  - intros v0 owner v1 Ho Hg Hk.
    apply lsifSymbol_in_cache.
    eapply lsifSymbol_global_cached; eassumption.
Qed.

Lemma visit_shared fuel : ∀ node,
  steps (preservesInv sharedOf) (visit ts fuel node).
Proof.
  pose proof lsifSymbol_shared as Hl. pose proof pushOccurrence_shared as Hp.
  induction fuel as [|fuel IH]; intros node; simpl;
    unfold visitIdentifier; solve_steps.
Qed.

Lemma indexSourceFile_shared fuel sourceFile :
  steps (preservesInv (fun s => NoLocalShared (cache s)))
    (indexSourceFile ts fuel sourceFile).
Proof.
  intros s u s' H Hs. unfold indexSourceFile in H.
  case_bool_decide; [|injection H as _ <-; exact Hs].
  destruct (Visitor_index ts fuel sourceFile _) as [[[] v]| |] eqn:E;
    [|discriminate..].
  apply visit_shared in E. specialize (E Hs).
  case_bool_decide; injection H as _ <-; exact E.
Qed.
End Shared.

(** X2. Local symbols never reach the cache that is shared between the
    files: on syntax trees where no import specifier has an anonymous
    container as a child, and with packages whose symbols are not local, a
    traversal, the indexing of one file and the whole run each leave the
    shared cache without a local symbol when they found it so. *)
Theorem shared_cache_holds_no_local_symbol (ts : Host) (fuel : nat) :
  WellFormed ts →
  (∀ node v v', NoLocalShared (symbolsCache v) →
                visit ts fuel node v = Ok (tt, v') →
                NoLocalShared (symbolsCache v'))
  ∧ (∀ sourceFile s s', NoLocalShared (cache s) →
                        indexSourceFile ts fuel sourceFile s = Ok (tt, s') →
                        NoLocalShared (cache s'))
  ∧ (∀ s s', NoLocalShared (cache s) →
             index ts fuel s = Ok (tt, s') →
             NoLocalShared (cache s')).
Proof.
  intros Hwf. split; [|split].
  - intros node v v' Hv H. exact (visit_shared ts Hwf fuel node v tt v' H Hv).
  - intros sourceFile s s' Hs H.
    exact (indexSourceFile_shared ts Hwf fuel sourceFile s tt s' H Hs).
  - intros s s' Hs H. unfold index in H. inv_bind H.
    cbv [writeIndex modify] in H0. injection H0 as _ <-.
    pose proof (preservesInv_preorder (fun s => NoLocalShared (cache s))) as HP.
    eapply (steps_forM _ HP); [|exact H|exact Hs].
    intros sourceFile. apply indexSourceFile_shared, Hwf.
Qed.

Lemma shared_cache_holds_no_local_symbol_witness :
  WellFormed TypedSamples.sampleHost
  ∧ ∃ s', index TypedSamples.sampleHost 10 TypedSamples.start = Ok (tt, s')
          ∧ cache s' !! 5 = Some (global (package "pkg" "1.0") (DMethod "f" EmptyString))
          ∧ NoLocalShared (cache s').
Proof.
  assert (Hwf : WellFormed TypedSamples.sampleHost).
  { split.
    - intros f p i H. simpl in H. case_decide; [|discriminate].
      injection H as <-. discriminate.
    - intros n H. 
      unfold isAnonymousContainerOfSymbols in H. simpl in *.
      do 42 (destruct n as [|n]; [first [discriminate H | simpl; discriminate]|]).
      discriminate H. }
  split; [exact Hwf|].
  destruct (index TypedSamples.sampleHost 10 TypedSamples.start)
    as [[[] s']| |] eqn:E; [|vm_compute in E; discriminate..].
  exists s'. split; [reflexivity|]. split.
  - vm_compute in E. injection E as <-. vm_compute. reflexivity.
  - destruct (shared_cache_holds_no_local_symbol TypedSamples.sampleHost 10 Hwf)
      as (_ & _ & H). apply (H TypedSamples.start s'); [|exact E].
    intros n i. unfold TypedSamples.start. simpl. rewrite lookup_empty.
    discriminate.
Defined.

Section Scopes.
Variable ts : Host.

Lemma scoped_owner d node owner :
  scoped ts d node = true →
  scopedResult ts (parent ts node) owner →
  isEmptyOrLocal owner = true.
Proof.
  intros Hs [Hb Hl]. destruct d; simpl in Hs;
    apply andb_true_iff in Hs as [_ Hs]; apply orb_true_iff in Hs as [Hs|Hs];
    try discriminate.
  - unfold isKind in Hs. case_bool_decide; [|discriminate].
    rewrite Hb by assumption. reflexivity.
  - unfold isKind in Hs. case_bool_decide; [|discriminate].
    rewrite Hb by assumption. reflexivity.
  - destruct (Hl _ Hs) as [i ->]. reflexivity.
Qed.

Lemma scoped_plain d node : scoped ts d node = true → plain ts node = true.
Proof. destruct d; simpl; intros H; apply andb_true_iff in H as [H _]; exact H. Qed.

Lemma BlockScoped_same v v' :
  (∀ n, resolvedAs v' n = resolvedAs v n) → BlockScoped ts v → BlockScoped ts v'.
Proof.
  intros H [H1 H2]. split.
  - intros m K. rewrite H. auto.
  - intros d m x Hs. rewrite H. eauto.
Qed.

Lemma BlockScoped_enter v v' node s :
  (∀ n, resolvedAs v' n = if decide (node = n) then Some s else resolvedAs v n) →
  kind ts node ≠ Block →
  ((∃ d, scoped ts d node = true) → ∃ i, s = local i) →
  BlockScoped ts v → BlockScoped ts v'.
Proof.
  intros H K Hs [H1 H2]. split.
  - intros m Km. rewrite H. destruct (decide (node = m)) as [->|]; [contradiction|auto].
  - intros d m x Hm. rewrite H. destruct (decide (node = m)) as [->|]; [|eauto].
    intros [= <-]. eauto.
Qed.

Lemma lsifSymbol_body_scoped recur fuel node v s v' :
  (∀ m v0 x v1, BlockScoped ts v0 → recur m v0 = Ok (x, v1) →
                BlockScoped ts v1 ∧ scopedResult ts m x) →
  BlockScoped ts v →
  lsifSymbol_body ts recur fuel node v = Ok (s, v') →
  BlockScoped ts v' ∧ scopedResult ts node s.
Proof.
  intros Hrec Hv H.
  unfold lsifSymbol_body in H. inv_bind H. injection H0 as <- <-.
  fold (resolvedAs v node) in H.
  destruct (resolvedAs v node) as [x|] eqn:Hn.
  { injection H as <- <-. split; [exact Hv|]. destruct Hv as [H1 H2]. split.
    - intros K. rewrite (H1 _ K) in Hn. discriminate.
    - intros d Hd. eauto. }
  assert (Hcached : ∀ v0 sym,
            BlockScoped ts v0 →
            kind ts node ≠ Block →
            (∀ d, scoped ts d node = false) →
            cached node sym v0 = Ok (s, v') →
            BlockScoped ts v' ∧ scopedResult ts node s).
  { intros v0 sym Hv0 K Hns Hc. split.
    - eapply BlockScoped_enter; [|exact K| |exact Hv0].
      + intros n. eapply cached_resolvedAs in Hc as [_ Hc]. exact Hc.
      + intros [d Hd]. rewrite Hns in Hd. discriminate.
    - split; [intros C; contradiction|].
      intros d Hd. rewrite Hns in Hd. discriminate. }
  assert (Hlocal : ∀ v0,
            BlockScoped ts v0 →
            kind ts node ≠ Block →
            newLocalSymbol node v0 = Ok (s, v') →
            BlockScoped ts v' ∧ scopedResult ts node s).
  { intros v0 [A B] K Hc.
    unfold newLocalSymbol in Hc. cbv [Counter_next] in Hc.
    injection Hc as <- <-.
    split; [split|split; [intros C; contradiction|eauto]].
    - intros m Km. specialize (A m Km). unfold resolvedAs in *. simpl.
      destruct (symbolsCache v0 !! m); [discriminate|].
      rewrite lookup_insert_ne by (intros ->; contradiction). exact A.
    - intros d m x Hm. specialize (B d m). unfold resolvedAs in *. simpl.
      destruct (symbolsCache v0 !! m); [eauto|].
      destruct (decide (node = m)) as [->|Hne].
      + rewrite lookup_insert_eq. intros [= <-]. eauto.
      + rewrite lookup_insert_ne by exact Hne. eauto. }
  assert (Hdesc : ∀ v0 owner,
            BlockScoped ts v0 →
            kind ts node ≠ Block →
            (∀ d, scoped ts d node = false) →
            match descriptor ts fuel node with
            | Ok (Some desc) => cached node (global owner desc)
            | Ok None => newLocalSymbol node
            | Throw e => throw e
            | OutOfFuel => stuck
            end v0 = Ok (s, v') →
            BlockScoped ts v' ∧ scopedResult ts node s).
  { intros v0 owner Hv0 K Hns Hc.
    destruct (descriptor ts fuel node) as [[desc|]| |];
      [eapply Hcached; eassumption|eapply Hlocal; eassumption
      |discriminate..]. }
  assert (Hdefault :
    kind ts node ≠ Block → plain ts node = true →
    (let* owner := recur (parent ts node)
        in if isEmptyOrLocal owner
           then newLocalSymbol node
           else
            if isAnonymousContainerOfSymbols ts node
            then let* s := recur (parent ts node) in cached node s
            else
             if isKind (kind ts node) ImportSpecifier
             then
              if typeHasSymbol ts node
              then
               match default [] (typeDeclarations ts node) with
               | [] =>
                   match descriptor ts fuel node with
                   | Ok (Some desc) => cached node (global owner desc)
                   | Ok None => newLocalSymbol node
                   | Throw e => throw e
                   | OutOfFuel => stuck
                   end
               | declaration :: _ => recur declaration
               end
              else throw typeSymbolUndefined
             else
              match descriptor ts fuel node with
              | Ok (Some desc) => cached node (global owner desc)
              | Ok None => newLocalSymbol node
              | Throw e => throw e
              | OutOfFuel => stuck
              end) v = Ok (s, v') →
    BlockScoped ts v' ∧ scopedResult ts node s).
  { intros K Kp Hd. inv_bind Hd.
    destruct (Hrec _ _ _ _ Hv H0) as [Hv0 Howner].
    destruct (isEmptyOrLocal a) eqn:Hg; [eapply Hlocal; eassumption|].
    assert (Hns : ∀ d, scoped ts d node = false).
    { intros d. destruct (scoped ts d node) eqn:Hs; [|reflexivity].
      rewrite (scoped_owner d node a Hs Howner) in Hg. discriminate. }
    destruct (isAnonymousContainerOfSymbols ts node).
    { inv_bind Hd. destruct (Hrec _ _ _ _ Hv0 H1) as [Hv1 _].
      eapply Hcached; eassumption. }
    unfold isKind in Hd. case_bool_decide as K2.
    - destruct (typeHasSymbol ts node); [|discriminate].
      destruct (typeDeclarations ts node) as [[|d ds]|] eqn:Ed; simpl in Hd;
        try (eapply Hdesc; eassumption).
      destruct (Hrec _ _ _ _ Hv0 Hd) as [Hv1 _]. split; [exact Hv1|].
      split; [intros C; contradiction|].
      intros d' Hd'. rewrite Hns in Hd'. discriminate.
    - eapply Hdesc; eassumption. }
  assert (Hnot : ∀ d, plain ts node = false → scoped ts d node = false).
  { intros d Hp. destruct d; simpl; rewrite Hp; reflexivity. }
  destruct (kind ts node) eqn:K;
    try (apply Hdefault; [discriminate|unfold plain; rewrite K; reflexivity
                         |exact H]).
  - destruct (packagesSymbol ts (fileName ts node));
      (eapply Hcached; [exact Hv|discriminate| |exact H]);
      intros d; apply Hnot; unfold plain; rewrite K; reflexivity.
  - inv_bind H. pose proof (propertyCounter_same _ _ _ _ H0) as Hc0.
    inv_bind H. inv_bind H. pose proof (propertyCounterNext_same _ _ _ _ H2) as Hc2.
    eapply Hcached; [| | |exact H].
    + eapply BlockScoped_same; [exact Hc2|].
      eapply Hrec; [|exact H1]. eapply BlockScoped_same; [exact Hc0|exact Hv].
    + discriminate.
    + intros d; apply Hnot; unfold plain; rewrite K; reflexivity.
  - inv_bind H. pose proof (propertyCounter_same _ _ _ _ H0) as Hc0.
    inv_bind H. inv_bind H. pose proof (propertyCounterNext_same _ _ _ _ H2) as Hc2.
    eapply Hcached; [| | |exact H].
    + eapply BlockScoped_same; [exact Hc2|].
      eapply Hrec; [|exact H1]. eapply BlockScoped_same; [exact Hc0|exact Hv].
    + discriminate.
    + intros d; apply Hnot; unfold plain; rewrite K; reflexivity.
  - injection H as <- <-. split; [exact Hv|]. split; [reflexivity|].
    intros d Hd. rewrite Hnot in Hd; [discriminate|].
    unfold plain. rewrite K. reflexivity.
Qed.

Lemma lsifSymbol_scoped fuel : ∀ node v s v',
  BlockScoped ts v →
  lsifSymbol ts fuel node v = Ok (s, v') →
  BlockScoped ts v' ∧ scopedResult ts node s.
Proof.
  induction fuel as [|fuel IH]; intros node v s v' Hv H; simpl in H;
    eapply lsifSymbol_body_scoped; try eassumption.
  intros m v0 x v1 _ [=].
Qed.

Lemma lsifSymbol_keeps_scopes fuel node :
  steps (preservesInv (BlockScoped ts)) (lsifSymbol ts fuel node).
Proof. intros v s v' H Hv. eapply lsifSymbol_scoped; eassumption. Qed.

Lemma pushOccurrence_keeps_scopes o :
  steps (preservesInv (BlockScoped ts)) (pushOccurrence o).
Proof.
  apply steps_modify. intros v Hv. eapply BlockScoped_same; [|exact Hv].
  intros n. reflexivity.
Qed.

Lemma visit_keeps_scopes fuel : ∀ node,
  steps (preservesInv (BlockScoped ts)) (visit ts fuel node).
Proof.
  pose proof lsifSymbol_keeps_scopes as Hl.
  pose proof pushOccurrence_keeps_scopes as Hp.
  induction fuel as [|fuel IH]; intros node; simpl;
    unfold visitIdentifier; solve_steps.
Qed.
End Scopes.

Lemma BlockScoped_new ts doc c :
  (∀ n x, c !! n = Some x → kind ts n ≠ Block ∧ ∀ d, scoped ts d n = false) →
  BlockScoped ts (newVisitor doc c).
Proof.
  intros Hc. split.
  - intros m Hm. unfold resolvedAs. simpl. rewrite lookup_empty.
    destruct (c !! m) as [x|] eqn:E; [|reflexivity].
    destruct (Hc _ _ E) as [Hk _]. contradiction.
  - intros d m x Hs. unfold resolvedAs. simpl. rewrite lookup_empty.
    destruct (c !! m) as [y|] eqn:E; [|discriminate].
    destruct (Hc _ _ E) as [_ Hd]. rewrite Hd in Hs. discriminate.
Qed.

(** X3. What is declared inside a block is local: a node that reaches a
    block through parents that are neither source files nor property
    assignments gets a local symbol, and a block itself gets the empty
    symbol and is never cached. A visitor that starts on an empty shared
    cache is in this state, and every resolution and traversal keeps it. *)
Theorem symbols_below_a_block_are_local (ts : Host) :
  (∀ doc, BlockScoped ts (newVisitor doc ∅))
  ∧ (∀ fuel node v v', BlockScoped ts v →
                       visit ts fuel node v = Ok (tt, v') →
                       BlockScoped ts v')
  ∧ (∀ fuel node v s v',
       BlockScoped ts v →
       lsifSymbol ts fuel node v = Ok (s, v') →
       BlockScoped ts v'
       ∧ (kind ts node = Block → s = empty ∧ resolvedAs v' node = None)
       ∧ (∀ depth, scoped ts depth node = true → ∃ i, s = local i)).
Proof.
  split; [|split].
  - intros doc. apply BlockScoped_new. intros n x H.
    rewrite lookup_empty in H. discriminate.
  - intros fuel node v v' Hv H.
    exact (visit_keeps_scopes ts fuel node v tt v' H Hv).
  - intros fuel node v s v' Hv H.
    destruct (lsifSymbol_scoped ts fuel node v s v' Hv H) as (Hv' & Hb & Hl).
    split; [exact Hv'|]. split; [|exact Hl].
    intros K. split; [apply Hb, K|]. destruct Hv' as [Hv' _]. apply Hv', K.
Qed.

Lemma symbols_below_a_block_are_local_witness :
  scoped TypedSamples.sampleHost 2 10 = true
  ∧ ∃ s v', lsifSymbol TypedSamples.sampleHost 10 10
              (newVisitor TypedSamples.docA ∅) = Ok (s, v')
            ∧ ∃ i, s = local i.
Proof.
  split; [reflexivity|].
  destruct (lsifSymbol TypedSamples.sampleHost 10 10
              (newVisitor TypedSamples.docA ∅)) as [[s v']| |] eqn:E;
    [|vm_compute in E; discriminate..].
  exists s, v'. split; [reflexivity|].
  destruct (symbols_below_a_block_are_local TypedSamples.sampleHost)
    as (Hnew & _ & H).
  destruct (H 10 10 _ s v' (Hnew TypedSamples.docA) E) as (_ & _ & Hl).
  apply (Hl 2). reflexivity.
Defined.

Section Order.
Variable ts : Host.

Lemma pushes_nil v : pushes [] v v.
Proof. split; [rewrite app_nil_r|]; reflexivity. Qed.

Lemma pushes_app os1 os2 v1 v2 v3 :
  pushes os1 v1 v2 → pushes os2 v2 v3 → pushes (os1 ++ os2) v1 v3.
Proof.
  intros [A1 B1] [A2 B2]. split; [|congruence].
  rewrite A2, A1, app_assoc. reflexivity.
Qed.

Lemma declarations_pushed fuel range0 role decls : ∀ v v',
  forM (fun declaration =>
          let* lsifSymbol := lsifSymbol ts fuel declaration in
          pushOccurrence {| range := range0; symbol := lsifSymbol;
                            symbol_roles := role |}) decls v = Ok (tt, v') →
  ∃ os, pushes os v v'
        ∧ shape <$> os = replicate (length decls) (range0, role).
Proof.
  induction decls as [|d decls IH]; intros v v' H; simpl in H.
  - injection H as <-. exists []. split; [apply pushes_nil|reflexivity].
  - inv_bind H. inv_bind H0.
    pose proof (lsifSymbol_sameDoc ts fuel d _ _ _ H1) as Hdoc.
    injection H0 as _ <-.
    destruct (IH _ _ H) as (os & Hos & Hshape).
    exists ({| range := range0; symbol := a0; symbol_roles := role |} :: os).
    split; [|rewrite fmap_cons, Hshape; reflexivity].
    eapply (pushes_app [_] os); [|exact Hos].
    split; simpl; rewrite Hdoc; reflexivity.
Qed.

Lemma children_pushed (f : Node → V unit) (g : Node → list (list nat * Z)) cs :
  (∀ c v v', f c v = Ok (tt, v') →
             ∃ os, pushes os v v' ∧ shape <$> os = g c) →
  ∀ v v', forM f cs v = Ok (tt, v') →
          ∃ os, pushes os v v' ∧ shape <$> os = flat_map g cs.
Proof.
  intros Hf. induction cs as [|c cs IH]; intros v v' H; simpl in H.
  - injection H as <-. exists []. split; [apply pushes_nil|reflexivity].
  - inv_bind H. destruct a. destruct (Hf _ _ _ H0) as (os1 & H1 & S1).
    destruct (IH _ _ H) as (os2 & H2 & S2).
    exists (os1 ++ os2). split; [eapply pushes_app; eassumption|].
    rewrite fmap_app, S1, S2. reflexivity.
Qed.

Lemma visit_pushed fuel : ∀ node v v',
  visit ts fuel node v = Ok (tt, v') →
  ∃ os, pushes os v v'
        ∧ shape <$> os = flat_map (occurrencesDue ts) (visited ts fuel node).
Proof.
  induction fuel as [|fuel IH]; intros node v v' H.
  - simpl in H. inv_bind H.
    assert (∃ os, pushes os v s ∧ shape <$> os = occurrencesDue ts node)
      as (os1 & H1 & S1).
    { unfold occurrencesDue. destruct (isKind (kind ts node) Identifier).
      - destruct a. apply declarations_pushed in H0. exact H0.
      - injection H0 as _ <-. exists []. split; [apply pushes_nil|reflexivity]. }
    destruct (children ts node) as [|c cs]; [|discriminate].
    injection H as <-. exists os1. split; [exact H1|].
    simpl. rewrite app_nil_r. exact S1.
  - simpl in H. inv_bind H.
    assert (∃ os, pushes os v s ∧ shape <$> os = occurrencesDue ts node)
      as (os1 & H1 & S1).
    { unfold occurrencesDue. destruct (isKind (kind ts node) Identifier).
      - destruct a. apply declarations_pushed in H0. exact H0.
      - injection H0 as _ <-. exists []. split; [apply pushes_nil|reflexivity]. }
    destruct (children_pushed (visit ts fuel)
                (fun c => flat_map (occurrencesDue ts) (visited ts fuel c))
                (children ts node) IH _ _ H) as (os2 & H2 & S2).
    exists (os1 ++ os2). split; [eapply pushes_app; eassumption|].
    rewrite fmap_app, S1, S2. simpl.
    f_equal. clear. induction (children ts node) as [|c cs IHc]; simpl;
      [reflexivity|]. rewrite flat_map_app, IHc. reflexivity.
Qed.
End Order.

(** X4. A traversal pushes the occurrences in the order of the syntax tree:
    node before children, children from first to last; an identifier gives
    one occurrence per declaration of its symbol, each with the range of
    the identifier and its role, every other node none. Nothing else is
    done to the document. *)
Theorem occurrences_follow_the_syntax_tree (ts : Host) (fuel : nat)
    (node : Node) (v v' : Visitor) :
  visit ts fuel node v = Ok (tt, v') →
  ∃ os,
    occurrences (doc v') = occurrences (doc v) ++ os
    ∧ relative_path (doc v') = relative_path (doc v)
    ∧ (fun o => (range o, symbol_roles o)) <$> os
      = flat_map (occurrencesDue ts) (visited ts fuel node).
Proof.
  intros H. destruct (visit_pushed ts fuel node v v' H) as (os & [A B] & C).
  exists os. auto.
Qed.

Lemma occurrences_follow_the_syntax_tree_witness :
  ∃ v' os,
    visit TypedSamples.sampleHost 10 0 (newVisitor TypedSamples.docA ∅)
    = Ok (tt, v')
    ∧ occurrences (doc v') = os
    ∧ (fun o => (range o, symbol_roles o)) <$> os
      = [([4; 0; 1], 1%Z); ([6; 0; 1], 1%Z); ([11; 0; 1], 1%Z)].
Proof.
  destruct (visit TypedSamples.sampleHost 10 0 (newVisitor TypedSamples.docA ∅))
    as [[[] v']| |] eqn:E; [|vm_compute in E; discriminate..].
  destruct (occurrences_follow_the_syntax_tree TypedSamples.sampleHost 10 0
              _ v' E) as (os & A & _ & C).
  exists v', os. split; [reflexivity|]. split; [exact A|].
  rewrite C. vm_compute. reflexivity.
Defined.

Section Counters.
Variable ts : Host.

Lemma sourceFile_resolution fuel file v :
  kind ts file = SourceFile →
  ∃ v1, lsifSymbol ts fuel file v
        = Ok (match resolvedAs v file with
              | Some x => x
              | None => default empty (packagesSymbol ts (fileName ts file))
              end, v1)
        ∧ propertyCounters v1 = propertyCounters v
        ∧ localCounter v1 = localCounter v
        ∧ localSymbolCache v1 = localSymbolCache v
        ∧ (∀ n, n ≠ file → symbolsCache v1 !! n = symbolsCache v !! n).
Proof.
  intros K. destruct (resolvedAs v file) as [x|] eqn:E.
  - exists v. split; [apply (resolvedAs_hit ts), E|]. repeat split.
  - assert (Hb : ∀ recur, lsifSymbol_body ts recur fuel file v
                 = cached file (default empty
                                  (packagesSymbol ts (fileName ts file))) v).
    { intros recur. unfold lsifSymbol_body, bind, gets.
      fold (resolvedAs v file). rewrite E, K.
      destruct (packagesSymbol ts (fileName ts file)); reflexivity. }
    eexists. split; [destruct fuel; simpl; rewrite Hb; reflexivity|].
    simpl. repeat split. intros n Hn. rewrite lookup_insert_ne by auto.
    reflexivity.
Qed.
End Counters.

(** X5. Property assignments are numbered per name. A property assignment
    (or shorthand) that the caches do not know gets a global symbol owned
    by the symbol of its source file, whatever its parent is, with the
    meta descriptor made of its name and of the number of property
    assignments of that name resolved before by this visitor. The counter
    of the name moves by one, the symbol is entered in the shared cache,
    and the local counter and the local cache are left alone. *)
Theorem property_assignments_are_numbered (ts : Host) (fuel : nat)
    (node : Node) (v : Visitor) :
  kind ts node = PropertyAssignment
  ∨ kind ts node = ShorthandPropertyAssignment →
  resolvedAs v node = None →
  kind ts (getSourceFile ts node) = SourceFile →
  let name := nameText ts node in
  let k := default 0 (propertyCounters v !! name) in
  let file := getSourceFile ts node in
  let owner := match resolvedAs v file with
               | Some x => x
               | None => default empty (packagesSymbol ts (fileName ts file))
               end in
  let sym := global owner (DMeta (name +:+ pretty k)) in
  ∃ v', lsifSymbol ts (S fuel) node v = Ok (sym, v')
        ∧ propertyCounters v' = <[name := S k]> (propertyCounters v)
        ∧ symbolsCache v' !! node = Some sym
        ∧ localCounter v' = localCounter v
        ∧ localSymbolCache v' = localSymbolCache v.
Proof.
  intros K Hn Kf name k file owner sym.
  assert (Hne : node ≠ file).
  { intros E. unfold file in E. rewrite <- E in Kf.
    destruct K as [K|K]; rewrite K in Kf; discriminate. }
  set (v0 := match propertyCounters v !! name with
             | Some _ => v
             | None =>
                 {| localCounter := localCounter v;
                    propertyCounters := <[name := Counter_new]> (propertyCounters v);
                    localSymbolCache := localSymbolCache v;
                    symbolsCache := symbolsCache v; doc := doc v |}
             end).
  assert (Hv0 : resolvedAs v0 file = resolvedAs v file
                ∧ localCounter v0 = localCounter v
                ∧ localSymbolCache v0 = localSymbolCache v
                ∧ symbolsCache v0 = symbolsCache v
                ∧ default Counter_new (propertyCounters v0 !! name) = k
                ∧ <[name := S k]> (propertyCounters v0)
                  = <[name := S k]> (propertyCounters v)).
  { unfold v0, k. destruct (propertyCounters v !! name) eqn:E; simpl.
    - rewrite E. repeat split.
    - rewrite lookup_insert_eq. repeat split. apply insert_insert_eq. }
  destruct Hv0 as (R0 & L0 & C0 & S0 & K0 & P0).
  destruct (sourceFile_resolution ts fuel file v0 Kf)
    as (v1 & H1 & P1 & L1 & C1 & S1).
  rewrite R0 in H1. fold owner in H1.
  assert (Hrun : lsifSymbol ts (S fuel) node v
            = (let* n := propertyCounterNext name in
               cached node (global owner (DMeta (name +:+ pretty n)))) v1).
  { simpl. unfold lsifSymbol_body. unfold bind at 1. unfold gets.
    fold (resolvedAs v node). rewrite Hn.
    destruct K as [K|K]; rewrite K; fold name; fold file;
      unfold bind at 1; unfold propertyCounter, modify; fold v0;
      unfold bind at 1; rewrite H1; reflexivity. }
  rewrite Hrun. unfold bind, propertyCounterNext. cbv [Counter_next].
  rewrite P1, K0. eexists. split; [reflexivity|]. simpl.
  rewrite lookup_insert_eq, L1, C1, L0, C0, P0. repeat split.
Qed.

Lemma property_assignments_are_numbered_witness :
  ∃ v', lsifSymbol TypedExtraSamples.literalHost 1 3
          TypedExtraSamples.firstResolved
        = Ok (global (package "pkg" "1.0") (DMeta "a1"), v')
        ∧ propertyCounters v' !! "a" = Some 2.
Proof.
  destruct (property_assignments_are_numbered TypedExtraSamples.literalHost 0 3
              TypedExtraSamples.firstResolved)
    as (v' & H & Hc & _); [left; reflexivity|reflexivity|reflexivity|].
  exists v'. split; [exact H|]. rewrite Hc. apply lookup_insert_eq.
Defined.

Section Returns.
Variable ts : Host.
Variable rank : Node → nat.
Hypothesis Hrank : Ranked ts rank.
Hypothesis Htypes : TypeSymbols ts.
Variable bound : nat.
Hypothesis Hbound : ∀ n, (rank n ≤ bound)%nat.

Lemma forM_returns {A} (f : A → V unit) l :
  (∀ a v, a ∈ l → returns (f a) v) → ∀ v, returns (forM f l) v.
Proof.
  induction l as [|a l IH]; intros Hf v; simpl.
  - eexists _, _. reflexivity.
  - apply returns_bind; [apply Hf; left|].
    intros _u v' _. apply IH. intros b v0 Hb. apply Hf. right. exact Hb.
Qed.

Lemma visitIdentifier_returns fuel node v :
  (bound ≤ fuel)%nat → returns (visitIdentifier ts fuel node) v.
Proof.
  intros Hle. unfold visitIdentifier. apply forM_returns.
  intros d v0 _. apply returns_bind.
  - apply (lsifSymbol_returns ts rank Hrank Htypes). specialize (Hbound d). lia.
  - intros s v1 _. eexists _, _. reflexivity.
Qed.

Variable height : Node → nat.
Hypothesis Hheight : TypedShallow ts height.

Lemma visit_returns fuel : ∀ node v,
  (height node + bound ≤ fuel)%nat → returns (visit ts fuel node) v.
Proof.
  induction fuel as [|fuel IH]; intros node v Hle; simpl.
  - apply returns_bind.
    + destruct (isKind _ _); [apply visitIdentifier_returns; lia|].
      eexists _, _. reflexivity.
    + intros _u v' _. apply forM_returns. intros c v0 Hc.
      apply Hheight in Hc. lia.
  - apply returns_bind.
    + destruct (isKind _ _); [apply visitIdentifier_returns; lia|].
      eexists _, _. reflexivity.
    + intros _u v' _. apply forM_returns. intros c v0 Hc.
      apply IH. apply Hheight in Hc. lia.
Qed.

Lemma indexSourceFile_returns fuel sourceFile s :
  (height sourceFile + bound ≤ fuel)%nat →
  ∃ s', indexSourceFile ts fuel sourceFile s = Ok (tt, s').
Proof.
  intros Hle. unfold indexSourceFile.
  case_bool_decide; [|eexists; reflexivity].
  destruct (visit_returns fuel sourceFile
              (newVisitor {| relative_path :=
                               pathRelative ts (project ts)
                                 (fileName ts sourceFile);
                             occurrences := [] |} (cache s)) Hle)
    as ([] & v & Hv).
  unfold Visitor_index. rewrite Hv.
  case_bool_decide; eexists; reflexivity.
Qed.

Lemma index_loop_returns fuel files : ∀ s,
  (∀ f, f ∈ files → (height f + bound ≤ fuel)%nat) →
  ∃ s', forM (indexSourceFile ts fuel) files s = Ok (tt, s').
Proof.
  induction files as [|f files IH]; intros s Hle; simpl.
  - eexists. reflexivity.
  - destruct (indexSourceFile_returns fuel f s) as (s1 & H1); [apply Hle; left|].
    destruct (IH s1) as (s2 & H2); [intros g Hg; apply Hle; right; exact Hg|].
    exists s2. unfold bind. rewrite H1. exact H2.
Qed.
End Returns.

(** X14. The typed indexer comes back on a finite program whose import
    specifiers all have a type with a symbol: with parent and declaration
    links that are well founded, a bound on their measure, finite syntax
    trees and fuel for the height of the trees on top of that bound,
    [Indexer.index] comes back with a value, and so does every traversal
    of a tree. The one error the visitor can throw, the [TypeError] of
    [tpe.symbol.declarations] at an import specifier whose type has no
    symbol, is what the condition on the import specifiers excludes. *)
Theorem typed_indexing_succeeds (ts : Host) (rank : Node → nat) (bound : nat)
    (height : Node → nat) (fuel : nat) :
  Ranked ts rank →
  TypeSymbols ts →
  (∀ n, (rank n ≤ bound)%nat) →
  TypedShallow ts height →
  (∀ node v, (height node + bound ≤ fuel)%nat →
             ∃ v', visit ts fuel node v = Ok (tt, v'))
  ∧ ((∀ f, f ∈ getSourceFiles ts → (height f + bound ≤ fuel)%nat) →
     ∀ s, ∃ s', index ts fuel s = Ok (tt, s')).
Proof.
  intros Hr Ht Hb Hh. split.
  - intros node v Hle.
    destruct (visit_returns ts rank Hr Ht bound Hb height Hh fuel node v Hle)
      as ([] & v' & H). eauto.
  - intros Hle s. unfold index, bind, writeIndex, modify.
    apply (index_loop_returns ts rank Hr Ht bound Hb height Hh). exact Hle.
Qed.

Lemma typed_indexing_succeeds_witness :
  ∃ s', index TypedSamples.sampleHost 14 TypedSamples.start = Ok (tt, s').
Proof.
  destruct (typed_indexing_succeeds TypedSamples.sampleHost
              TypedSamples.sampleRank 7
              (fun n => 7 - TypedSamples.sampleRank n) 14) as [_ H].
  - apply sample_program_ranked.
  - intros n _. reflexivity.
  - intros n. unfold TypedSamples.sampleRank.
    do 42 (destruct n as [|n]; [lia|]). lia.
  - intros n c Hc. simpl in Hc. unfold TypedSamples.sampleChildren in Hc.
    do 41 (destruct n as [|n];
           [repeat (apply elem_of_cons in Hc as [->|Hc]; [simpl; lia|]);
            apply elem_of_nil in Hc; contradiction|]).
    apply elem_of_nil in Hc. contradiction.
  - apply H. intros f Hf. simpl in Hf.
    repeat (apply elem_of_cons in Hf as [->|Hf]; [simpl; lia|]).
    apply elem_of_nil in Hf. contradiction.
Defined.

End TypedRuns.
